(** * Ginkgo kernels: sample-select, warp-level block inversion, adaptive
    block-Jacobi generation, Cholesky symbolic factorisation and the
    synchronisation-free scheduler.

    Each module embeds one source file of the repository as Rocq functions
    (kernels become functions over lists that play the role of device arrays,
    a cooperative group becomes the list of its lanes) and proves the
    properties stated about it. *)

From Stdlib Require Import ZArith List Lia Permutation QArith Qcanon Qcabs.
From Stdlib Require Floats.
From stdpp Require Import base list numbers sorting.

Local Open Scope nat_scope.

(** Device arrays are lists; [a !!! i] reads [a[i]], with the default of
    the element type outside the array (the source has undefined behaviour
    there; the theorems state the bounds they need). *)

(** * Bit intrinsics and group votes
    (common/cuda_hip/components/intrinsics.hpp.inc) *)

Module Intrinsics.

(** [popcnt]: the number of set bits of a mask ([__popc], [__popcll]). *)
Fixpoint popcnt_pos (p : positive) : nat :=
  match p with
  | xH => 1
  | xO p' => popcnt_pos p'
  | xI p' => S (popcnt_pos p')
  end.

Definition popcnt (mask : Z) : nat :=
  match mask with
  | Zpos p => popcnt_pos p
  | _ => 0
  end.

(** [ffs]: the 1-based index of the lowest set bit, 0 for an empty mask
    ([__ffs], [__ffsll]). *)
Fixpoint ffs_pos (p : positive) : nat :=
  match p with
  | xO p' => S (ffs_pos p')
  | _ => 1
  end.

Definition ffs (mask : Z) : nat :=
  match mask with
  | Zpos p => ffs_pos p
  | _ => 0
  end.

(** [group.ballot(pred)]: bit [l] of the result is the predicate of lane
    [l]; the list holds the predicates of lanes 0, 1, ... *)
Fixpoint ballot (preds : list bool) : Z :=
  match preds with
  | [] => 0
  | b :: rest => Z.lor (Z.b2z b) (Z.shiftl (ballot rest) 1)
  end.

(** [(lane_mask_type(1) << lane) - 1]: the lanes below [lane]. *)
Definition prefix_mask (lane : nat) : Z := Z.shiftl 1 (Z.of_nat lane) - 1.

(** The number of lanes whose predicate holds. *)
Definition count_true (preds : list bool) : nat :=
  length (filter (fun b => b = true) preds).

Lemma ballot_cons b rest :
  ballot (b :: rest) = (Z.b2z b + 2 * ballot rest)%Z.
Proof.
  simpl.
  assert (Hdisj : Z.land (Z.b2z b) (Z.shiftl (ballot rest) 1) = 0%Z).
  { apply Z.bits_inj'. intros n Hn. rewrite Z.land_spec, Z.bits_0.
    destruct (Z.eq_dec n 0%Z) as [-> | Hne].
    - rewrite Z.shiftl_spec_low by lia. apply andb_false_r.
    - destruct b; simpl Z.b2z.
      + rewrite (Z.bits_above_log2 1 n) by (simpl; lia). reflexivity.
      + rewrite Z.bits_0. reflexivity. }
  rewrite <- Z.lxor_lor, <- Z.add_nocarry_lxor by exact Hdisj.
  rewrite Z.shiftl_mul_pow2 by lia. change (2 ^ 1)%Z with 2%Z. lia.
Qed.

Lemma ballot_nonneg preds : (0 <= ballot preds)%Z.
Proof.
  induction preds as [|b rest IH]; [simpl; lia |].
  rewrite ballot_cons. destruct b; simpl Z.b2z; lia.
Qed.

Lemma popcnt_double_add b (m : Z) :
  (0 <= m)%Z -> popcnt (Z.b2z b + 2 * m) = (if b then 1 else 0) + popcnt m.
Proof.
  intros Hm. destruct m as [|p|p]; [destruct b; reflexivity | | lia].
  destruct b; reflexivity.
Qed.

Lemma popcnt_ballot preds : popcnt (ballot preds) = count_true preds.
Proof.
  induction preds as [|b rest IH]; [reflexivity |].
  rewrite ballot_cons, popcnt_double_add by apply ballot_nonneg.
  rewrite IH. unfold count_true. simpl.
  destruct b; simpl; [| reflexivity].
  destruct (decide (true = true)); [reflexivity | congruence].
Qed.

Lemma land_double b c (m k : Z) :
  Z.land (Z.b2z b + 2 * m) (Z.b2z c + 2 * k) =
  (Z.b2z (b && c) + 2 * Z.land m k)%Z.
Proof.
  apply Z.bits_inj'. intros n Hn.
  rewrite Z.land_spec, !(Z.add_comm (Z.b2z _)).
  destruct (Z.eq_dec n 0%Z) as [-> | Hne].
  - rewrite !Z.testbit_0_r. reflexivity.
  - replace n with (Z.succ (n - 1)) by lia.
    rewrite !Z.testbit_succ_r by lia. symmetry. apply Z.land_spec.
Qed.

Lemma prefix_mask_succ lane :
  prefix_mask (S lane) = (Z.b2z true + 2 * prefix_mask lane)%Z.
Proof.
  unfold prefix_mask. rewrite Nat2Z.inj_succ, !Z.shiftl_1_l, Z.pow_succ_r by lia.
  simpl Z.b2z. lia.
Qed.

Lemma prefix_mask_nonneg lane : (0 <= prefix_mask lane)%Z.
Proof.
  unfold prefix_mask. rewrite Z.shiftl_1_l.
  pose proof (Z.pow_pos_nonneg 2 (Z.of_nat lane)). lia.
Qed.

(** [popcnt(mask & prefix_mask)] counts the voting lanes below [lane]. *)
Lemma popcnt_ballot_prefix preds : forall lane,
  popcnt (Z.land (ballot preds) (prefix_mask lane)) =
  count_true (take lane preds).
Proof.
  induction preds as [|b rest IH]; intros lane.
  - simpl ballot. rewrite Z.land_0_l, take_nil. reflexivity.
  - destruct lane as [|lane].
    + unfold prefix_mask. simpl. rewrite Z.land_0_r. reflexivity.
    + rewrite ballot_cons, prefix_mask_succ, land_double, andb_true_r.
      rewrite popcnt_double_add.
      * rewrite IH. unfold count_true. simpl.
        destruct b; simpl; [| reflexivity].
        destruct (decide (true = true)); [reflexivity | congruence].
      * apply Z.land_nonneg. left. apply ballot_nonneg.
Qed.

Lemma ballot_zero preds : ballot preds = 0%Z <-> count_true preds = 0.
Proof.
  rewrite <- popcnt_ballot. pose proof (ballot_nonneg preds) as Hnn.
  destruct (ballot preds) as [|p|p]; simpl; [tauto | | lia].
  split; [discriminate |]. intros H. exfalso.
  induction p; simpl in H; try lia; auto.
Qed.

Lemma ffs_double (z : Z) : (0 < z)%Z -> ffs (2 * z) = S (ffs z).
Proof. destruct z; try lia. reflexivity. Qed.

Lemma ffs_odd (z : Z) : (0 <= z)%Z -> ffs (2 * z + 1) = 1.
Proof. destruct z; try lia; reflexivity. Qed.

(** The thread indices [(2j+1) * 2^e]: [ffs] is [e + 1] and the shift by it
    leaves [j]. *)
Lemma ffs_odd_multiple j e : ffs (Z.of_nat ((2 * j + 1) * 2 ^ e)) = S e.
Proof.
  induction e as [|e IH].
  - rewrite Nat.pow_0_r, Nat.mul_1_r.
    replace (Z.of_nat (2 * j + 1)) with (2 * Z.of_nat j + 1)%Z by lia.
    apply ffs_odd. lia.
  - rewrite Nat.pow_succ_r'.
    replace (Z.of_nat ((2 * j + 1) * (2 * 2 ^ e)))
      with (2 * Z.of_nat ((2 * j + 1) * 2 ^ e))%Z by lia.
    rewrite ffs_double, IH; [reflexivity |].
    pose proof (Nat.pow_nonzero 2 e). nia.
Qed.

Lemma shiftr_odd_multiple j e : Nat.shiftr ((2 * j + 1) * 2 ^ e) (S e) = j.
Proof.
  rewrite Nat.shiftr_div_pow2, Nat.pow_succ_r'.
  rewrite (Nat.mul_comm 2 (2 ^ e)), <- Nat.Div0.div_div.
  rewrite Nat.div_mul by (apply Nat.pow_nonzero; lia).
  replace (2 * j + 1) with (1 + j * 2) by lia.
  rewrite Nat.div_add by lia. reflexivity.
Qed.

Lemma odd_multiple_decompose idx :
  0 < idx -> exists j e, idx = (2 * j + 1) * 2 ^ e.
Proof.
  induction idx as [idx IH] using lt_wf_ind. intros Hpos.
  destruct (Nat.Even_or_Odd idx) as [[m ->] | [m ->]].
  - destruct (IH m ltac:(lia) ltac:(lia)) as (j & e & ->).
    exists j, (S e). rewrite Nat.pow_succ_r'. lia.
  - exists m, 0. rewrite Nat.pow_0_r. lia.
Qed.

End Intrinsics.

(** * Elimination forest and symbolic Cholesky factorisation
    (common/cuda_hip/factorization/cholesky_kernels.hpp.inc) *)

Module Cholesky.

(** The sparsity pattern of a [matrix::Csr], by its accessors: [get_size]
    is the number of rows, [get_const_row_ptrs] has one entry more, and the
    column indices of row [i] are
    [get_const_col_idxs[row_ptrs[i] .. row_ptrs[i+1])]. *)
Record csr := Csr {
  get_size : nat;
  get_const_row_ptrs : list nat;
  get_const_col_idxs : list nat
}.

(** ** The symbolic kernels ([namespace kernel]) *)

Module kernel.
Import Intrinsics.

Section Symbolic.

Variable subwarp_size : nat.
Variable num_rows : nat.
Variables row_ptrs lower_ends inv_postorder postorder_cols : list nat.
Variables postorder postorder_parent out_row_ptrs : list nat.

(** A kernel's effect on its output array is the list of its writes
    [(index, value)], in program order; a result [None] says that a loop
    did not finish within [fuel] iterations. *)
Definition writes := list (nat * nat).

(** [next_node] of both kernels:
    [nz < lower_end - 1 ? postorder_cols[nz + 1] : diag_postorder]. *)
Definition next_node_of (lower_end diag_postorder nz : nat) : nat :=
  if nz <? lower_end - 1 then postorder_cols !!! (nz + 1) else diag_postorder.

(** [symbolic_count]: [while (node < next_node) { count++; node =
    postorder_parent[node]; }], the number of iterations. *)
Fixpoint count_chain (fuel node next_node : nat) : option nat :=
  if node <? next_node then
    match fuel with
    | O => None
    | S fuel' => S <$> count_chain fuel' (postorder_parent !!! node) next_node
    end
  else Some 0.

(** [symbolic_count]: the loop of one lane,
    [for (nz = row_begin + lane; nz < lower_end; nz += subwarp_size)].
    [steps] bounds the iterations of the [for] loop. *)
Fixpoint count_lane (steps fuel lower_end diag_postorder nz : nat) : option nat :=
  if nz <? lower_end then
    match steps with
    | O => None
    | S steps' =>
        let node := postorder_cols !!! nz in
        let next_node := next_node_of lower_end diag_postorder nz in
        c ← count_chain fuel node next_node;
        rest ← count_lane steps' fuel lower_end diag_postorder (nz + subwarp_size);
        Some (c + rest)
    end
  else Some 0.

(** [reduce(subwarp, count, thrust::plus)]: the sum over the lanes. *)
Fixpoint reduce_plus (counts : list (option nat)) : option nat :=
  match counts with
  | [] => Some 0
  | c :: rest => x ← c; y ← reduce_plus rest; Some (x + y)
  end.

(** [symbolic_count] for the subwarp of [row]: its write to [row_nnz]. *)
Definition symbolic_count (fuel row : nat) : option writes :=
  if num_rows <=? row then Some []
  else
    let row_begin := row_ptrs !!! row in
    let diag_postorder := inv_postorder !!! row in
    let lower_end := lower_ends !!! row in
    count ← reduce_plus
      (map (fun lane =>
              count_lane (lower_end - (row_begin + lane)) fuel lower_end
                         diag_postorder (row_begin + lane))
           (seq 0 subwarp_size));
    Some [(row, count + 1)].

(** [symbolic_factorize]: a lane between two ballots holds [node] and
    [next_node]; [pred] is [node < next_node]. *)
Definition lane_state := (nat * nat)%type.

Definition pred (s : lane_state) : bool := s.1 <? s.2.

(** The body of [while (mask)] for the lanes from [lane] on:
    [if (pred) { out_cols[out_base + popcnt(mask & prefix_mask)] =
    postorder[node]; ... }]. *)
Fixpoint lane_writes (mask : Z) (out_base lane : nat) (lanes : list lane_state)
  : writes :=
  match lanes with
  | [] => []
  | s :: rest =>
      (if pred s
       then [(out_base + popcnt (Z.land mask (prefix_mask lane)), postorder !!! s.1)]
       else [])
      ++ lane_writes mask out_base (S lane) rest
  end.

(** [node = postorder_parent[node]; pred = node < next_node;] *)
Definition advance (s : lane_state) : lane_state :=
  if pred s then (postorder_parent !!! s.1, s.2) else s.

(** [while (mask) { ...; out_base += popcnt(mask); mask = ballot(pred); }]:
    the writes and the final [out_base]. *)
Fixpoint fill_chain (fuel : nat) (lanes : list lane_state) (out_base : nat)
  : option (writes * nat) :=
  let mask := ballot (map pred lanes) in
  if (mask =? 0)%Z then Some ([], out_base)
  else
    match fuel with
    | O => None
    | S fuel' =>
        let w := lane_writes mask out_base 0 lanes in
        '(w', out_base') ← fill_chain fuel' (map advance lanes)
                                      (out_base + popcnt mask);
        Some (w ++ w', out_base')
    end.

(** The lanes at the start of one iteration of
    [for (base = row_begin; base < lower_end; base += subwarp_size)]. *)
Definition load_lanes (lower_end diag_postorder base : nat) : list lane_state :=
  map (fun lane =>
         let nz := base + lane in
         (if nz <? lower_end then postorder_cols !!! nz else diag_postorder,
          next_node_of lower_end diag_postorder nz))
      (seq 0 subwarp_size).

Fixpoint fill_loop (steps fuel lower_end diag_postorder base out_base : nat)
  : option (writes * nat) :=
  if base <? lower_end then
    match steps with
    | O => None
    | S steps' =>
        '(w, out_base') ←
          fill_chain fuel (load_lanes lower_end diag_postorder base) out_base;
        '(w', out_base'') ←
          fill_loop steps' fuel lower_end diag_postorder (base + subwarp_size)
                    out_base';
        Some (w ++ w', out_base'')
    end
  else Some ([], out_base).

(** [symbolic_factorize] for the subwarp of [row]: its writes to
    [out_cols], the diagonal entry last. *)
Definition symbolic_factorize (fuel row : nat) : option writes :=
  if num_rows <=? row then Some []
  else
    let row_begin := row_ptrs !!! row in
    let diag_postorder := inv_postorder !!! row in
    let lower_end := lower_ends !!! row in
    '(w, out_base) ←
      fill_loop (lower_end - row_begin) fuel lower_end diag_postorder row_begin
                (out_row_ptrs !!! row);
    Some (w ++ [(out_base, row)]).

(** *** The loops of one subwarp round *)

Lemma count_chain_done fuel node next_node :
  (node <? next_node) = false -> count_chain fuel node next_node = Some 0.
Proof. intros H. destruct fuel; simpl; rewrite H; reflexivity. Qed.

Lemma count_chain_advance fuel s k :
  count_chain (S fuel) s.1 s.2 = Some k ->
  count_chain fuel (advance s).1 (advance s).2
    = Some (k - (if pred s then 1 else 0)) /\
  (if pred s then 1 else 0) <= k.
Proof.
  unfold advance, pred. simpl count_chain.
  destruct (s.1 <? s.2) eqn:E.
  - intros (k' & Hk' & ->)%fmap_Some. simpl. rewrite Hk'.
    split; [f_equal; lia | lia].
  - intros [= <-]. rewrite count_chain_done by exact E. split; [reflexivity | lia].
Qed.

Lemma count_true_cons b l :
  count_true (b :: l) = (if b then 1 else 0) + count_true l.
Proof.
  unfold count_true. simpl. destruct b; simpl.
  - destruct (decide (true = true)); [reflexivity | congruence].
  - reflexivity.
Qed.

Lemma count_true_app l1 l2 :
  count_true (l1 ++ l2) = count_true l1 + count_true l2.
Proof.
  induction l1 as [|b l1 IH]; [reflexivity |].
  simpl app. rewrite !count_true_cons, IH. lia.
Qed.

Lemma reduce_plus_advance fuel lanes total :
  reduce_plus (map (fun s => count_chain (S fuel) s.1 s.2) lanes) = Some total ->
  reduce_plus (map (fun s => count_chain fuel s.1 s.2) (map advance lanes))
    = Some (total - count_true (map pred lanes)) /\
  count_true (map pred lanes) <= total.
Proof.
  revert total. induction lanes as [|s lanes IH]; intros total.
  - simpl. intros [= <-]. split; [reflexivity | unfold count_true; simpl; lia].
  - cbn [map reduce_plus].
    intros (k & Hk & (t & Ht & [= <-])%bind_Some)%bind_Some.
    destruct (count_chain_advance _ _ _ Hk) as [Hadv Hle].
    destruct (IH _ Ht) as [IH1 IH2].
    rewrite Hadv, IH1, count_true_cons. simpl.
    split; [f_equal; lia | lia].
Qed.

Lemma reduce_plus_no_vote fuel lanes :
  count_true (map pred lanes) = 0 ->
  reduce_plus (map (fun s => count_chain fuel s.1 s.2) lanes) = Some 0.
Proof.
  induction lanes as [|s lanes IH]; [reflexivity |].
  cbn [map]. rewrite count_true_cons. intros H.
  cbn [reduce_plus]. unfold pred in H at 1.
  destruct (s.1 <? s.2) eqn:E; [lia |].
  rewrite count_chain_done by exact E. rewrite IH by lia. reflexivity.
Qed.

Lemma reduce_plus_out_of_fuel lanes :
  count_true (map pred lanes) <> 0 ->
  reduce_plus (map (fun s => count_chain 0 s.1 s.2) lanes) = None.
Proof.
  induction lanes as [|s lanes IH]; [unfold count_true; simpl; lia |].
  cbn [map]. rewrite count_true_cons. intros H.
  cbn [reduce_plus]. unfold pred in H at 1.
  destruct (s.1 <? s.2) eqn:E.
  - assert (count_chain 0 s.1 s.2 = None) as ->
      by (simpl; rewrite E; reflexivity).
    reflexivity.
  - rewrite count_chain_done by exact E.
    rewrite IH by (simpl in H; lia). reflexivity.
Qed.

(** The voting lanes of one ballot write to consecutive slots. *)
Lemma lane_writes_fst all out_base : forall rest pre,
  all = pre ++ rest ->
  map fst (lane_writes (ballot (map pred all)) out_base (length pre) rest) =
  seq (out_base + count_true (map pred pre)) (count_true (map pred rest)).
Proof.
  induction rest as [|s rest IH]; intros pre Hall; [reflexivity |].
  cbn [lane_writes map]. rewrite map_app, count_true_cons.
  specialize (IH (pre ++ [s])). rewrite length_app in IH. simpl in IH.
  replace (length pre + 1) with (S (length pre)) in IH by lia.
  rewrite IH by (rewrite <- app_assoc; exact Hall).
  rewrite map_app, count_true_app. simpl map. rewrite count_true_cons.
  destruct (pred s) eqn:E; simpl.
  - f_equal.
    + rewrite popcnt_ballot_prefix. subst all.
      rewrite map_app, <- (length_map pred pre), take_app_length. reflexivity.
    + f_equal. unfold count_true at 2. simpl. lia.
  - f_equal. unfold count_true at 2. simpl. lia.
Qed.

Lemma fill_chain_total fuel : forall lanes out_base total,
  reduce_plus (map (fun s => count_chain fuel s.1 s.2) lanes) = Some total ->
  exists w, fill_chain fuel lanes out_base = Some (w, out_base + total) /\
            map fst w = seq out_base total.
Proof.
  induction fuel as [|fuel IH]; intros lanes out_base total Htotal.
  - simpl. destruct (Z.eqb_spec (ballot (map pred lanes)) 0) as [Hz | Hnz].
    + apply ballot_zero in Hz.
      rewrite (reduce_plus_no_vote 0 lanes Hz) in Htotal.
      injection Htotal as <-. exists []. rewrite Nat.add_0_r. split; reflexivity.
    + rewrite ballot_zero in Hnz.
      rewrite (reduce_plus_out_of_fuel lanes Hnz) in Htotal. discriminate.
  - cbn [fill_chain].
    destruct (Z.eqb_spec (ballot (map pred lanes)) 0) as [Hz | Hnz].
    + apply ballot_zero in Hz.
      rewrite (reduce_plus_no_vote (S fuel) lanes Hz) in Htotal.
      injection Htotal as <-. exists []. rewrite Nat.add_0_r. split; reflexivity.
    + destruct (reduce_plus_advance _ _ _ Htotal) as [Hadv Hle].
      destruct (IH _ (out_base + popcnt (ballot (map pred lanes))) _ Hadv)
        as (w' & Hw' & Hfst).
      rewrite Hw'. simpl. rewrite popcnt_ballot in *.
      eexists. split.
      * f_equal. f_equal. lia.
      * rewrite map_app, Hfst.
        pose proof (lane_writes_fst lanes out_base lanes [] eq_refl) as Hw.
        simpl length in Hw. rewrite Hw. simpl map.
        replace (out_base + count_true []) with out_base
          by (unfold count_true; simpl; lia).
        rewrite <- seq_app. f_equal. lia.
Qed.

(** *** The loops over the lower triangular entries of a row *)

Hypothesis subwarp_size_pos : 0 < subwarp_size.

Lemma count_lane_steps fuel lower_end diag : forall steps steps' nz,
  lower_end - nz <= steps -> lower_end - nz <= steps' ->
  count_lane steps fuel lower_end diag nz =
  count_lane steps' fuel lower_end diag nz.
Proof.
  induction steps as [|steps IH]; intros steps' nz H1 H2.
  - destruct steps'; simpl; destruct (Nat.ltb_spec nz lower_end); try lia; reflexivity.
  - destruct steps' as [|steps']; simpl;
      destruct (Nat.ltb_spec nz lower_end); try lia; try reflexivity.
    rewrite (IH steps') by lia. reflexivity.
Qed.

Lemma count_lane_unfold fuel lower_end diag nz :
  count_lane (lower_end - nz) fuel lower_end diag nz =
  if nz <? lower_end then
    c ← count_chain fuel (postorder_cols !!! nz) (next_node_of lower_end diag nz);
    rest ← count_lane (lower_end - (nz + subwarp_size)) fuel lower_end diag
                      (nz + subwarp_size);
    Some (c + rest)
  else Some 0.
Proof.
  destruct (Nat.ltb_spec nz lower_end) as [Hlt | Hge].
  - destruct (lower_end - nz) as [|steps] eqn:E; [lia |].
    simpl. destruct (Nat.ltb_spec nz lower_end); [| lia].
    rewrite (count_lane_steps _ _ _ steps (lower_end - (nz + subwarp_size)))
      by lia.
    reflexivity.
  - replace (lower_end - nz) with 0 by lia. simpl.
    destruct (Nat.ltb_spec nz lower_end); [lia | reflexivity].
Qed.

Lemma reduce_plus_split {A} (f g : A -> option nat) (l : list A) total :
  reduce_plus (map (fun a => x ← f a; y ← g a; Some (x + y)) l) = Some total ->
  exists tf tg, reduce_plus (map f l) = Some tf /\
                reduce_plus (map g l) = Some tg /\ total = tf + tg.
Proof.
  revert total. induction l as [|a l IH]; intros total.
  - simpl. intros [= <-]. exists 0, 0. auto.
  - cbn [map reduce_plus].
    intros (k & (x & Hx & (y & Hy & [= <-])%bind_Some)%bind_Some
              & (t & Ht & [= <-])%bind_Some)%bind_Some.
    destruct (IH _ Ht) as (tf & tg & Hf & Hg & ->).
    rewrite Hx, Hy, Hf, Hg. simpl. exists (x + tf), (y + tg).
    repeat split. lia.
Qed.

Lemma reduce_plus_ext {A} (f g : A -> option nat) (l : list A) :
  (forall a, In a l -> f a = g a) ->
  reduce_plus (map f l) = reduce_plus (map g l).
Proof.
  intros H. f_equal. apply map_ext_in. exact H.
Qed.

Lemma reduce_plus_zero {A} (f : A -> option nat) (l : list A) :
  (forall a, In a l -> f a = Some 0) -> reduce_plus (map f l) = Some 0.
Proof.
  induction l as [|a l IH]; intros H; [reflexivity |].
  cbn [map reduce_plus]. rewrite (H a) by (left; reflexivity).
  rewrite IH by (intros; apply H; right; assumption). reflexivity.
Qed.

Lemma fill_loop_total fuel lower_end diag : forall steps base out_base total,
  lower_end - base <= steps ->
  reduce_plus
    (map (fun lane => count_lane (lower_end - (base + lane)) fuel lower_end diag
                                 (base + lane))
         (seq 0 subwarp_size)) = Some total ->
  exists w, fill_loop steps fuel lower_end diag base out_base
              = Some (w, out_base + total) /\
            map fst w = seq out_base total.
Proof.
  induction steps as [|steps IH]; intros base out_base total Hsteps Htotal.
  - simpl. destruct (Nat.ltb_spec base lower_end) as [Hlt | Hge]; [lia |].
    rewrite reduce_plus_zero in Htotal.
    + injection Htotal as <-. exists []. rewrite Nat.add_0_r. split; reflexivity.
    + intros lane _. rewrite count_lane_unfold.
      destruct (Nat.ltb_spec (base + lane) lower_end); [lia | reflexivity].
  - cbn [fill_loop]. destruct (Nat.ltb_spec base lower_end) as [Hlt | Hge].
    + rewrite (reduce_plus_ext _
        (fun lane =>
           x ← (fun lane => count_chain fuel
                  (if base + lane <? lower_end
                   then postorder_cols !!! (base + lane) else diag)
                  (next_node_of lower_end diag (base + lane))) lane;
           y ← (fun lane => count_lane (lower_end - (base + subwarp_size + lane))
                  fuel lower_end diag (base + subwarp_size + lane)) lane;
           Some (x + y))) in Htotal.
      2:{ intros lane _. rewrite count_lane_unfold.
          replace (base + lane + subwarp_size) with (base + subwarp_size + lane)
            by lia.
          destruct (Nat.ltb_spec (base + lane) lower_end) as [Hl | Hl];
            [reflexivity |].
          unfold next_node_of.
          destruct (Nat.ltb_spec (base + lane) (lower_end - 1)); [lia |].
          rewrite count_chain_done by (apply Nat.ltb_irrefl).
          rewrite count_lane_unfold.
          destruct (Nat.ltb_spec (base + subwarp_size + lane) lower_end);
            [lia | reflexivity]. }
      apply reduce_plus_split in Htotal as (ta & tb & Ha & Hb & ->).
      assert (Ha' : reduce_plus
                (map (fun s => count_chain fuel s.1 s.2)
                     (load_lanes lower_end diag base)) = Some ta).
      { unfold load_lanes. rewrite map_map. exact Ha. }
      destruct (fill_chain_total fuel _ out_base _ Ha') as (w1 & Hw1 & Hf1).
      destruct (IH (base + subwarp_size) (out_base + ta) tb ltac:(lia) Hb)
        as (w2 & Hw2 & Hf2).
      rewrite Hw1. simpl. rewrite Hw2. simpl.
      exists (w1 ++ w2). split.
      * f_equal. f_equal. lia.
      * rewrite map_app, Hf1, Hf2, <- seq_app. reflexivity.
    + rewrite reduce_plus_zero in Htotal.
      * injection Htotal as <-. exists []. rewrite Nat.add_0_r. split; reflexivity.
      * intros lane _. rewrite count_lane_unfold.
        destruct (Nat.ltb_spec (base + lane) lower_end); [lia | reflexivity].
Qed.

(** *** Termination on a postorder forest *)

Lemma count_chain_terminates :
  (forall node, node < num_rows -> node < postorder_parent !!! node) ->
  forall fuel node next_node,
    next_node <= num_rows -> next_node - node <= fuel ->
    is_Some (count_chain fuel node next_node).
Proof.
  intros Hforest. induction fuel as [|fuel IH]; intros node next_node Hn Hfuel.
  - simpl. destruct (Nat.ltb_spec node next_node); [lia | eexists; reflexivity].
  - simpl. destruct (Nat.ltb_spec node next_node) as [Hlt | Hge];
      [| eexists; reflexivity].
    pose proof (Hforest node ltac:(lia)) as Hp.
    destruct (IH (postorder_parent !!! node) next_node Hn ltac:(lia)) as [k Hk].
    rewrite Hk. eexists; reflexivity.
Qed.

Lemma lookup_total_le (l : list nat) bound i :
  Forall (fun x => x <= bound) l -> l !!! i <= bound.
Proof.
  intros Hl. rewrite list_lookup_total_alt.
  destruct (l !! i) as [x|] eqn:E; simpl; [| unfold inhabitant; simpl; lia].
  exact (proj1 (Forall_lookup _ l) Hl i x E).
Qed.

Lemma count_lane_terminates lower_end diag :
  (forall node, node < num_rows -> node < postorder_parent !!! node) ->
  Forall (fun x => x <= num_rows) postorder_cols ->
  diag <= num_rows ->
  forall steps nz, lower_end - nz <= steps ->
    is_Some (count_lane steps num_rows lower_end diag nz).
Proof.
  intros Hforest Hcols Hdiag.
  induction steps as [|steps IH]; intros nz Hsteps; simpl;
    destruct (Nat.ltb_spec nz lower_end) as [Hlt | Hge];
    try lia; try (eexists; reflexivity).
  assert (Hnext : next_node_of lower_end diag nz <= num_rows).
  { unfold next_node_of. destruct (nz <? lower_end - 1); [| exact Hdiag].
    apply lookup_total_le, Hcols. }
  destruct (count_chain_terminates Hforest num_rows (postorder_cols !!! nz)
              _ Hnext ltac:(lia)) as [c Hc].
  destruct (IH (nz + subwarp_size) ltac:(lia)) as [r Hr].
  rewrite Hc, Hr. eexists; reflexivity.
Qed.

Lemma reduce_plus_is_Some {A} (f : A -> option nat) (l : list A) :
  (forall a, In a l -> is_Some (f a)) -> is_Some (reduce_plus (map f l)).
Proof.
  induction l as [|a l IH]; intros H; [eexists; reflexivity |].
  cbn [map reduce_plus].
  destruct (H a (or_introl eq_refl)) as [x Hx].
  destruct IH as [y Hy]; [intros; apply H; right; assumption |].
  rewrite Hx, Hy. eexists; reflexivity.
Qed.

(** [C7].  Whenever [symbolic_count] returns the count [c] for a row,
    [symbolic_factorize] returns too, and its writes for that row (the
    parent chains, then the diagonal) go to the slots
    [out_row_ptrs[row], ..., out_row_ptrs[row] + c - 1], each once, so their
    number is [c].  On a postorder forest (every parent above its child,
    column entries within the rows) the counting pass returns for every
    row with [num_rows] as the bound of its [while] loops. *)
Theorem symbolic_factorize_fills_counted_range :
  (forall fuel row c,
     symbolic_count fuel row = Some [(row, c)] ->
     exists w, symbolic_factorize fuel row = Some w /\
               map fst w = seq (out_row_ptrs !!! row) c /\ length w = c) /\
  ((forall node, node < num_rows -> node < postorder_parent !!! node) ->
   Forall (fun x => x <= num_rows) postorder_cols ->
   Forall (fun x => x <= num_rows) inv_postorder ->
   forall row, row < num_rows ->
     exists c, symbolic_count num_rows row = Some [(row, c)]).
Proof.
  split.
  - intros fuel row c. unfold symbolic_count, symbolic_factorize.
    destruct (num_rows <=? row); [discriminate |].
    intros (count & Hcount & [= <-])%bind_Some.
    destruct (fill_loop_total fuel (lower_ends !!! row) (inv_postorder !!! row)
                (lower_ends !!! row - row_ptrs !!! row) (row_ptrs !!! row)
                (out_row_ptrs !!! row) count ltac:(lia) Hcount)
      as (w & Hw & Hfst).
    rewrite Hw. simpl. eexists. split; [reflexivity |].
    assert (Hmap : map fst (w ++ [(out_row_ptrs !!! row + count, row)]) =
                   seq (out_row_ptrs !!! row) (count + 1)).
    { rewrite map_app, Hfst, seq_app. reflexivity. }
    split; [exact Hmap |].
    rewrite <- (length_map fst), Hmap, length_seq. reflexivity.
  - intros Hforest Hcols Hinv row Hrow. unfold symbolic_count.
    destruct (Nat.leb_spec num_rows row); [lia |].
    destruct (reduce_plus_is_Some
      (fun lane => count_lane (lower_ends !!! row - (row_ptrs !!! row + lane))
                     num_rows (lower_ends !!! row) (inv_postorder !!! row)
                     (row_ptrs !!! row + lane))
      (seq 0 subwarp_size)) as [count Hcount].
    + intros lane _. apply count_lane_terminates; try assumption; try lia.
      apply lookup_total_le, Hinv.
    + rewrite Hcount. simpl. eexists; reflexivity.
Qed.

End Symbolic.

(** A forest of five rows in postorder numbering (parents 2, 2, 4, 4 and
    the pseudo-root 5), with lower triangular entries (2,0), (2,1), (4,0),
    (4,3), processed by subwarps of two lanes. *)
Definition example_parents : list nat := [2; 2; 4; 4; 5].
Definition example_postorder : list nat := [0; 1; 2; 3; 4].
Definition example_row_ptrs : list nat := [0; 0; 0; 2; 2; 4].
Definition example_lower_ends : list nat := [0; 0; 2; 2; 4].
Definition example_postorder_cols : list nat := [0; 1; 0; 3].
Definition example_out_row_ptrs : list nat := [0; 1; 2; 5; 6; 10].

Lemma symbolic_factorize_fills_counted_range_witness :
  exists w,
    symbolic_factorize 2 5 example_row_ptrs example_lower_ends
      example_postorder example_postorder_cols example_postorder
      example_parents example_out_row_ptrs 5 4 = Some w /\
    map fst w = seq 6 4 /\ length w = 4.
Proof.
  apply (proj1 (symbolic_factorize_fills_counted_range 2 5 example_row_ptrs
                  example_lower_ends example_postorder example_postorder_cols
                  example_postorder example_parents example_out_row_ptrs
                  ltac:(lia)) 5 4 4).
  reflexivity.
Defined.

End kernel.

(** ** Host functions *)

(** The body of the lambda of [forest_from_factor]: the loop
    [for (nz = llt_row_begin; nz < llt_row_end; nz++)] that returns the first
    column index above [l_col], and the pseudo-root [num_rows] after the
    loop.  [count] is the number of iterations left, [llt_row_end - nz]. *)
Fixpoint first_above (cols : list nat) (sentinel l_col nz count : nat) : nat :=
  match count with
  | O => sentinel
  | S count' =>
      let l_row := (cols !!! nz) in
      if l_col <? l_row then l_row
      else first_above cols sentinel l_col (S nz) count'
  end.

Definition parent_of (m : csr) (l_col : nat) : nat :=
  let llt_row_begin := (get_const_row_ptrs m !!! l_col) in
  let llt_row_end := (get_const_row_ptrs m !!! S l_col) in
  first_above (get_const_col_idxs m) (get_size m) l_col llt_row_begin
              (llt_row_end - llt_row_begin).

(** [thrust::transform] over the counting iterator [0 .. num_rows). *)
Definition forest_from_factor (m : csr) : list nat :=
  map (parent_of m) (seq 0 (get_size m)).

(** [(i, j)] is a stored entry of the pattern. *)
Definition stored (m : csr) (i j : nat) : Prop :=
  exists nz, (get_const_row_ptrs m !!! i) <= nz < (get_const_row_ptrs m !!! S i) /\ (get_const_col_idxs m !!! nz) = j.

(** Column indices of every row are sorted. *)
Definition sorted_rows (m : csr) : Prop :=
  forall i nz nz', i < get_size m ->
    (get_const_row_ptrs m !!! i) <= nz -> nz <= nz' -> nz' < (get_const_row_ptrs m !!! S i) ->
    (get_const_col_idxs m !!! nz) <= (get_const_col_idxs m !!! nz').

Definition structurally_symmetric (m : csr) : Prop :=
  forall i j, i < get_size m -> j < get_size m -> stored m i j <-> stored m j i.

(** The column indices of row [i], and boolean checks of the three
    properties above. *)
Definition row_cols (m : csr) (i : nat) : list nat :=
  map (fun nz => get_const_col_idxs m !!! nz)
      (seq (get_const_row_ptrs m !!! i)
           (get_const_row_ptrs m !!! S i - get_const_row_ptrs m !!! i)).

Fixpoint is_sorted (l : list nat) : bool :=
  match l with
  | a :: (b :: _) as rest => (a <=? b) && is_sorted rest
  | _ => true
  end.

Definition check_sorted_rows (m : csr) : bool :=
  forallb (fun i => is_sorted (row_cols m i)) (seq 0 (get_size m)).

Definition check_symmetric (m : csr) : bool :=
  forallb (fun i =>
    forallb (fun j => Bool.eqb (existsb (Nat.eqb j) (row_cols m i))
                               (existsb (Nat.eqb i) (row_cols m j)))
            (seq 0 (get_size m)))
    (seq 0 (get_size m)).

Definition check_cols_in_range (m : csr) : bool :=
  forallb (fun i => forallb (fun j => j <? get_size m) (row_cols m i))
          (seq 0 (get_size m)).

(** The 4x4 pattern with off-diagonal entries (1,0), (2,0), (3,2): stored
    symmetrically with the diagonal, as the factor storage [L + L^T] that
    [forest_from_factor] reads, and the three other readings of the
    scenario (no diagonal, lower triangle only). *)
Definition scenario_sym_diag : csr :=
  Csr 4 [0; 3; 5; 8; 10] [0; 1; 2;  0; 1;  0; 2; 3;  2; 3].
Definition scenario_sym_nodiag : csr :=
  Csr 4 [0; 2; 3; 5; 6] [1; 2;  0;  0; 3;  2].
Definition scenario_lower_diag : csr :=
  Csr 4 [0; 1; 3; 5; 7] [0;  0; 1;  0; 2;  2; 3].
Definition scenario_lower_nodiag : csr :=
  Csr 4 [0; 0; 1; 2; 3] [0;  0;  2].

Lemma first_above_spec cols sentinel l_col count : forall nz,
  let r := first_above cols sentinel l_col nz count in
  (r = sentinel /\ forall k, nz <= k < nz + count -> (cols !!! k) <= l_col) \/
  (exists k, nz <= k < nz + count /\ r = (cols !!! k) /\ l_col < r /\
             forall k', nz <= k' < k -> (cols !!! k') <= l_col).
Proof.
  induction count as [|c IH]; intros nz; simpl.
  - left. split; [reflexivity | intros k Hk; lia].
  - destruct (Nat.ltb_spec l_col ((cols !!! nz))) as [Hlt | Hge].
    + right. exists nz. repeat split; try lia.
    + destruct (IH (S nz)) as [[Hr Hall] | (k & Hk & Hr & Hlt & Hall)].
      * left. split; [exact Hr |].
        intros k Hk. destruct (decide (k = nz)) as [-> | Hne]; [lia |].
        apply Hall. lia.
      * right. exists k. repeat split; try lia; try exact Hr.
        intros k' Hk'. destruct (decide (k' = nz)) as [-> | Hne]; [lia |].
        apply Hall. lia.
Qed.

Lemma forest_from_factor_lookup m j :
  j < get_size m -> (forest_from_factor m !!! j) = parent_of m j.
Proof.
  intros Hj. unfold forest_from_factor.
  apply list_lookup_total_correct.
  rewrite list_lookup_fmap, lookup_seq_lt by exact Hj. reflexivity.
Qed.

(** The entries of row [j] before the first one above [j] are at most [j];
    in a sorted row the first entry above [j] is the least one. *)
Lemma parent_of_cases m j :
  sorted_rows m -> j < get_size m ->
  (j < parent_of m j /\ stored m j (parent_of m j) /\
   forall i, j < i -> stored m j i -> parent_of m j <= i) \/
  (parent_of m j = get_size m /\ forall i, j < i -> ~ stored m j i).
Proof.
  intros Hsorted Hj. unfold parent_of.
  set (b := get_const_row_ptrs m !!! j). set (e := get_const_row_ptrs m !!! S j).
  destruct (first_above_spec (get_const_col_idxs m) (get_size m) j (e - b) b)
    as [[Hr Hall] | (k & Hk & Hr & Hlt & Hall)].
  - right. split; [exact Hr |].
    intros i Hi (nz & Hnz & Hcol). fold b e in Hnz.
    specialize (Hall nz ltac:(lia)). lia.
  - left. split; [exact Hlt |]. split.
    + exists k. fold b e. split; [lia | symmetry; exact Hr].
    + intros i Hi (nz & Hnz & Hcol). fold b e in Hnz.
      rewrite Hr. subst i.
      destruct (le_lt_dec k nz) as [Hle | Hgt].
      * apply (Hsorted j); fold b e; lia.
      * specialize (Hall nz ltac:(lia)). lia.
Qed.

(** [C6] (amended).  For a structurally symmetric pattern with sorted rows
    and column indices below [num_rows], [forest_from_factor] gives every
    column [j] the least row [i > j] with a stored entry [(i, j)], and the
    pseudo-root [num_rows] when there is none.  On the 4x4 pattern with
    off-diagonal entries (1,0), (2,0), (3,2), stored symmetrically, the
    parents are [1; 4; 3; 4]. *)
Theorem forest_from_factor_least_parent (m : csr) :
  sorted_rows m ->
  structurally_symmetric m ->
  (forall i j, i < get_size m -> stored m i j -> j < get_size m) ->
  length (forest_from_factor m) = get_size m /\
  (forall j, j < get_size m ->
     let p := forest_from_factor m !!! j in
     (j < p < get_size m /\ stored m p j /\
      forall i, i < get_size m -> j < i -> stored m i j -> p <= i) \/
     (p = get_size m /\
      forall i, i < get_size m -> j < i -> ~ stored m i j)) /\
  forest_from_factor scenario_sym_diag = [1; 4; 3; 4].
Proof.
  intros Hsorted Hsym Hcols. split; [| split].
  - unfold forest_from_factor. rewrite length_map, length_seq. reflexivity.
  - intros j Hj p. subst p. rewrite forest_from_factor_lookup by exact Hj.
    destruct (parent_of_cases m j Hsorted Hj)
      as [(Hlt & Hst & Hmin) | (Hroot & Hnone)].
    + left. pose proof (Hcols j _ Hj Hst) as Hp.
      split; [lia |]. split.
      * apply Hsym; assumption.
      * intros i Hi Hji Hst'. apply Hmin; [exact Hji |].
        apply Hsym; assumption.
    + right. split; [exact Hroot |].
      intros i Hi Hji Hst. apply (Hnone i Hji). apply Hsym; assumption.
  - reflexivity.
Qed.

(** Executable checks of the hypotheses, for concrete patterns. *)
Lemma stored_row_cols m i j : stored m i j <-> In j (row_cols m i).
Proof.
  unfold stored, row_cols. rewrite in_map_iff. split.
  - intros (nz & Hnz & Hcol). exists nz. split; [exact Hcol |].
    apply in_seq. lia.
  - intros (nz & Hcol & Hnz%in_seq). exists nz. split; [lia | exact Hcol].
Qed.

Lemma check_sorted_rows_ok m : check_sorted_rows m = true -> sorted_rows m.
Proof.
  unfold check_sorted_rows. rewrite forallb_forall.
  intros Hall i nz nz' Hi Hb Hle He.
  specialize (Hall i ltac:(apply in_seq; lia)).
  unfold row_cols in Hall.
  set (b := get_const_row_ptrs m !!! i) in *.
  set (e := get_const_row_ptrs m !!! S i) in *.
  assert (Hgen : forall len start, is_sorted
            (map (fun nz => get_const_col_idxs m !!! nz) (seq start len)) = true ->
          forall k k', start <= k -> k <= k' -> k' < start + len ->
            get_const_col_idxs m !!! k <= get_const_col_idxs m !!! k').
  { clear. induction len as [|len IH]; intros start Hs k k' H1 H2 H3; [lia |].
    destruct (decide (k = k')) as [-> | Hne]; [lia |].
    assert (Hstep : forall len start, is_sorted
              (map (fun nz => get_const_col_idxs m !!! nz) (seq start (S len))) = true ->
            is_sorted (map (fun nz => get_const_col_idxs m !!! nz)
                           (seq (S start) len)) = true /\
            (0 < len -> get_const_col_idxs m !!! start
                        <= get_const_col_idxs m !!! (S start))).
    { clear. intros len start. simpl. destruct len as [|len]; simpl.
      - intros _. split; [reflexivity | lia].
      - intros [H1 H2]%andb_prop. split; [exact H2 |].
        intros _. apply Nat.leb_le. exact H1. }
    destruct (Hstep _ _ Hs) as [Hs' Hfirst].
    destruct (decide (k = start)) as [-> | Hk].
    - transitivity (get_const_col_idxs m !!! S start); [apply Hfirst; lia |].
      apply (IH (S start) Hs'); lia.
    - apply (IH (S start) Hs'); lia. }
  apply (Hgen (e - b) b Hall); lia.
Qed.

Lemma check_symmetric_ok m :
  check_symmetric m = true -> structurally_symmetric m.
Proof.
  unfold check_symmetric. rewrite forallb_forall.
  intros Hall i j Hi Hj.
  specialize (Hall i ltac:(apply in_seq; lia)). rewrite forallb_forall in Hall.
  specialize (Hall j ltac:(apply in_seq; lia)).
  rewrite !stored_row_cols.
  apply Bool.eqb_prop in Hall.
  split; intros Hin.
  - destruct (existsb (Nat.eqb i) (row_cols m j)) eqn:E.
    + apply existsb_exists in E as (x & Hx & ->%Nat.eqb_eq). exact Hx.
    + assert (existsb (Nat.eqb j) (row_cols m i) = true) as Ht
        by (apply existsb_exists; exists j; split; [exact Hin | apply Nat.eqb_refl]).
      congruence.
  - destruct (existsb (Nat.eqb j) (row_cols m i)) eqn:E.
    + apply existsb_exists in E as (x & Hx & ->%Nat.eqb_eq). exact Hx.
    + assert (existsb (Nat.eqb i) (row_cols m j) = true) as Ht
        by (apply existsb_exists; exists i; split; [exact Hin | apply Nat.eqb_refl]).
      congruence.
Qed.

Lemma check_cols_in_range_ok m :
  check_cols_in_range m = true ->
  forall i j, i < get_size m -> stored m i j -> j < get_size m.
Proof.
  unfold check_cols_in_range. rewrite forallb_forall.
  intros Hall i j Hi Hst%stored_row_cols.
  specialize (Hall i ltac:(apply in_seq; lia)). rewrite forallb_forall in Hall.
  apply Nat.ltb_lt, Hall, Hst.
Qed.

Lemma forest_from_factor_least_parent_witness :
  length (forest_from_factor scenario_sym_diag) = 4 /\
  (forall j, j < 4 ->
     let p := forest_from_factor scenario_sym_diag !!! j in
     (j < p < 4 /\ stored scenario_sym_diag p j /\
      forall i, i < 4 -> j < i -> stored scenario_sym_diag i j -> p <= i) \/
     (p = 4 /\ forall i, i < 4 -> j < i -> ~ stored scenario_sym_diag i j)) /\
  forest_from_factor scenario_sym_diag = [1; 4; 3; 4].
Proof.
  exact (forest_from_factor_least_parent scenario_sym_diag
           (check_sorted_rows_ok scenario_sym_diag eq_refl)
           (check_symmetric_ok scenario_sym_diag eq_refl)
           (check_cols_in_range_ok scenario_sym_diag eq_refl)).
Defined.

(** [C6], as stated, fails on its scenario: whichever way the 4x4 pattern
    is stored (symmetric or lower triangle only, with or without the
    diagonal), the parents are not [4; 4; 0; 2]. *)
Lemma forest_from_factor_scenario_counterexample :
  forest_from_factor scenario_sym_diag <> [4; 4; 0; 2] /\
  forest_from_factor scenario_sym_nodiag <> [4; 4; 0; 2] /\
  forest_from_factor scenario_lower_diag <> [4; 4; 0; 2] /\
  forest_from_factor scenario_lower_nodiag <> [4; 4; 0; 2].
Proof. repeat split; discriminate. Qed.

End Cholesky.

(** * Prefix sums over a subwarp
    (common/cuda_hip/components/prefix_sum.hpp.inc)

    The sums of this module are sums of unbounded integers: the kernel as
    it computes when no addition overflows.  Module [FixedWidth] has the
    kernel on integers of a fixed width and shows that it computes these
    sums modulo [2^bits]. *)

Module PrefixSum.

(** A group of lanes is the list of its lanes' registers, indexed by
    [thread_rank]; [shfl_xor(total_sum, step)] reads the register of lane
    [thread_rank ^ step]. *)

(** [subwarp_prefix_sum<inclusive>] (components/prefix_sum.hpp.inc): one
    iteration of the hypercube prefix sum on the registers [prefix_sum] and
    [total_sum] of the lanes. *)
Definition hypercube_step (step : nat) (st : list nat * list nat)
    : list nat * list nat :=
  let neighbor :=
    map (fun rank => st.2 !!! Nat.lxor rank step) (seq 0 (length st.2)) in
  (imap (fun rank prefix_sum =>
           prefix_sum +
           (if Nat.land rank step =? 0 then 0 else neighbor !!! rank)) st.1,
   imap (fun rank total_sum => total_sum + neighbor !!! rank) st.2).

(** [for (step = 1; step < subwarp.size(); step *= 2)] *)
Fixpoint hypercube (fuel step size : nat) (st : list nat * list nat)
    : list nat * list nat :=
  match fuel with
  | O => st
  | S fuel' =>
      if step <? size
      then hypercube fuel' (step * 2) size (hypercube_step step st)
      else st
  end.

Definition subwarp_prefix_sum (inclusive : bool) (element : list nat)
    : list nat * list nat :=
  hypercube (length element) 1 (length element)
    (map (fun e => if inclusive then e else 0) element, element).


(** ** Bits of a lane index *)

Lemma testbit_div (r t : nat) : Nat.testbit r t = Nat.odd (r / 2 ^ t).
Proof.
  rewrite <- Nat.bit0_odd, Nat.div_pow2_bits. f_equal.
Qed.

Lemma land_pow2_zero (r t : nat) :
  Nat.land r (2 ^ t) = 0 <-> Nat.testbit r t = false.
Proof.
  split.
  - intros H. assert (E : Nat.testbit (Nat.land r (2 ^ t)) t = false).
    { rewrite H. apply Nat.bits_0. }
    rewrite Nat.land_spec, Nat.pow2_bits_true, andb_true_r in E. exact E.
  - intros H. apply Nat.bits_inj. intros m.
    rewrite Nat.land_spec, Nat.bits_0, Nat.pow2_bits_eqb.
    destruct (Nat.eqb_spec t m) as [<-|Hne].
    + rewrite H. reflexivity.
    + apply andb_false_r.
Qed.

Lemma land_pow2_eqb (r t : nat) :
  (Nat.land r (2 ^ t) =? 0) = Nat.even (r / 2 ^ t).
Proof.
  rewrite <- Nat.negb_odd, <- testbit_div.
  destruct (Nat.testbit r t) eqn:E; simpl.
  - apply Nat.eqb_neq. intros H. apply land_pow2_zero in H. congruence.
  - apply Nat.eqb_eq. apply land_pow2_zero. exact E.
Qed.

Lemma lxor_pow2_even (r t : nat) :
  Nat.even (r / 2 ^ t) = true -> Nat.lxor r (2 ^ t) = r + 2 ^ t.
Proof.
  intros He. symmetry. apply Nat.add_nocarry_lxor.
  apply land_pow2_zero. rewrite testbit_div, <- Nat.negb_even, He.
  reflexivity.
Qed.

Lemma lxor_pow2_odd (r t : nat) :
  Nat.even (r / 2 ^ t) = false ->
  2 ^ t <= r /\ Nat.lxor r (2 ^ t) = r - 2 ^ t.
Proof.
  intros Ho.
  assert (Hpos : 0 < 2 ^ t) by (apply Nat.neq_0_lt_0, Nat.pow_nonzero; lia).
  assert (Hq : 1 <= r / 2 ^ t).
  { destruct (r / 2 ^ t); [discriminate|lia]. }
  assert (Hle : 2 ^ t <= r).
  { pose proof (Nat.Div0.mul_div_le r (2 ^ t)). nia. }
  split; [exact Hle|].
  assert (Hdiv : (r - 2 ^ t) / 2 ^ t = r / 2 ^ t - 1).
  { replace r with ((r - 2 ^ t) + 1 * 2 ^ t) at 2 by lia.
    rewrite Nat.div_add by lia. lia. }
  assert (He : Nat.even ((r - 2 ^ t) / 2 ^ t) = true).
  { rewrite Hdiv. destruct (r / 2 ^ t) as [|q]; [lia|].
    simpl Nat.sub. rewrite Nat.sub_0_r.
    rewrite Nat.even_succ in Ho. rewrite <- Nat.negb_odd, Ho. reflexivity. }
  pose proof (lxor_pow2_even _ _ He) as E.
  replace (r - 2 ^ t + 2 ^ t) with r in E by lia.
  rewrite <- E at 1. rewrite Nat.lxor_assoc, Nat.lxor_nilpotent.
  apply Nat.lxor_0_r.
Qed.


(** ** Sums over a segment of the lanes *)

Definition segment (element : list nat) (start len : nat) : nat :=
  sum_list (take len (drop start element)).

Lemma segment_add element start n m :
  segment element start (n + m) =
  segment element start n + segment element (start + n) m.
Proof.
  unfold segment. rewrite <- take_take_drop, sum_list_with_app.
  rewrite drop_drop. reflexivity.
Qed.

Lemma segment_zero element start : segment element start 0 = 0.
Proof. reflexivity. Qed.

Lemma segment_one element start :
  start < length element -> segment element start 1 = element !!! start.
Proof.
  intros Hs. unfold segment.
  destruct (drop start element) as [|x l] eqn:E.
  - apply (f_equal length) in E. rewrite length_drop in E. simpl in E. lia.
  - cbn [take sum_list sum_list_with].
    assert (Hx : element !! start = Some x).
    { rewrite <- (Nat.add_0_r start), <- lookup_drop, E. reflexivity. }
    rewrite (list_lookup_total_correct _ _ _ Hx).
    destruct l; unfold id; simpl; lia.
Qed.

Lemma div_mod_even P q m :
  0 < P -> m < P -> Nat.even q = true ->
  (q * P + m) / (P * 2) * (P * 2) = q * P /\ (q * P + m) mod (P * 2) = m.
Proof.
  intros HP Hm He. apply Nat.even_spec in He as [k ->].
  assert (Hd : (2 * k * P + m) / (P * 2) = k).
  { symmetry. apply (Nat.div_unique _ _ k m); lia. }
  assert (Hr : (2 * k * P + m) mod (P * 2) = m).
  { symmetry. apply (Nat.mod_unique _ _ k m); lia. }
  rewrite Hd, Hr. split; lia.
Qed.

Lemma div_mod_odd P q m :
  0 < P -> m < P -> Nat.even q = false ->
  (q * P + m) / (P * 2) * (P * 2) = (q - 1) * P /\
  (q * P + m) mod (P * 2) = P + m /\ 1 <= q.
Proof.
  intros HP Hm Ho.
  assert (Hodd : Nat.odd q = true) by (rewrite <- Nat.negb_even, Ho; reflexivity).
  apply Nat.odd_spec in Hodd as [k ->].
  assert (Hd : ((2 * k + 1) * P + m) / (P * 2) = k).
  { symmetry. apply (Nat.div_unique _ _ k (P + m)); lia. }
  assert (Hr : ((2 * k + 1) * P + m) mod (P * 2) = P + m).
  { symmetry. apply (Nat.mod_unique _ _ k (P + m)); lia. }
  rewrite Hd, Hr. repeat split; lia.
Qed.

Section Hypercube.

Variable element : list nat.
Variable h : nat.
Hypothesis element_length : length element = 2 ^ h.

Definition scanned (t : nat) (st : list nat * list nat) : Prop :=
  length st.1 = 2 ^ h /\ length st.2 = 2 ^ h /\
  forall r, r < 2 ^ h ->
    st.1 !!! r = segment element (r / 2 ^ t * 2 ^ t) (r mod 2 ^ t) /\
    st.2 !!! r = segment element (r / 2 ^ t * 2 ^ t) (2 ^ t).

Lemma lookup_total_imap_nat (f : nat -> nat -> nat) (l : list nat) i :
  i < length l -> imap f l !!! i = f i (l !!! i).
Proof.
  intros Hi. apply list_lookup_total_correct. rewrite list_lookup_imap.
  destruct (lookup_lt_is_Some_2 l i Hi) as [a Ha]. rewrite Ha. simpl.
  rewrite (list_lookup_total_correct _ _ _ Ha). reflexivity.
Qed.

Lemma scanned_step t st :
  t < h -> scanned t st -> scanned (S t) (hypercube_step (2 ^ t) st).
Proof.
  intros Ht (L1 & L2 & Hst).
  assert (HP : 0 < 2 ^ t) by (apply Nat.neq_0_lt_0, Nat.pow_nonzero; lia).
  assert (Hh : 2 ^ h = 2 ^ t * 2 ^ (h - t)).
  { rewrite <- Nat.pow_add_r. f_equal. lia. }
  assert (Hev : Nat.even (2 ^ (h - t)) = true).
  { replace (h - t) with (S (h - t - 1)) by lia.
    rewrite Nat.pow_succ_r', Nat.even_mul. reflexivity. }
  unfold hypercube_step, scanned. cbn [fst snd].
  rewrite !length_imap. split; [exact L1|]. split; [exact L2|].
  intros r Hr.
  set (q := r / 2 ^ t). set (m := r mod 2 ^ t).
  assert (Hrm : r = q * 2 ^ t + m).
  { unfold q, m. rewrite (Nat.div_mod_eq r (2 ^ t)) at 1. lia. }
  assert (Hm : m < 2 ^ t) by (apply Nat.mod_upper_bound; lia).
  assert (Hq : q < 2 ^ (h - t)).
  { apply Nat.Div0.div_lt_upper_bound. lia. }
  destruct (Hst r Hr) as [Hp Htot]. fold q m in Hp, Htot.
  rewrite !lookup_total_imap_nat by lia.
  rewrite (list_lookup_total_fmap _ (seq 0 (length st.2)))
    by (rewrite length_seq; lia).
  rewrite lookup_total_seq_lt by lia. cbn [Nat.add].
  rewrite land_pow2_eqb. fold q.
  rewrite Nat.pow_succ_r', (Nat.mul_comm 2 (2 ^ t)).
  destruct (Nat.even q) eqn:He.
  - rewrite lxor_pow2_even by exact He.
    destruct (div_mod_even (2 ^ t) q m HP Hm He) as [Hd Hmod].
    rewrite <- Hrm in Hd, Hmod. rewrite Hd, Hmod.
    assert (Hq1 : q + 1 < 2 ^ (h - t)).
    { destruct (decide (q + 1 = 2 ^ (h - t))) as [E|]; [|lia].
      rewrite <- E, Nat.add_1_r, Nat.even_succ, <- Nat.negb_even, He in Hev.
      discriminate. }
    assert (Hr' : r + 2 ^ t < 2 ^ h) by nia.
    destruct (Hst _ Hr') as [_ Htot'].
    assert (Hq' : (r + 2 ^ t) / 2 ^ t = q + 1).
    { replace (r + 2 ^ t) with (r + 1 * 2 ^ t) by lia.
      rewrite Nat.div_add by lia. reflexivity. }
    rewrite Hq' in Htot'. rewrite Htot', Hp, Htot.
    split; [lia|].
    replace (2 ^ t * 2) with (2 ^ t + 2 ^ t) by lia.
    rewrite (segment_add element (q * 2 ^ t) (2 ^ t) (2 ^ t)).
    f_equal. f_equal. lia.
  - destruct (lxor_pow2_odd r t He) as [Hle Hx]. rewrite Hx.
    destruct (div_mod_odd (2 ^ t) q m HP Hm He) as [Hd [Hmod Hq1]].
    rewrite <- Hrm in Hd, Hmod. rewrite Hd, Hmod.
    assert (Hr' : r - 2 ^ t < 2 ^ h) by lia.
    destruct (Hst _ Hr') as [_ Htot'].
    assert (Hq' : (r - 2 ^ t) / 2 ^ t = q - 1).
    { symmetry. apply (Nat.div_unique _ _ (q - 1) m); [lia|nia]. }
    rewrite Hq' in Htot'. rewrite Htot', Hp, Htot.
    replace (2 ^ t * 2) with (2 ^ t + 2 ^ t) by lia.
    rewrite (segment_add element ((q - 1) * 2 ^ t) (2 ^ t) m).
    rewrite (segment_add element ((q - 1) * 2 ^ t) (2 ^ t) (2 ^ t)).
    replace ((q - 1) * 2 ^ t + 2 ^ t) with (q * 2 ^ t) by nia.
    split; lia.
Qed.


Lemma hypercube_scanned fuel : forall t st,
  t <= h -> h - t <= fuel -> scanned t st ->
  scanned h (hypercube fuel (2 ^ t) (2 ^ h) st).
Proof.
  induction fuel as [|fuel IH]; intros t st Ht Hf Hst.
  - simpl. replace h with t by lia. exact Hst.
  - simpl. destruct (Nat.ltb_spec (2 ^ t) (2 ^ h)) as [Hlt|Hge].
    + assert (t < h).
      { destruct (decide (t < h)); [assumption|].
        replace t with h in Hlt by lia. lia. }
      replace (2 ^ t * 2) with (2 ^ S t)
        by (rewrite Nat.pow_succ_r'; lia).
      apply IH; [lia|lia|]. apply scanned_step; assumption.
    + assert (t = h).
      { destruct (decide (t = h)); [assumption|].
        assert (2 ^ t < 2 ^ h) by (apply Nat.pow_lt_mono_r; lia). lia. }
      subst t. exact Hst.
Qed.

Lemma subwarp_prefix_sum_spec :
  let st := subwarp_prefix_sum false element in
  length st.1 = 2 ^ h /\ length st.2 = 2 ^ h /\
  forall r, r < 2 ^ h ->
    st.1 !!! r = sum_list (take r element) /\
    st.2 !!! r = sum_list element.
Proof.
  intros st.
  assert (Hinit : scanned 0 (map (fun _ : nat => 0) element, element)).
  { unfold scanned. cbn [fst snd].
    split; [rewrite length_map; exact element_length|].
    split; [exact element_length|]. intros r Hr.
    rewrite Nat.pow_0_r, Nat.div_1_r, Nat.mul_1_r, Nat.mod_1_r.
    rewrite segment_zero, segment_one by lia.
    rewrite (list_lookup_total_fmap (fun _ : nat => 0)) by lia. auto. }
  assert (Hfuel : h <= length element).
  { rewrite element_length. apply Nat.lt_le_incl, Nat.pow_gt_lin_r. lia. }
  pose proof (hypercube_scanned (length element) 0 _ ltac:(lia) ltac:(lia)
                Hinit) as (L1 & L2 & Hfin).
  rewrite Nat.pow_0_r in L1, L2, Hfin.
  assert (Est : st = hypercube (length element) 1 (2 ^ h)
                       (map (fun _ : nat => 0) element, element)).
  { unfold st, subwarp_prefix_sum. rewrite <- element_length. reflexivity. }
  rewrite <- Est in L1, L2, Hfin.
  split; [exact L1|]. split; [exact L2|]. intros r Hr.
  destruct (Hfin r Hr) as [Hp Ht].
  rewrite Nat.div_small, Nat.mod_small in Hp by lia.
  rewrite Nat.div_small in Ht by lia.
  unfold segment in Hp, Ht. rewrite drop_0 in Hp, Ht.
  rewrite Hp, Ht. split; [reflexivity|].
  rewrite take_ge by lia. reflexivity.
Qed.

End Hypercube.

End PrefixSum.

(** * Sample-select
    (common/cuda_hip/factorization/par_ilut_select_kernels.hpp.inc) *)

Module SampleSelect.
Import Intrinsics PrefixSum.

Section Kernels.

(** The magnitude type [remove_complex<ValueType>] with its comparison
    [<], the value type with [abs], and the constants of the headers that
    the kernels use. *)
Context {T : Type} `{!Inhabited T} (lt : T -> T -> bool).
Context {V : Type} `{!Inhabited V} (abs : V -> T).

Variable sampleselect_searchtree_height : nat.
Variable sampleselect_oversampling : nat.
Variable default_block_size : nat.
Variable warp_size : nat.

Definition searchtree_width : nat := Nat.shiftl 1 sampleselect_searchtree_height.
Definition searchtree_inner_size : nat := searchtree_width - 1.
Definition searchtree_size : nat := searchtree_width + searchtree_inner_size.
Definition sample_size : nat := searchtree_width * sampleselect_oversampling.

(** Modelled from the spec: [bitonic_sort], which is not among the sources;
    the spec has the samples sorted by a fixed-size bitonic network.  It is
    a parameter here, and what is assumed of it is stated where it is
    used. *)
Variable bitonic_sort : list T -> list T.

(** [build_searchtree]: the samples, in the order of [lidx = idx *
    sampleselect_oversampling + i].  [stride] is [double(size) /
    sample_size] and the index [static_cast<IndexType>(lidx * stride)];
    the index is taken as the exact quotient [lidx * size / sample_size],
    which is what the double arithmetic gives for a [sample_size] that is a
    power of two and sizes below [2^53]. *)
Definition gather_samples (input : list V) (size : nat) : list T :=
  map (fun lidx => abs (input !!! (lidx * size / sample_size)))
      (seq 0 sample_size).

(** [build_searchtree]: what thread [idx] stores after the sort, where its
    [samples[0]] is entry [idx * sampleselect_oversampling] of the sorted
    samples. *)
Definition build_searchtree_thread (sorted : list T) (tree_output : list T)
    (idx : nat) : list T :=
  let sample0 := sorted !!! (idx * sampleselect_oversampling) in
  let tree1 :=
    if 0 <? idx then
      let level := sampleselect_searchtree_height - ffs (Z.of_nat idx) in
      let idx_in_level := Nat.shiftr idx (ffs (Z.of_nat idx)) in
      let previous_levels := Nat.shiftl 1 level - 1 in
      <[idx_in_level + previous_levels := sample0]> tree_output
    else tree_output in
  <[idx + searchtree_inner_size := sample0]> tree1.

(** [build_searchtree], launched with one block of [searchtree_width]
    threads. *)
Definition build_searchtree (input : list V) (size : nat) (tree_output : list T)
  : list T :=
  let sorted := bitonic_sort (gather_samples input size) in
  foldl (build_searchtree_thread sorted) tree_output (seq 0 searchtree_width).

(** [count_buckets]: the traversal of the search tree,
    [for (level = 0; level < height; ++level) { cmp = !(el < sh_tree[tree_idx]);
    tree_idx = 2 * tree_idx + 1 + cmp; }]. *)
Fixpoint traverse (sh_tree : list T) (el : T) (levels tree_idx : nat) : nat :=
  match levels with
  | O => tree_idx
  | S levels' =>
      let cmp := negb (lt el (sh_tree !!! tree_idx)) in
      traverse sh_tree el levels' (2 * tree_idx + 1 + (if cmp then 1 else 0))
  end.

(** [uint32 bucket = tree_idx - searchtree_inner_size], with [sh_tree] the
    first [searchtree_inner_size] entries of the tree. *)
Definition bucket_of (tree : list T) (el : T) : nat :=
  traverse (take searchtree_inner_size tree) el sampleselect_searchtree_height 0
  - searchtree_inner_size.

(** The leaf of bucket [b]: [tree[searchtree_inner_size + b]]. *)
Definition leaf (tree : list T) (b : nat) : T :=
  tree !!! (searchtree_inner_size + b).

(** The index range of block [blockIdx]: its threads start at [threadIdx +
    default_block_size * blockIdx * items_per_thread] and step by
    [default_block_size] up to [min(block_end, size)], so together they
    visit every index of the range once. *)
Definition block_indices (items_per_thread size blockIdx : nat) : list nat :=
  let block_begin := default_block_size * blockIdx * items_per_thread in
  let block_end := default_block_size * (blockIdx + 1) * items_per_thread in
  seq block_begin (Nat.min block_end size - block_begin).

(** ** The classification once the shared arrays are loaded

    What [count_buckets] does with an element, with a block and with the
    grid when [sh_tree] holds all inner nodes of the tree and [sh_counter]
    is cleared; the kernel itself follows, and is shown below to do this
    when it is launched with a thread for every bucket. *)
Definition classify_element (input : list V) (tree : list T)
    (st : list nat * list nat) (i : nat) : list nat * list nat :=
  let '(sh_counter, oracles) := st in
  let el := abs (input !!! i) in
  let bucket := bucket_of tree el in
  (<[bucket := sh_counter !!! bucket + 1]> sh_counter,
   <[i := bucket mod 256]> oracles).

Definition classify_block (input : list V) (size : nat) (tree : list T)
    (items_per_thread gridDim : nat)
    (st : list nat * list nat) (blockIdx : nat) : list nat * list nat :=
  let '(counter, oracles) := st in
  let '(sh_counter, oracles') :=
    foldl (classify_element input tree)
          (replicate searchtree_width 0, oracles)
          (block_indices items_per_thread size blockIdx) in
  (foldl (fun cnt threadIdx =>
            <[blockIdx + threadIdx * gridDim := sh_counter !!! threadIdx]> cnt)
         counter (seq 0 searchtree_width),
   oracles').

Definition classify_grid (input : list V) (size : nat) (tree : list T)
    (counter oracles : list nat) (items_per_thread gridDim : nat)
  : list nat * list nat :=
  foldl (classify_block input size tree items_per_thread gridDim)
        (counter, oracles) (seq 0 gridDim).

(** ** [count_buckets]

    A block has [default_block_size] threads.  The shared arrays [sh_tree]
    and [sh_counter] are not initialised: [sh_tree0] and [sh_counter0] are
    what they hold when the block starts.  The threads below
    [searchtree_inner_size] load the inner nodes of the tree, the threads
    below [searchtree_width] clear the counters. *)
Definition load_sh_tree (tree sh_tree0 : list T) : list T :=
  foldl (fun sh_tree threadIdx =>
           if threadIdx <? searchtree_inner_size
           then <[threadIdx := tree !!! threadIdx]> sh_tree
           else sh_tree) sh_tree0 (seq 0 default_block_size).

Definition clear_sh_counter (sh_counter0 : list nat) : list nat :=
  foldl (fun sh_counter threadIdx =>
           if threadIdx <? searchtree_width
           then <[threadIdx := 0]> sh_counter
           else sh_counter) sh_counter0 (seq 0 default_block_size).

(** One element: [bucket = tree_idx - searchtree_inner_size;
    atomic_add(sh_counter + bucket, 1); oracles[i] = bucket;] the oracle is
    an [unsigned char].  A block counts at most [size] elements, and [size]
    is an [IndexType], so the counters do not overflow. *)
Definition count_element (input : list V) (sh_tree : list T)
    (st : list nat * list nat) (i : nat) : list nat * list nat :=
  let '(sh_counter, oracles) := st in
  let el := abs (input !!! i) in
  let tree_idx := traverse sh_tree el sampleselect_searchtree_height 0 in
  let bucket := tree_idx - searchtree_inner_size in
  (<[bucket := sh_counter !!! bucket + 1]> sh_counter,
   <[i := bucket mod 256]> oracles).

(** One block: after the loop the threads below [searchtree_width] write
    the counters back to [counter[blockIdx + threadIdx * gridDim]]. *)
Definition count_buckets_block (input : list V) (size : nat) (tree : list T)
    (sh_tree0 : nat -> list T) (sh_counter0 : nat -> list nat)
    (items_per_thread gridDim : nat)
    (st : list nat * list nat) (blockIdx : nat) : list nat * list nat :=
  let '(counter, oracles) := st in
  let sh_tree := load_sh_tree tree (sh_tree0 blockIdx) in
  let '(sh_counter, oracles') :=
    foldl (count_element input sh_tree)
          (clear_sh_counter (sh_counter0 blockIdx), oracles)
          (block_indices items_per_thread size blockIdx) in
  (foldl (fun cnt threadIdx =>
            if threadIdx <? searchtree_width
            then <[blockIdx + threadIdx * gridDim := sh_counter !!! threadIdx]>
                   cnt
            else cnt)
         counter (seq 0 default_block_size),
   oracles').

(** [count_buckets] on a grid of [gridDim] blocks: the arrays [counter] and
    [oracles] afterwards. *)
Definition count_buckets (input : list V) (size : nat) (tree : list T)
    (sh_tree0 : nat -> list T) (sh_counter0 : nat -> list nat)
    (counter oracles : list nat) (items_per_thread gridDim : nat)
  : list nat * list nat :=
  foldl (count_buckets_block input size tree sh_tree0 sh_counter0
           items_per_thread gridDim)
        (counter, oracles) (seq 0 gridDim).

Definition ceildiv (a b : nat) : nat := (a + b - 1) / b.

(** [block_prefix_sum], launched with one block of [default_block_size]
    threads per bucket: [num_warps] warps of [config::warp_size] lanes.
    The counters are unbounded integers here and the shared array
    [warp_sums] starts zeroed; module [FixedWidth] has the kernel on
    counters of a fixed width and any initial content of [warp_sums]. *)
Definition num_warps : nat := default_block_size / warp_size.

(** [block_prefix_sum], first loop, one step of one warp: the lanes load
    their counters, scan them over the warp, and store the prefix plus the
    total of the steps before. *)
Definition warp_scan_step (offset num_blocks base_idx : nat)
    (st : list nat * list nat) (step : nat) : list nat * list nat :=
  let idx warp_lane := warp_lane + step * warp_size + base_idx in
  let val :=
    map (fun warp_lane =>
           if idx warp_lane <? num_blocks
           then st.1 !!! (offset + idx warp_lane) else 0)
        (seq 0 warp_size) in
  let scan := subwarp_prefix_sum false val in
  (foldl (fun local_counters warp_lane =>
            if idx warp_lane <? num_blocks
            then <[offset + idx warp_lane :=
                     scan.1 !!! warp_lane + st.2 !!! warp_lane]>
                   local_counters
            else local_counters) st.1 (seq 0 warp_size),
   imap (fun warp_lane total => total + scan.2 !!! warp_lane) st.2).

(** First loop of warp [warp_idx] and the store of its total. *)
Definition warp_scan (offset num_blocks : nat) (st : list nat * list nat)
    (warp_idx : nat) : list nat * list nat :=
  let work_per_warp := ceildiv num_blocks warp_size in
  let base_idx := warp_idx * work_per_warp * warp_size in
  let scanned :=
    foldl (warp_scan_step offset num_blocks base_idx)
          (st.1, replicate warp_size 0) (seq 0 work_per_warp) in
  (scanned.1, <[warp_idx := scanned.2 !!! 0]> st.2).

(** The scan of the warps' totals by warp 0. *)
Definition warp_sums_scan (bucket : nat) (warp_sums totals : list nat)
    : list nat * list nat :=
  let val :=
    map (fun warp_lane =>
           if warp_lane <? num_warps then warp_sums !!! warp_lane else 0)
        (seq 0 warp_size) in
  let scan := subwarp_prefix_sum false val in
  (foldl (fun warp_sums warp_lane =>
            if warp_lane <? num_warps
            then <[warp_lane := scan.1 !!! warp_lane]> warp_sums
            else warp_sums) warp_sums (seq 0 warp_size),
   <[bucket := scan.2 !!! 0]> totals).

(** Last loop of warp [warp_idx]. *)
Definition warp_add (offset num_blocks : nat) (warp_sums : list nat)
    (local_counters : list nat) (warp_idx : nat) : list nat :=
  let work_per_warp := ceildiv num_blocks warp_size in
  let base_idx := warp_idx * work_per_warp * warp_size in
  let warp_prefixsum := warp_sums !!! warp_idx in
  foldl (fun local_counters step =>
           foldl (fun local_counters warp_lane =>
                    let idx := warp_lane + step * warp_size + base_idx in
                    if idx <? num_blocks
                    then <[offset + idx :=
                             local_counters !!! (offset + idx) +
                             warp_prefixsum]> local_counters
                    else local_counters)
                 local_counters (seq 0 warp_size))
        local_counters (seq 0 work_per_warp).

(** [block_prefix_sum] for the block of one bucket; [local_counters] is
    [counters + num_blocks * bucket]. *)
Definition block_prefix_sum_bucket (num_blocks : nat)
    (st : list nat * list nat) (bucket : nat) : list nat * list nat :=
  let offset := num_blocks * bucket in
  let scanned :=
    foldl (warp_scan offset num_blocks) (st.1, replicate num_warps 0)
          (seq 0 num_warps) in
  let sums := warp_sums_scan bucket scanned.2 st.2 in
  (foldl (warp_add offset num_blocks sums.1) scanned.1 (seq 0 num_warps),
   sums.2).

Definition block_prefix_sum (counters totals : list nat) (num_blocks : nat)
  : list nat * list nat :=
  foldl (block_prefix_sum_bucket num_blocks) (counters, totals)
        (seq 0 searchtree_width).

(** Modelled from the spec: the host routine [components::prefix_sum],
    which is not among the sources (its kernels [start_prefix_sum] and
    [finalize_prefix_sum] are, in components/prefix_sum.hpp.inc, and their
    comments are followed here): the prefix sum of the first
    [num_elements] entries, in place and exclusive, so that entry [b] is the
    number of elements below bucket [b] as step 4 of the spec reads it; the
    last entry is not read. *)
Definition prefix_sum (elements : list nat) (num_elements : nat) : list nat :=
  foldl (fun acc tidx => <[tidx := sum_list (take tidx elements)]> acc)
        elements (seq 0 num_elements).

(** Modelled from the spec: [group_wide_search], which is not among the
    sources; the spec has a binary or group search for the bucket [b] with
    [prefix_sum[b] <= r < prefix_sum[b+1]].  It returns the first index of
    [offset .. offset + length) where the predicate holds, and [offset +
    length] when there is none. *)
Fixpoint group_wide_search (offset length : nat) (p : nat -> bool) : nat :=
  match length with
  | O => offset
  | S length' =>
      if p offset then offset else group_wide_search (S offset) length' p
  end.

(** [find_bucket]: the bucket index, its base rank and its size, stored in
    the first three entries of the prefix sum. *)
Definition find_bucket (prefix_sum : list nat) (rank : nat) : list nat :=
  let idx := group_wide_search 0 searchtree_width
               (fun i => rank <? prefix_sum !!! (i + 1)) in
  let base := prefix_sum !!! idx in
  let size := prefix_sum !!! (idx + 1) - base in
  <[2 := size]> (<[1 := base]> (<[0 := idx]> prefix_sum)).

(** The threads of a block perform their [atomic_add] in an order that the
    hardware picks: [atomic_order] is that order of a block's indices. *)
Variable atomic_order : list nat -> list nat.

(** [filter_bucket], one element: [found = bucket == oracles[i]; ofs =
    atomic_add(&counter, found); if (found) output[ofs] = abs(input[i]);] *)
Definition filter_element (input : list V) (bucket : nat) (oracles : list nat)
    (st : nat * list T) (i : nat) : nat * list T :=
  let '(counter, output) := st in
  let found := bucket =? oracles !!! i in
  let ofs := counter in
  (counter + (if found then 1 else 0),
   if found then <[ofs := abs (input !!! i)]> output else output).

(** [filter_bucket], one block: the counter starts at
    [block_offsets[blockIdx + bucket * gridDim]]. *)
Definition filter_bucket_block (input : list V) (size bucket : nat)
    (oracles block_offsets : list nat) (items_per_thread gridDim : nat)
    (output : list T) (blockIdx : nat) : list T :=
  let counter := block_offsets !!! (blockIdx + bucket * gridDim) in
  (foldl (filter_element input bucket oracles) (counter, output)
         (atomic_order (block_indices items_per_thread size blockIdx))).2.

Definition filter_bucket (input : list V) (size bucket : nat)
    (oracles block_offsets : list nat) (output : list T)
    (items_per_thread gridDim : nat) : list T :=
  foldl (filter_bucket_block input size bucket oracles block_offsets
                             items_per_thread gridDim)
        output (seq 0 gridDim).

(** [basecase_select], launched with one block of [basecase_block_size]
    threads.  Thread [t] loads [local[i] = idx < size ? input[idx] :
    sentinel] for [idx = t + i * basecase_block_size]; after the sort it
    holds the entries [t * basecase_local_size + i] of the sorted sequence,
    and the thread [rank / basecase_local_size] stores its
    [local[rank % basecase_local_size]].  The result is [None] when no
    thread stores. *)
Definition basecase_size : nat := 1024.
Definition basecase_local_size : nat := 4.
Definition basecase_block_size : nat := basecase_size / basecase_local_size.

(** [device_numeric_limits<ValueType>::inf]. *)
Variable inf : T.

Definition basecase_load (input : list T) (size : nat) : list T :=
  flat_map (fun threadIdx =>
              map (fun i =>
                     let idx := threadIdx + i * basecase_block_size in
                     if idx <? size then input !!! idx else inf)
                  (seq 0 basecase_local_size))
           (seq 0 basecase_block_size).

Definition basecase_select (input : list T) (size rank : nat) : option T :=
  let sorted := bitonic_sort (basecase_load input size) in
  let threadIdx := rank / basecase_local_size in
  if threadIdx <? basecase_block_size then
    Some (sorted !!! (threadIdx * basecase_local_size
                      + rank mod basecase_local_size))
  else None.

Variable items_per_thread : nat.

(** ** The layout of the search tree *)

Local Abbreviation height := sampleselect_searchtree_height.

Lemma searchtree_width_pow : searchtree_width = 2 ^ height.
Proof. unfold searchtree_width. apply Nat.shiftl_1_l. Qed.

(** Where thread [idx > 0] stores its splitter. *)
Definition inner_pos (idx : nat) : nat :=
  Nat.shiftr idx (ffs (Z.of_nat idx))
  + (Nat.shiftl 1 (height - ffs (Z.of_nat idx)) - 1).

Lemma thread_decompose idx :
  0 < idx < searchtree_width ->
  exists j e, idx = (2 * j + 1) * 2 ^ e /\ e < height /\
              j < 2 ^ (height - S e) /\
              inner_pos idx = j + (2 ^ (height - S e) - 1).
Proof.
  rewrite searchtree_width_pow. intros [Hpos Hlt].
  destruct (odd_multiple_decompose idx Hpos) as (j & e & ->).
  exists j, e.
  assert (He : e < height).
  { destruct (le_lt_dec height e) as [Hle | ]; [| assumption].
    pose proof (Nat.pow_le_mono_r 2 height e ltac:(lia) Hle). nia. }
  assert (Hj : j < 2 ^ (height - S e)).
  { replace height with (S e + (height - S e)) in Hlt at 1 by lia.
    rewrite Nat.pow_add_r, Nat.pow_succ_r' in Hlt.
    pose proof (Nat.pow_nonzero 2 e ltac:(lia)). nia. }
  repeat split; try assumption.
  unfold inner_pos.
  rewrite ffs_odd_multiple, shiftr_odd_multiple, Nat.shiftl_1_l. reflexivity.
Qed.

Lemma thread_of_node l j :
  l < height -> j < 2 ^ l ->
  let idx := (2 * j + 1) * 2 ^ (height - S l) in
  0 < idx < searchtree_width /\ inner_pos idx = j + (2 ^ l - 1).
Proof.
  intros Hl Hj idx. subst idx. rewrite searchtree_width_pow.
  pose proof (Nat.pow_nonzero 2 (height - S l) ltac:(lia)) as Hnz.
  split; [split; [nia |] |].
  - replace height with (S l + (height - S l)) at 2 by lia.
    rewrite Nat.pow_add_r, Nat.pow_succ_r'. nia.
  - unfold inner_pos.
    rewrite ffs_odd_multiple, shiftr_odd_multiple, Nat.shiftl_1_l.
    do 2 f_equal. f_equal. lia.
Qed.

Lemma node_pos_inj l j l' j' :
  j < 2 ^ l -> j' < 2 ^ l' -> j + (2 ^ l - 1) = j' + (2 ^ l' - 1) ->
  l = l' /\ j = j'.
Proof.
  intros Hj Hj' Heq.
  assert (Hmono : forall a b, a < b -> 2 * 2 ^ a <= 2 ^ b).
  { intros a b Hab. rewrite <- Nat.pow_succ_r'.
    apply Nat.pow_le_mono_r; lia. }
  pose proof (Nat.pow_nonzero 2 l ltac:(lia)).
  pose proof (Nat.pow_nonzero 2 l' ltac:(lia)).
  destruct (Nat.lt_trichotomy l l') as [Hlt | [-> | Hgt]].
  - pose proof (Hmono _ _ Hlt). lia.
  - split; [reflexivity | lia].
  - pose proof (Hmono _ _ Hgt). lia.
Qed.

Lemma inner_pos_lt idx :
  0 < idx < searchtree_width -> inner_pos idx < searchtree_inner_size.
Proof.
  intros Hidx. destruct (thread_decompose idx Hidx) as (j & e & _ & He & Hj & ->).
  unfold searchtree_inner_size. rewrite searchtree_width_pow.
  pose proof (Nat.pow_le_mono_r 2 (S (height - S e)) height ltac:(lia) ltac:(lia))
    as Hle.
  rewrite Nat.pow_succ_r' in Hle. lia.
Qed.

Lemma inner_pos_inj idx idx' :
  0 < idx < searchtree_width -> 0 < idx' < searchtree_width ->
  inner_pos idx = inner_pos idx' -> idx = idx'.
Proof.
  intros Hidx Hidx' Heq.
  destruct (thread_decompose idx Hidx) as (j & e & -> & He & Hj & Hp).
  destruct (thread_decompose idx' Hidx') as (j' & e' & -> & He' & Hj' & Hp').
  rewrite Hp, Hp' in Heq.
  destruct (node_pos_inj _ _ _ _ Hj Hj' Heq) as [Hl ->].
  replace e' with e by lia. reflexivity.
Qed.

Lemma build_searchtree_thread_eq sorted tree idx :
  build_searchtree_thread sorted tree idx =
  <[idx + searchtree_inner_size := sorted !!! (idx * sampleselect_oversampling)]>
    (if 0 <? idx
     then <[inner_pos idx := sorted !!! (idx * sampleselect_oversampling)]> tree
     else tree).
Proof. reflexivity. Qed.

(** The tree after the threads below [n] have stored their sample. *)
Lemma build_searchtree_threads sorted tree_output n :
  length tree_output = searchtree_size -> n <= searchtree_width ->
  let tree := foldl (build_searchtree_thread sorted) tree_output (seq 0 n) in
  let sample idx := sorted !!! (idx * sampleselect_oversampling) in
  length tree = searchtree_size /\
  (forall idx, idx < n -> tree !!! (idx + searchtree_inner_size) = sample idx) /\
  (forall idx, 0 < idx < n -> tree !!! (inner_pos idx) = sample idx).
Proof.
  intros Hlen. induction n as [|n IH]; intros Hn tree sample.
  - subst tree. simpl. split; [exact Hlen |]. split; intros idx Hidx; lia.
  - subst tree. rewrite seq_S, foldl_app. simpl foldl.
    destruct (IH ltac:(lia)) as (Hlen' & Hleaf & Hinner). clear IH.
    set (tree := foldl (build_searchtree_thread sorted) tree_output (seq 0 n)) in *.
    rewrite build_searchtree_thread_eq. fold (sample n).
    assert (Hsz : searchtree_size = searchtree_width + searchtree_inner_size)
      by reflexivity.
    assert (Hin : searchtree_inner_size = searchtree_width - 1) by reflexivity.
    destruct (Nat.ltb_spec 0 n) as [Hpos | Hzero].
    + pose proof (inner_pos_lt n ltac:(lia)) as Hpn.
      split; [rewrite !length_insert; exact Hlen' |]. split.
      * intros idx Hidx. destruct (decide (idx = n)) as [-> | Hne].
        -- apply list_lookup_total_insert_eq. rewrite length_insert. lia.
        -- rewrite !list_lookup_total_insert_ne by lia. apply Hleaf. lia.
      * intros idx Hidx. destruct (decide (idx = n)) as [-> | Hne].
        -- rewrite list_lookup_total_insert_ne by lia.
           apply list_lookup_total_insert_eq. lia.
        -- pose proof (inner_pos_lt idx ltac:(lia)).
           rewrite list_lookup_total_insert_ne by lia.
           rewrite list_lookup_total_insert_ne.
           ++ apply Hinner. lia.
           ++ intros Heq. apply Hne. symmetry.
              apply inner_pos_inj; [lia | lia | exact Heq].
    + assert (n = 0) as -> by lia.
      split; [rewrite length_insert; exact Hlen' |]. split.
      * intros idx Hidx. assert (idx = 0) as -> by lia.
        apply list_lookup_total_insert_eq. lia.
      * intros idx Hidx. lia.
Qed.

(** The tree that [build_searchtree] leaves: leaf [idx] and the inner node
    [j] of level [l] hold the sample of the thread that stored them. *)
Lemma build_searchtree_layout input size tree_output :
  length tree_output = searchtree_size ->
  let tree := build_searchtree input size tree_output in
  length tree = searchtree_size /\
  (forall l j, l < height -> j < 2 ^ l ->
     tree !!! (j + (2 ^ l - 1)) = leaf tree ((2 * j + 1) * 2 ^ (height - S l))).
Proof.
  intros Hlen tree. subst tree. unfold build_searchtree.
  destruct (build_searchtree_threads
              (bitonic_sort (gather_samples input size)) tree_output
              searchtree_width Hlen (le_n _)) as (Hlen' & Hleaf & Hinner).
  split; [exact Hlen' |].
  intros l j Hl Hj. destruct (thread_of_node l j Hl Hj) as [Hidx Hpos].
  unfold leaf. rewrite (Nat.add_comm searchtree_inner_size).
  rewrite Hleaf by lia. rewrite <- Hpos. apply Hinner. lia.
Qed.

(** ** Classification *)

(** What [count_buckets] needs of the tree: its size, and every inner node
    equal to the leaf of the thread that stored it. *)
Definition tree_shape (tree : list T) : Prop :=
  length tree = searchtree_size /\
  forall l j, l < height -> j < 2 ^ l ->
    tree !!! (j + (2 ^ l - 1)) = leaf tree ((2 * j + 1) * 2 ^ (height - S l)).

(** The traversal from node [j] of level [l], when the element lies between
    the leaves [j * 2^(height-l)] and [(j+1) * 2^(height-l)], ends in a leaf
    whose neighbours bound the element. *)
Lemma traverse_bounds tree el :
  tree_shape tree ->
  forall levels l j,
    l + levels = height -> j < 2 ^ l ->
    (j = 0 \/ lt el (leaf tree (j * 2 ^ (height - l))) = false) ->
    (j + 1 = 2 ^ l \/ lt el (leaf tree ((j + 1) * 2 ^ (height - l))) = true) ->
    exists b,
      traverse (take searchtree_inner_size tree) el levels (j + (2 ^ l - 1))
        = b + searchtree_inner_size /\
      b < searchtree_width /\
      (b = 0 \/ lt el (leaf tree b) = false) /\
      (b + 1 = searchtree_width \/ lt el (leaf tree (b + 1)) = true).
Proof.
  intros [Hlen Hshape].
  induction levels as [|levels IH]; intros l j Hl Hj Hlow Hup.
  - assert (l = height) as -> by lia.
    rewrite Nat.sub_diag, Nat.pow_0_r, !Nat.mul_1_r in *.
    exists j. unfold searchtree_inner_size. rewrite searchtree_width_pow.
    simpl. repeat split; assumption.
  - cbn [traverse].
    assert (Hl' : l < height) by lia.
    pose proof (Nat.pow_nonzero 2 l ltac:(lia)) as Hnz.
    assert (Hpow : 2 ^ height = 2 ^ S l * 2 ^ (height - S l)).
    { rewrite <- Nat.pow_add_r. f_equal. lia. }
    pose proof (Nat.pow_nonzero 2 (height - S l) ltac:(lia)) as Hnz'.
    assert (Hsplit : 2 ^ (height - l) = 2 * 2 ^ (height - S l)).
    { rewrite <- Nat.pow_succ_r'. f_equal. lia. }
    rewrite Nat.pow_succ_r' in Hpow.
    rewrite lookup_total_take_lt.
    2:{ unfold searchtree_inner_size. rewrite searchtree_width_pow. nia. }
    rewrite (Hshape l j Hl' Hj).
    set (node := leaf tree ((2 * j + 1) * 2 ^ (height - S l))).
    destruct (lt el node) eqn:Hcmp; simpl negb; cbv iota.
    + replace (2 * (j + (2 ^ l - 1)) + 1 + 0) with (2 * j + (2 ^ S l - 1))
        by (rewrite Nat.pow_succ_r'; lia).
      apply (IH (S l) (2 * j)).
      * lia.
      * rewrite Nat.pow_succ_r'. lia.
      * destruct Hlow as [-> | Hlow]; [left; reflexivity | right].
        rewrite Hsplit in Hlow.
        replace (2 * j * 2 ^ (height - S l))
          with (j * (2 * 2 ^ (height - S l))) by lia.
        exact Hlow.
      * right. exact Hcmp.
    + replace (2 * (j + (2 ^ l - 1)) + 1 + 1) with (2 * j + 1 + (2 ^ S l - 1))
        by (rewrite Nat.pow_succ_r'; lia).
      apply (IH (S l) (2 * j + 1)).
      * lia.
      * rewrite Nat.pow_succ_r'. lia.
      * right. exact Hcmp.
      * destruct Hup as [Hup | Hup].
        -- left. rewrite Nat.pow_succ_r'. lia.
        -- right. rewrite Hsplit in Hup.
           replace ((2 * j + 1 + 1) * 2 ^ (height - S l))
             with ((j + 1) * (2 * 2 ^ (height - S l))) by lia.
           exact Hup.
Qed.

(** The post-condition of the traversal in [count_buckets]:
    [sample[bucket] <= el < sample[bucket + 1]]. *)
Lemma bucket_of_bounds tree el :
  tree_shape tree ->
  let b := bucket_of tree el in
  b < searchtree_width /\
  (0 < b -> lt el (leaf tree b) = false) /\
  (b + 1 < searchtree_width -> lt el (leaf tree (b + 1)) = true).
Proof.
  intros Hshape b. subst b. unfold bucket_of.
  destruct (traverse_bounds tree el Hshape height 0 0)
    as (b & Hb & Hlt & Hlow & Hup).
  - lia.
  - simpl. lia.
  - left. reflexivity.
  - left. reflexivity.
  - simpl in Hb. rewrite Hb.
    replace (b + searchtree_inner_size - searchtree_inner_size) with b by lia.
    split; [exact Hlt |]. split.
    + intros Hpos. destruct Hlow as [-> | Hlow]; [lia | exact Hlow].
    + intros Hlast. destruct Hup as [Hup | Hup]; [lia | exact Hup].
Qed.

(** ** Counting *)

(** The bucket of the element at index [i]. *)
Definition bucket_at (input : list V) (tree : list T) (i : nat) : nat :=
  bucket_of tree (abs (input !!! i)).

(** The number of indices of [idxs] whose element falls in bucket [b]. *)
Definition bucket_count (input : list V) (tree : list T) (b : nat)
    (idxs : list nat) : nat :=
  length (filter (fun i => bucket_at input tree i = b) idxs).

Lemma bucket_count_cons input tree b i idxs :
  bucket_count input tree b (i :: idxs) =
  (if decide (bucket_at input tree i = b) then 1 else 0)
  + bucket_count input tree b idxs.
Proof.
  unfold bucket_count. rewrite filter_cons.
  destruct (decide (bucket_at input tree i = b)); reflexivity.
Qed.

Lemma bucket_count_app input tree b l1 l2 :
  bucket_count input tree b (l1 ++ l2) =
  bucket_count input tree b l1 + bucket_count input tree b l2.
Proof.
  unfold bucket_count. rewrite list.filter_app, length_app. reflexivity.
Qed.

Lemma classify_element_fold input tree : forall idxs sh_counter oracles,
  (forall i, i ∈ idxs -> bucket_at input tree i < length sh_counter) ->
  let st := foldl (classify_element input tree) (sh_counter, oracles) idxs in
  length st.1 = length sh_counter /\ length st.2 = length oracles /\
  (forall b, b < length sh_counter ->
     st.1 !!! b = sh_counter !!! b + bucket_count input tree b idxs) /\
  (forall i, i ∈ idxs -> i < length oracles ->
     st.2 !!! i = bucket_at input tree i mod 256) /\
  (forall i, i ∉ idxs -> st.2 !!! i = oracles !!! i).
Proof.
  induction idxs as [|i idxs IH]; intros sh_counter oracles Hb st.
  - subst st. simpl. repeat split; try reflexivity.
    + intros b _. unfold bucket_count. simpl. lia.
    + intros i Hi. inversion Hi.
  - subst st. cbn [foldl].
    set (sh1 := <[bucket_at input tree i :=
                    sh_counter !!! bucket_at input tree i + 1]> sh_counter).
    set (or1 := <[i := bucket_at input tree i mod 256]> oracles).
    change (classify_element input tree (sh_counter, oracles) i) with (sh1, or1).
    assert (Hlen1 : length sh1 = length sh_counter) by apply length_insert.
    assert (Hlen2 : length or1 = length oracles) by apply length_insert.
    destruct (IH sh1 or1) as (H1 & H2 & H3 & H4 & H5).
    { intros j Hj. rewrite Hlen1. apply Hb. right. exact Hj. }
    split; [congruence |]. split; [congruence |]. split; [| split].
    + intros b Hlt. rewrite H3 by lia. rewrite bucket_count_cons.
      subst sh1. destruct (decide (bucket_at input tree i = b)) as [<- | Hne].
      * rewrite list_lookup_total_insert_eq by (apply Hb; left). lia.
      * rewrite list_lookup_total_insert_ne by exact Hne. lia.
    + intros j Hj Hlt. destruct (decide (j ∈ idxs)) as [Hin | Hnin].
      * apply H4; [exact Hin | lia].
      * rewrite H5 by exact Hnin.
        apply elem_of_cons in Hj as [-> | Hj]; [| contradiction].
        subst or1. apply list_lookup_total_insert_eq. exact Hlt.
    + intros j Hj. apply not_elem_of_cons in Hj as [Hne Hnin].
      rewrite H5 by exact Hnin. subst or1.
      apply list_lookup_total_insert_ne. congruence.
Qed.

(** The slots [blockIdx + bucket * gridDim] of distinct blocks and buckets
    are distinct. *)
Lemma grid_pos_inj B t B' t' g :
  B < g -> B' < g -> B + t * g = B' + t' * g -> B = B' /\ t = t'.
Proof.
  intros HB HB' Heq.
  destruct (Nat.lt_trichotomy t t') as [Hlt | [-> | Hgt]].
  - pose proof (Nat.mul_le_mono_r (S t) t' g ltac:(lia)). simpl in *. lia.
  - split; [lia | reflexivity].
  - pose proof (Nat.mul_le_mono_r (S t') t g ltac:(lia)). simpl in *. lia.
Qed.

(** A loop that stores [val t] at [pos t] for [t = 0 .. n-1]. *)
Lemma foldl_insert_seq {A} `{!Inhabited A} (pos : nat -> nat) (val : nat -> A)
    (l : list A) n :
  let l' := foldl (fun acc t => <[pos t := val t]> acc) l (seq 0 n) in
  length l' = length l /\
  (forall t, t < n -> pos t < length l ->
     (forall t', t' < n -> pos t' = pos t -> t' = t) -> l' !!! pos t = val t) /\
  (forall q, (forall t, t < n -> pos t <> q) -> l' !!! q = l !!! q).
Proof.
  induction n as [|n IH]; intros l'; subst l'.
  - simpl. repeat split; try reflexivity. intros; lia.
  - rewrite seq_S, foldl_app. simpl.
    destruct IH as (IH1 & IH2 & IH3).
    split; [rewrite length_insert; exact IH1 |]. split.
    + intros t Ht Hpos Hinj. destruct (decide (t = n)) as [-> | Hne].
      * apply list_lookup_total_insert_eq. lia.
      * rewrite list_lookup_total_insert_ne.
        -- apply IH2; [lia | exact Hpos |]. intros t' Ht'. apply Hinj. lia.
        -- intros Heq. apply Hne. symmetry. apply Hinj; [lia | exact Heq].
    + intros q Hq. rewrite list_lookup_total_insert_ne by (apply Hq; lia).
      apply IH3. intros t Ht. apply Hq. lia.
Qed.

Section Grid.

Variables (input : list V) (size : nat) (tree : list T).
Variable gridDim : nat.

Hypothesis tree_ok : tree_shape tree.

(** The effect of one block on [counter] and [oracles]. *)
Lemma classify_block_spec counter oracles blockIdx :
  blockIdx < gridDim -> searchtree_width * gridDim <= length counter ->
  size <= length oracles ->
  let st := classify_block input size tree items_per_thread gridDim
              (counter, oracles) blockIdx in
  let idxs := block_indices items_per_thread size blockIdx in
  length st.1 = length counter /\ length st.2 = length oracles /\
  (forall t, t < searchtree_width ->
     st.1 !!! (blockIdx + t * gridDim) = bucket_count input tree t idxs) /\
  (forall q, (forall t, t < searchtree_width -> blockIdx + t * gridDim <> q) ->
     st.1 !!! q = counter !!! q) /\
  (forall i, i ∈ idxs -> st.2 !!! i = bucket_at input tree i mod 256) /\
  (forall i, i ∉ idxs -> st.2 !!! i = oracles !!! i).
Proof.
  intros HB Hcnt Hor st idxs. subst st. unfold classify_block.
  fold idxs.
  destruct (classify_element_fold input tree idxs
              (replicate searchtree_width 0) oracles)
    as (H1 & H2 & H3 & H4 & H5).
  { intros i _. rewrite length_replicate. apply bucket_of_bounds, tree_ok. }
  destruct (foldl (classify_element input tree)
              (replicate searchtree_width 0, oracles) idxs)
    as [sh_counter oracles'] eqn:E.
  cbn [fst snd] in H1, H2, H3, H4, H5. rewrite length_replicate in H1, H3.
  destruct (foldl_insert_seq (fun t => blockIdx + t * gridDim)
              (fun t => sh_counter !!! t) counter searchtree_width)
    as (F1 & F2 & F3).
  simpl. split; [exact F1 |]. split; [exact H2 |]. split; [| split; [| split]].
  - intros t Ht. rewrite F2.
    + rewrite H3 by exact Ht. rewrite lookup_total_replicate_2 by exact Ht.
      reflexivity.
    + exact Ht.
    + nia.
    + intros t' _ Heq. nia.
  - exact F3.
  - intros i Hi. apply H4; [exact Hi |].
    unfold idxs, block_indices in Hi. apply elem_of_seq in Hi. lia.
  - exact H5.
Qed.

(** The grid covers the input. *)
Hypothesis grid_covers : size <= default_block_size * gridDim * items_per_thread.

Lemma block_indices_cover i :
  i < size -> exists blockIdx, blockIdx < gridDim /\
    i ∈ block_indices items_per_thread size blockIdx.
Proof.
  intros Hi.
  set (w := default_block_size * items_per_thread).
  assert (Hw : 0 < w) by (subst w; nia).
  exists (i / w).
  pose proof (Nat.div_mod_eq i w) as Hdm.
  pose proof (Nat.mod_upper_bound i w ltac:(lia)) as Hmod.
  split.
  - apply Nat.Div0.div_lt_upper_bound. subst w. nia.
  - unfold block_indices. apply elem_of_seq. fold w.
    replace (default_block_size * (i / w) * items_per_thread) with (w * (i / w))
      by (subst w; nia).
    replace (default_block_size * (i / w + 1) * items_per_thread)
      with (w * (i / w) + w) by (subst w; nia).
    lia.
Qed.

Lemma block_indices_disjoint i B B' :
  i ∈ block_indices items_per_thread size B ->
  i ∈ block_indices items_per_thread size B' -> B = B'.
Proof.
  unfold block_indices. rewrite !elem_of_seq. intros H1 H2.
  destruct (Nat.lt_trichotomy B B') as [Hlt | [-> | Hgt]]; [| reflexivity |]; nia.
Qed.

(** The arrays after [count_buckets]. *)
Lemma classify_grid_spec counter oracles :
  searchtree_width * gridDim <= length counter -> size <= length oracles ->
  let st := classify_grid input size tree counter oracles items_per_thread
              gridDim in
  length st.1 = length counter /\ length st.2 = length oracles /\
  (forall blockIdx t, blockIdx < gridDim -> t < searchtree_width ->
     st.1 !!! (blockIdx + t * gridDim) =
     bucket_count input tree t (block_indices items_per_thread size blockIdx)) /\
  (forall i, i < size -> st.2 !!! i = bucket_at input tree i mod 256).
Proof.
  intros Hcnt Hor st. subst st. unfold classify_grid.
  assert (Hgen : forall n, n <= gridDim ->
    let st := foldl (classify_block input size tree items_per_thread gridDim)
                    (counter, oracles) (seq 0 n) in
    length st.1 = length counter /\ length st.2 = length oracles /\
    (forall blockIdx t, blockIdx < n -> t < searchtree_width ->
       st.1 !!! (blockIdx + t * gridDim) =
       bucket_count input tree t (block_indices items_per_thread size blockIdx)) /\
    (forall i blockIdx, blockIdx < n ->
       i ∈ block_indices items_per_thread size blockIdx ->
       st.2 !!! i = bucket_at input tree i mod 256)).
  { induction n as [|n IH]; intros Hn st.
    - subst st. simpl. repeat split; try reflexivity; intros; lia.
    - subst st. rewrite seq_S, foldl_app. simpl foldl.
      destruct (IH ltac:(lia)) as (I1 & I2 & I3 & I4). clear IH.
      destruct (foldl _ (counter, oracles) (seq 0 n)) as [cnt orc].
      cbn [fst snd] in I1, I2, I3, I4.
      destruct (classify_block_spec cnt orc n ltac:(lia) ltac:(lia)
                  ltac:(lia)) as (B1 & B2 & B3 & B4 & B5 & B6).
      split; [congruence |]. split; [congruence |]. split.
      + intros B t HB Ht. destruct (decide (B = n)) as [-> | Hne].
        * apply B3. exact Ht.
        * rewrite B4; [apply I3; [lia | exact Ht] |].
          intros t' Ht' Heq.
          destruct (grid_pos_inj n t' B t gridDim ltac:(lia) ltac:(lia) Heq).
          lia.
      + intros i B HB Hi. destruct (decide (B = n)) as [-> | Hne].
        * apply B5. exact Hi.
        * rewrite B6; [apply (I4 i B); [lia | exact Hi] |].
          intros Hi'. apply Hne. eapply block_indices_disjoint; eassumption. }
  destruct (Hgen gridDim (le_n _)) as (G1 & G2 & G3 & G4).
  split; [exact G1 |]. split; [exact G2 |]. split; [exact G3 |].
  intros i Hi. destruct (block_indices_cover i Hi) as (B & HB & Hin).
  apply (G4 i B HB Hin).
Qed.

(** The blocks of the grid visit the indices [0 .. size) in order. *)
Lemma block_indices_concat :
  concat (map (block_indices items_per_thread size) (seq 0 gridDim)) = seq 0 size.
Proof.
  set (w := default_block_size * items_per_thread).
  assert (Hgen : forall n,
    concat (map (block_indices items_per_thread size) (seq 0 n)) =
    seq 0 (Nat.min (w * n) size)).
  { induction n as [|n IH].
    - rewrite Nat.mul_0_r. reflexivity.
    - rewrite seq_S, map_app, concat_app, IH. simpl.
      rewrite app_nil_r. unfold block_indices.
      replace (default_block_size * n * items_per_thread) with (w * n)
        by (subst w; nia).
      replace (default_block_size * (n + 1) * items_per_thread) with (w * S n)
        by (subst w; nia).
      destruct (le_lt_dec (w * n) size) as [Hle | Hgt].
      + rewrite (Nat.min_l (w * n) size) by exact Hle.
        rewrite <- seq_app. f_equal. nia.
      + rewrite (Nat.min_r (w * n) size) by lia.
        replace (Nat.min (w * S n) size - w * n) with 0 by nia.
        rewrite (Nat.min_r (w * S n) size) by nia.
        apply app_nil_r. }
  rewrite Hgen. f_equal. subst w. nia.
Qed.

End Grid.

(** ** Prefix sums and the search for the bucket *)

Section BlockPrefixSum.

(** A warp is a power of two of lanes. *)
Variable h : nat.
Hypothesis warp_size_pow : warp_size = 2 ^ h.

Lemma warp_size_pos : 0 < warp_size.
Proof. rewrite warp_size_pow. apply Nat.neq_0_lt_0, Nat.pow_nonzero. lia. Qed.

Lemma ceildiv_covers a : a <= ceildiv a warp_size * warp_size.
Proof.
  pose proof warp_size_pos as Hpos. unfold ceildiv.
  pose proof (Nat.div_mod_eq (a + warp_size - 1) warp_size) as E.
  pose proof (Nat.mod_upper_bound (a + warp_size - 1) warp_size ltac:(lia)).
  nia.
Qed.

(** The sum of [g] over the indices from [a] to [b - 1]. *)
Definition range_sum (g : nat -> nat) (a b : nat) : nat :=
  sum_list (map g (seq a (b - a))).

Lemma range_sum_nil g a b : b <= a -> range_sum g a b = 0.
Proof.
  intros Hle. unfold range_sum. replace (b - a) with 0 by lia. reflexivity.
Qed.

Lemma range_sum_snoc g a b :
  a <= b -> range_sum g a (S b) = range_sum g a b + g b.
Proof.
  intros Hle. unfold range_sum. replace (S b - a) with (S (b - a)) by lia.
  rewrite seq_S, map_app, sum_list_with_app. simpl.
  replace (a + (b - a)) with b by lia. unfold id. lia.
Qed.

Lemma range_sum_split g a b c :
  a <= b -> b <= c -> range_sum g a c = range_sum g a b + range_sum g b c.
Proof.
  intros Hab Hbc. induction c as [|c IH].
  - replace b with 0 by lia. replace a with 0 by lia. reflexivity.
  - destruct (decide (b = S c)) as [->|Hne].
    + rewrite (range_sum_nil g (S c) (S c)) by lia. lia.
    + rewrite !range_sum_snoc by lia. rewrite IH by lia. lia.
Qed.

Lemma range_sum_ext g g' a b :
  (forall l, a <= l -> l < b -> g l = g' l) ->
  range_sum g a b = range_sum g' a b.
Proof.
  intros Hg. unfold range_sum. f_equal. apply map_ext_in.
  intros l Hl. apply in_seq in Hl. apply Hg; lia.
Qed.

(** The sum of the values the lanes load in one step: the counters from
    [X + Y] on, cut off at [num_blocks]. *)
Lemma clamped_sum g X Y num_blocks r :
  sum_list (map (fun lane => if lane + X + Y <? num_blocks
                             then g (lane + X + Y) else 0) (seq 0 r)) =
  range_sum g (Nat.min (X + Y) num_blocks) (Nat.min (X + Y + r) num_blocks).
Proof.
  induction r as [|r IH].
  - rewrite Nat.add_0_r. simpl. symmetry. apply range_sum_nil. lia.
  - rewrite seq_S, map_app, sum_list_with_app, IH. simpl.
    destruct (Nat.ltb_spec (r + X + Y) num_blocks) as [Hlt|Hge].
    + replace (Nat.min (X + Y + S r) num_blocks) with (S (X + Y + r)) by lia.
      replace (Nat.min (X + Y + r) num_blocks) with (X + Y + r) by lia.
      rewrite range_sum_snoc by lia. unfold id.
      replace (r + X + Y) with (X + Y + r) by lia. lia.
    + replace (Nat.min (X + Y + S r) num_blocks) with
        (Nat.min (X + Y + r) num_blocks) by lia.
      unfold id. lia.
Qed.

Lemma foldl_insert_while {A} (pos : nat -> nat) (val : nat -> A) X Y
    num_blocks (l : list A) n :
  foldl (fun acc lane => if lane + X + Y <? num_blocks
                         then <[pos lane := val lane]> acc else acc)
        l (seq 0 n) =
  foldl (fun acc lane => <[pos lane := val lane]> acc) l
        (seq 0 (Nat.min n (num_blocks - (X + Y)))).
Proof.
  induction n as [|n IH]; [reflexivity|].
  rewrite seq_S, foldl_app, IH. cbn [foldl Nat.add].
  destruct (Nat.ltb_spec (n + X + Y) num_blocks) as [Hlt|Hge].
  - replace (Nat.min (S n) (num_blocks - (X + Y))) with (S n) by lia.
    replace (Nat.min n (num_blocks - (X + Y))) with n by lia.
    rewrite seq_S, foldl_app. reflexivity.
  - replace (Nat.min (S n) (num_blocks - (X + Y)))
      with (Nat.min n (num_blocks - (X + Y))) by lia.
    reflexivity.
Qed.

Lemma take_map_seq {A} (f : nat -> A) n r :
  r <= n -> take r (map f (seq 0 n)) = map f (seq 0 r).
Proof.
  intros Hr. rewrite <- fmap_take, take_seq.
  replace (Nat.min r n) with r by lia. reflexivity.
Qed.

Section Bucket.

Variable counters : list nat.
Variables offset num_blocks : nat.
Hypothesis counters_fit : offset + num_blocks <= length counters.

(** The counters of the bucket before the kernel. *)
Definition local_counter (l : nat) : nat := counters !!! (offset + l).

Section Warp.

Variable base_idx : nat.

(** The counters at the start of the warp's loop: what the warp will read
    is still as it was. *)
Variable counters0 : list nat.
Hypothesis counters0_length : length counters0 = length counters.
Hypothesis counters0_fresh : forall idx,
  Nat.min base_idx num_blocks <= idx -> idx < num_blocks ->
  counters0 !!! (offset + idx) = local_counter idx.

Local Abbreviation lo := (Nat.min base_idx num_blocks).

Definition reached (s : nat) : nat :=
  Nat.min (s * warp_size + base_idx) num_blocks.

Definition scan_state (s : nat) (st : list nat * list nat) : Prop :=
  length st.1 = length counters /\
  (forall idx, lo <= idx -> idx < reached s ->
     st.1 !!! (offset + idx) = range_sum local_counter lo idx) /\
  (forall q, (forall idx, lo <= idx -> idx < reached s -> q <> offset + idx) ->
     st.1 !!! q = counters0 !!! q) /\
  length st.2 = warp_size /\
  (forall lane, lane < warp_size ->
     st.2 !!! lane = range_sum local_counter lo (reached s)).

Lemma scan_state_step s st :
  scan_state s st ->
  scan_state (S s) (warp_scan_step offset num_blocks base_idx st s).
Proof.
  intros (L1 & Hin & Hout & L2 & Htot).
  pose proof warp_size_pos as Hpos.
  set (B := s * warp_size + base_idx).
  assert (Hreach : reached s = Nat.min B num_blocks) by reflexivity.
  assert (Hreach' : reached (S s) = Nat.min (B + warp_size) num_blocks).
  { unfold reached, B. f_equal. simpl. lia. }
  assert (Hlo : lo <= reached s) by (unfold reached; lia).
  unfold warp_scan_step.
  set (val := map _ (seq 0 warp_size)).
  assert (Hval : val = map (fun lane =>
            if lane + s * warp_size + base_idx <? num_blocks
            then local_counter (lane + s * warp_size + base_idx) else 0)
            (seq 0 warp_size)).
  { unfold val. apply map_ext_in. intros lane Hl. apply in_seq in Hl.
    destruct (Nat.ltb_spec (lane + s * warp_size + base_idx) num_blocks)
      as [Hlt|Hge]; [|reflexivity].
    rewrite Hout.
    - apply counters0_fresh; lia.
    - intros idx H1 H2. rewrite Hreach in H2. unfold B in H2. lia. }
  assert (Hlen : length val = 2 ^ h).
  { unfold val. rewrite length_map, length_seq. exact warp_size_pow. }
  destruct (subwarp_prefix_sum_spec val h Hlen) as (S1 & S2 & Hscan).
  set (scan := subwarp_prefix_sum false val) in *.
  assert (Hprefix : forall r, r < warp_size ->
            scan.1 !!! r =
            range_sum local_counter (Nat.min B num_blocks)
                      (Nat.min (B + r) num_blocks)).
  { intros r Hr. destruct (Hscan r ltac:(lia)) as [E _]. rewrite E, Hval.
    rewrite take_map_seq by lia. rewrite clamped_sum. reflexivity. }
  assert (Htotal : forall r, r < warp_size ->
            scan.2 !!! r =
            range_sum local_counter (Nat.min B num_blocks)
                      (Nat.min (B + warp_size) num_blocks)).
  { intros r Hr. destruct (Hscan r ltac:(lia)) as [_ E]. rewrite E, Hval.
    rewrite clamped_sum. reflexivity. }
  cbn [fst snd]. rewrite foldl_insert_while.
  set (n' := Nat.min warp_size (num_blocks - (s * warp_size + base_idx))).
  destruct (foldl_insert_seq
              (fun lane => offset + (lane + s * warp_size + base_idx))
              (fun lane => scan.1 !!! lane + st.2 !!! lane) st.1 n')
    as (F1 & F2 & F3).
  unfold scan_state. cbn [fst snd].
  split; [rewrite F1; exact L1|]. split; [|split; [|split]].
  - intros idx H1 H2. rewrite Hreach' in H2.
    destruct (decide (idx < reached s)) as [Hold|Hnew].
    + rewrite F3; [apply Hin; assumption|].
      intros lane Hl. rewrite Hreach in Hold. unfold B in Hold. lia.
    + assert (HB : B < num_blocks) by (rewrite Hreach in Hnew; lia).
      assert (Hlane : idx - B < n') by (unfold n', B in *; lia).
      replace (offset + idx)
        with (offset + (idx - B + s * warp_size + base_idx))
        by (unfold B in *; rewrite Hreach in Hnew; lia).
      rewrite F2; [|exact Hlane|unfold B in *; lia|intros; lia].
      rewrite Hprefix, Htot by (unfold n' in Hlane; lia).
      rewrite Hreach.
      replace (Nat.min (B + (idx - B)) num_blocks) with idx
        by (rewrite Hreach in Hnew; lia).
      rewrite (range_sum_split local_counter lo (Nat.min B num_blocks) idx);
        [lia|lia|rewrite Hreach in Hnew; lia].
  - intros q Hq. rewrite F3.
    + apply Hout. intros idx H1 H2. apply Hq; [exact H1|].
      rewrite Hreach'. rewrite Hreach in H2. lia.
    + intros lane Hl Heq. apply (Hq (lane + s * warp_size + base_idx)).
      * unfold n' in Hl. lia.
      * rewrite Hreach'. unfold n', B in *. lia.
      * symmetry. exact Heq.
  - rewrite length_imap. exact L2.
  - intros lane Hl. rewrite lookup_total_imap_nat by lia.
    rewrite Htot, Htotal by lia. rewrite Hreach, Hreach'.
    rewrite <- (range_sum_split local_counter lo); lia.
Qed.

Lemma scan_state_loop n :
  scan_state n
    (foldl (warp_scan_step offset num_blocks base_idx)
           (counters0, replicate warp_size 0) (seq 0 n)).
Proof.
  induction n as [|n IH].
  - unfold scan_state, reached. cbn [foldl seq fst snd Nat.mul Nat.add].
    split; [exact counters0_length|]. split; [intros; lia|].
    split; [reflexivity|]. split; [apply length_replicate|].
    intros lane Hl. rewrite lookup_total_replicate_2 by exact Hl.
    symmetry. apply range_sum_nil. lia.
  - rewrite seq_S, foldl_app. apply scan_state_step. exact IH.
Qed.

End Warp.

(** What the first loop of warp [warp_idx] leaves. *)
Lemma warp_scan_spec warp_idx counters0 warp_sums :
  length counters0 = length counters ->
  let base_idx := warp_idx * ceildiv num_blocks warp_size * warp_size in
  let lo := Nat.min base_idx num_blocks in
  let hi := Nat.min (ceildiv num_blocks warp_size * warp_size + base_idx)
                    num_blocks in
  (forall idx, lo <= idx -> idx < num_blocks ->
     counters0 !!! (offset + idx) = local_counter idx) ->
  let st := warp_scan offset num_blocks (counters0, warp_sums) warp_idx in
  length st.1 = length counters /\
  (forall idx, lo <= idx -> idx < hi ->
     st.1 !!! (offset + idx) = range_sum local_counter lo idx) /\
  (forall q, (forall idx, lo <= idx -> idx < hi -> q <> offset + idx) ->
     st.1 !!! q = counters0 !!! q) /\
  st.2 = <[warp_idx := range_sum local_counter lo hi]> warp_sums.
Proof.
  intros Hlen base_idx lo hi Hfresh st.
  pose proof warp_size_pos as Hpos.
  destruct (scan_state_loop base_idx counters0 Hlen Hfresh
              (ceildiv num_blocks warp_size)) as (L1 & Hin & Hout & L2 & Htot).
  unfold st, warp_scan. cbn [fst snd]. fold base_idx.
  split; [exact L1|]. split; [exact Hin|]. split; [exact Hout|].
  rewrite Htot by exact Hpos. reflexivity.
Qed.

(** *** All warps *)

Hypothesis num_warps_pos : 0 < num_warps.

Definition first_loop : list nat * list nat :=
  foldl (warp_scan offset num_blocks) (counters, replicate num_warps 0)
        (seq 0 num_warps).

(** Warp 0 covers all counters of the bucket, the other warps find
    nothing below [num_blocks]. *)
Lemma first_loop_upto n :
  1 <= n -> n <= num_warps ->
  let st := foldl (warp_scan offset num_blocks)
                  (counters, replicate num_warps 0) (seq 0 n) in
  length st.1 = length counters /\
  (forall idx, idx < num_blocks ->
     st.1 !!! (offset + idx) = range_sum local_counter 0 idx) /\
  (forall q, (forall idx, idx < num_blocks -> q <> offset + idx) ->
     st.1 !!! q = counters !!! q) /\
  length st.2 = num_warps /\
  st.2 !!! 0 = range_sum local_counter 0 num_blocks /\
  (forall w, 0 < w -> w < num_warps -> st.2 !!! w = 0).
Proof.
  pose proof warp_size_pos as Hpos.
  pose proof (ceildiv_covers num_blocks) as Hcov.
  induction n as [|n IH]; [lia|]. intros _ Hn st.
  destruct (decide (n = 0)) as [->|Hnz].
  - unfold st. cbn [seq foldl].
    destruct (warp_scan_spec 0 counters (replicate num_warps 0) eq_refl)
      as (L1 & Hin & Hout & Hsum).
    { intros idx _ _. reflexivity. }
    cbn [Nat.mul Nat.add] in Hin, Hout, Hsum.
    rewrite Nat.add_0_r in Hin, Hout, Hsum.
    replace (Nat.min 0 num_blocks) with 0 in Hin, Hout, Hsum by lia.
    replace (Nat.min (ceildiv num_blocks warp_size * warp_size) num_blocks)
      with num_blocks in Hin, Hout, Hsum by lia.
    split; [exact L1|]. split; [intros; apply Hin; lia|].
    split; [intros q Hq; apply Hout; intros; apply Hq; lia|].
    rewrite Hsum, length_insert, length_replicate.
    split; [reflexivity|]. split.
    + apply list_lookup_total_insert_eq. rewrite length_replicate. lia.
    + intros w Hw1 Hw2. rewrite list_lookup_total_insert_ne by lia.
      apply lookup_total_replicate_2. exact Hw2.
  - destruct (IH ltac:(lia) ltac:(lia)) as (L1 & Hin & Hout & L2 & H0 & Hz).
    unfold st. rewrite seq_S, foldl_app. cbn [foldl Nat.add].
    set (prev := foldl _ _ (seq 0 n)) in *.
    assert (Hbase : num_blocks <=
                    n * ceildiv num_blocks warp_size * warp_size) by nia.
    destruct (warp_scan_spec n prev.1 prev.2 L1) as (L1' & _ & Hout' & Hsum).
    { intros idx H1 H2. lia. }
    replace (prev.1, prev.2) with prev in * by (destruct prev; reflexivity).
    assert (Hsame : forall q,
              (warp_scan offset num_blocks prev n).1 !!! q = prev.1 !!! q).
    { intros q. apply Hout'. intros idx H1 H2. lia. }
    split; [exact L1'|]. split; [intros; rewrite Hsame; auto|].
    split; [intros; rewrite Hsame; auto|].
    rewrite Hsum, length_insert. split; [exact L2|]. split.
    + rewrite list_lookup_total_insert_ne by lia. exact H0.
    + intros w Hw1 Hw2. destruct (decide (w = n)) as [->|Hne].
      * rewrite list_lookup_total_insert_eq by lia.
        apply range_sum_nil. lia.
      * rewrite list_lookup_total_insert_ne by lia. auto.
Qed.

Lemma first_loop_spec :
  length first_loop.1 = length counters /\
  (forall idx, idx < num_blocks ->
     first_loop.1 !!! (offset + idx) = range_sum local_counter 0 idx) /\
  (forall q, (forall idx, idx < num_blocks -> q <> offset + idx) ->
     first_loop.1 !!! q = counters !!! q) /\
  length first_loop.2 = num_warps /\
  first_loop.2 !!! 0 = range_sum local_counter 0 num_blocks /\
  (forall w, 0 < w -> w < num_warps -> first_loop.2 !!! w = 0).
Proof. apply (first_loop_upto num_warps); lia. Qed.

End Bucket.

(** *** The scan of the totals and the last loop *)

Lemma sum_first (v : nat -> nat) n :
  0 < n -> (forall l, 0 < l -> l < n -> v l = 0) ->
  sum_list (map v (seq 0 n)) = v 0.
Proof.
  induction n as [|n IH]; [lia|]. intros _ Hz.
  rewrite seq_S, map_app, sum_list_with_app. simpl.
  destruct (decide (n = 0)) as [->|Hn]; [simpl; unfold id; lia|].
  rewrite IH by (try lia; intros; apply Hz; lia).
  rewrite (Hz n) by lia. unfold id. lia.
Qed.

Lemma insert_while_lookup (p : nat -> nat) (bound : nat) (l : list nat) n i :
  foldl (fun acc lane => if lane <? bound then <[lane := p lane]> acc
                         else acc) l (seq 0 n) !!! i =
  if decide (i < n /\ i < bound /\ i < length l) then p i else l !!! i.
Proof.
  induction n as [|n IH].
  - cbn [seq foldl].
    destruct (decide (i < 0 /\ i < bound /\ i < length l));
      [lia|reflexivity].
  - rewrite seq_S, foldl_app. cbn [foldl Nat.add].
    set (prev := foldl _ l (seq 0 n)) in *.
    assert (Hlen : length prev = length l).
    { unfold prev. clear IH. induction n as [|m IHm]; [reflexivity|].
      rewrite seq_S, foldl_app. cbn [foldl Nat.add].
      destruct (m <? bound); rewrite ?length_insert; exact IHm. }
    destruct (decide (i < n /\ i < bound /\ i < length l)) as [Hi|Hi],
             (decide (i < S n /\ i < bound /\ i < length l)) as [Hi'|Hi'];
      try lia.
    + destruct (Nat.ltb_spec n bound);
        [rewrite list_lookup_total_insert_ne by lia|]; exact IH.
    + destruct (Nat.ltb_spec n bound) as [Hlt|Hge]; [|lia].
      replace i with n by lia.
      apply list_lookup_total_insert_eq. lia.
    + destruct (Nat.ltb_spec n bound) as [Hlt|Hge]; [|exact IH].
      destruct (decide (i = n)) as [->|Hne].
      * rewrite list_insert_ge by lia. exact IH.
      * rewrite list_lookup_total_insert_ne by lia. exact IH.
Qed.

Lemma warp_sums_scan_spec bucket warp_sums totals :
  0 < num_warps -> length warp_sums = num_warps ->
  (forall w, 0 < w -> w < num_warps -> warp_sums !!! w = 0) ->
  let sums := warp_sums_scan bucket warp_sums totals in
  sums.1 !!! 0 = 0 /\ sums.2 = <[bucket := warp_sums !!! 0]> totals.
Proof.
  intros Hnw Hlen Hz sums. pose proof warp_size_pos as Hpos.
  unfold sums, warp_sums_scan.
  set (v := fun warp_lane =>
              if warp_lane <? num_warps then warp_sums !!! warp_lane else 0).
  assert (Hv : length (map v (seq 0 warp_size)) = 2 ^ h).
  { rewrite length_map, length_seq. exact warp_size_pow. }
  destruct (subwarp_prefix_sum_spec _ h Hv) as (_ & _ & Hscan).
  destruct (Hscan 0 ltac:(lia)) as [Hp Ht].
  cbn [fst snd]. split.
  - rewrite insert_while_lookup.
    destruct (decide (0 < warp_size /\ 0 < num_warps /\
                      0 < length warp_sums)); [|lia].
    rewrite Hp. reflexivity.
  - rewrite Ht. f_equal. rewrite sum_first.
    + unfold v. destruct (Nat.ltb_spec 0 num_warps); [reflexivity|lia].
    + exact Hpos.
    + intros l H1 H2. unfold v.
      destruct (Nat.ltb_spec l num_warps); [apply Hz; lia|reflexivity].
Qed.

Lemma foldl_fixed {A B} (f : A -> B -> A) (a : A) (l : list B) :
  (forall x, x ∈ l -> f a x = a) -> foldl f a l = a.
Proof.
  induction l as [|x l IH]; intros Hf; [reflexivity|].
  simpl. rewrite Hf by apply list_elem_of_here.
  apply IH. intros y Hy. apply Hf. apply list_elem_of_further. exact Hy.
Qed.

Lemma insert_self (l : list nat) i : <[i := l !!! i + 0]> l = l.
Proof.
  rewrite Nat.add_0_r. destruct (decide (i < length l)) as [Hi|Hi].
  - apply list_insert_id. apply list_lookup_lookup_total_lt. exact Hi.
  - apply list_insert_ge. lia.
Qed.

(** A warp that adds zero, or that has no counter below [num_blocks],
    leaves the counters as they are. *)
Lemma warp_add_fixed offset num_blocks warp_sums local_counters warp_idx :
  warp_sums !!! warp_idx = 0 \/
  num_blocks <= warp_idx * ceildiv num_blocks warp_size * warp_size ->
  warp_add offset num_blocks warp_sums local_counters warp_idx =
  local_counters.
Proof.
  intros Hcase. unfold warp_add.
  apply foldl_fixed. intros step _.
  apply foldl_fixed. intros lane _. cbn zeta.
  destruct (Nat.ltb_spec
              (lane + step * warp_size +
               warp_idx * ceildiv num_blocks warp_size * warp_size)
              num_blocks) as [Hlt|Hge]; [|reflexivity].
  destruct Hcase as [Hz|Hb]; [|lia].
  rewrite Hz. apply insert_self.
Qed.

Lemma list_eq_total (l1 l2 : list nat) :
  length l1 = length l2 ->
  (forall q, q < length l1 -> l1 !!! q = l2 !!! q) -> l1 = l2.
Proof.
  intros Hlen Hq. apply list_eq. intros i.
  destruct (decide (i < length l1)) as [Hi|Hi].
  - rewrite (list_lookup_lookup_total_lt l1 i Hi).
    rewrite (list_lookup_lookup_total_lt l2 i) by lia.
    rewrite Hq by exact Hi. reflexivity.
  - rewrite !lookup_ge_None_2 by lia. reflexivity.
Qed.

(** The kernel leaves in the counters of the bucket their exclusive prefix
    sums, and in [totals[bucket]] their sum. *)
Lemma block_prefix_sum_bucket_result num_blocks counters totals bucket :
  num_blocks * bucket + num_blocks <= length counters ->
  0 < num_warps ->
  let local idx := counters !!! (num_blocks * bucket + idx) in
  block_prefix_sum_bucket num_blocks (counters, totals) bucket =
  (foldl (fun cnt idx =>
            <[num_blocks * bucket + idx :=
                sum_list (map local (seq 0 idx))]> cnt)
         counters (seq 0 num_blocks),
   <[bucket := sum_list (map local (seq 0 num_blocks))]> totals).
Proof.
  intros Hfit Hnw local. unfold block_prefix_sum_bucket. cbn [fst snd].
  set (offset := num_blocks * bucket) in *.
  destruct (first_loop_spec counters offset num_blocks Hfit Hnw)
    as (L1 & Hin & Hout & L2 & H0 & Hz).
  fold (first_loop counters offset num_blocks).
  set (scanned := first_loop counters offset num_blocks) in *.
  destruct (warp_sums_scan_spec bucket scanned.2 totals Hnw L2 Hz)
    as [Hs1 Hs2].
  set (sums := warp_sums_scan bucket scanned.2 totals) in *.
  assert (Hadd : foldl (warp_add offset num_blocks sums.1) scanned.1
                       (seq 0 num_warps) = scanned.1).
  { apply foldl_fixed. intros w Hw. apply elem_of_seq in Hw.
    apply warp_add_fixed. destruct (decide (w = 0)) as [->|Hne].
    - left. exact Hs1.
    - right. pose proof (ceildiv_covers num_blocks). nia. }
  rewrite Hadd, Hs2, H0. f_equal.
  - destruct (foldl_insert_seq (fun idx => offset + idx)
                (fun idx => sum_list (map local (seq 0 idx)))
                counters num_blocks) as (F1 & F2 & F3).
    apply list_eq_total; [rewrite F1; exact L1|].
    intros q Hq.
    destruct (decide (offset <= q /\ q < offset + num_blocks)) as [Hr|Hr].
    + replace q with (offset + (q - offset)) by lia.
      rewrite Hin, F2 by (try lia; intros; lia).
      unfold range_sum, local_counter. rewrite Nat.sub_0_r. reflexivity.
    + rewrite Hout, F3 by (intros; lia). reflexivity.
  - unfold range_sum, local_counter. rewrite Nat.sub_0_r. reflexivity.
Qed.

End BlockPrefixSum.

Lemma block_prefix_sum_spec h counters totals num_blocks :
  warp_size = 2 ^ h -> 0 < num_warps ->
  searchtree_width * num_blocks <= length counters ->
  searchtree_width <= length totals ->
  let st := block_prefix_sum counters totals num_blocks in
  let local b idx := counters !!! (num_blocks * b + idx) in
  length st.1 = length counters /\ length st.2 = length totals /\
  (forall b idx, b < searchtree_width -> idx < num_blocks ->
     st.1 !!! (num_blocks * b + idx) = sum_list (map (local b) (seq 0 idx))) /\
  (forall b, b < searchtree_width ->
     st.2 !!! b = sum_list (map (local b) (seq 0 num_blocks))) /\
  (forall q, searchtree_width <= q -> st.2 !!! q = totals !!! q).
Proof.
  intros Hpow Hnw Hcnt Htot st local. subst st. unfold block_prefix_sum.
  assert (Hgen : forall n, n <= searchtree_width ->
    let st := foldl (block_prefix_sum_bucket num_blocks) (counters, totals)
                    (seq 0 n) in
    length st.1 = length counters /\ length st.2 = length totals /\
    (forall b idx, b < n -> idx < num_blocks ->
       st.1 !!! (num_blocks * b + idx) = sum_list (map (local b) (seq 0 idx))) /\
    (forall q, num_blocks * n <= q -> st.1 !!! q = counters !!! q) /\
    (forall b, b < n -> st.2 !!! b = sum_list (map (local b) (seq 0 num_blocks))) /\
    (forall q, n <= q -> st.2 !!! q = totals !!! q)).
  { induction n as [|n IH]; intros Hn st.
    - subst st. simpl. repeat split; try reflexivity; intros; lia.
    - subst st. rewrite seq_S, foldl_app. simpl foldl.
      destruct (IH ltac:(lia)) as (I1 & I2 & I3 & I4 & I5 & I6). clear IH.
      destruct (foldl _ (counters, totals) (seq 0 n)) as [cnt tot].
      cbn [fst snd] in I1, I2, I3, I4, I5, I6.
      rewrite (block_prefix_sum_bucket_result h Hpow)
        by (try exact Hnw; rewrite I1; nia).
      assert (Hlocal : forall idx, idx < num_blocks ->
                cnt !!! (num_blocks * n + idx) = local n idx).
      { intros idx Hidx. unfold local. apply I4. nia. }
      assert (Hsum : forall m, m <= num_blocks ->
                sum_list (map (fun idx => cnt !!! (num_blocks * n + idx)) (seq 0 m))
                = sum_list (map (local n) (seq 0 m))).
      { intros m Hm. f_equal. apply map_ext_in. intros idx Hidx%in_seq.
        apply Hlocal. lia. }
      destruct (foldl_insert_seq (fun idx => num_blocks * n + idx)
        (fun idx => sum_list
           (map (fun idx0 => cnt !!! (num_blocks * n + idx0)) (seq 0 idx)))
        cnt num_blocks) as (F1 & F2 & F3).
      cbn [fst snd].
      split; [congruence |]. split; [rewrite length_insert; exact I2 |].
      split; [| split; [| split]].
      + intros b idx Hb Hidx. destruct (decide (b = n)) as [-> | Hne].
        * rewrite F2; [apply Hsum; lia | exact Hidx | nia | intros; lia].
        * rewrite F3; [apply I3; [lia | exact Hidx] |].
          intros t Ht. nia.
      + intros q Hq. rewrite F3; [apply I4; nia |]. intros t Ht. nia.
      + intros b Hb. destruct (decide (b = n)) as [-> | Hne].
        * rewrite list_lookup_total_insert_eq by lia. apply Hsum. lia.
        * rewrite list_lookup_total_insert_ne by lia. apply I5. lia.
      + intros q Hq. rewrite list_lookup_total_insert_ne by lia. apply I6. lia. }
  destruct (Hgen searchtree_width (le_n _)) as (G1 & G2 & G3 & _ & G5 & G6).
  repeat split; assumption.
Qed.

Lemma prefix_sum_spec elements num_elements :
  num_elements <= length elements ->
  let out := prefix_sum elements num_elements in
  length out = length elements /\
  (forall i, i < num_elements -> out !!! i = sum_list (take i elements)) /\
  (forall i, num_elements <= i -> out !!! i = elements !!! i).
Proof.
  intros Hn out. subst out. unfold prefix_sum.
  destruct (foldl_insert_seq (fun tidx => tidx)
              (fun tidx => sum_list (take tidx elements)) elements num_elements)
    as (F1 & F2 & F3).
  split; [exact F1 |]. split.
  - intros i Hi. apply F2; [exact Hi | lia | intros; assumption].
  - intros i Hi. apply F3. intros t Ht. lia.
Qed.

Lemma group_wide_search_spec p : forall length offset,
  let r := group_wide_search offset length p in
  offset <= r <= offset + length /\
  (forall i, offset <= i < r -> p i = false) /\
  (r < offset + length -> p r = true).
Proof.
  induction length as [|n IH]; intros offset r; subst r; simpl.
  - repeat split; intros; lia.
  - destruct (p offset) eqn:E.
    + split; [lia |]. split; [intros; lia | intros _; exact E].
    + destruct (IH (S offset)) as (H1 & H2 & H3).
      split; [lia |]. split.
      * intros i Hi. destruct (decide (i = offset)) as [-> | Hne]; [exact E |].
        apply H2. lia.
      * intros Hr. apply H3. lia.
Qed.

(** [find_bucket] on a prefix sum that starts at zero and ends above the
    rank. *)
Lemma find_bucket_spec prefix rank :
  3 <= length prefix ->
  prefix !!! 0 = 0 -> rank < prefix !!! searchtree_width ->
  let out := find_bucket prefix rank in
  let idx := out !!! 0 in
  idx < searchtree_width /\
  out !!! 1 = prefix !!! idx /\
  out !!! 2 = prefix !!! (idx + 1) - prefix !!! idx /\
  prefix !!! idx <= rank < prefix !!! (idx + 1) /\
  length out = length prefix /\
  (forall q, 3 <= q -> out !!! q = prefix !!! q).
Proof.
  intros Hlen H0 Hlast out idx. subst idx out. unfold find_bucket.
  destruct (group_wide_search_spec (fun i => rank <? prefix !!! (i + 1))
              searchtree_width 0) as (H1 & H2 & H3).
  set (idx := group_wide_search 0 searchtree_width _) in *.
  rewrite list_lookup_total_insert_ne by lia.
  rewrite list_lookup_total_insert_ne by lia.
  rewrite list_lookup_total_insert_eq by lia.
  assert (Hidx : idx < searchtree_width).
  { destruct (decide (idx = searchtree_width)) as [Heq | Hne]; [| lia].
    assert (0 < searchtree_width)
      by (rewrite searchtree_width_pow; pose proof (Nat.pow_nonzero 2 height); lia).
    specialize (H2 (searchtree_width - 1) ltac:(lia)).
    simpl in H2. apply Nat.ltb_ge in H2.
    replace (searchtree_width - 1 + 1) with searchtree_width in H2 by lia. lia. }
  split; [exact Hidx |]. split; [| split; [| split; [| split]]].
  - rewrite list_lookup_total_insert_ne by lia.
    apply list_lookup_total_insert_eq. rewrite length_insert. lia.
  - apply list_lookup_total_insert_eq. rewrite !length_insert. lia.
  - specialize (H3 ltac:(lia)). simpl in H3. apply Nat.ltb_lt in H3.
    split; [| exact H3].
    destruct (decide (idx = 0)) as [-> | Hne]; [lia |].
    specialize (H2 (idx - 1) ltac:(lia)). simpl in H2. apply Nat.ltb_ge in H2.
    replace (idx - 1 + 1) with idx in H2 by lia. exact H2.
  - rewrite !length_insert. reflexivity.
  - intros q Hq. rewrite !list_lookup_total_insert_ne by lia. reflexivity.
Qed.

(** ** Compaction *)

Section Filter.

Variables (input : list V) (size bucket : nat) (oracles block_offsets : list nat).
Variable gridDim : nat.

(** The indices of a list that [filter_bucket] copies. *)
Definition hits (idxs : list nat) : list nat :=
  filter (fun i => bucket = oracles !!! i) idxs.

Lemma filter_element_fold : forall idxs pre suf,
  length (hits idxs) <= length suf ->
  foldl (filter_element input bucket oracles) (length pre, pre ++ suf) idxs =
  (length pre + length (hits idxs),
   pre ++ map (fun i => abs (input !!! i)) (hits idxs)
       ++ drop (length (hits idxs)) suf).
Proof.
  induction idxs as [|i idxs IH]; intros pre suf Hlen.
  - simpl. rewrite Nat.add_0_r. reflexivity.
  - cbn [foldl]. unfold hits in *. rewrite filter_cons in *.
    unfold filter_element at 2.
    destruct (Nat.eqb_spec bucket (oracles !!! i)) as [Heq | Hne].
    + destruct (decide (bucket = oracles !!! i)); [| contradiction].
      destruct suf as [|x suf]; [simpl in Hlen; lia |].
      replace (<[length pre := abs (input !!! i)]> (pre ++ x :: suf))
        with ((pre ++ [abs (input !!! i)]) ++ suf).
      2:{ rewrite <- (Nat.add_0_r (length pre)), insert_app_r. simpl.
          rewrite <- app_assoc. reflexivity. }
      replace (length pre + 1) with (length (pre ++ [abs (input !!! i)]))
        by (rewrite length_app; reflexivity).
      rewrite IH by (simpl in Hlen; lia).
      rewrite length_app, <- app_assoc. simpl. f_equal. lia.
    + destruct (decide (bucket = oracles !!! i)); [contradiction |].
      rewrite Nat.add_0_r. apply IH. exact Hlen.
Qed.

Hypothesis atomic_order_perm : forall l, atomic_order l ≡ₚ l.

(** The indices that the blocks below [n] copy, in the order of the
    writes. *)
Definition copied (n : nat) : list nat :=
  concat (map (fun blockIdx =>
                 hits (atomic_order (block_indices items_per_thread size blockIdx)))
              (seq 0 n)).

Lemma copied_S n :
  copied (S n) =
  copied n ++ hits (atomic_order (block_indices items_per_thread size n)).
Proof.
  unfold copied. rewrite seq_S, map_app, concat_app. simpl.
  rewrite app_nil_r. reflexivity.
Qed.

Lemma copied_perm n :
  copied n ≡ₚ
  hits (concat (map (block_indices items_per_thread size) (seq 0 n))).
Proof.
  induction n as [|n IH]; [reflexivity |].
  rewrite copied_S, seq_S, map_app, concat_app. simpl. rewrite app_nil_r.
  assert (Happ : forall l1 l2, hits (l1 ++ l2) = hits l1 ++ hits l2)
    by (intros; apply list.filter_app).
  rewrite Happ, IH. apply Permutation_app_head.
  unfold hits. rewrite (atomic_order_perm _). reflexivity.
Qed.

(** [filter_bucket], when the offset of every block is the number of
    elements that the blocks before it copy: the output starts with the
    copied elements. *)
Lemma filter_bucket_spec output :
  (forall blockIdx, blockIdx < gridDim ->
     block_offsets !!! (blockIdx + bucket * gridDim) = length (copied blockIdx)) ->
  length (copied gridDim) <= length output ->
  filter_bucket input size bucket oracles block_offsets output items_per_thread
                gridDim =
  map (fun i => abs (input !!! i)) (copied gridDim)
  ++ drop (length (copied gridDim)) output.
Proof.
  intros Hoff Hlen. unfold filter_bucket.
  assert (Hgen : forall n, n <= gridDim ->
    foldl (filter_bucket_block input size bucket oracles block_offsets
                               items_per_thread gridDim) output (seq 0 n) =
    map (fun i => abs (input !!! i)) (copied n) ++ drop (length (copied n)) output).
  { induction n as [|n IH]; intros Hn; [reflexivity |].
    rewrite seq_S, foldl_app, IH by lia. simpl foldl.
    unfold filter_bucket_block. rewrite Hoff by lia.
    assert (Hmono : length (copied (S n)) <= length (copied gridDim)).
    { unfold copied. replace gridDim with (S n + (gridDim - S n)) by lia.
      rewrite seq_app, map_app, concat_app, length_app. lia. }
    rewrite copied_S, length_app in Hmono.
    replace (length (copied n))
      with (length (map (fun i => abs (input !!! i)) (copied n))) at 1
      by apply length_map.
    rewrite filter_element_fold by (rewrite length_drop; lia).
    cbn [snd]. rewrite copied_S, map_app, length_app, <- app_assoc.
    rewrite drop_drop. reflexivity. }
  apply Hgen. lia.
Qed.

End Filter.

(** ** Order statistics and buckets *)

Section Order.

(** The comparison [<] of the magnitude type is a strict total order (the
    floating-point comparison on values that are not NaN). *)
Hypothesis lt_irrefl : forall a, lt a a = false.
Hypothesis lt_trans : forall a b c, lt a b = true -> lt b c = true -> lt a c = true.
Hypothesis lt_total : forall a b, lt a b = false -> lt b a = false -> a = b.

(** [a <= b] is [!(b < a)], as in [cmp = !(el < sh_tree[tree_idx])]. *)
Definition le (a b : T) : Prop := lt b a = false.

#[local] Instance le_dec : RelDecision le.
Proof. intros a b. unfold le. apply _. Defined.

Lemma lt_le_trans a b c : lt a b = true -> le b c -> lt a c = true.
Proof.
  unfold le. intros Hab Hbc.
  destruct (lt a c) eqn:Hac; [reflexivity |].
  destruct (lt c a) eqn:Hca.
  - rewrite (lt_trans c a b Hca Hab) in Hbc. discriminate.
  - rewrite (lt_total a c Hac Hca) in Hab. congruence.
Qed.

Lemma le_lt_trans a b c : le a b -> lt b c = true -> lt a c = true.
Proof.
  unfold le. intros Hab Hbc.
  destruct (lt a c) eqn:Hac; [reflexivity |].
  destruct (lt c a) eqn:Hca.
  - rewrite (lt_trans b c a Hbc Hca) in Hab. discriminate.
  - rewrite <- (lt_total a c Hac Hca) in Hbc. congruence.
Qed.

#[local] Instance le_trans : Transitive le.
Proof.
  intros a b c Hab Hbc. unfold le.
  destruct (lt c a) eqn:Hca; [| reflexivity].
  pose proof (lt_le_trans c a b Hca Hab) as Hcb. unfold le in Hbc. congruence.
Qed.

#[local] Instance le_total : Total le.
Proof.
  intros a b. unfold le.
  destruct (lt b a) eqn:Hba; [| left; reflexivity].
  right. destruct (lt a b) eqn:Hab; [| reflexivity].
  pose proof (lt_trans a b a Hab Hba) as Haa. rewrite lt_irrefl in Haa.
  discriminate.
Qed.

#[local] Instance le_antisym : AntiSymm (=) le.
Proof. intros a b Hab Hba. apply lt_total; assumption. Qed.

Lemma le_refl a : le a a.
Proof. apply lt_irrefl. Qed.

(** The reference: the [r]-th smallest element of a list is entry [r] of
    the list fully sorted. *)
Definition kth_smallest (l : list T) (r : nat) : T := merge_sort le l !!! r.

(** Any sorted permutation of a list is that reference. *)
Lemma sorted_perm_merge_sort l l' :
  Sorted le l' -> l' ≡ₚ l -> l' = merge_sort le l.
Proof.
  intros Hs Hp. apply (Sorted_unique le); [exact Hs | apply Sorted_merge_sort; apply _ |].
  rewrite Hp. symmetry. apply merge_sort_Permutation.
Qed.

Lemma kth_smallest_perm l l' r : l ≡ₚ l' -> kth_smallest l r = kth_smallest l' r.
Proof.
  intros Hp. unfold kth_smallest. f_equal.
  apply sorted_perm_merge_sort; [apply Sorted_merge_sort; apply _ |].
  rewrite merge_sort_Permutation. exact Hp.
Qed.

(** Buckets: a classification [f] of the elements into [0 .. n) that is
    monotone, in that elements of a lower bucket are below those of a
    higher one. *)
Section Buckets.

Variable f : T -> nat.
Hypothesis f_mono : forall x y, f x < f y -> le x y.

Definition in_bucket (b : nat) (l : list T) : list T :=
  filter (fun x => f x = b) l.

Definition below_bucket (b : nat) (l : list T) : list T :=
  filter (fun x => f x < b) l.

Lemma below_bucket_S b l :
  below_bucket (S b) l ≡ₚ below_bucket b l ++ in_bucket b l.
Proof.
  unfold below_bucket, in_bucket. induction l as [|x l IH]; [reflexivity |].
  rewrite !filter_cons.
  destruct (decide (f x < S b)), (decide (f x < b)), (decide (f x = b));
    try lia; simpl.
  - rewrite IH. reflexivity.
  - rewrite IH. apply Permutation_middle.
  - exact IH.
Qed.

Lemma below_bucket_all n l :
  Forall (fun x => f x < n) l -> below_bucket n l = l.
Proof.
  unfold below_bucket. induction 1 as [|x l Hx Hl IH]; [reflexivity |].
  rewrite filter_cons. destruct (decide (f x < n)); [| contradiction].
  rewrite IH. reflexivity.
Qed.

(** The sorted list is the sorted lower buckets, then the sorted bucket
    [b], then the rest. *)
Lemma merge_sort_split b l :
  exists rest,
    merge_sort le l =
    merge_sort le (below_bucket b l) ++ merge_sort le (in_bucket b l) ++ rest.
Proof.
  exists (merge_sort le (filter (fun x => b < f x) l)).
  symmetry. apply sorted_perm_merge_sort.
  - apply StronglySorted_Sorted.
    assert (Hss : forall k, StronglySorted le (merge_sort le k))
      by (intros; apply StronglySorted_merge_sort; apply _).
    assert (Hin : forall (P : T -> Prop) `{!forall x, Decision (P x)} k x,
              x ∈ merge_sort le (filter P k) -> P x).
    { intros P HP k x Hx. rewrite merge_sort_Permutation in Hx.
      apply list_elem_of_filter in Hx. tauto. }
    apply StronglySorted_app_2; [| apply Hss |].
    + intros x y Hx Hy. apply Hin in Hx.
      apply elem_of_app in Hy as [Hy | Hy]; apply Hin in Hy.
      * apply f_mono. lia.
      * apply f_mono. lia.
    + apply StronglySorted_app_2; [| apply Hss | apply Hss].
      intros x y Hx Hy. apply Hin in Hx. apply Hin in Hy. apply f_mono. lia.
  - rewrite !merge_sort_Permutation.
    unfold below_bucket, in_bucket. clear f_mono.
    induction l as [|x l IH]; [reflexivity |].
    rewrite !filter_cons.
    destruct (decide (f x < b)), (decide (f x = b)), (decide (b < f x));
      try lia; simpl.
    + apply perm_skip. exact IH.
    + rewrite <- Permutation_middle. apply perm_skip. exact IH.
    + rewrite app_assoc, <- Permutation_middle. apply perm_skip.
      rewrite <- app_assoc. exact IH.
Qed.

(** The element of rank [r] lies in the bucket [b] that the ranks below
    [b] do not reach and the ranks up to [b] do, at rank [r] less the
    number of elements below [b]. *)
Lemma kth_smallest_in_bucket l b r out :
  out ≡ₚ in_bucket b l ->
  length (below_bucket b l) <= r < length (below_bucket b l) + length out ->
  kth_smallest l r = kth_smallest out (r - length (below_bucket b l)).
Proof.
  intros Hout Hr. rewrite (kth_smallest_perm out _ _ Hout).
  unfold kth_smallest. destruct (merge_sort_split b l) as [rest ->].
  assert (Hlen : forall k, length (merge_sort le k) = length k)
    by (intros; apply Permutation_length, merge_sort_Permutation).
  rewrite lookup_total_app_r by (rewrite Hlen; lia).
  rewrite Hlen. apply lookup_total_app_l.
  rewrite Hlen. rewrite (Permutation_length Hout) in Hr. lia.
Qed.

End Buckets.

(** *** The sort, the leaves and the buckets *)

(** What is assumed of [bitonic_sort]: it sorts. *)
Hypothesis bitonic_sort_sorted : forall l, Sorted le (bitonic_sort l).
Hypothesis bitonic_sort_perm : forall l, bitonic_sort l ≡ₚ l.

Lemma bitonic_sort_merge_sort l : bitonic_sort l = merge_sort le l.
Proof.
  apply sorted_perm_merge_sort; [apply bitonic_sort_sorted | apply bitonic_sort_perm].
Qed.

Lemma StronglySorted_lookup_le l :
  StronglySorted le l ->
  forall i j, i <= j -> j < length l -> le (l !!! i) (l !!! j).
Proof.
  induction 1 as [|x l Hl IH Hx]; intros i j Hij Hj; [simpl in Hj; lia |].
  destruct j as [|j].
  - assert (i = 0) as -> by lia. apply le_refl.
  - destruct i as [|i].
    + simpl. apply (Forall_lookup_total_1 _ l j); [exact Hx | simpl in Hj; lia].
    + simpl. apply IH; simpl in Hj; lia.
Qed.

Lemma build_searchtree_leaf input size tree_output idx :
  length tree_output = searchtree_size -> idx < searchtree_width ->
  leaf (build_searchtree input size tree_output) idx =
  bitonic_sort (gather_samples input size) !!! (idx * sampleselect_oversampling).
Proof.
  intros Hlen Hidx. unfold build_searchtree, leaf.
  destruct (build_searchtree_threads
              (bitonic_sort (gather_samples input size)) tree_output
              searchtree_width Hlen (le_n _)) as (_ & Hleaf & _).
  rewrite (Nat.add_comm searchtree_inner_size). apply Hleaf. exact Hidx.
Qed.

(** The leaves of the tree are sorted. *)
Lemma build_searchtree_leaves_sorted input size tree_output b b' :
  length tree_output = searchtree_size ->
  b <= b' -> b' < searchtree_width ->
  le (leaf (build_searchtree input size tree_output) b)
     (leaf (build_searchtree input size tree_output) b').
Proof.
  intros Hlen Hb Hb'. rewrite !build_searchtree_leaf by (try exact Hlen; lia).
  set (sorted := bitonic_sort (gather_samples input size)).
  assert (Hsl : length sorted = sample_size).
  { subst sorted. rewrite (Permutation_length (bitonic_sort_perm _)).
    unfold gather_samples. rewrite length_map, length_seq. reflexivity. }
  destruct sampleselect_oversampling as [|k] eqn:Hk.
  - rewrite !Nat.mul_0_r. apply le_refl.
  - apply StronglySorted_lookup_le.
    + apply Sorted_StronglySorted; [apply _ | apply bitonic_sort_sorted].
    + nia.
    + rewrite Hsl. unfold sample_size. rewrite Hk. nia.
Qed.

(** Elements of a lower bucket are below those of a higher one. *)
Lemma bucket_of_mono input size tree_output x y :
  length tree_output = searchtree_size ->
  let tree := build_searchtree input size tree_output in
  bucket_of tree x < bucket_of tree y -> le x y.
Proof.
  intros Hlen tree Hlt.
  assert (Hshape : tree_shape tree)
    by (apply build_searchtree_layout; exact Hlen).
  destruct (bucket_of_bounds tree x Hshape) as (Hbx & _ & Hupx).
  destruct (bucket_of_bounds tree y Hshape) as (Hby & Hlowy & _).
  specialize (Hupx ltac:(lia)). specialize (Hlowy ltac:(lia)).
  pose proof (build_searchtree_leaves_sorted input size tree_output
                (bucket_of tree x + 1) (bucket_of tree y) Hlen ltac:(lia) Hby)
    as Hleaves.
  fold tree in Hleaves.
  unfold le. destruct (lt y x) eqn:Hyx; [| reflexivity].
  pose proof (lt_trans _ _ _ Hyx Hupx) as H1.
  pose proof (lt_le_trans _ _ _ H1 Hleaves) as H2.
  congruence.
Qed.

(** *** The base case *)

Hypothesis inf_top : forall x, le x inf.

Lemma map_lookup_total_seq {A} `{!Inhabited A} (l : list A) n :
  n <= length l -> map (fun i => l !!! i) (seq 0 n) = take n l.
Proof.
  induction n as [|n IH]; intros Hn; [reflexivity |].
  rewrite seq_S, map_app, IH by lia. simpl.
  symmetry. apply take_S_r. apply list_lookup_lookup_total_lt. lia.
Qed.

Lemma map_const_replicate {A B} (g : A -> B) (c : B) (l : list A) :
  (forall x, In x l -> g x = c) -> map g l = replicate (length l) c.
Proof.
  induction l as [|x l IH]; intros H; [reflexivity |].
  simpl. rewrite (H x) by (left; reflexivity).
  rewrite IH by (intros; apply H; right; assumption). reflexivity.
Qed.

(** The threads of [basecase_select] load every index below
    [basecase_size] once. *)
Lemma flat_map_transpose {A B C} (g : A -> B -> C) (xs : list A) (ys : list B) :
  flat_map (fun x => map (g x) ys) xs ≡ₚ
  flat_map (fun y => map (fun x => g x y) xs) ys.
Proof.
  induction xs as [|x xs IH]; simpl.
  - induction ys as [|y ys IHy]; [reflexivity | exact IHy].
  - rewrite IH. clear IH.
    induction ys as [|y ys IHy]; [reflexivity |].
    simpl. apply perm_skip. rewrite <- IHy.
    rewrite !app_assoc. apply Permutation_app_tail. apply Permutation_app_comm.
Qed.

Lemma flat_map_rows a c :
  flat_map (fun i => map (fun t => t + i * a) (seq 0 a)) (seq 0 c) = seq 0 (c * a).
Proof.
  induction c as [|c IH]; [reflexivity |].
  rewrite seq_S, flat_map_app, IH. simpl. rewrite app_nil_r.
  replace (a + c * a) with (c * a + a) by lia. rewrite seq_app. f_equal.
  replace (0 + c * a) with (c * a + 0) by lia.
  rewrite <- (fmap_add_seq (c * a) 0 a). apply map_ext. intros; lia.
Qed.

Lemma basecase_load_perm input size :
  size <= length input -> size <= basecase_size ->
  basecase_load input size ≡ₚ
  take size input ++ replicate (basecase_size - size) inf.
Proof.
  intros Hin Hsz. unfold basecase_load.
  set (g idx := if idx <? size then input !!! idx else inf).
  transitivity (map g (seq 0 basecase_size)).
  - etransitivity;
      [apply (flat_map_transpose
                (fun threadIdx i => g (threadIdx + i * basecase_block_size))) |].
    change basecase_size with (basecase_local_size * basecase_block_size).
    rewrite <- flat_map_rows.
    generalize (seq 0 basecase_local_size). intros rows.
    induction rows as [|i rows IH]; [reflexivity |].
    cbn [flat_map]. rewrite map_app, map_map. apply Permutation_app_head.
    exact IH.
  - replace basecase_size with (size + (basecase_size - size)) at 1 by lia.
    rewrite seq_app, map_app. apply Permutation_refl'. f_equal.
    + rewrite <- (map_lookup_total_seq input size Hin).
      apply map_ext_in. intros i Hi%in_seq. subst g. simpl.
      destruct (Nat.ltb_spec i size); [reflexivity | lia].
    + rewrite (map_const_replicate g inf).
      * rewrite length_seq. reflexivity.
      * intros i Hi%in_seq. subst g. simpl.
        destruct (Nat.ltb_spec i size); [lia | reflexivity].
Qed.

(** [basecase_select] returns the element of rank [rank] of the first
    [size] entries. *)
Lemma basecase_select_spec input size rank :
  size <= length input -> size <= basecase_size -> rank < size ->
  basecase_select input size rank = Some (kth_smallest (take size input) rank).
Proof.
  intros Hin Hsz Hrank. unfold basecase_select.
  assert (Ht : rank / basecase_local_size < basecase_block_size).
  { apply Nat.Div0.div_lt_upper_bound.
    change (basecase_local_size * basecase_block_size) with basecase_size. lia. }
  destruct (Nat.ltb_spec (rank / basecase_local_size) basecase_block_size);
    [| lia].
  f_equal.
  replace (rank / basecase_local_size * basecase_local_size
           + rank mod basecase_local_size) with rank
    by (pose proof (Nat.div_mod_eq rank basecase_local_size); lia).
  unfold kth_smallest.
  assert (Hsorted : bitonic_sort (basecase_load input size) =
            merge_sort le (take size input)
            ++ replicate (basecase_size - size) inf).
  { rewrite bitonic_sort_merge_sort. symmetry. apply sorted_perm_merge_sort.
    - apply StronglySorted_Sorted, StronglySorted_app_2.
      + intros x y _ Hy. apply elem_of_replicate in Hy as [-> _]. apply inf_top.
      + apply StronglySorted_merge_sort; apply _.
      + generalize (basecase_size - size). intros n.
        induction n as [|n IHn]; simpl; constructor; [exact IHn |].
        apply Forall_forall. intros y Hy.
        apply elem_of_replicate in Hy as [-> _]. apply le_refl.
    - rewrite merge_sort_Permutation. symmetry.
      apply basecase_load_perm; assumption. }
  rewrite Hsorted. apply lookup_total_app_l.
  rewrite (Permutation_length (merge_sort_Permutation _ _)), length_take. lia.
Qed.


End Order.

(** ** The kernel with a thread for every bucket

    [count_buckets] "must be launched with default_block_size >=
    searchtree_width": every inner node is then loaded and every counter
    cleared and written back, whatever the shared arrays held. *)

Lemma foldl_guard_prefix {A} (f : A -> nat -> A) (m n : nat) (a : A) :
  foldl (fun acc t => if t <? m then f acc t else acc) a (seq 0 n) =
  foldl f a (seq 0 (Nat.min m n)).
Proof.
  induction n as [|n IH]; [rewrite Nat.min_0_r; reflexivity|].
  rewrite seq_S, foldl_app, IH. cbn [foldl Nat.add].
  destruct (Nat.ltb_spec n m) as [Hlt|Hge].
  - replace (Nat.min m (S n)) with (S n) by lia.
    replace (Nat.min m n) with n by lia.
    rewrite seq_S, foldl_app. reflexivity.
  - replace (Nat.min m (S n)) with (Nat.min m n) by lia. reflexivity.
Qed.

Lemma lists_equal_by_lookup {A} `{!Inhabited A} (l1 l2 : list A) :
  length l1 = length l2 ->
  (forall q, q < length l1 -> l1 !!! q = l2 !!! q) -> l1 = l2.
Proof.
  intros Hlen Hq. apply list_eq. intros i.
  destruct (decide (i < length l1)) as [Hi|Hi].
  - rewrite (list_lookup_lookup_total_lt l1 i Hi).
    rewrite (list_lookup_lookup_total_lt l2 i) by lia.
    rewrite Hq by exact Hi. reflexivity.
  - rewrite !lookup_ge_None_2 by lia. reflexivity.
Qed.

Lemma load_sh_tree_all (tree sh_tree0 : list T) :
  searchtree_inner_size <= default_block_size ->
  length sh_tree0 = searchtree_inner_size ->
  searchtree_inner_size <= length tree ->
  load_sh_tree tree sh_tree0 = take searchtree_inner_size tree.
Proof.
  intros Hb H0 Ht. unfold load_sh_tree.
  rewrite (foldl_guard_prefix (fun sh t => <[t := tree !!! t]> sh)).
  replace (Nat.min searchtree_inner_size default_block_size)
    with searchtree_inner_size by lia.
  destruct (foldl_insert_seq (fun t => t) (fun t => tree !!! t) sh_tree0
              searchtree_inner_size) as (L & Hw & _).
  apply lists_equal_by_lookup.
  - rewrite L, length_take. lia.
  - intros q Hq. rewrite L in Hq.
    rewrite (Hw q) by (try lia; intros t' _ E; exact E).
    rewrite lookup_total_take.
    destruct (decide (q < searchtree_inner_size)); [reflexivity|lia].
Qed.

Lemma clear_sh_counter_all (sh_counter0 : list nat) :
  searchtree_width <= default_block_size ->
  length sh_counter0 = searchtree_width ->
  clear_sh_counter sh_counter0 = replicate searchtree_width 0.
Proof.
  intros Hb H0. unfold clear_sh_counter.
  rewrite (foldl_guard_prefix (fun sh t => <[t := 0]> sh)).
  replace (Nat.min searchtree_width default_block_size)
    with searchtree_width by lia.
  destruct (foldl_insert_seq (fun t => t) (fun _ => 0) sh_counter0
              searchtree_width) as (L & Hw & _).
  apply lists_equal_by_lookup.
  - rewrite L, length_replicate. exact H0.
  - intros q Hq. rewrite L in Hq.
    rewrite (Hw q) by (try lia; intros t' _ E; exact E).
    rewrite lookup_total_replicate_2 by lia. reflexivity.
Qed.

Lemma count_buckets_block_classify input size tree sh_tree0 sh_counter0
    gridDim st blockIdx :
  searchtree_width <= default_block_size ->
  length (sh_tree0 blockIdx) = searchtree_inner_size ->
  length (sh_counter0 blockIdx) = searchtree_width ->
  searchtree_inner_size <= length tree ->
  count_buckets_block input size tree sh_tree0 sh_counter0 items_per_thread
    gridDim st blockIdx =
  classify_block input size tree items_per_thread gridDim st blockIdx.
Proof.
  intros Hb Ht0 Hc0 Ht. unfold count_buckets_block, classify_block.
  destruct st as [counter oracles].
  rewrite load_sh_tree_all
    by (try assumption; unfold searchtree_inner_size; lia).
  rewrite clear_sh_counter_all by assumption.
  change (count_element input (take searchtree_inner_size tree))
    with (classify_element input tree).
  destruct (foldl (classify_element input tree) _ _) as [sh_counter oracles'].
  rewrite (foldl_guard_prefix
             (fun cnt threadIdx =>
                <[blockIdx + threadIdx * gridDim := sh_counter !!! threadIdx]>
                  cnt)).
  replace (Nat.min searchtree_width default_block_size)
    with searchtree_width by lia.
  reflexivity.
Qed.

Lemma count_buckets_classify input size tree sh_tree0 sh_counter0 counter
    oracles gridDim :
  searchtree_width <= default_block_size ->
  (forall blockIdx, blockIdx < gridDim ->
     length (sh_tree0 blockIdx) = searchtree_inner_size) ->
  (forall blockIdx, blockIdx < gridDim ->
     length (sh_counter0 blockIdx) = searchtree_width) ->
  searchtree_inner_size <= length tree ->
  count_buckets input size tree sh_tree0 sh_counter0 counter oracles
    items_per_thread gridDim =
  classify_grid input size tree counter oracles items_per_thread gridDim.
Proof.
  intros Hb Ht0 Hc0 Ht. unfold count_buckets, classify_grid.
  assert (Hgen : forall n, n <= gridDim ->
    foldl (count_buckets_block input size tree sh_tree0 sh_counter0
             items_per_thread gridDim) (counter, oracles) (seq 0 n) =
    foldl (classify_block input size tree items_per_thread gridDim)
          (counter, oracles) (seq 0 n)).
  { induction n as [|n IH]; intros Hn; [reflexivity|].
    rewrite !seq_S, !foldl_app, IH by lia. cbn [foldl Nat.add].
    apply count_buckets_block_classify; auto. }
  apply Hgen. lia.
Qed.

(** Summing a counter slot of every block. *)
Definition sum_blocks (counter : list nat) (gridDim bucket : nat) : nat :=
  sum_list (map (fun blockIdx => counter !!! (blockIdx + bucket * gridDim))
                (seq 0 gridDim)).

(** [C8].  After [build_searchtree], [count_buckets] puts every element in
    a bucket [b] whose leaf splitters bound its magnitude:
    [leaf(b) <= |e| < leaf(b+1)], with nothing to check below bucket 0 and
    above the last bucket.  The bucket is the byte stored in [oracles]
    (the bucket itself for a tree height up to 8), and the counters of
    bucket [b] add up to the number of elements classified into it. *)
Theorem count_buckets_classifies input size tree_output sh_tree0
    sh_counter0 counter oracles gridDim :
  searchtree_width <= default_block_size ->
  (forall blockIdx, blockIdx < gridDim ->
     length (sh_tree0 blockIdx) = searchtree_inner_size) ->
  (forall blockIdx, blockIdx < gridDim ->
     length (sh_counter0 blockIdx) = searchtree_width) ->
  length tree_output = searchtree_size ->
  searchtree_width * gridDim <= length counter ->
  size <= length oracles ->
  size <= default_block_size * gridDim * items_per_thread ->
  let tree := build_searchtree input size tree_output in
  let st := count_buckets input size tree sh_tree0 sh_counter0 counter
              oracles items_per_thread gridDim in
  (forall i, i < size ->
     let el := abs (input !!! i) in
     let b := bucket_of tree el in
     b < searchtree_width /\
     st.2 !!! i = b mod 256 /\
     (sampleselect_searchtree_height <= 8 -> st.2 !!! i = b) /\
     (0 < b -> lt el (leaf tree b) = false) /\
     (b + 1 < searchtree_width -> lt el (leaf tree (b + 1)) = true)) /\
  (forall b, b < searchtree_width ->
     sum_blocks st.1 gridDim b = bucket_count input tree b (seq 0 size)).
Proof.
  intros Hlaunch Hsh_tree Hsh_counter Hlen Hcnt Hor Hcover tree st.
  assert (Hshape : tree_shape tree)
    by (apply build_searchtree_layout; exact Hlen).
  destruct (classify_grid_spec input size tree gridDim Hshape
              Hcover counter oracles Hcnt Hor) as (_ & _ & Hcounts & Horacle).
  rewrite <- (count_buckets_classify input size tree sh_tree0 sh_counter0
                counter oracles gridDim Hlaunch Hsh_tree Hsh_counter)
    in Hcounts, Horacle
    by (destruct Hshape as [-> _]; unfold searchtree_size; lia).
  fold st in Hcounts, Horacle.
  split.
  - intros i Hi el b.
    destruct (bucket_of_bounds tree el Hshape) as (Hb & Hlow & Hup).
    fold b in Hb, Hlow, Hup.
    pose proof (Horacle i Hi) as Ho. unfold bucket_at in Ho. fold el b in Ho.
    repeat split; try assumption.
    intros Hh. rewrite Ho. apply Nat.mod_small.
    rewrite searchtree_width_pow in Hb.
    pose proof (Nat.pow_le_mono_r 2 _ 8 ltac:(lia) Hh). simpl in *. lia.
  - intros b Hb. unfold sum_blocks.
    rewrite <- (block_indices_concat size gridDim Hcover).
    assert (Hgen : forall blocks, (forall B, B ∈ blocks -> B < gridDim) ->
      sum_list (map (fun blockIdx => st.1 !!! (blockIdx + b * gridDim)) blocks) =
      bucket_count input tree b
        (concat (map (block_indices items_per_thread size) blocks))).
    { induction blocks as [|B blocks IH]; intros HB; [reflexivity |].
      simpl. rewrite bucket_count_app, Hcounts by (try apply HB; try left; exact Hb).
      rewrite IH by (intros; apply HB; right; assumption). reflexivity. }
    apply Hgen. intros B HB. apply elem_of_seq in HB. lia.
Qed.


End Kernels.


(** ** An instance: real values, finite or infinite *)

(** The magnitudes of [double] values that are not NaN: a finite value or
    [+inf]; integers stand for the finite values. *)
Inductive mag := Fin (z : Z) | PInf.

#[global] Instance mag_inhabited : Inhabited mag := populate (Fin 0).

Definition mag_lt (a b : mag) : bool :=
  match a, b with
  | Fin x, Fin y => (x <? y)%Z
  | Fin _, PInf => true
  | PInf, _ => false
  end.

Definition mag_abs (z : Z) : mag := Fin (Z.abs z).

Definition mag_abs_mag (a : mag) : mag :=
  match a with
  | Fin z => Fin (Z.abs z)
  | PInf => PInf
  end.

(** A sort for the instance: the merge sort of stdpp. *)
Definition mag_sort (l : list mag) : list mag :=
  @merge_sort mag (le mag_lt) (le_dec mag_lt) l.

Lemma mag_lt_irrefl a : mag_lt a a = false.
Proof. destruct a; simpl; [apply Z.ltb_irrefl | reflexivity]. Qed.

Lemma mag_lt_trans a b c :
  mag_lt a b = true -> mag_lt b c = true -> mag_lt a c = true.
Proof.
  destruct a, b, c; simpl; try congruence.
  rewrite !Z.ltb_lt. lia.
Qed.

Lemma mag_lt_total a b : mag_lt a b = false -> mag_lt b a = false -> a = b.
Proof.
  destruct a, b; simpl; try congruence.
  rewrite !Z.ltb_ge. intros. f_equal. lia.
Qed.

Lemma mag_sort_sorted l : Sorted (le mag_lt) (mag_sort l).
Proof.
  unfold mag_sort.
  apply (@Sorted_merge_sort mag (le mag_lt) (le_dec mag_lt)
           (le_total mag_lt mag_lt_irrefl mag_lt_trans)).
Qed.

Lemma mag_sort_perm l : mag_sort l ≡ₚ l.
Proof. apply merge_sort_Permutation. Qed.

Lemma mag_inf_top x : le mag_lt x PInf.
Proof. destruct x; reflexivity. Qed.

Lemma mag_abs_mag_abs v : mag_abs_mag (mag_abs v) = mag_abs v.
Proof. unfold mag_abs, mag_abs_mag. rewrite Z.abs_idemp. reflexivity. Qed.

(** The values [5, 1, 4, 2, 3] with a tree of height 2 (four buckets), two
    samples per splitter and one block of four threads with two items
    each; the shared arrays start with arbitrary contents. *)
Definition scenario_values : list Z := [5; 1; 4; 2; 3]%Z.

Lemma count_buckets_classifies_witness :
  let tree := build_searchtree mag_abs 2 2 mag_sort scenario_values 5
                               (replicate 7 (Fin 0)) in
  let st := count_buckets mag_lt mag_abs 2 4 scenario_values 5 tree
                          (fun _ => replicate 3 PInf) (fun _ => [7; 7; 7; 7])
                          (replicate 4 0) (replicate 5 0) 2 1 in
  (forall i, i < 5 ->
     let el := mag_abs (scenario_values !!! i) in
     let b := bucket_of mag_lt 2 tree el in
     b < searchtree_width 2 /\
     st.2 !!! i = b mod 256 /\
     (2 <= 8 -> st.2 !!! i = b) /\
     (0 < b -> mag_lt el (leaf 2 tree b) = false) /\
     (b + 1 < searchtree_width 2 -> mag_lt el (leaf 2 tree (b + 1)) = true)) /\
  (forall b, b < searchtree_width 2 ->
     sum_blocks st.1 1 b =
     bucket_count mag_lt mag_abs 2 scenario_values tree b (seq 0 5)).
Proof.
  apply (count_buckets_classifies mag_lt mag_abs 2 2 4 mag_sort 2
           scenario_values 5 (replicate 7 (Fin 0))
           (fun _ => replicate 3 PInf) (fun _ => [7; 7; 7; 7])
           (replicate 4 0) (replicate 5 0) 1);
    try (intros blockIdx _); vm_compute; try lia; reflexivity.
Defined.

End SampleSelect.

(** * Warp-level dense block inversion (warp_blas, src/unnamed/part_000)

    A cooperative group is the list of its lanes: a per-thread variable is
    a list indexed by [thread_rank], the per-thread array [row] a list of
    rows.  This module has the kernels for a value type that computes
    exactly, the rationals; module [ValueTypes] has them over the template
    parameter [ValueType] and shows that they are these at the exact
    arithmetic. *)

Module WarpBlas.

#[global] Instance Qc_inhabited : Inhabited Qc := populate 0%Qc.

(** [group.shfl(var, src_lane)]: the value of [var] on lane [src_lane]. *)
Definition shfl {A} `{Inhabited A} (reg : list A) (src_lane : nat) : A :=
  reg !!! src_lane.

(** [x == zero<ValueType>()] *)
Definition is_zero (x : Qc) : bool := bool_decide (x = 0%Qc).

(** Modelled from the spec: [choose_pivot] is not among the sources.  The
    pivot lane is chosen among the not-yet-pivoted lanes as the one
    maximizing [|row[i]|], by a group-wide max-with-index reduction, ties
    broken by lowest lane index.  A lane that has been a pivot takes part
    with a magnitude below every absolute value. *)
Definition magnitude (local_data : Qc) (is_pivoted : bool) : Qc :=
  if is_pivoted then (- 1)%Qc else Qcabs local_data.

Fixpoint max_with_index (mags : list Qc) (lane : nat) (best : nat)
    (best_mag : Qc) : nat :=
  match mags with
  | [] => best
  | m :: rest =>
      if decide (best_mag < m)%Qc
      then max_with_index rest (S lane) lane m
      else max_with_index rest (S lane) best best_mag
  end.

Definition choose_pivot (local_data : list Qc) (is_pivoted : list bool)
    : nat :=
  match zip_with magnitude local_data is_pivoted with
  | [] => 0
  | m :: rest => max_with_index rest 1 0 m
  end.

(** Modelled from the spec: [reduce] of the components library is not
    among the sources.  A group-wide reduction hands every lane the
    combination of the values of all lanes of the group under the operator;
    the max-with-index and bitwise-AND reductions of the specification are
    instances. *)
Definition reduce {A} `{Inhabited A} (op : A -> A -> A) (local_data : list A)
    : A :=
  match local_data with
  | [] => inhabitant
  | v :: rest => foldl op v rest
  end.

Section Group.

Variable max_problem_size : nat.

(** The register [row[i]] of every lane. *)
Definition column (i : nat) (rows : list (list Qc)) : list Qc :=
  map (fun row => row !!! i) rows.

(** Iteration [i] of the loop of [apply_gauss_jordan_transform]; all lanes
    run it in lock step, the shuffle reads the key lane's [row[i]] before
    any lane writes. *)
Definition gauss_jordan_iteration (key_row : nat) (key_col_elem : list Qc)
    (rows : list (list Qc)) (i : nat) : list (list Qc) :=
  let key_row_elem := shfl (column i rows) key_row in
  imap (fun thread_rank row =>
          let row := if decide (thread_rank = key_row)
                     then <[i := 0%Qc]> row else row in
          <[i := (row !!! i + (key_col_elem !!! thread_rank) * key_row_elem)%Qc]>
            row) rows.

(** [status] is the same on all lanes (the test is on a broadcast value),
    so one flag stands for the group. *)
Definition apply_gauss_jordan_transform (key_row key_col : nat)
    (rows : list (list Qc)) (status : bool) : list (list Qc) * bool :=
  let key_col_elem := shfl (column key_col rows) key_row in
  if is_zero key_col_elem then (rows, false)
  else
    let key_col_elem :=
      imap (fun thread_rank row =>
              if decide (thread_rank = key_row)
              then (1 / key_col_elem)%Qc
              else (- (row !!! key_col) / key_col_elem)%Qc) rows in
    let rows :=
      foldl (gauss_jordan_iteration key_row key_col_elem) rows
            (seq 0 max_problem_size) in
    (imap (fun thread_rank row =>
             <[key_col := key_col_elem !!! thread_rank]> row) rows,
     status).

Record group_state := GroupState {
  g_row : list (list Qc);
  g_perm : list nat;
  g_trans_perm : list nat;
  g_pivoted : list bool;
  g_status : bool
}.

(** The body of the loop of [invert_block]. *)
Definition invert_step (problem_size : nat) (st : group_state) (i : nat)
    : group_state :=
  if decide (i < problem_size) then
    let piv := choose_pivot (column i (g_row st)) (g_pivoted st) in
    let perm := <[piv := i]> (g_perm st) in
    let pivoted := <[piv := true]> (g_pivoted st) in
    let trans_perm := <[i := piv]> (g_trans_perm st) in
    let '(row, status) :=
      apply_gauss_jordan_transform piv i (g_row st) (g_status st) in
    GroupState row perm trans_perm pivoted status
  else st.

(** Lanes from [problem_size] on start as pivoted, so that they never
    become pivots. *)
Definition invert_init (problem_size : nat) (row : list (list Qc))
    (perm trans_perm : list nat) : group_state :=
  GroupState row perm trans_perm
    (imap (fun thread_rank _ => bool_decide (problem_size <= thread_rank)) row)
    true.

Definition invert_block (problem_size : nat) (row : list (list Qc))
    (perm trans_perm : list nat) : group_state :=
  foldl (invert_step problem_size)
        (invert_init problem_size row perm trans_perm)
        (seq 0 max_problem_size).

(** [max(x, y)] of base/math. *)
Definition Qc_max (x y : Qc) : Qc := if decide (x < y)%Qc then y else x.

Definition compute_infinity_norm (num_rows num_cols : nat)
    (rows : list (list Qc)) : Qc :=
  let sum :=
    imap (fun thread_rank row =>
            if decide (thread_rank < num_rows)
            then foldl (fun sum i =>
                          if decide (i < num_cols)
                          then (sum + Qcabs (row !!! i))%Qc else sum)
                       0%Qc (seq 0 max_problem_size)
            else 0%Qc) rows in
  reduce Qc_max sum.

End Group.


(** ** Lookups *)

Definition entry (rows : list (list Qc)) (r j : nat) : Qc :=
  (rows !!! r) !!! j.

Lemma lookup_total_imap {A B} `{Inhabited A, Inhabited B}
    (f : nat -> A -> B) (l : list A) (i : nat) :
  i < length l -> imap f l !!! i = f i (l !!! i).
Proof.
  intros Hi. apply list_lookup_total_correct.
  rewrite list_lookup_imap.
  destruct (lookup_lt_is_Some_2 l i Hi) as [a Ha].
  rewrite Ha. simpl. f_equal. f_equal.
  symmetry. apply list_lookup_total_correct. exact Ha.
Qed.

Lemma lookup_total_insert_cases {A} `{Inhabited A} (l : list A) (i j : nat)
    (v : A) :
  i < length l ->
  <[i := v]> l !!! j = if decide (j = i) then v else l !!! j.
Proof.
  intros Hi. destruct (decide (j = i)) as [->|Hne].
  - apply list_lookup_total_insert_eq. exact Hi.
  - apply list_lookup_total_insert_ne. congruence.
Qed.

(** ** The pivot search *)

Lemma max_with_index_spec (all : list Qc) :
  forall mags lane best best_mag,
    drop lane all = mags ->
    best < lane -> lane <= length all ->
    all !!! best = best_mag ->
    (forall l, l < lane -> (all !!! l <= best_mag)%Qc) ->
    max_with_index mags lane best best_mag < length all /\
    forall l, l < length all ->
      (all !!! l <= all !!! max_with_index mags lane best best_mag)%Qc.
Proof.
  induction mags as [|m rest IH]; intros lane best best_mag Hd Hb Hl Hbm Hmax.
  - simpl. assert (length all <= lane).
    { destruct (decide (lane < length all)) as [Hlt|]; [|lia].
      apply (f_equal length) in Hd. rewrite length_drop in Hd.
      simpl in Hd. lia. }
    split; [lia|]. intros l Hlt. rewrite Hbm. apply Hmax. lia.
  - assert (Hlane : lane < length all).
    { apply (f_equal length) in Hd. rewrite length_drop in Hd.
      simpl in Hd. lia. }
    assert (Hm : all !!! lane = m).
    { apply list_lookup_total_correct.
      rewrite <- (Nat.add_0_r lane), <- lookup_drop, Hd. reflexivity. }
    assert (Hrest : drop (S lane) all = rest).
    { replace (S lane) with (lane + 1) by lia.
      rewrite <- drop_drop, Hd. reflexivity. }
    simpl. destruct (decide (best_mag < m)%Qc) as [Hlt|Hge].
    + apply IH; auto; try lia.
      intros l Hl'. destruct (decide (l = lane)) as [->|].
      * rewrite Hm. apply Qcle_refl.
      * apply Qcle_trans with best_mag; [apply Hmax; lia|].
        apply Qclt_le_weak. exact Hlt.
    + apply IH; auto; try lia.
      intros l Hl'. destruct (decide (l = lane)) as [->|].
      * rewrite Hm. apply Qcnot_lt_le. exact Hge.
      * apply Hmax. lia.
Qed.

Lemma lookup_total_zip_with {A B C} `{Inhabited A, Inhabited B, Inhabited C}
    (f : A -> B -> C) (l : list A) (k : list B) (i : nat) :
  i < length l -> i < length k ->
  zip_with f l k !!! i = f (l !!! i) (k !!! i).
Proof.
  intros Hl Hk. apply list_lookup_total_correct.
  rewrite lookup_zip_with.
  destruct (lookup_lt_is_Some_2 l i Hl) as [a Ha].
  destruct (lookup_lt_is_Some_2 k i Hk) as [b Hb].
  rewrite Ha, Hb. simpl.
  rewrite (list_lookup_total_correct _ _ _ Ha).
  rewrite (list_lookup_total_correct _ _ _ Hb). reflexivity.
Qed.

Lemma choose_pivot_spec (local_data : list Qc) (is_pivoted : list bool) :
  0 < length local_data -> length is_pivoted = length local_data ->
  let piv := choose_pivot local_data is_pivoted in
  piv < length local_data /\
  forall l, l < length local_data ->
    (magnitude (local_data !!! l) (is_pivoted !!! l) <=
     magnitude (local_data !!! piv) (is_pivoted !!! piv))%Qc.
Proof.
  intros Hpos Hlen piv.
  set (all := zip_with magnitude local_data is_pivoted).
  assert (Hall : length all = length local_data).
  { unfold all. rewrite length_zip_with. lia. }
  assert (Hspec : piv < length all /\
            forall l, l < length all -> (all !!! l <= all !!! piv)%Qc).
  { unfold piv, choose_pivot. fold all.
    destruct all as [|m rest] eqn:E; [simpl in Hall; lia|].
    apply (max_with_index_spec (m :: rest)); simpl; auto; try lia.
    intros l Hl. replace l with 0 by lia. apply Qcle_refl. }
  destruct Hspec as [Hp Hmax]. split; [lia|].
  intros l Hl.
  rewrite <- !(lookup_total_zip_with magnitude) by lia.
  apply Hmax. lia.
Qed.

Lemma magnitude_pivoted_lt (x y : Qc) :
  ~ (magnitude x false <= magnitude y true)%Qc.
Proof.
  unfold magnitude. intros Hle.
  assert (H0 : (0 <= Qcabs x)%Qc) by apply Qcabs_nonneg.
  assert (Hneg : (- 1 < 0)%Qc) by reflexivity.
  apply (Qclt_not_le _ _ Hneg).
  apply Qcle_trans with (Qcabs x); assumption.
Qed.

(** The chosen lane has not been a pivot before, as long as one such lane
    is left. *)
Lemma choose_pivot_fresh (local_data : list Qc) (is_pivoted : list bool)
    (l : nat) :
  length is_pivoted = length local_data ->
  l < length local_data -> is_pivoted !!! l = false ->
  is_pivoted !!! choose_pivot local_data is_pivoted = false.
Proof.
  intros Hlen Hl Hfree.
  destruct (choose_pivot_spec local_data is_pivoted) as [_ Hmax];
    [lia|exact Hlen|].
  specialize (Hmax l Hl). rewrite Hfree in Hmax.
  destruct (is_pivoted !!! choose_pivot local_data is_pivoted) eqn:E;
    [|reflexivity].
  exfalso. exact (magnitude_pivoted_lt _ _ Hmax).
Qed.

(** The element of the chosen lane is zero exactly when the reduction has
    no nonzero candidate. *)
Lemma choose_pivot_zero (local_data : list Qc) (is_pivoted : list bool)
    (l0 : nat) :
  length is_pivoted = length local_data ->
  l0 < length local_data -> is_pivoted !!! l0 = false ->
  local_data !!! choose_pivot local_data is_pivoted = 0%Qc <->
  forall l, l < length local_data -> is_pivoted !!! l = false ->
            local_data !!! l = 0%Qc.
Proof.
  intros Hlen Hl0 Hfree.
  pose proof (choose_pivot_fresh _ _ _ Hlen Hl0 Hfree) as Hpiv.
  destruct (choose_pivot_spec local_data is_pivoted) as [Hlt Hmax];
    [lia|exact Hlen|].
  split.
  - intros Hz l Hl Hf. specialize (Hmax l Hl).
    rewrite Hf, Hpiv, Hz in Hmax. unfold magnitude in Hmax.
    apply Qcabs_null. apply Qcle_antisym; [exact Hmax|apply Qcabs_nonneg].
  - intros Hall. apply Hall; assumption.
Qed.

Section Transform.

Variable max_problem_size : nat.
Variable group_size : nat.

(** A well-formed register file: one row of [max_problem_size] elements
    per lane. *)
Definition wf_rows (rows : list (list Qc)) : Prop :=
  length rows = group_size /\
  Forall (fun row => length row = max_problem_size) rows.

Lemma wf_rows_row rows r :
  wf_rows rows -> r < group_size -> length (rows !!! r) = max_problem_size.
Proof.
  intros [Hg Hall] Hr.
  apply (Forall_lookup_total_1 _ _ r) in Hall; [exact Hall|lia].
Qed.

Lemma shfl_column rows i key_row :
  key_row < length rows ->
  shfl (column i rows) key_row = entry rows key_row i.
Proof.
  intros Hk. unfold shfl, column, entry.
  rewrite (list_lookup_total_fmap (fun row => row !!! i)) by exact Hk.
  reflexivity.
Qed.

Lemma gauss_jordan_iteration_wf key_row key_col_elem rows i :
  wf_rows rows -> wf_rows (gauss_jordan_iteration key_row key_col_elem rows i).
Proof.
  intros [Hg Hall]. unfold gauss_jordan_iteration. split.
  - rewrite length_imap. exact Hg.
  - apply Forall_lookup. intros r row Hr.
    rewrite list_lookup_imap in Hr.
    destruct (rows !! r) as [row0|] eqn:E; [|discriminate].
    simpl in Hr. inversion Hr; subst row.
    rewrite Forall_lookup in Hall. specialize (Hall r row0 E).
    destruct (decide (r = key_row)); rewrite !length_insert; exact Hall.
Qed.

Lemma gauss_jordan_iteration_entry key_row key_col_elem rows i r j :
  wf_rows rows -> key_row < group_size -> i < max_problem_size ->
  r < group_size -> j < max_problem_size ->
  entry (gauss_jordan_iteration key_row key_col_elem rows i) r j =
  if decide (j = i)
  then ((if decide (r = key_row) then 0 else entry rows r i) +
        (key_col_elem !!! r) * entry rows key_row i)%Qc
  else entry rows r j.
Proof.
  intros Hwf Hk Hi Hr Hj.
  pose proof (wf_rows_row rows r Hwf Hr) as Hlen.
  destruct Hwf as [Hg Hall].
  unfold entry at 1. unfold gauss_jordan_iteration.
  rewrite lookup_total_imap by lia.
  rewrite shfl_column by lia.
  destruct (decide (r = key_row)) as [->|Hne].
  - rewrite lookup_total_insert_cases by (rewrite length_insert; lia).
    destruct (decide (j = i)) as [->|Hji].
    + rewrite list_lookup_total_insert_eq by lia. reflexivity.
    + rewrite list_lookup_total_insert_ne by congruence. reflexivity.
  - rewrite lookup_total_insert_cases by lia.
    destruct (decide (j = i)) as [->|Hji]; reflexivity.
Qed.

(** The unrolled loop of the transform: iteration [i] reads the key lane's
    element [i] before any lane overwrites it, so it reads the value on
    entry. *)
Lemma gauss_jordan_loop key_row key_col_elem rows k :
  wf_rows rows -> key_row < group_size -> k <= max_problem_size ->
  let rows' := foldl (gauss_jordan_iteration key_row key_col_elem) rows
                     (seq 0 k) in
  wf_rows rows' /\
  forall r j, r < group_size -> j < max_problem_size ->
    entry rows' r j =
    if decide (j < k)
    then ((if decide (r = key_row) then 0 else entry rows r j) +
          (key_col_elem !!! r) * entry rows key_row j)%Qc
    else entry rows r j.
Proof.
  intros Hwf Hk. induction k as [|k IH]; intros Hle rows'.
  - split; [exact Hwf|]. intros r j Hr Hj.
    destruct (decide (j < 0)); [lia|reflexivity].
  - destruct IH as [IHwf IHent]; [lia|].
    unfold rows'. rewrite seq_S, foldl_app. simpl.
    split; [apply gauss_jordan_iteration_wf; exact IHwf|].
    intros r j Hr Hj.
    rewrite gauss_jordan_iteration_entry by (auto; lia).
    destruct (decide (j = k)) as [->|Hjk].
    + rewrite !IHent by lia.
      destruct (decide (k < k)); [lia|].
      destruct (decide (k < S k)); [|lia]. reflexivity.
    + rewrite IHent by lia.
      destruct (decide (j < k)), (decide (j < S k)); try lia; reflexivity.
Qed.

Definition key_col_factor (rows : list (list Qc)) (key_row key_col r : nat)
    : Qc :=
  if decide (r = key_row) then (1 / entry rows key_row key_col)%Qc
  else (- entry rows r key_col / entry rows key_row key_col)%Qc.

Lemma apply_gauss_jordan_transform_zero key_row key_col rows status :
  key_row < group_size -> wf_rows rows ->
  entry rows key_row key_col = 0%Qc ->
  apply_gauss_jordan_transform max_problem_size key_row key_col rows status =
  (rows, false).
Proof.
  intros Hk [Hg Hall] Hz. unfold apply_gauss_jordan_transform.
  rewrite shfl_column by lia. rewrite Hz.
  unfold is_zero. rewrite bool_decide_eq_true_2 by reflexivity. reflexivity.
Qed.

Lemma apply_gauss_jordan_transform_nonzero key_row key_col rows status :
  key_row < group_size -> key_col < max_problem_size -> wf_rows rows ->
  entry rows key_row key_col <> 0%Qc ->
  exists rows',
    apply_gauss_jordan_transform max_problem_size key_row key_col rows status =
    (rows', status) /\
    wf_rows rows' /\
    forall r j, r < group_size -> j < max_problem_size ->
      entry rows' r j =
      if decide (j = key_col) then key_col_factor rows key_row key_col r
      else ((if decide (r = key_row) then 0 else entry rows r j) +
            key_col_factor rows key_row key_col r * entry rows key_row j)%Qc.
Proof.
  intros Hk Hc Hwf Hnz. unfold apply_gauss_jordan_transform.
  pose proof Hwf as [Hg Hall].
  rewrite shfl_column by lia.
  unfold is_zero. rewrite bool_decide_eq_false_2 by exact Hnz.
  set (kce := imap _ rows).
  destruct (gauss_jordan_loop key_row kce rows max_problem_size Hwf Hk
              (Nat.le_refl _)) as [Hwf' Hent].
  set (rows1 := foldl _ rows _) in *.
  assert (Hkce : forall r, r < group_size ->
            kce !!! r = key_col_factor rows key_row key_col r).
  { intros r Hr. unfold kce. rewrite lookup_total_imap by lia.
    unfold key_col_factor, entry.
    destruct (decide (r = key_row)); reflexivity. }
  eexists. split; [reflexivity|]. split.
  - destruct Hwf' as [Hg' Hall']. split.
    + rewrite length_imap. exact Hg'.
    + apply Forall_lookup. intros r row Hr.
      rewrite list_lookup_imap in Hr.
      destruct (rows1 !! r) as [row0|] eqn:E; [|discriminate].
      simpl in Hr. inversion Hr; subst row.
      rewrite Forall_lookup in Hall'. specialize (Hall' r row0 E).
      rewrite length_insert. exact Hall'.
  - intros r j Hr Hj.
    pose proof (wf_rows_row rows1 r Hwf' Hr) as Hlen.
    destruct Hwf' as [Hg' Hall'].
    unfold entry at 1. rewrite lookup_total_imap by lia.
    rewrite lookup_total_insert_cases by lia.
    destruct (decide (j = key_col)) as [->|Hne].
    + apply Hkce. exact Hr.
    + fold (entry rows1 r j). rewrite Hent by lia.
      destruct (decide (j < max_problem_size)); [|lia].
      rewrite Hkce by lia. reflexivity.
Qed.

End Transform.

(** ** Finite sums over exact rationals *)

Fixpoint sum_upto (n : nat) (f : nat -> Qc) : Qc :=
  match n with
  | 0 => 0%Qc
  | S k => (sum_upto k f + f k)%Qc
  end.

Lemma sum_upto_ext n f g :
  (forall j, j < n -> f j = g j) -> sum_upto n f = sum_upto n g.
Proof.
  induction n as [|n IH]; intros Hfg; simpl; [reflexivity|].
  rewrite IH, Hfg by (intros; auto; lia). reflexivity.
Qed.

Lemma sum_upto_plus n f g :
  sum_upto n (fun j => (f j + g j)%Qc) = (sum_upto n f + sum_upto n g)%Qc.
Proof. induction n as [|n IH]; simpl; [ring|rewrite IH; ring]. Qed.

Lemma sum_upto_scale n c f :
  sum_upto n (fun j => (c * f j)%Qc) = (c * sum_upto n f)%Qc.
Proof. induction n as [|n IH]; simpl; [ring|rewrite IH; ring]. Qed.

Lemma sum_upto_zero n : sum_upto n (fun _ => 0%Qc) = 0%Qc.
Proof. induction n as [|n IH]; simpl; [reflexivity|rewrite IH; ring]. Qed.

Lemma sum_upto_delta n k t :
  k < n ->
  sum_upto n (fun j => if decide (j = k) then t else 0%Qc) = t.
Proof.
  induction n as [|n IH]; intros Hk; [lia|]. simpl.
  destruct (decide (n = k)) as [->|Hne].
  - rewrite (sum_upto_ext k _ (fun _ => 0%Qc)).
    + rewrite sum_upto_zero. ring.
    + intros j Hj. destruct (decide (j = k)); [lia|reflexivity].
  - rewrite IH by lia. ring.
Qed.

Definition sum_Qc (l : list Qc) : Qc := foldr Qcplus 0%Qc l.

Lemma sum_Qc_app l1 l2 :
  sum_Qc (l1 ++ l2) = (sum_Qc l1 + sum_Qc l2)%Qc.
Proof. induction l1 as [|a l1 IH]; simpl; [ring|rewrite IH; ring]. Qed.

Lemma sum_upto_list n f : sum_upto n f = sum_Qc (map f (seq 0 n)).
Proof.
  induction n as [|n IH]; [reflexivity|].
  rewrite seq_S, map_app, sum_Qc_app. simpl. rewrite IH. ring.
Qed.

Lemma sum_Qc_perm l1 l2 : l1 ≡ₚ l2 -> sum_Qc l1 = sum_Qc l2.
Proof.
  induction 1 as [|a l1 l2 _ IH|a b l|l1 l2 l3 _ IH1 _ IH2]; simpl.
  - reflexivity.
  - rewrite IH. reflexivity.
  - ring.
  - congruence.
Qed.

(** Summation over a permuted index range. *)
Lemma sum_upto_reindex n (sigma tau : nat -> nat) f :
  (forall k, k < n -> sigma k < n /\ tau (sigma k) = k) ->
  sum_upto n (fun k => f (sigma k)) = sum_upto n f.
Proof.
  intros Hsig. rewrite !sum_upto_list.
  rewrite <- (map_map sigma f). apply sum_Qc_perm.
  apply Permutation_map.
  apply submseteq_length_Permutation; [|rewrite length_map; lia].
  apply NoDup_submseteq.
  - apply (NoDup_fmap_2_strong sigma); [|apply NoDup_seq].
    intros a b Ha Hb Hab.
    apply elem_of_seq in Ha, Hb.
    destruct (Hsig a) as [_ H1]; [lia|].
    destruct (Hsig b) as [_ H2]; [lia|]. congruence.
  - intros x Hx. apply list_elem_of_fmap in Hx as [k [-> Hk]].
    apply elem_of_seq in Hk. apply elem_of_seq.
    destruct (Hsig k); lia.
Qed.

(** ** Counting the lanes that are still free *)

Fixpoint count_false (l : list bool) : nat :=
  match l with
  | [] => 0
  | b :: l' => (if b then 0 else 1) + count_false l'
  end.

Lemma count_false_exists (l : list bool) :
  0 < count_false l -> exists i, i < length l /\ l !!! i = false.
Proof.
  induction l as [|b l IH]; simpl; intros Hpos; [lia|].
  destruct b.
  - destruct IH as [i [Hi Hf]]; [exact Hpos|].
    exists (S i). split; [lia|exact Hf].
  - exists 0. split; [lia|reflexivity].
Qed.

Lemma count_false_insert (l : list bool) (p : nat) :
  p < length l -> l !!! p = false ->
  count_false (<[p := true]> l) = count_false l - 1 /\ 0 < count_false l.
Proof.
  revert p. induction l as [|b l IH]; intros p Hp Hf; [simpl in Hp; lia|].
  destruct p as [|p].
  - simpl in Hf. subst b. simpl. lia.
  - simpl in Hp, Hf. destruct (IH p) as [IH1 IH2]; [lia|exact Hf|].
    change (<[S p:=true]> (b :: l)) with (b :: <[p:=true]> l).
    cbn [count_false]. rewrite IH1. destruct b; lia.
Qed.

Lemma count_false_none (l : list bool) (r : nat) :
  count_false l = 0 -> r < length l -> l !!! r = true.
Proof.
  revert r. induction l as [|b l IH]; intros r Hz Hr; [simpl in Hr; lia|].
  simpl in Hz. destruct b; [|lia].
  destruct r as [|r]; [reflexivity|]. simpl in Hr. apply IH; [exact Hz|lia].
Qed.

Lemma count_false_all (l : list bool) :
  (forall i, i < length l -> l !!! i = false) -> count_false l = length l.
Proof.
  induction l as [|b l IH]; intros Hall; [reflexivity|].
  pose proof (Hall 0 ltac:(simpl; lia)) as H0. simpl in H0. subst b.
  simpl. rewrite IH; [reflexivity|].
  intros i Hi. apply (Hall (S i)). simpl. lia.
Qed.

(** ** The elimination invariant *)

Section Inversion.

Variable max_problem_size : nat.
Variable group_size : nat.
Variable problem_size : nat.

Hypothesis problem_size_le_max : problem_size <= max_problem_size.
Hypothesis problem_size_le_group : problem_size <= group_size.

Local Abbreviation n := problem_size.

(** After [k] steps the registers hold a mixed system: column [j < k]
    stands for the right-hand side entry of the lane that was pivot of step
    [j], column [j >= k] still for the unknown [x j]; a lane that was pivot
    of step [i] has solved for [x i]. *)
Definition coefficient (k : nat) (st : group_state) (x y : nat -> Qc)
    (j : nat) : Qc :=
  if decide (j < k) then (- y (g_trans_perm st !!! j))%Qc else x j.

Definition offset (st : group_state) (x y : nat -> Qc) (r : nat) : Qc :=
  if (g_pivoted st !!! r : bool) then x (g_perm st !!! r) else (- y r)%Qc.

Definition residual (k : nat) (st : group_state) (x y : nat -> Qc)
    (r : nat) : Qc :=
  (sum_upto n (fun j => entry (g_row st) r j * coefficient k st x y j) +
   offset st x y r)%Qc.

(** [M x = y] on the leading [n]-by-[n] block. *)
Definition solves (M : list (list Qc)) (x y : nat -> Qc) : Prop :=
  forall r, r < n -> sum_upto n (fun j => (entry M r j * x j)%Qc) = y r.

Definition count_free (pivoted : list bool) : nat :=
  count_false (take n pivoted).

Record bookkeeping (k : nat) (st : group_state) : Prop := {
  bk_rows : wf_rows max_problem_size group_size (g_row st);
  bk_perm : length (g_perm st) = group_size;
  bk_trans_perm : length (g_trans_perm st) = group_size;
  bk_pivoted : length (g_pivoted st) = group_size;
  bk_inactive : forall r, n <= r -> r < group_size ->
                          g_pivoted st !!! r = true;
  bk_free : count_free (g_pivoted st) = n - k;
  bk_pivots : forall i, i < k ->
      g_trans_perm st !!! i < n /\
      g_pivoted st !!! (g_trans_perm st !!! i) = true /\
      g_perm st !!! (g_trans_perm st !!! i) = i;
  bk_lanes : forall r, r < n -> g_pivoted st !!! r = true ->
      g_perm st !!! r < k /\ g_trans_perm st !!! (g_perm st !!! r) = r
}.

Lemma count_free_exists (pivoted : list bool) :
  0 < count_free pivoted ->
  exists l, l < n /\ l < length pivoted /\ pivoted !!! l = false.
Proof.
  unfold count_free. intros Hpos.
  destruct (count_false_exists _ Hpos) as [l [Hl Hf]].
  rewrite length_take in Hl. exists l. split; [lia|]. split; [lia|].
  rewrite lookup_total_take_lt in Hf by lia. exact Hf.
Qed.

Lemma count_free_insert (pivoted : list bool) (p : nat) :
  p < n -> p < length pivoted -> pivoted !!! p = false ->
  count_free (<[p := true]> pivoted) = count_free pivoted - 1 /\
  0 < count_free pivoted.
Proof.
  unfold count_free. intros Hp Hlen Hfree.
  rewrite take_insert_lt by lia.
  apply count_false_insert.
  - rewrite length_take. lia.
  - rewrite lookup_total_take_lt by lia. exact Hfree.
Qed.

Lemma count_free_none (pivoted : list bool) (r : nat) :
  count_free pivoted = 0 -> r < n -> r < length pivoted ->
  pivoted !!! r = true.
Proof.
  unfold count_free. intros Hz Hr Hlen.
  rewrite <- (lookup_total_take_lt pivoted n r) by lia.
  apply count_false_none; [exact Hz|].
  rewrite length_take. lia.
Qed.


Definition pivot_lane (st : group_state) (i : nat) : nat :=
  choose_pivot (column i (g_row st)) (g_pivoted st).

Definition pivot_element (st : group_state) (i : nat) : Qc :=
  entry (g_row st) (pivot_lane st i) i.

Lemma invert_step_fields st k :
  k < n ->
  let st' := invert_step max_problem_size n st k in
  g_perm st' = <[pivot_lane st k := k]> (g_perm st) /\
  g_trans_perm st' = <[k := pivot_lane st k]> (g_trans_perm st) /\
  g_pivoted st' = <[pivot_lane st k := true]> (g_pivoted st) /\
  (g_row st', g_status st') =
    apply_gauss_jordan_transform max_problem_size (pivot_lane st k) k
      (g_row st) (g_status st).
Proof.
  intros Hk. unfold invert_step. destruct (decide (k < n)); [|lia].
  fold (pivot_lane st k).
  destruct (apply_gauss_jordan_transform _ _ _ _ _) as [row status].
  simpl. auto.
Qed.

Lemma invert_step_skip st i : n <= i -> invert_step max_problem_size n st i = st.
Proof.
  intros Hi. unfold invert_step. destruct (decide (i < n)); [lia|reflexivity].
Qed.

Lemma bookkeeping_init (row : list (list Qc)) (perm trans_perm : list nat) :
  wf_rows max_problem_size group_size row ->
  length perm = group_size -> length trans_perm = group_size ->
  bookkeeping 0 (invert_init n row perm trans_perm).
Proof.
  intros Hwf Hp Ht. pose proof Hwf as [Hg _].
  constructor; simpl; auto.
  - rewrite length_imap. exact Hg.
  - intros r Hr1 Hr2. rewrite lookup_total_imap by lia.
    apply bool_decide_eq_true_2. exact Hr1.
  - unfold count_free. rewrite count_false_all.
    + rewrite length_take, length_imap. lia.
    + intros i Hi. rewrite length_take, length_imap in Hi.
      rewrite lookup_total_take_lt by lia.
      rewrite lookup_total_imap by lia.
      apply bool_decide_eq_false_2. lia.
  - intros i Hi. lia.
  - intros r Hr Htrue. exfalso.
    rewrite lookup_total_imap in Htrue by lia.
    apply bool_decide_eq_true_1 in Htrue. lia.
Qed.

(** The lane chosen at step [k < n] is an active lane that has not been a
    pivot yet. *)
Lemma pivot_lane_fresh k st :
  k < n -> bookkeeping k st ->
  pivot_lane st k < n /\ g_pivoted st !!! pivot_lane st k = false.
Proof.
  intros Hk Hbk. destruct Hbk.
  destruct bk_rows0 as [Hg Hall].
  destruct (count_free_exists (g_pivoted st)) as [l [Hl1 [Hl2 Hl3]]];
    [lia|].
  assert (Hc : length (column k (g_row st)) = group_size).
  { unfold column. rewrite length_map. exact Hg. }
  assert (Hfree : g_pivoted st !!! pivot_lane st k = false).
  { apply (choose_pivot_fresh _ _ l); [lia|lia|exact Hl3]. }
  split; [|exact Hfree].
  destruct (choose_pivot_spec (column k (g_row st)) (g_pivoted st))
    as [Hlt _]; [lia|lia|].
  fold (pivot_lane st k) in Hlt.
  destruct (decide (pivot_lane st k < n)) as [|Hge]; [assumption|].
  rewrite bk_inactive0 in Hfree by lia. discriminate.
Qed.

Lemma column_lookup rows i r :
  r < length rows -> column i rows !!! r = entry rows r i.
Proof. apply shfl_column. Qed.

(** The pivot element is zero exactly when every lane that is still free
    holds a zero in the pivot column. *)
Lemma pivot_element_zero_iff k st :
  k < n -> bookkeeping k st ->
  pivot_element st k = 0%Qc <->
  forall l, l < group_size -> g_pivoted st !!! l = false ->
            entry (g_row st) l k = 0%Qc.
Proof.
  intros Hk Hbk. destruct (pivot_lane_fresh k st Hk Hbk) as [Hp Hfree].
  destruct Hbk. destruct bk_rows0 as [Hg Hall].
  assert (Hc : length (column k (g_row st)) = group_size).
  { unfold column. rewrite length_map. exact Hg. }
  pose proof (choose_pivot_zero (column k (g_row st)) (g_pivoted st)
                (pivot_lane st k) ltac:(lia) ltac:(lia) Hfree) as Hiff.
  fold (pivot_lane st k) in Hiff.
  rewrite column_lookup in Hiff by lia.
  unfold pivot_element. rewrite Hiff. rewrite Hc.
  split; intros H l Hl Hf.
  - rewrite <- column_lookup by lia. apply H; assumption.
  - rewrite column_lookup by lia. apply H; assumption.
Qed.

Lemma invert_step_bookkeeping k st :
  k < n -> bookkeeping k st -> bookkeeping (S k) (invert_step max_problem_size n st k).
Proof.
  intros Hk Hbk.
  destruct (pivot_lane_fresh k st Hk Hbk) as [Hp Hfree].
  destruct (invert_step_fields st k Hk) as [Eperm [Etp [Epiv Erow]]].
  set (p := pivot_lane st k) in *.
  set (st' := invert_step max_problem_size n st k) in *.
  destruct Hbk.
  assert (Hwf' : wf_rows max_problem_size group_size (g_row st')).
  { destruct (decide (entry (g_row st) p k = 0%Qc)) as [Hz|Hnz].
    - rewrite (apply_gauss_jordan_transform_zero _ group_size) in Erow
        by (auto; lia).
      inversion Erow as [[E1 E2]]. rewrite E1. exact bk_rows0.
    - destruct (apply_gauss_jordan_transform_nonzero max_problem_size
                  group_size p k (g_row st) (g_status st))
        as [rows' [E [Hwf _]]]; auto; try lia.
      rewrite E in Erow. inversion Erow as [[E1 E2]]. rewrite E1.
      exact Hwf. }
  constructor.
  - exact Hwf'.
  - rewrite Eperm, length_insert. exact bk_perm0.
  - rewrite Etp, length_insert. exact bk_trans_perm0.
  - rewrite Epiv, length_insert. exact bk_pivoted0.
  - intros r Hr1 Hr2. rewrite Epiv.
    rewrite list_lookup_total_insert_ne by lia. auto.
  - rewrite Epiv.
    destruct (count_free_insert (g_pivoted st) p) as [E _];
      [lia|lia|exact Hfree|].
    rewrite E, bk_free0. lia.
  - intros i Hi. rewrite Etp, Epiv, Eperm.
    destruct (decide (i = k)) as [->|Hne].
    + rewrite list_lookup_total_insert_eq by lia.
      rewrite !list_lookup_total_insert_eq by lia. auto.
    + rewrite (list_lookup_total_insert_ne (g_trans_perm st)) by lia.
      destruct (bk_pivots0 i) as [H1 [H2 H3]]; [lia|].
      assert (g_trans_perm st !!! i <> p) by congruence.
      rewrite !list_lookup_total_insert_ne by congruence. auto.
  - intros r Hr. rewrite Etp, Epiv, Eperm.
    destruct (decide (r = p)) as [->|Hne].
    + rewrite !list_lookup_total_insert_eq by lia. intros _.
      split; [lia|reflexivity].
    + rewrite !list_lookup_total_insert_ne by congruence. intros Htrue.
      destruct (bk_lanes0 r Hr Htrue) as [H1 H2].
      split; [lia|]. rewrite list_lookup_total_insert_ne by lia. exact H2.
Qed.


Lemma final_permutations st :
  bookkeeping n st ->
  (forall a, a < n -> g_trans_perm st !!! a < n /\
                      g_perm st !!! (g_trans_perm st !!! a) = a) /\
  (forall r, r < n -> g_perm st !!! r < n /\
                      g_trans_perm st !!! (g_perm st !!! r) = r /\
                      g_pivoted st !!! r = true).
Proof.
  intros Hbk. destruct Hbk. split.
  - intros a Ha. destruct (bk_pivots0 a Ha) as [H1 [_ H2]]. auto.
  - intros r Hr.
    assert (Hpiv : g_pivoted st !!! r = true).
    { apply count_free_none; [rewrite bk_free0; lia|lia|lia]. }
    destruct (bk_lanes0 r Hr Hpiv). auto.
Qed.

(** One step rescales the pivot lane's equation and adds a multiple of it
    to every other lane's equation. *)
Lemma residual_step k st x y r :
  k < n -> bookkeeping k st -> pivot_element st k <> 0%Qc -> r < n ->
  let p := pivot_lane st k in
  residual (S k) (invert_step max_problem_size n st k) x y r =
  ((if decide (r = p) then 0 else residual k st x y r) +
   key_col_factor (g_row st) p k r * residual k st x y p)%Qc.
Proof.
  intros Hk Hbk Hnz Hr p.
  destruct (pivot_lane_fresh k st Hk Hbk) as [Hp Hfree].
  destruct (invert_step_fields st k Hk) as [Eperm [Etp [Epiv Erow]]].
  fold p in Hp, Hfree, Eperm, Etp, Epiv, Erow.
  unfold pivot_element in Hnz. fold p in Hnz.
  set (st' := invert_step max_problem_size n st k) in *.
  destruct Hbk.
  destruct (apply_gauss_jordan_transform_nonzero max_problem_size
              group_size p k (g_row st) (g_status st))
    as [rows' [E [Hwf Hent]]]; auto; try lia.
  rewrite E in Erow. inversion Erow as [[Erows Estatus]]. clear Erow E.
  set (f := key_col_factor (g_row st) p k r).
  set (a := entry (g_row st) p k) in *.
  assert (Hoff : offset st' x y r =
                 if decide (r = p) then x k else offset st x y r).
  { unfold offset. rewrite Epiv, Eperm.
    destruct (decide (r = p)) as [->|Hne].
    - rewrite !list_lookup_total_insert_eq by lia. reflexivity.
    - rewrite !list_lookup_total_insert_ne by congruence. reflexivity. }
  assert (Hoffp : offset st x y p = (- y p)%Qc).
  { unfold offset. rewrite Hfree. reflexivity. }
  assert (Hck : coefficient k st x y k = x k).
  { unfold coefficient. destruct (decide (k < k)); [lia|reflexivity]. }
  assert (Hcoef : forall j, j < n ->
            coefficient (S k) st' x y j =
            if decide (j = k) then (- y p)%Qc else coefficient k st x y j).
  { intros j Hj. unfold coefficient. rewrite Etp.
    destruct (decide (j = k)) as [->|Hne].
    - destruct (decide (k < S k)); [|lia].
      rewrite list_lookup_total_insert_eq by lia. reflexivity.
    - rewrite list_lookup_total_insert_ne by congruence.
      destruct (decide (j < S k)), (decide (j < k)); try lia; reflexivity. }
  set (T := (- f * y p - (if decide (r = p) then x k else 0))%Qc).
  unfold residual.
  rewrite (sum_upto_ext n _
    (fun j => ((if decide (r = p) then 0
                else entry (g_row st) r j * coefficient k st x y j) +
               (f * (entry (g_row st) p j * coefficient k st x y j) +
                (if decide (j = k) then T else 0)))%Qc)).
  - rewrite !sum_upto_plus, sum_upto_scale, sum_upto_delta by lia.
    rewrite Hoff, Hoffp. unfold T.
    destruct (decide (r = p)).
    + rewrite sum_upto_zero. ring.
    + ring.
  - intros j Hj. rewrite Hcoef by lia. rewrite Erows.
    rewrite Hent by lia.
    destruct (decide (j = k)) as [->|Hne].
    + rewrite Hck. unfold T, f, key_col_factor. fold a.
      destruct (decide (r = p)) as [->|Hne].
      * fold a. field. exact Hnz.
      * field. exact Hnz.
    + fold f. destruct (decide (r = p)); ring.
Qed.


(** ** The run of [invert_block] *)

Variable M : list (list Qc).
Variables perm0 trans_perm0 : list nat.

Hypothesis M_wf : wf_rows max_problem_size group_size M.
Hypothesis perm0_length : length perm0 = group_size.
Hypothesis trans_perm0_length : length trans_perm0 = group_size.

(** The state of the group when step [k] of the loop starts. *)
Definition state_at_step (k : nat) : group_state :=
  foldl (invert_step max_problem_size n) (invert_init n M perm0 trans_perm0)
        (seq 0 k).

Lemma state_at_step_S k :
  state_at_step (S k) =
  invert_step max_problem_size n (state_at_step k) k.
Proof. unfold state_at_step. rewrite seq_S, foldl_app. reflexivity. Qed.

Lemma invert_block_state :
  invert_block max_problem_size n M perm0 trans_perm0 = state_at_step n.
Proof.
  unfold invert_block, state_at_step.
  replace max_problem_size with (n + (max_problem_size - n)) at 2 by lia.
  rewrite seq_app, foldl_app. simpl.
  generalize (foldl (invert_step max_problem_size n)
                (invert_init n M perm0 trans_perm0) (seq 0 n)).
  assert (Hskip : forall d s st, n <= s ->
            foldl (invert_step max_problem_size n) st (seq s d) = st).
  { induction d as [|d IH]; intros s st Hs; [reflexivity|].
    simpl. rewrite invert_step_skip by lia. apply IH. lia. }
  intros st. apply Hskip. lia.
Qed.

Lemma state_at_step_bookkeeping k :
  k <= n -> bookkeeping k (state_at_step k).
Proof.
  induction k as [|k IH]; intros Hk.
  - apply bookkeeping_init; assumption.
  - rewrite state_at_step_S. apply invert_step_bookkeeping; [lia|].
    apply IH. lia.
Qed.

(** The status flag is cleared by a zero pivot element and never set
    again. *)
Lemma status_step k :
  k < n ->
  g_status (state_at_step (S k)) =
  g_status (state_at_step k) &&
  negb (is_zero (pivot_element (state_at_step k) k)).
Proof.
  intros Hk. rewrite state_at_step_S.
  pose proof (state_at_step_bookkeeping k ltac:(lia)) as Hbk.
  destruct (pivot_lane_fresh k _ Hk Hbk) as [Hp _].
  destruct (invert_step_fields (state_at_step k) k Hk) as [_ [_ [_ Erow]]].
  destruct Hbk. unfold pivot_element.
  destruct (decide (entry (g_row (state_at_step k))
                      (pivot_lane (state_at_step k) k) k = 0%Qc))
    as [Hz|Hnz].
  - rewrite (apply_gauss_jordan_transform_zero _ group_size) in Erow
      by (auto; lia).
    injection Erow as E1 E2. rewrite E2.
    unfold is_zero. rewrite (bool_decide_eq_true_2 _ Hz).
    simpl. rewrite andb_false_r. reflexivity.
  - destruct (apply_gauss_jordan_transform_nonzero max_problem_size
                group_size (pivot_lane (state_at_step k) k) k
                (g_row (state_at_step k)) (g_status (state_at_step k)))
      as [rows' [E _]]; auto; try lia.
    rewrite E in Erow. injection Erow as E1 E2. rewrite E2.
    unfold is_zero. rewrite (bool_decide_eq_false_2 _ Hnz).
    simpl. rewrite andb_true_r. reflexivity.
Qed.

Lemma status_true_iff k :
  k <= n ->
  g_status (state_at_step k) = true <->
  forall i, i < k -> pivot_element (state_at_step i) i <> 0%Qc.
Proof.
  induction k as [|k IH]; intros Hk.
  - split; [intros _ i Hi; lia|reflexivity].
  - rewrite status_step by lia. rewrite andb_true_iff, IH by lia.
    unfold is_zero. rewrite negb_true_iff, bool_decide_eq_false.
    split.
    + intros [Hall Hk'] i Hi.
      destruct (decide (i = k)) as [->|]; [exact Hk'|apply Hall; lia].
    + intros Hall. split; [intros i Hi; apply Hall; lia|apply Hall; lia].
Qed.

Lemma residual_init x y r :
  r < n ->
  residual 0 (state_at_step 0) x y r =
  (sum_upto n (fun j => entry M r j * x j) - y r)%Qc.
Proof.
  intros Hr. unfold residual, offset, state_at_step. simpl.
  destruct M_wf as [Hg _].
  rewrite lookup_total_imap by lia.
  rewrite bool_decide_eq_false_2 by lia.
  reflexivity.
Qed.

Lemma solves_init x y :
  solves M x y <-> forall r, r < n -> residual 0 (state_at_step 0) x y r = 0%Qc.
Proof.
  unfold solves. split; intros H r Hr.
  - rewrite residual_init, H by exact Hr. ring.
  - specialize (H r Hr). rewrite residual_init in H by exact Hr.
    rewrite <- (Qcplus_0_l (y r)), <- H. ring.
Qed.

(** While no zero pivot has been met, the registers describe the system
    [M x = y]. *)
Lemma state_at_step_system k :
  k <= n -> g_status (state_at_step k) = true ->
  forall x y,
    solves M x y <->
    forall r, r < n -> residual k (state_at_step k) x y r = 0%Qc.
Proof.
  induction k as [|k IH]; intros Hk Hst x y.
  - apply solves_init.
  - rewrite status_step in Hst by lia.
    apply andb_true_iff in Hst as [Hst Hnz].
    unfold is_zero in Hnz. rewrite negb_true_iff, bool_decide_eq_false in Hnz.
    rewrite (IH ltac:(lia) Hst x y). rewrite state_at_step_S.
    pose proof (state_at_step_bookkeeping k ltac:(lia)) as Hbk.
    destruct (pivot_lane_fresh k _ ltac:(lia) Hbk) as [Hp _].
    set (st := state_at_step k) in *. set (p := pivot_lane st k) in *.
    assert (Hf : key_col_factor (g_row st) p k p <> 0%Qc).
    { unfold key_col_factor. destruct (decide (p = p)); [|congruence].
      unfold pivot_element in Hnz. fold p in Hnz.
      intros H0. apply Hnz.
      rewrite <- (Qcmult_1_l (entry (g_row st) p k)).
      replace 1%Qc with (entry (g_row st) p k *
                         (1 / entry (g_row st) p k))%Qc
        by (field; exact Hnz).
      rewrite H0. ring. }
    split; intros H r Hr.
    + rewrite residual_step by (auto; lia). fold p.
      rewrite (H p Hp).
      destruct (decide (r = p)); [ring|rewrite (H r Hr); ring].
    + assert (Hpz : residual k st x y p = 0%Qc).
      { pose proof (H p Hp) as E.
        rewrite residual_step in E by (auto; lia). fold p in E.
        destruct (decide (p = p)); [|congruence].
        rewrite Qcplus_0_l in E.
        apply Qcmult_integral in E as [E|E]; [contradiction|exact E]. }
      destruct (decide (r = p)) as [->|Hne]; [exact Hpz|].
      pose proof (H r Hr) as E.
      rewrite residual_step in E by (auto; lia). fold p in E.
      destruct (decide (r = p)); [congruence|].
      rewrite Hpz in E. rewrite <- E. ring.
Qed.


(** ** The state after the last step *)

Lemma residual_final st x y r :
  bookkeeping n st -> r < n ->
  residual n st x y r =
  (x (g_perm st !!! r) -
   sum_upto n (fun j => entry (g_row st) r j * y (g_trans_perm st !!! j)))%Qc.
Proof.
  intros Hbk Hr. destruct (final_permutations st Hbk) as [_ Hl].
  destruct (Hl r Hr) as [_ [_ Hpiv]].
  unfold residual, offset. rewrite Hpiv.
  rewrite (sum_upto_ext n _
    (fun j => ((- 1) * (entry (g_row st) r j *
                        y (g_trans_perm st !!! j)))%Qc)).
  - rewrite sum_upto_scale. ring.
  - intros j Hj. unfold coefficient.
    destruct (decide (j < n)); [ring|lia].
Qed.

(** The returned matrix with the permutations undone: row [a] is taken
    from lane [trans_perm a], column [b] from register [perm b]. *)
Definition unpermuted (st : group_state) (a b : nat) : Qc :=
  entry (g_row st) (g_trans_perm st !!! a) (g_perm st !!! b).

Definition kronecker (a b : nat) : Qc :=
  if decide (a = b) then 1%Qc else 0%Qc.

(** The leading block of [U] is a two-sided inverse of that of [M]. *)
Definition inverse_of (U : nat -> nat -> Qc) : Prop :=
  (forall a b, a < n -> b < n ->
     sum_upto n (fun k => (U a k * entry M k b)%Qc) = kronecker a b) /\
  (forall a b, a < n -> b < n ->
     sum_upto n (fun k => (entry M a k * U k b)%Qc) = kronecker a b).

Definition nonsingular : Prop :=
  forall x, solves M x (fun _ => 0%Qc) -> forall j, j < n -> x j = 0%Qc.

Lemma final_system st :
  bookkeeping n st ->
  (forall x y, solves M x y <->
               forall r, r < n -> residual n st x y r = 0%Qc) ->
  inverse_of (unpermuted st).
Proof.
  intros Hbk Hsys. destruct (final_permutations st Hbk) as [Ht Hl].
  split; intros a b Ha Hb.
  - (* x = e_b, y = M e_b *)
    assert (Hsol : solves M (fun j => kronecker j b)
                     (fun r => entry M r b)).
    { intros r Hr.
      rewrite (sum_upto_ext n _
        (fun j => if decide (j = b) then entry M r b else 0%Qc)).
      - apply sum_upto_delta. exact Hb.
      - intros j Hj. unfold kronecker.
        destruct (decide (j = b)) as [->|]; ring. }
    pose proof (proj1 (Hsys _ _) Hsol) as Hres. destruct (Ht a Ha) as [Hta Hpa].
    clear Hsol. pose proof (Hres _ Hta) as Hsol. rewrite residual_final in Hsol by auto.
    rewrite Hpa in Hsol.
    rewrite <- (sum_upto_reindex n (fun k => g_perm st !!! k)
                  (fun j => g_trans_perm st !!! j)) in Hsol.
    + rewrite (sum_upto_ext n _
        (fun k => (unpermuted st a k * entry M k b)%Qc)) in Hsol.
      * set (S := sum_upto n _) in *.
        replace S with (kronecker a b - (kronecker a b - S))%Qc by ring.
        rewrite Hsol. ring.
      * intros k Hk. destruct (Hl k Hk) as [_ [E _]]. rewrite E.
        reflexivity.
    + intros k Hk. destruct (Hl k Hk) as [H1 [H2 _]]. auto.
  - (* y = e_b, x = U e_b *)
    assert (Hres : forall r, r < n ->
              residual n st (fun k => unpermuted st k b)
                (fun r => kronecker r b) r = 0%Qc).
    { intros r Hr. rewrite residual_final by auto.
      destruct (Hl r Hr) as [Hpr [Htr _]]. destruct (Hl b Hb) as [Hpb [Htb _]].
      unfold unpermuted. rewrite Htr.
      rewrite (sum_upto_ext n _
        (fun j => if decide (j = g_perm st !!! b)
                  then entry (g_row st) r (g_perm st !!! b) else 0%Qc)).
      - rewrite sum_upto_delta by exact Hpb. ring.
      - intros j Hj. unfold kronecker.
        destruct (decide (j = g_perm st !!! b)) as [->|Hne].
        + rewrite Htb. destruct (decide (b = b)); [ring|congruence].
        + destruct (decide (g_trans_perm st !!! j = b)) as [E|]; [|ring].
          exfalso. apply Hne. destruct (Ht j Hj) as [_ E']. congruence. }
    pose proof (proj2 (Hsys _ _) Hres) as Hsol. apply Hsol. exact Ha.
Qed.


Lemma status_false_iff k :
  k <= n ->
  g_status (state_at_step k) = false <->
  exists i, i < k /\ pivot_element (state_at_step i) i = 0%Qc.
Proof.
  induction k as [|k IH]; intros Hk.
  - split; [discriminate|intros [i [Hi _]]; lia].
  - rewrite status_step by lia. rewrite andb_false_iff, IH by lia.
    unfold is_zero. rewrite negb_false_iff, bool_decide_eq_true.
    split.
    + intros [[i [Hi Hz]]|Hz]; [exists i|exists k]; split; auto; lia.
    + intros [i [Hi Hz]].
      destruct (decide (i = k)) as [->|]; [right; exact Hz|].
      left. exists i. split; [lia|exact Hz].
Qed.

(** A zero pivot element yields a nonzero solution of [M x = 0]. *)
Lemma zero_pivot_kernel k :
  k < n -> g_status (state_at_step k) = true ->
  pivot_element (state_at_step k) k = 0%Qc ->
  exists x, solves M x (fun _ => 0%Qc) /\ x k = 1%Qc.
Proof.
  intros Hk Hst Hz.
  pose proof (state_at_step_bookkeeping k ltac:(lia)) as Hbk.
  pose proof (state_at_step_system k ltac:(lia) Hst) as Hsys.
  destruct (pivot_lane_fresh k _ Hk Hbk) as [Hp Hfree].
  set (st := state_at_step k) in *.
  set (x := fun j => if decide (j < k)
                     then (- entry (g_row st) (g_trans_perm st !!! j) k)%Qc
                     else if decide (j = k) then 1%Qc else 0%Qc).
  exists x. split.
  - apply Hsys. intros r Hr. unfold residual.
    rewrite (sum_upto_ext n _
      (fun j => if decide (j = k) then entry (g_row st) r k else 0%Qc)).
    + rewrite sum_upto_delta by exact Hk. unfold offset.
      destruct Hbk. destruct bk_rows0 as [Hg Hall].
      destruct (g_pivoted st !!! r) eqn:Epiv.
      * destruct (bk_lanes0 r Hr Epiv) as [H1 H2].
        unfold x. destruct (decide (g_perm st !!! r < k)); [|lia].
        rewrite H2. ring.
      * assert (Hzero : entry (g_row st) r k = 0%Qc).
        { apply (proj1 (pivot_element_zero_iff k st Hk
                          (state_at_step_bookkeeping k ltac:(lia))) Hz);
            [lia|exact Epiv]. }
        rewrite Hzero. ring.
    + intros j Hj. unfold coefficient, x.
      destruct (decide (j = k)) as [->|Hne].
      * destruct (decide (k < k)); [lia|ring].
      * destruct (decide (j < k)); ring.
  - unfold x. destruct (decide (k < k)); [lia|].
    destruct (decide (k = k)); [reflexivity|congruence].
Qed.

Lemma nonsingular_status k :
  nonsingular -> k <= n -> g_status (state_at_step k) = true.
Proof.
  intros Hns. induction k as [|k IH]; intros Hk; [reflexivity|].
  rewrite status_step by lia. rewrite IH by lia. simpl.
  apply negb_true_iff. unfold is_zero. apply bool_decide_eq_false.
  intros Hz.
  destruct (zero_pivot_kernel k ltac:(lia) (IH ltac:(lia)) Hz)
    as [x [Hsol Hx]].
  rewrite (Hns x Hsol k ltac:(lia)) in Hx. discriminate.
Qed.

Lemma invert_block_sound :
  g_status (invert_block max_problem_size n M perm0 trans_perm0) = true ->
  inverse_of (unpermuted (invert_block max_problem_size n M perm0 trans_perm0)).
Proof.
  rewrite invert_block_state. intros Hst.
  apply final_system.
  - apply state_at_step_bookkeeping. lia.
  - apply state_at_step_system; [lia|exact Hst].
Qed.

Lemma invert_block_bookkeeping :
  bookkeeping n (invert_block max_problem_size n M perm0 trans_perm0).
Proof. rewrite invert_block_state. apply state_at_step_bookkeeping. lia. Qed.

Lemma status_nonsingular :
  g_status (invert_block max_problem_size n M perm0 trans_perm0) = true ->
  nonsingular.
Proof.
  rewrite invert_block_state. intros Hst x Hsol j Hj.
  pose proof (state_at_step_bookkeeping n ltac:(lia)) as Hbk.
  pose proof (proj1 (state_at_step_system n ltac:(lia) Hst _ _) Hsol)
    as Hres. clear Hsol.
  destruct (final_permutations _ Hbk) as [Ht _].
  destruct (Ht j Hj) as [Htj Hpj].
  pose proof (Hres _ Htj) as Hsol. rewrite residual_final in Hsol by auto.
  rewrite Hpj in Hsol.
  rewrite (sum_upto_ext n _ (fun _ => 0%Qc)) in Hsol by (intros; ring).
  rewrite sum_upto_zero in Hsol.
  rewrite <- Hsol. ring.
Qed.

Lemma status_iff_nonsingular :
  g_status (invert_block max_problem_size n M perm0 trans_perm0) = true <->
  nonsingular.
Proof.
  split; [apply status_nonsingular|].
  intros Hns. rewrite invert_block_state. apply nonsingular_status; auto.
Qed.

Lemma zero_row_fails r :
  r < n -> (forall j, j < n -> entry M r j = 0%Qc) ->
  g_status (invert_block max_problem_size n M perm0 trans_perm0) = false.
Proof.
  intros Hr Hrow.
  destruct (g_status _) eqn:Hst; [exfalso|reflexivity].
  destruct (invert_block_sound Hst) as [_ Hright].
  specialize (Hright r r Hr Hr).
  rewrite (sum_upto_ext n _ (fun _ => 0%Qc)) in Hright
    by (intros j Hj; rewrite Hrow by exact Hj; ring).
  rewrite sum_upto_zero in Hright. unfold kronecker in Hright.
  destruct (decide (r = r)); [discriminate|congruence].
Qed.


End Inversion.

(** ** The infinity norm *)

Lemma Qc_max_l x y : (x <= Qc_max x y)%Qc.
Proof.
  unfold Qc_max. destruct (decide (x < y)%Qc) as [Hlt|Hge].
  - apply Qclt_le_weak. exact Hlt.
  - apply Qcle_refl.
Qed.

Lemma Qc_max_r x y : (y <= Qc_max x y)%Qc.
Proof.
  unfold Qc_max. destruct (decide (x < y)%Qc) as [Hlt|Hge].
  - apply Qcle_refl.
  - apply Qcnot_lt_le. exact Hge.
Qed.

Lemma Qc_max_lub x y b : (x <= b)%Qc -> (y <= b)%Qc -> (Qc_max x y <= b)%Qc.
Proof. intros Hx Hy. unfold Qc_max. destruct (decide (x < y)%Qc); auto. Qed.

Lemma foldl_max_ge (rest : list Qc) : forall v,
  (v <= foldl Qc_max v rest)%Qc /\
  Forall (fun x => (x <= foldl Qc_max v rest)%Qc) rest.
Proof.
  induction rest as [|a rest IH]; intros v; simpl.
  - split; [apply Qcle_refl|constructor].
  - destruct (IH (Qc_max v a)) as [H1 H2]. split.
    + apply Qcle_trans with (Qc_max v a); [apply Qc_max_l|exact H1].
    + constructor; [|exact H2].
      apply Qcle_trans with (Qc_max v a); [apply Qc_max_r|exact H1].
Qed.

Lemma foldl_max_le (rest : list Qc) : forall v b,
  (v <= b)%Qc -> Forall (fun x => (x <= b)%Qc) rest ->
  (foldl Qc_max v rest <= b)%Qc.
Proof.
  induction rest as [|a rest IH]; intros v b Hv Hall; simpl; [exact Hv|].
  inversion Hall; subst. apply IH; [apply Qc_max_lub|]; assumption.
Qed.

Lemma reduce_max_ge (l : list Qc) i :
  i < length l -> (l !!! i <= reduce Qc_max l)%Qc.
Proof.
  destruct l as [|v rest]; simpl; intros Hi; [lia|].
  destruct (foldl_max_ge rest v) as [H1 H2].
  destruct i as [|i]; [exact H1|]. simpl.
  apply (Forall_lookup_total_1 (fun x => (x <= foldl Qc_max v rest)%Qc)
           rest i H2). lia.
Qed.

Lemma reduce_max_le (l : list Qc) b :
  0 < length l -> (forall i, i < length l -> (l !!! i <= b)%Qc) ->
  (reduce Qc_max l <= b)%Qc.
Proof.
  destruct l as [|v rest]; simpl; intros Hpos Hall; [lia|].
  apply foldl_max_le.
  - apply (Hall 0). lia.
  - apply (Forall_lookup_total_2 (fun x => (x <= b)%Qc)).
    intros i Hi. apply (Hall (S i)). lia.
Qed.

Fixpoint max_upto (n : nat) (f : nat -> Qc) : Qc :=
  match n with
  | 0 => 0%Qc
  | S k => Qc_max (max_upto k f) (f k)
  end.

Lemma max_upto_nonneg n f : (0 <= max_upto n f)%Qc.
Proof.
  induction n as [|n IH]; simpl; [apply Qcle_refl|].
  apply Qcle_trans with (max_upto n f); [exact IH|apply Qc_max_l].
Qed.

Lemma max_upto_ge n f k : k < n -> (f k <= max_upto n f)%Qc.
Proof.
  induction n as [|n IH]; intros Hk; [lia|]. simpl.
  destruct (decide (k = n)) as [->|Hne]; [apply Qc_max_r|].
  apply Qcle_trans with (max_upto n f); [apply IH; lia|apply Qc_max_l].
Qed.

Lemma max_upto_le n f b :
  (0 <= b)%Qc -> (forall k, k < n -> (f k <= b)%Qc) ->
  (max_upto n f <= b)%Qc.
Proof.
  intros Hb. induction n as [|n IH]; intros Hall; simpl; [exact Hb|].
  apply Qc_max_lub; [apply IH; intros; apply Hall; lia|apply Hall; lia].
Qed.

Lemma max_upto_reindex n (sigma tau : nat -> nat) f :
  (forall k, k < n -> sigma k < n /\ tau k < n /\ sigma (tau k) = k) ->
  max_upto n (fun k => f (sigma k)) = max_upto n f.
Proof.
  intros Hsig. apply Qcle_antisym.
  - apply max_upto_le; [apply max_upto_nonneg|].
    intros k Hk. apply max_upto_ge. apply Hsig. exact Hk.
  - apply max_upto_le; [apply max_upto_nonneg|].
    intros k Hk. destruct (Hsig k Hk) as [_ [H1 H2]].
    rewrite <- H2 at 1. apply (max_upto_ge n (fun k => f (sigma k))).
    exact H1.
Qed.

Lemma sum_upto_nonneg n f :
  (forall j, j < n -> (0 <= f j)%Qc) -> (0 <= sum_upto n f)%Qc.
Proof.
  induction n as [|n IH]; intros Hf; simpl; [apply Qcle_refl|].
  replace 0%Qc with (0 + 0)%Qc by ring.
  apply Qcplus_le_compat; [apply IH; intros; apply Hf; lia|apply Hf; lia].
Qed.

(** The infinity norm of the leading [num_rows]-by-[num_cols] block. *)
Definition matrix_inf_norm (num_rows num_cols : nat)
    (A : nat -> nat -> Qc) : Qc :=
  max_upto num_rows (fun r => sum_upto num_cols (fun j => Qcabs (A r j))).

Lemma lane_sum (row : list Qc) (num_cols k : nat) :
  foldl (fun sum i =>
           if decide (i < num_cols) then (sum + Qcabs (row !!! i))%Qc
           else sum) 0%Qc (seq 0 k) =
  sum_upto (Nat.min k num_cols) (fun i => Qcabs (row !!! i)).
Proof.
  induction k as [|k IH]; [reflexivity|].
  rewrite seq_S, foldl_app. cbn [foldl]. rewrite IH. cbn [Nat.add].
  destruct (decide (k < num_cols)) as [Hlt|Hge].
  - replace (Nat.min (S k) num_cols) with (S k) by lia.
    replace (Nat.min k num_cols) with k by lia. reflexivity.
  - replace (Nat.min (S k) num_cols) with (Nat.min k num_cols) by lia.
    reflexivity.
Qed.

Lemma compute_infinity_norm_spec max_problem_size group_size
    num_rows num_cols rows :
  wf_rows max_problem_size group_size rows ->
  num_rows <= group_size -> num_cols <= max_problem_size ->
  compute_infinity_norm max_problem_size num_rows num_cols rows =
  matrix_inf_norm num_rows num_cols (entry rows).
Proof.
  intros [Hg Hall] Hr Hc. unfold compute_infinity_norm, matrix_inf_norm.
  destruct (decide (0 < group_size)) as [Hpos|Hzero].
  2:{ destruct rows; [|simpl in Hg; lia].
      replace num_rows with 0 by lia. reflexivity. }
  set (rowsum := fun r => sum_upto num_cols (fun j => Qcabs (entry rows r j))).
  set (sums := imap _ rows).
  assert (Hlen : length sums = group_size).
  { unfold sums. rewrite length_imap. exact Hg. }
  assert (Hsum : forall r, r < group_size ->
            sums !!! r = if decide (r < num_rows) then rowsum r else 0%Qc).
  { intros r Hlt. unfold sums. rewrite lookup_total_imap by lia.
    destruct (decide (r < num_rows)); [|reflexivity].
    rewrite lane_sum. replace (Nat.min max_problem_size num_cols)
      with num_cols by lia. reflexivity. }
  assert (Hnn : forall r, (0 <= rowsum r)%Qc).
  { intros r. apply sum_upto_nonneg. intros. apply Qcabs_nonneg. }
  apply Qcle_antisym.
  - apply reduce_max_le; [lia|]. intros i Hi. rewrite Hsum by lia.
    destruct (decide (i < num_rows)).
    + apply (max_upto_ge num_rows rowsum). assumption.
    + apply max_upto_nonneg.
  - apply max_upto_le.
    + apply Qcle_trans with (sums !!! 0); [|apply reduce_max_ge; lia].
      rewrite Hsum by lia. destruct (decide (0 < num_rows)); [apply Hnn|].
      apply Qcle_refl.
    + intros k Hk. fold (rowsum k).
      replace (rowsum k) with (sums !!! k).
      * apply reduce_max_ge. lia.
      * rewrite Hsum by lia. destruct (decide (k < num_rows)); [|lia].
        reflexivity.
Qed.

Lemma max_upto_ext n f g :
  (forall k, k < n -> f k = g k) -> max_upto n f = max_upto n g.
Proof.
  induction n as [|n IH]; intros Hfg; simpl; [reflexivity|].
  rewrite IH, Hfg by (intros; auto; lia). reflexivity.
Qed.

(** Undoing the permutations does not change the norm: the rows of [U]
    are the rows of [X] in another order, each with its entries in another
    order. *)
Lemma unpermuted_norm max_problem_size group_size n st :
  n <= max_problem_size -> n <= group_size ->
  bookkeeping max_problem_size group_size n n st ->
  matrix_inf_norm n n (unpermuted st) =
  matrix_inf_norm n n (entry (g_row st)).
Proof.
  intros Hm Hg Hbk.
  destruct (final_permutations _ _ _ Hm Hg st Hbk) as [Ht Hl].
  unfold matrix_inf_norm, unpermuted.
  rewrite <- (max_upto_reindex n (fun a => g_trans_perm st !!! a)
                (fun r => g_perm st !!! r)
                (fun r => sum_upto n (fun j => Qcabs (entry (g_row st) r j)))).
  - apply max_upto_ext. intros a Ha.
    apply (sum_upto_reindex n (fun b => g_perm st !!! b)
             (fun j => g_trans_perm st !!! j)
             (fun j => Qcabs (entry (g_row st) (g_trans_perm st !!! a) j))).
    intros k Hk. destruct (Hl k Hk) as [H1 [H2 _]]. auto.
  - intros k Hk. destruct (Hl k Hk) as [H1 [H2 _]].
    destruct (Ht k Hk) as [H3 H4]. auto.
Qed.

(** ** The blocks of the specification's scenarios *)

(** The 2-by-2 exchange matrix, held by a group of four lanes with three
    registers per lane. *)
Definition exchange_block : list (list Qc) :=
  [[0; 1; 0]; [1; 0; 0]; [0; 0; 0]; [0; 0; 0]]%Qc.

(** A 2-by-2 block whose first row is zero. *)
Definition zero_row_block : list (list Qc) :=
  [[0; 0; 0]; [1; 1; 0]; [0; 0; 0]; [0; 0; 0]]%Qc.

Lemma exchange_block_wf : wf_rows 3 4 exchange_block.
Proof. split; [reflexivity|repeat constructor]. Qed.

Lemma zero_row_block_wf : wf_rows 3 4 zero_row_block.
Proof. split; [reflexivity|repeat constructor]. Qed.

Lemma exchange_block_nonsingular : nonsingular 2 exchange_block.
Proof.
  intros x Hsol j Hj.
  pose proof (Hsol 0 ltac:(lia)) as H0.
  pose proof (Hsol 1 ltac:(lia)) as H1.
  cbn in H0, H1.
  destruct j as [|[|j]]; [rewrite <- H1; ring|rewrite <- H0; ring|lia].
Qed.

End WarpBlas.

(** * Adaptive block-Jacobi generation
    (common/cuda_hip/preconditioner/jacobi_generate_kernel.hpp.inc)

    As in [WarpBlas], the values of this module are rationals; module
    [ValueTypes] has [validate_precision_reduction_feasibility] over the
    template parameter [ValueType]. *)

Module Jacobi.

Import WarpBlas.

Section Validate.

Variable max_block_size : nat.

(** [static_cast<ValueType>(static_cast<ReducedType>(x))]: the round trip
    of a working-precision value through the reduced storage format. *)
Variable round_trip : Qc -> Qc.

(** [float_traits<remove_complex<ValueType>>::eps] of the working
    precision [ValueType]. *)
Variable eps : Qc.

Definition save_and_reduce (block_size stride : nat)
    (st : list (list Qc) * list Qc) (i : nat) : list (list Qc) * list Qc :=
  if decide (i < block_size) then
    let work :=
      foldl (fun work thread_rank =>
               if decide (thread_rank < block_size)
               then <[i * stride + thread_rank := entry st.1 thread_rank i]> work
               else work) st.2 (seq 0 (length st.1)) in
    let rows :=
      imap (fun thread_rank row =>
              if decide (thread_rank < block_size)
              then <[i := round_trip (row !!! i)]> row else row) st.1 in
    (rows, work)
  else st.

Definition restore (block_size stride : nat) (work : list Qc)
    (rows : list (list Qc)) (i : nat) : list (list Qc) :=
  if decide (i < block_size) then
    imap (fun thread_rank row =>
            if decide (thread_rank < block_size)
            then <[i := work !!! (i * stride + thread_rank)]> row else row)
         rows
  else rows.

Definition validate_precision_reduction_feasibility (block_size : nat)
    (row : list (list Qc)) (work : list Qc) (stride : nat)
    : bool * list (list Qc) * list Qc :=
  (* save original data and reduce precision *)
  let '(row, work) :=
    foldl (save_and_reduce block_size stride) (row, work)
          (seq 0 max_block_size) in
  (* compute the condition number *)
  let perm := seq 0 (length row) in
  let trans_perm := perm in
  let block_cond :=
    compute_infinity_norm max_block_size block_size block_size row in
  let st := invert_block max_block_size block_size row perm trans_perm in
  let succeeded := g_status st in
  let row := g_row st in
  let block_cond :=
    (block_cond *
     compute_infinity_norm max_block_size block_size block_size row)%Qc in
  (* restore original data *)
  let row :=
    foldl (restore block_size stride work) row (seq 0 max_block_size) in
  (succeeded && bool_decide (1 <= block_cond)%Qc &&
   bool_decide (block_cond * eps < Q2Qc (1 # 1000))%Qc,
   row, work).


(** ** The save and restore loops *)

Variable group_size : nat.

(** Both loops overwrite, column by column, the leading block of the
    registers. *)
Definition column_update (g : nat -> nat -> Qc -> Qc) (block_size : nat)
    (rows : list (list Qc)) (i : nat) : list (list Qc) :=
  if decide (i < block_size) then
    imap (fun thread_rank row =>
            if decide (thread_rank < block_size)
            then <[i := g i thread_rank (row !!! i)]> row else row) rows
  else rows.

Lemma column_update_wf g block_size rows i :
  wf_rows max_block_size group_size rows ->
  wf_rows max_block_size group_size (column_update g block_size rows i).
Proof.
  intros [Hg Hall]. unfold column_update.
  destruct (decide (i < block_size)); [|split; assumption]. split.
  - rewrite length_imap. exact Hg.
  - apply Forall_lookup. intros r row Hr.
    rewrite list_lookup_imap in Hr.
    destruct (rows !! r) as [row0|] eqn:E; [|discriminate].
    simpl in Hr. inversion Hr; subst row.
    rewrite Forall_lookup in Hall. specialize (Hall r row0 E).
    destruct (decide (r < block_size)); rewrite ?length_insert; exact Hall.
Qed.

Lemma column_update_entry g block_size rows i r j :
  wf_rows max_block_size group_size rows ->
  i < max_block_size -> r < group_size -> j < max_block_size ->
  entry (column_update g block_size rows i) r j =
  if decide (r < block_size /\ i < block_size /\ j = i)
  then g i r (entry rows r i) else entry rows r j.
Proof.
  intros Hwf Hi Hr Hj.
  pose proof (wf_rows_row _ _ rows r Hwf Hr) as Hlen.
  destruct Hwf as [Hg Hall]. unfold column_update.
  destruct (decide (i < block_size)) as [Hib|Hib].
  - unfold entry at 1. rewrite lookup_total_imap by lia.
    destruct (decide (r < block_size)) as [Hrb|Hrb].
    + rewrite lookup_total_insert_cases by lia.
      destruct (decide (j = i)) as [->|Hne].
      * destruct (decide (r < block_size /\ i < block_size /\ i = i));
          [reflexivity|tauto].
      * destruct (decide (r < block_size /\ i < block_size /\ j = i));
          [tauto|reflexivity].
    + destruct (decide (r < block_size /\ i < block_size /\ j = i));
        [tauto|reflexivity].
  - destruct (decide (r < block_size /\ i < block_size /\ j = i));
      [tauto|reflexivity].
Qed.

Lemma column_update_loop g block_size rows k :
  wf_rows max_block_size group_size rows -> k <= max_block_size ->
  let rows' := foldl (column_update g block_size) rows (seq 0 k) in
  wf_rows max_block_size group_size rows' /\
  forall r j, r < group_size -> j < max_block_size ->
    entry rows' r j =
    if decide (r < block_size /\ j < block_size /\ j < k)
    then g j r (entry rows r j) else entry rows r j.
Proof.
  intros Hwf. induction k as [|k IH]; intros Hk rows'.
  - split; [exact Hwf|]. intros r j Hr Hj.
    destruct (decide (r < block_size /\ j < block_size /\ j < 0));
      [lia|reflexivity].
  - destruct IH as [IHwf IHent]; [lia|].
    unfold rows'. rewrite seq_S, foldl_app. simpl.
    split; [apply column_update_wf; exact IHwf|].
    intros r j Hr Hj. rewrite column_update_entry by (auto; lia).
    destruct (decide (r < block_size /\ k < block_size /\ j = k))
      as [[H1 [H2 ->]]|Hn].
    + rewrite IHent by lia.
      destruct (decide (r < block_size /\ k < block_size /\ k < k)); [lia|].
      destruct (decide (r < block_size /\ k < block_size /\ k < S k));
        [reflexivity|lia].
    + rewrite IHent by lia.
      destruct (decide (r < block_size /\ j < block_size /\ j < k)),
               (decide (r < block_size /\ j < block_size /\ j < S k));
        try reflexivity; exfalso; lia.
Qed.

Lemma restore_column_update block_size stride work :
  restore block_size stride work =
  column_update (fun i r _ => work !!! (i * stride + r)) block_size.
Proof. reflexivity. Qed.

Lemma save_and_reduce_rows block_size stride st i :
  (save_and_reduce block_size stride st i).1 =
  column_update (fun _ _ x => round_trip x) block_size st.1 i.
Proof.
  unfold save_and_reduce, column_update.
  destruct (decide (i < block_size)); reflexivity.
Qed.

Lemma save_and_reduce_loop_rows block_size stride st l :
  (foldl (save_and_reduce block_size stride) st l).1 =
  foldl (column_update (fun _ _ x => round_trip x) block_size) st.1 l.
Proof.
  revert st. induction l as [|i l IH]; intros st; [reflexivity|].
  simpl. rewrite IH, save_and_reduce_rows. reflexivity.
Qed.

(** The round-tripped block: the registers after the first loop. *)
Definition reduced_block (block_size : nat) (rows : list (list Qc))
    : list (list Qc) :=
  foldl (column_update (fun _ _ x => round_trip x) block_size) rows
        (seq 0 max_block_size).

Lemma reduced_block_spec block_size rows :
  wf_rows max_block_size group_size rows ->
  wf_rows max_block_size group_size (reduced_block block_size rows) /\
  forall r j, r < group_size -> j < max_block_size ->
    entry (reduced_block block_size rows) r j =
    if decide (r < block_size /\ j < block_size)
    then round_trip (entry rows r j) else entry rows r j.
Proof.
  intros Hwf.
  destruct (column_update_loop (fun _ _ x => round_trip x) block_size rows
              max_block_size Hwf (Nat.le_refl _)) as [H1 H2].
  split; [exact H1|]. intros r j Hr Hj.
  unfold reduced_block. rewrite H2 by lia.
  destruct (decide (r < block_size /\ j < block_size /\ j < max_block_size)),
           (decide (r < block_size /\ j < block_size));
    try reflexivity; exfalso; lia.
Qed.


Lemma save_lanes (i stride block_size : nat) (v : nat -> Qc) (c : nat)
    (work : list Qc) :
  let work' :=
    foldl (fun work thread_rank =>
             if decide (thread_rank < block_size)
             then <[i * stride + thread_rank := v thread_rank]> work
             else work) work (seq 0 c) in
  length work' = length work /\
  forall idx, idx < length work ->
    work' !!! idx =
    if decide (i * stride <= idx /\ idx < i * stride + Nat.min c block_size)
    then v (idx - i * stride) else work !!! idx.
Proof.
  induction c as [|c IH]; intros work'.
  - split; [reflexivity|]. intros idx Hidx.
    destruct (decide (i * stride <= idx /\
                      idx < i * stride + Nat.min 0 block_size));
      [lia|reflexivity].
  - destruct IH as [IHlen IHval].
    unfold work'. rewrite seq_S, foldl_app. cbn [foldl Nat.add].
    set (w := foldl _ work (seq 0 c)) in *.
    destruct (decide (c < block_size)) as [Hc|Hc].
    + split; [rewrite length_insert; exact IHlen|].
      intros idx Hidx.
      destruct (decide (idx = i * stride + c)) as [->|Hne].
      * rewrite list_lookup_total_insert_eq by lia.
        destruct (decide (i * stride <= i * stride + c /\
                          i * stride + c <
                          i * stride + Nat.min (S c) block_size));
          [|lia]. f_equal. lia.
      * rewrite list_lookup_total_insert_ne by congruence.
        rewrite IHval by lia.
        destruct (decide (i * stride <= idx /\
                          idx < i * stride + Nat.min c block_size)),
                 (decide (i * stride <= idx /\
                          idx < i * stride + Nat.min (S c) block_size));
          try reflexivity; exfalso; lia.
    + split; [exact IHlen|]. intros idx Hidx. rewrite IHval by lia.
      destruct (decide (i * stride <= idx /\
                        idx < i * stride + Nat.min c block_size)),
               (decide (i * stride <= idx /\
                        idx < i * stride + Nat.min (S c) block_size));
        try reflexivity; exfalso; lia.
Qed.

(** The save slots [i * stride + thread_rank] of different columns do not
    overlap when [block_size <= stride]; each then keeps the value saved
    into it. *)
Lemma save_and_reduce_loop_work block_size stride rows work k :
  wf_rows max_block_size group_size rows ->
  block_size <= group_size -> block_size <= stride -> k <= max_block_size ->
  let work' :=
    (foldl (save_and_reduce block_size stride) (rows, work) (seq 0 k)).2 in
  length work' = length work /\
  forall r i, r < block_size -> i < block_size -> i < k ->
    i * stride + r < length work ->
    work' !!! (i * stride + r) = entry rows r i.
Proof.
  intros Hwf Hbg Hbs. induction k as [|k IH]; intros Hk work'.
  - split; [reflexivity|]. intros; lia.
  - destruct IH as [IHlen IHval]; [lia|].
    unfold work'. rewrite seq_S, foldl_app. cbn [foldl Nat.add].
    set (st := foldl _ (rows, work) (seq 0 k)) in *.
    assert (Hrows : st.1 =
              foldl (column_update (fun _ _ x => round_trip x) block_size)
                    rows (seq 0 k)).
    { unfold st. rewrite save_and_reduce_loop_rows. reflexivity. }
    destruct (column_update_loop (fun _ _ x => round_trip x) block_size rows
                k Hwf ltac:(lia)) as [Hwf' Hent].
    rewrite <- Hrows in Hwf', Hent.
    unfold save_and_reduce.
    destruct (decide (k < block_size)) as [Hkb|Hkb]; cbn [snd].
    + destruct (save_lanes k stride block_size
                  (fun thread_rank => entry st.1 thread_rank k)
                  (length st.1) st.2) as [Hlen Hval].
      split; [rewrite Hlen; exact IHlen|].
      intros r i Hr Hi Hik Hidx. rewrite Hval by lia.
      destruct Hwf' as [Hg' _]. rewrite Hg'.
      destruct (decide (k * stride <= i * stride + r /\
                        i * stride + r <
                        k * stride + Nat.min group_size block_size))
        as [Hin|Hout].
      * assert (i = k) by nia. subst i.
        replace (k * stride + r - k * stride) with r by lia.
        rewrite Hent by lia.
        destruct (decide (r < block_size /\ k < block_size /\ k < k));
          [lia|reflexivity].
      * assert (i < k) by nia. apply IHval; auto.
    + split; [exact IHlen|]. intros r i Hr Hi Hik Hidx.
      apply IHval; auto. lia.
Qed.


(** ** The feasibility check *)

Definition threshold : Qc := Q2Qc (1 # 1000).

(** The state of the group after inverting the round-tripped block. *)
Definition reduced_inverse (block_size : nat) (rows : list (list Qc))
    : group_state :=
  invert_block max_block_size block_size (reduced_block block_size rows)
    (seq 0 group_size) (seq 0 group_size).

Lemma validate_unfold block_size rows work stride :
  wf_rows max_block_size group_size rows ->
  validate_precision_reduction_feasibility block_size rows work stride =
  let work1 :=
    (foldl (save_and_reduce block_size stride) (rows, work)
           (seq 0 max_block_size)).2 in
  let st := reduced_inverse block_size rows in
  let block_cond :=
    (compute_infinity_norm max_block_size block_size block_size
       (reduced_block block_size rows) *
     compute_infinity_norm max_block_size block_size block_size
       (g_row st))%Qc in
  (g_status st && bool_decide (1 <= block_cond)%Qc &&
   bool_decide (block_cond * eps < threshold)%Qc,
   foldl (restore block_size stride work1) (g_row st) (seq 0 max_block_size),
   work1).
Proof.
  intros Hwf. unfold validate_precision_reduction_feasibility.
  pose proof (save_and_reduce_loop_rows block_size stride (rows, work)
                (seq 0 max_block_size)) as Hrows.
  destruct (foldl (save_and_reduce block_size stride) (rows, work)
              (seq 0 max_block_size)) as [row1 work1] eqn:E.
  simpl in Hrows. fold (reduced_block block_size rows) in Hrows.
  subst row1. cbn [snd].
  destruct (reduced_block_spec block_size rows Hwf) as [[Hg _] _].
  rewrite Hg. reflexivity.
Qed.

(** C10. The check leaves the block as it found it: when the save slots
    [i * stride + thread_rank] are distinct and inside the work buffer
    ([block_size <= stride], [block_size] columns of [stride] elements),
    every [row[i]] with [thread_rank < block_size] and [i < block_size]
    has on return the value it had on entry, whatever the verdict. *)
Theorem validate_restores_block block_size rows work stride :
  wf_rows max_block_size group_size rows ->
  block_size <= max_block_size -> block_size <= group_size ->
  block_size <= stride -> block_size * stride <= length work ->
  forall r i, r < block_size -> i < block_size ->
    entry (validate_precision_reduction_feasibility block_size rows work
             stride).1.2 r i =
    entry rows r i.
Proof.
  intros Hwf Hm Hg Hs Hw r i Hr Hi.
  rewrite validate_unfold by exact Hwf. cbn [fst snd].
  destruct (reduced_block_spec block_size rows Hwf) as [Hwf1 _].
  pose proof (invert_block_bookkeeping max_block_size group_size block_size
                Hm Hg (reduced_block block_size rows) (seq 0 group_size)
                (seq 0 group_size) Hwf1 (length_seq _ _) (length_seq _ _))
    as Hbk.
  fold (reduced_inverse block_size rows) in Hbk.
  destruct (save_and_reduce_loop_work block_size stride rows work
              max_block_size Hwf Hg Hs (Nat.le_refl _)) as [Hlen Hsaved].
  set (work1 := (foldl _ (rows, work) _).2) in *.
  rewrite restore_column_update.
  destruct (column_update_loop
              (fun i r _ => work1 !!! (i * stride + r)) block_size
              (g_row (reduced_inverse block_size rows)) max_block_size
              (bk_rows _ _ _ _ _ Hbk) (Nat.le_refl _)) as [_ Hent].
  rewrite Hent by lia.
  destruct (decide (r < block_size /\ i < block_size /\ i < max_block_size));
    [|lia].
  apply Hsaved; auto; try lia. nia.
Qed.

End Validate.

(** ** The precision committed by [adaptive_generate] *)

Section Adaptive.

(** [precision_reduction] and the helpers of the descriptor encoding
    ([get_optimal_storage_reduction], [thread::get_subwarp_id]) are declared
    outside the sources; the kernel is embedded over them. *)
Context {precision_reduction : Type} `{Inhabited precision_reduction}.
Variable get_optimal_storage_reduction : Z -> precision_reduction.

Variable warp_size subwarp_size : nat.

(** The subwarp id of lane 0 of this warp. *)
Variable first_subwarp : nat.

Variable num_blocks : nat.

(** The descriptor lines 129-158 of the kernel compute for a block:
    [singleton(prec)], or on auto-detection the result of
    [get_supported_storage_reductions] with the two feasibility checks. *)
Variable block_descriptor : nat -> Z.

Definition get_subwarp_id (lane : nat) : nat :=
  first_subwarp + lane / subwarp_size.

(** [~uint32{}] *)
Definition all_ones : Z := Z.ones 32.

Definition prec_descriptor (lane : nat) : Z :=
  let block_id := get_subwarp_id lane in
  if decide (block_id < num_blocks) then block_descriptor block_id
  else all_ones.

(** What one lane does after the descriptors are known: it reduces over
    the warp and, if it covers a block, writes the tag and stores its row
    in that precision. *)
Definition lane_precision (lane : nat) : precision_reduction :=
  get_optimal_storage_reduction
    (reduce Z.land (map prec_descriptor (seq 0 warp_size))).

Definition commit (st : list precision_reduction *
                        list (nat * nat * precision_reduction))
    (lane : nat)
    : list precision_reduction * list (nat * nat * precision_reduction) :=
  let block_id := get_subwarp_id lane in
  let prec := lane_precision lane in
  if decide (block_id < num_blocks)
  then (<[block_id := prec]> st.1, st.2 ++ [(block_id, lane, prec)])
  else st.

(** The tail of [adaptive_generate] for one warp: the new
    [block_precisions] and, for every row stored by [copy_matrix], its
    block, its lane and the precision it is stored in. *)
Definition adaptive_generate (block_precisions : list precision_reduction)
    : list precision_reduction * list (nat * nat * precision_reduction) :=
  foldl commit (block_precisions, []) (seq 0 warp_size).

Lemma foldl_land_testbit (rest : list Z) : forall v n,
  Z.testbit (foldl Z.land v rest) n = true <->
  Z.testbit v n = true /\ forall d, d ∈ rest -> Z.testbit d n = true.
Proof.
  induction rest as [|a rest IH]; intros v n; simpl.
  - split; [intros Hv; split; [exact Hv|]|tauto].
    intros d Hd. inversion Hd.
  - rewrite IH, Z.land_spec, andb_true_iff. split.
    + intros [[Hv Ha] Hrest]. split; [exact Hv|].
      intros d Hd. apply elem_of_cons in Hd as [->|Hd]; auto.
    + intros [Hv Hall]. split; [split; [exact Hv|]|].
      * apply Hall. apply list_elem_of_here.
      * intros d Hd. apply Hall. apply list_elem_of_further. exact Hd.
Qed.

(** A bit survives the reduction exactly when every lane has it. *)
Lemma reduce_land_testbit (l : list Z) n :
  0 < length l ->
  Z.testbit (reduce Z.land l) n = true <->
  forall d, d ∈ l -> Z.testbit d n = true.
Proof.
  destruct l as [|v rest]; simpl; intros Hpos; [lia|].
  rewrite foldl_land_testbit. split.
  - intros [Hv Hrest] d Hd.
    apply elem_of_cons in Hd as [->|Hd]; auto.
  - intros Hall. split; [apply Hall; apply list_elem_of_here|].
    intros d Hd. apply Hall. apply list_elem_of_further. exact Hd.
Qed.

Definition committed_tag : precision_reduction :=
  get_optimal_storage_reduction
    (reduce Z.land (map prec_descriptor (seq 0 warp_size))).

Lemma commit_loop (block_precisions : list precision_reduction) k :
  let st := foldl commit (block_precisions, []) (seq 0 k) in
  length st.1 = length block_precisions /\
  (forall b lane p, (b, lane, p) ∈ st.2 <->
     lane < k /\ b = get_subwarp_id lane /\ b < num_blocks /\
     p = committed_tag) /\
  (forall b, b < length block_precisions ->
     (exists lane, lane < k /\ b = get_subwarp_id lane /\ b < num_blocks) ->
     st.1 !!! b = committed_tag) /\
  (forall b,
     (forall lane, lane < k -> b = get_subwarp_id lane -> ~ b < num_blocks) ->
     st.1 !!! b = block_precisions !!! b).
Proof.
  induction k as [|k IH]; intros st.
  - simpl. split; [reflexivity|]. split; [|split].
    + intros b lane p. split; [intros Hin; inversion Hin|lia].
    + intros b _ [lane [Hl _]]. lia.
    + reflexivity.
  - destruct IH as [IHlen [IHlog [IHset IHkeep]]].
    unfold st. rewrite seq_S, foldl_app. cbn [foldl Nat.add].
    set (st0 := foldl commit (block_precisions, []) (seq 0 k)) in *.
    unfold commit. fold committed_tag.
    change (lane_precision k) with committed_tag.
    destruct (decide (get_subwarp_id k < num_blocks)) as [Hact|Hidle];
      cbn [fst snd].
    + split; [rewrite length_insert; exact IHlen|]. split; [|split].
      * intros b lane p. rewrite elem_of_app, IHlog, list_elem_of_singleton.
        split.
        -- intros [[H1 H2]|E]; [split; [lia|exact H2]|].
           inversion E; subst. repeat split; auto.
        -- intros [H1 [H2 [H3 H4]]].
           destruct (decide (lane = k)) as [->|Hne].
           ++ right. subst. reflexivity.
           ++ left. split; [lia|auto].
      * intros b Hb [lane [Hl [Hb1 Hb2]]].
        destruct (decide (b = get_subwarp_id k)) as [->|Hne].
        -- rewrite list_lookup_total_insert_eq by lia. reflexivity.
        -- rewrite list_lookup_total_insert_ne by congruence.
           apply IHset; [exact Hb|]. exists lane.
           destruct (decide (lane = k)) as [->|]; [congruence|].
           split; [lia|auto].
      * intros b Hb.
        assert (b <> get_subwarp_id k).
        { intros ->. apply (Hb k); [lia|reflexivity|exact Hact]. }
        rewrite list_lookup_total_insert_ne by congruence.
        apply IHkeep. intros lane Hl. apply Hb. lia.
    + split; [exact IHlen|]. split; [|split].
      * intros b lane p. rewrite IHlog. split.
        -- intros [H1 H2]. split; [lia|exact H2].
        -- intros [H1 [H2 [H3 H4]]]. split; [|auto].
           destruct (decide (lane = k)) as [->|]; [|lia].
           subst. contradiction.
      * intros b Hb [lane [Hl [Hb1 Hb2]]]. apply IHset; [exact Hb|].
        exists lane. split; [|auto].
        destruct (decide (lane = k)) as [->|]; [|lia].
        subst. contradiction.
      * intros b Hb. apply IHkeep. intros lane Hl. apply Hb. lia.
Qed.

(** C9. The tag a warp commits is the optimal reduction of the bitwise
    AND of the descriptors of all its lanes (a bit survives exactly when
    every lane that covers a block has it in its block's descriptor; idle
    lanes contribute all ones); every lane that covers a block writes this
    one tag for its block and stores its row in this precision, so no two
    rows of a block are stored in different precisions. *)
Theorem adaptive_generate_commits_one_tag
    (block_precisions : list precision_reduction) :
  0 < warp_size ->
  let descriptor := reduce Z.land (map prec_descriptor (seq 0 warp_size)) in
  let result := adaptive_generate block_precisions in
  (forall n, (0 <= n < 32)%Z ->
     Z.testbit descriptor n = true <->
     forall lane, lane < warp_size -> get_subwarp_id lane < num_blocks ->
       Z.testbit (block_descriptor (get_subwarp_id lane)) n = true) /\
  (forall lane, lane < warp_size -> get_subwarp_id lane < num_blocks ->
     lane_precision lane = get_optimal_storage_reduction descriptor /\
     (get_subwarp_id lane, lane, get_optimal_storage_reduction descriptor)
       ∈ result.2 /\
     (get_subwarp_id lane < length block_precisions ->
      result.1 !!! get_subwarp_id lane =
      get_optimal_storage_reduction descriptor)) /\
  (forall b lane1 lane2 p1 p2,
     (b, lane1, p1) ∈ result.2 -> (b, lane2, p2) ∈ result.2 -> p1 = p2).
Proof.
  intros Hpos descriptor result.
  destruct (commit_loop block_precisions warp_size)
    as [Hlen [Hlog [Hset Hkeep]]].
  fold (adaptive_generate block_precisions) in Hlen, Hlog, Hset, Hkeep.
  fold result in Hlen, Hlog, Hset, Hkeep.
  change committed_tag with (get_optimal_storage_reduction descriptor)
    in Hlog, Hset.
  split; [|split].
  - intros n Hn. unfold descriptor.
    rewrite reduce_land_testbit by (rewrite length_map, length_seq; lia).
    split.
    + intros Hall lane Hl Hact.
      assert (Hin : prec_descriptor lane ∈
                      map prec_descriptor (seq 0 warp_size)).
      { apply list_elem_of_fmap. exists lane.
        split; [reflexivity|]. apply elem_of_seq. lia. }
      pose proof (Hall _ Hin) as Hbit. unfold prec_descriptor in Hbit.
      destruct (decide (get_subwarp_id lane < num_blocks)); [|lia].
      exact Hbit.
    + intros Hall d Hd. apply list_elem_of_fmap in Hd as [lane [-> Hl]].
      apply elem_of_seq in Hl. unfold prec_descriptor.
      destruct (decide (get_subwarp_id lane < num_blocks)) as [Hact|Hidle].
      * apply Hall; [lia|exact Hact].
      * unfold all_ones. apply Z.ones_spec_low. lia.
  - intros lane Hl Hact. split; [reflexivity|]. split.
    + apply Hlog. auto.
    + intros Hb. apply Hset; [exact Hb|]. exists lane. auto.
  - intros b lane1 lane2 p1 p2 H1 H2.
    apply Hlog in H1 as [_ [_ [_ ->]]]. apply Hlog in H2 as [_ [_ [_ ->]]].
    reflexivity.
Qed.

End Adaptive.

(** ** Instances *)

(** Machine epsilon of double precision. *)
Definition double_eps : Qc := Q2Qc (1 # 4503599627370496).

Definition dense_block : list (list Qc) :=
  [[Q2Qc 1; Q2Qc 2; Q2Qc 7]; [Q2Qc 3; Q2Qc 4; Q2Qc 8];
   [Q2Qc 5; Q2Qc 6; Q2Qc 9]].

Lemma dense_block_wf : wf_rows 3 3 dense_block.
Proof. split; [reflexivity|repeat constructor]. Qed.

Lemma validate_restores_block_witness :
  entry (validate_precision_reduction_feasibility 3 (fun x => x) double_eps 2
           dense_block (replicate 8 0%Qc) 3).1.2 1 0 =
  entry dense_block 1 0.
Proof.
  apply (validate_restores_block 3 (fun x => x) double_eps 3 2 dense_block
           (replicate 8 0%Qc) 3 dense_block_wf);
    [lia|lia|lia|simpl; lia|lia|lia].
Defined.

(** A warp of four lanes in subwarps of two; only block 0 exists, so
    lanes 2 and 3 are idle. *)
Lemma adaptive_generate_commits_one_tag_witness :
  (adaptive_generate (fun z => z) 4 2 0 1 (fun _ => 5%Z) [0%Z]).1 !!! 0 =
  reduce Z.land (map (prec_descriptor 2 0 1 (fun _ => 5%Z)) (seq 0 4)).
Proof.
  destruct (adaptive_generate_commits_one_tag (fun z => z) 4 2 0 1
              (fun _ => 5%Z) [0%Z] ltac:(lia)) as [_ [Hlane _]].
  destruct (Hlane 0 ltac:(lia) ltac:(vm_compute; lia)) as [_ [_ Hset]].
  apply Hset. vm_compute. lia.
Defined.

End Jacobi.

(** * The dense block kernels over their template parameter [ValueType]
    (src/unnamed/part_000,
    common/cuda_hip/preconditioner/jacobi_generate_kernel.hpp.inc)

    The kernels are templates over the type of the matrix entries.  Here
    they take the arithmetic of that type as a parameter: the operations
    the kernels use, with no law assumed of them.  Two value types are
    given: the rationals, whose arithmetic is exact, and IEEE 754 double
    precision, whose arithmetic rounds.  Complex value types are not
    covered ([remove_complex<ValueType>] is [ValueType]). *)

Module ValueTypes.
Import Floats.

(** The operations of a [ValueType] that the kernels use. *)
Record arithmetic := Arithmetic {
  value : Type;
  (* [zero<ValueType>()], [one<ValueType>()] *)
  zero : value;
  one : value;
  (* [x + y], [x * y], [x / y], [-x] *)
  add : value -> value -> value;
  mul : value -> value -> value;
  div : value -> value -> value;
  neg : value -> value;
  (* [abs(x)] *)
  abs : value -> value;
  (* [x == y], [x < y], [x <= y] *)
  eqb : value -> value -> bool;
  ltb : value -> value -> bool;
  leb : value -> value -> bool;
  (* [ValueType{1e-3}] *)
  milli : value
}.

#[global] Instance value_inhabited (A : arithmetic) : Inhabited (value A) :=
  populate (zero A).

(** The rationals: every operation is exact. *)
Definition exact : arithmetic := {|
  value := Qc;
  zero := 0%Qc;
  one := 1%Qc;
  add := Qcplus;
  mul := Qcmult;
  div := Qcdiv;
  neg := Qcopp;
  abs := Qcabs;
  eqb := fun x y => bool_decide (x = y);
  ltb := fun x y => bool_decide (x < y)%Qc;
  leb := fun x y => bool_decide (x <= y)%Qc;
  milli := Q2Qc (1 # 1000)
|}.

(** IEEE 754 binary64 with rounding to nearest even, the [double] of the
    device: every operation rounds its exact result, [==] and [<] are the
    IEEE comparisons (false on a NaN, [-0 == 0]).  [1e-3] is the double
    nearest to one thousandth.  A compiler may contract the
    [row[i] += key_col_elem * key_row_elem] of the elimination into a fused
    multiply-add, which rounds once where product and sum round twice; on
    the blocks evaluated in this module the pivots and the norms come out
    the same either way, the products that they depend on being exact,
    overflowing or invalid. *)
Definition double : arithmetic := {|
  value := float;
  zero := 0%float;
  one := 1%float;
  add := PrimFloat.add;
  mul := PrimFloat.mul;
  div := PrimFloat.div;
  neg := PrimFloat.opp;
  abs := PrimFloat.abs;
  eqb := PrimFloat.eqb;
  ltb := PrimFloat.ltb;
  leb := PrimFloat.leb;
  milli := 0x1.0624dd2f1a9fcp-10%float
|}.

(** [static_cast<double>(static_cast<float>(x))]: a double rounded to
    IEEE 754 binary32 (24 bits of precision, exponents up to 128) and
    back; infinities, NaNs and zeros are kept. *)
Definition round_trip_single (x : float) : float :=
  match Prim2SF x with
  | S754_finite s m e =>
      SF2Prim (binary_normalize 24 128 (if s then Z.neg m else Z.pos m) e s)
  | _ => x
  end.

(** The rational that a finite double stands for (zero for the others). *)
Definition rational_of (x : float) : Qc :=
  match Prim2SF x with
  | S754_finite s m e =>
      let n := if s then Z.neg m else Z.pos m in
      match e with
      | Z.neg p => Q2Qc (Qmake n (2 ^ p))
      | _ => Q2Qc (inject_Z (n * 2 ^ e))
      end
  | _ => 0%Qc
  end.

Section Kernels.

Variable A : arithmetic.
Local Abbreviation V := (value A).

(** [group.shfl(var, src_lane)]: the value of [var] on lane [src_lane]. *)
Definition shfl {B} `{Inhabited B} (reg : list B) (src_lane : nat) : B :=
  reg !!! src_lane.

(** [x == zero<ValueType>()] *)
Definition is_zero (x : V) : bool := eqb A x (zero A).

(** Modelled from the spec: [choose_pivot] is not among the sources.  The
    pivot lane is chosen among the not-yet-pivoted lanes as the one
    maximizing [|row[i]|], by a group-wide max-with-index reduction, ties
    broken by lowest lane index.  A lane that has been a pivot takes part
    with the magnitude [-1]. *)
Definition magnitude (local_data : V) (is_pivoted : bool) : V :=
  if is_pivoted then neg A (one A) else abs A local_data.

Fixpoint max_with_index (mags : list V) (lane : nat) (best : nat)
    (best_mag : V) : nat :=
  match mags with
  | [] => best
  | m :: rest =>
      if ltb A best_mag m
      then max_with_index rest (S lane) lane m
      else max_with_index rest (S lane) best best_mag
  end.

Definition choose_pivot (local_data : list V) (is_pivoted : list bool)
    : nat :=
  match zip_with magnitude local_data is_pivoted with
  | [] => 0
  | m :: rest => max_with_index rest 1 0 m
  end.

(** Modelled from the spec: [reduce] of the components library and [max]
    of base/math are not among the sources.  A group-wide reduction hands
    every lane the combination of the values of all lanes under the
    operator. *)
Definition reduce {B} `{Inhabited B} (op : B -> B -> B) (local_data : list B)
    : B :=
  match local_data with
  | [] => inhabitant
  | v :: rest => foldl op v rest
  end.

Definition max (x y : V) : V := if ltb A x y then y else x.

Variable max_problem_size : nat.

(** The register [row[i]] of every lane. *)
Definition column (i : nat) (rows : list (list V)) : list V :=
  map (fun row => row !!! i) rows.

(** Iteration [i] of the loop of [apply_gauss_jordan_transform]: all lanes
    run it in lock step, the shuffle reads the key lane's [row[i]] before
    any lane writes; [row[i] += key_col_elem * key_row_elem] is a product
    followed by a sum. *)
Definition gauss_jordan_iteration (key_row : nat) (key_col_elem : list V)
    (rows : list (list V)) (i : nat) : list (list V) :=
  let key_row_elem := shfl (column i rows) key_row in
  imap (fun thread_rank row =>
          let row := if decide (thread_rank = key_row)
                     then <[i := zero A]> row else row in
          <[i := add A (row !!! i)
                   (mul A (key_col_elem !!! thread_rank) key_row_elem)]>
            row) rows.

(** [status] is the same on all lanes (the test is on a broadcast value),
    so one flag stands for the group. *)
Definition apply_gauss_jordan_transform (key_row key_col : nat)
    (rows : list (list V)) (status : bool) : list (list V) * bool :=
  let key_col_elem := shfl (column key_col rows) key_row in
  if is_zero key_col_elem then (rows, false)
  else
    let key_col_elem :=
      imap (fun thread_rank row =>
              if decide (thread_rank = key_row)
              then div A (one A) key_col_elem
              else div A (neg A (row !!! key_col)) key_col_elem) rows in
    let rows :=
      foldl (gauss_jordan_iteration key_row key_col_elem) rows
            (seq 0 max_problem_size) in
    (imap (fun thread_rank row =>
             <[key_col := key_col_elem !!! thread_rank]> row) rows,
     status).

Record group_state := GroupState {
  g_row : list (list V);
  g_perm : list nat;
  g_trans_perm : list nat;
  g_pivoted : list bool;
  g_status : bool
}.

(** The body of the loop of [invert_block]. *)
Definition invert_step (problem_size : nat) (st : group_state) (i : nat)
    : group_state :=
  if decide (i < problem_size) then
    let piv := choose_pivot (column i (g_row st)) (g_pivoted st) in
    let perm := <[piv := i]> (g_perm st) in
    let pivoted := <[piv := true]> (g_pivoted st) in
    let trans_perm := <[i := piv]> (g_trans_perm st) in
    let '(row, status) :=
      apply_gauss_jordan_transform piv i (g_row st) (g_status st) in
    GroupState row perm trans_perm pivoted status
  else st.

(** Lanes from [problem_size] on start as pivoted, so that they never
    become pivots. *)
Definition invert_init (problem_size : nat) (row : list (list V))
    (perm trans_perm : list nat) : group_state :=
  GroupState row perm trans_perm
    (imap (fun thread_rank _ => bool_decide (problem_size <= thread_rank)) row)
    true.

Definition invert_block (problem_size : nat) (row : list (list V))
    (perm trans_perm : list nat) : group_state :=
  foldl (invert_step problem_size)
        (invert_init problem_size row perm trans_perm)
        (seq 0 max_problem_size).

Definition compute_infinity_norm (num_rows num_cols : nat)
    (rows : list (list V)) : V :=
  let sum :=
    imap (fun thread_rank row =>
            if decide (thread_rank < num_rows)
            then foldl (fun sum i =>
                          if decide (i < num_cols)
                          then add A sum (abs A (row !!! i)) else sum)
                       (zero A) (seq 0 max_problem_size)
            else zero A) rows in
  reduce max sum.

(** ** [validate_precision_reduction_feasibility] *)

(** [static_cast<ValueType>(static_cast<ReducedType>(x))]: the round trip
    of a working-precision value through the reduced storage format. *)
Variable round_trip : V -> V.

(** Modelled from the spec: [float_traits<remove_complex<ValueType>>::eps]
    of the working precision [ValueType]; [float_traits] is not among the
    sources. *)
Variable eps : V.

Definition entry (rows : list (list V)) (r j : nat) : V :=
  (rows !!! r) !!! j.

Definition save_and_reduce (block_size stride : nat)
    (st : list (list V) * list V) (i : nat) : list (list V) * list V :=
  if decide (i < block_size) then
    let work :=
      foldl (fun work thread_rank =>
               if decide (thread_rank < block_size)
               then <[i * stride + thread_rank := entry st.1 thread_rank i]> work
               else work) st.2 (seq 0 (length st.1)) in
    let rows :=
      imap (fun thread_rank row =>
              if decide (thread_rank < block_size)
              then <[i := round_trip (row !!! i)]> row else row) st.1 in
    (rows, work)
  else st.

Definition restore (block_size stride : nat) (work : list V)
    (rows : list (list V)) (i : nat) : list (list V) :=
  if decide (i < block_size) then
    imap (fun thread_rank row =>
            if decide (thread_rank < block_size)
            then <[i := work !!! (i * stride + thread_rank)]> row else row)
         rows
  else rows.

Definition validate_precision_reduction_feasibility (block_size : nat)
    (row : list (list V)) (work : list V) (stride : nat)
    : bool * list (list V) * list V :=
  (* save original data and reduce precision *)
  let '(row, work) :=
    foldl (save_and_reduce block_size stride) (row, work)
          (seq 0 max_problem_size) in
  (* compute the condition number *)
  let perm := seq 0 (length row) in
  let trans_perm := perm in
  let block_cond := compute_infinity_norm block_size block_size row in
  let st := invert_block block_size row perm trans_perm in
  let succeeded := g_status st in
  let row := g_row st in
  let block_cond :=
    mul A block_cond (compute_infinity_norm block_size block_size row) in
  (* restore original data *)
  let row :=
    foldl (restore block_size stride work) row (seq 0 max_problem_size) in
  (succeeded && leb A (one A) block_cond &&
   ltb A (mul A block_cond eps) (milli A),
   row, work).

End Kernels.

Arguments g_row {A} _.
Arguments g_perm {A} _.
Arguments g_trans_perm {A} _.
Arguments g_pivoted {A} _.
Arguments g_status {A} _.
Arguments entry {A} _ _ _.

(** ** The kernels at the exact arithmetic

    Module [WarpBlas] has the kernels with the rationals written in; they
    are the kernels of this module at the arithmetic [exact]. *)

Definition to_exact (st : group_state exact) : WarpBlas.group_state :=
  WarpBlas.GroupState (g_row st) (g_perm st) (g_trans_perm st)
    (g_pivoted st) (g_status st).

Lemma max_with_index_exact (mags : list Qc) : forall lane best best_mag,
  max_with_index exact mags lane best best_mag =
  WarpBlas.max_with_index mags lane best best_mag.
Proof.
  induction mags as [|m rest IH]; intros lane best best_mag; [reflexivity|].
  cbn [max_with_index WarpBlas.max_with_index ltb exact].
  rewrite !IH. unfold bool_decide.
  destruct (decide_rel Qclt best_mag m); destruct (decide (best_mag < m)%Qc);
    try reflexivity; contradiction.
Qed.

Lemma choose_pivot_exact (local_data : list Qc) (is_pivoted : list bool) :
  choose_pivot exact local_data is_pivoted =
  WarpBlas.choose_pivot local_data is_pivoted.
Proof.
  assert (H : forall mags : list Qc,
            match mags with
            | [] => 0
            | m :: rest => max_with_index exact rest 1 0 m
            end =
            match mags with
            | [] => 0
            | m :: rest => WarpBlas.max_with_index rest 1 0 m
            end).
  { intros [|m rest]; [reflexivity|apply max_with_index_exact]. }
  exact (H (zip_with WarpBlas.magnitude local_data is_pivoted)).
Qed.

Lemma apply_gauss_jordan_transform_exact max_problem_size key_row key_col
    (rows : list (list Qc)) status :
  apply_gauss_jordan_transform exact max_problem_size key_row key_col rows
    status =
  WarpBlas.apply_gauss_jordan_transform max_problem_size key_row key_col rows
    status.
Proof. reflexivity. Qed.

Lemma invert_step_exact max_problem_size problem_size st i :
  to_exact (invert_step exact max_problem_size problem_size st i) =
  WarpBlas.invert_step max_problem_size problem_size (to_exact st) i.
Proof.
  unfold invert_step, WarpBlas.invert_step.
  destruct (decide (i < problem_size)); [|reflexivity].
  cbn [to_exact WarpBlas.g_row WarpBlas.g_pivoted WarpBlas.g_perm
       WarpBlas.g_trans_perm WarpBlas.g_status].
  rewrite choose_pivot_exact, apply_gauss_jordan_transform_exact.
  destruct (WarpBlas.apply_gauss_jordan_transform _ _ _ _ _) as [row status].
  reflexivity.
Qed.

Lemma invert_block_exact max_problem_size problem_size (row : list (list Qc))
    perm trans_perm :
  to_exact (invert_block exact max_problem_size problem_size row perm
              trans_perm) =
  WarpBlas.invert_block max_problem_size problem_size row perm trans_perm.
Proof.
  unfold invert_block, WarpBlas.invert_block.
  change (WarpBlas.invert_init problem_size row perm trans_perm)
    with (to_exact (invert_init exact problem_size row perm trans_perm)).
  generalize (invert_init exact problem_size row perm trans_perm).
  induction (seq 0 max_problem_size) as [|i l IH]; intros st; [reflexivity|].
  simpl. rewrite IH, invert_step_exact. reflexivity.
Qed.

(** ** The status flag of [invert_block] *)

Section Status.

Variable A : arithmetic.
Variables max_problem_size problem_size : nat.
Variable M : list (list (value A)).
Variables perm0 trans_perm0 : list nat.

(** The state of the group when iteration [k] of the loop of
    [invert_block] starts. *)
Definition state_at_step (k : nat) : group_state A :=
  foldl (invert_step A max_problem_size problem_size)
        (invert_init A problem_size M perm0 trans_perm0) (seq 0 k).

(** [piv] of an iteration, and the element that
    [apply_gauss_jordan_transform] compares with zero:
    [group.shfl(row[key_col], key_row)]. *)
Definition pivot_lane (st : group_state A) (i : nat) : nat :=
  choose_pivot A (column A i (g_row st)) (g_pivoted st).

Definition pivot_element (st : group_state A) (i : nat) : value A :=
  shfl (column A i (g_row st)) (pivot_lane st i).

Lemma state_at_step_next k :
  state_at_step (S k) =
  invert_step A max_problem_size problem_size (state_at_step k) k.
Proof. unfold state_at_step. rewrite seq_S, foldl_app. reflexivity. Qed.

Lemma invert_step_beyond st i :
  problem_size <= i ->
  invert_step A max_problem_size problem_size st i = st.
Proof.
  intros Hi. unfold invert_step.
  destruct (decide (i < problem_size)); [lia|reflexivity].
Qed.

Lemma invert_block_steps :
  problem_size <= max_problem_size ->
  invert_block A max_problem_size problem_size M perm0 trans_perm0 =
  state_at_step problem_size.
Proof.
  intros Hle. unfold invert_block, state_at_step.
  replace max_problem_size
    with (problem_size + (max_problem_size - problem_size)) at 2 by lia.
  rewrite seq_app, foldl_app. simpl.
  generalize (foldl (invert_step A max_problem_size problem_size)
                (invert_init A problem_size M perm0 trans_perm0)
                (seq 0 problem_size)).
  assert (Hskip : forall d s st, problem_size <= s ->
            foldl (invert_step A max_problem_size problem_size) st (seq s d)
            = st).
  { induction d as [|d IH]; intros s st Hs; [reflexivity|].
    simpl. rewrite invert_step_beyond by lia. apply IH. lia. }
  intros st. apply Hskip. lia.
Qed.

(** The status flag is cleared by a pivot element that compares equal to
    zero and is never set again. *)
Lemma invert_step_status st i :
  i < problem_size ->
  g_status (invert_step A max_problem_size problem_size st i) =
  g_status st && negb (is_zero A (pivot_element st i)).
Proof.
  intros Hi. unfold invert_step.
  destruct (decide (i < problem_size)); [|lia].
  unfold apply_gauss_jordan_transform. fold (pivot_lane st i).
  fold (pivot_element st i).
  destruct (is_zero A (pivot_element st i)); simpl.
  - rewrite andb_false_r. reflexivity.
  - rewrite andb_true_r. reflexivity.
Qed.

Lemma status_false_zero_pivot k :
  k <= problem_size ->
  g_status (state_at_step k) = false <->
  exists i, i < k /\ is_zero A (pivot_element (state_at_step i) i) = true.
Proof.
  induction k as [|k IH]; intros Hk.
  - split; [discriminate|intros [i [Hi _]]; lia].
  - rewrite state_at_step_next, invert_step_status by lia.
    rewrite andb_false_iff, IH by lia. rewrite negb_false_iff.
    split.
    + intros [[i [Hi Hz]]|Hz]; [exists i|exists k]; split; auto; lia.
    + intros [i [Hi Hz]].
      destruct (decide (i = k)) as [->|]; [right; exact Hz|].
      left. exists i. split; [lia|exact Hz].
Qed.

End Status.

(** The returned matrix with the permutations undone: row [a] is taken
    from lane [trans_perm a], column [b] from register [perm b]. *)
Definition unpermuted {A} (st : group_state A) (a b : nat) : value A :=
  entry (g_row st) (g_trans_perm st !!! a) (g_perm st !!! b).

Lemma state_at_step_exact max_problem_size problem_size (M : list (list Qc))
    perm0 trans_perm0 k :
  to_exact (state_at_step exact max_problem_size problem_size M perm0
              trans_perm0 k) =
  WarpBlas.state_at_step max_problem_size problem_size M perm0 trans_perm0 k.
Proof.
  unfold state_at_step, WarpBlas.state_at_step.
  change (WarpBlas.invert_init problem_size M perm0 trans_perm0)
    with (to_exact (invert_init exact problem_size M perm0 trans_perm0)).
  generalize (invert_init exact problem_size M perm0 trans_perm0).
  induction (seq 0 k) as [|i l IH]; intros st; [reflexivity|].
  simpl. rewrite IH, invert_step_exact. reflexivity.
Qed.

Lemma unpermuted_exact (st : group_state exact) :
  unpermuted st = WarpBlas.unpermuted (to_exact st).
Proof. reflexivity. Qed.

Lemma g_status_exact (st : group_state exact) :
  g_status st = WarpBlas.g_status (to_exact st).
Proof. reflexivity. Qed.

(** ** Inversion in exact arithmetic *)

Section Exact.

Variables max_problem_size group_size problem_size : nat.
Hypothesis problem_size_le_max : problem_size <= max_problem_size.
Hypothesis problem_size_le_group : problem_size <= group_size.

Variable M : list (list Qc).
Variables perm0 trans_perm0 : list nat.
Hypothesis M_wf : WarpBlas.wf_rows max_problem_size group_size M.
Hypothesis perm0_length : length perm0 = group_size.
Hypothesis trans_perm0_length : length trans_perm0 = group_size.

Local Abbreviation inverted :=
  (invert_block exact max_problem_size problem_size M perm0 trans_perm0).
Local Abbreviation at_step :=
  (state_at_step exact max_problem_size problem_size M perm0 trans_perm0).

Lemma exact_status_iff_nonsingular :
  g_status inverted = true <-> WarpBlas.nonsingular problem_size M.
Proof.
  rewrite g_status_exact, invert_block_exact.
  apply (WarpBlas.status_iff_nonsingular max_problem_size group_size);
    assumption.
Qed.

Lemma exact_sound :
  g_status inverted = true ->
  WarpBlas.inverse_of problem_size M (unpermuted inverted).
Proof.
  rewrite g_status_exact, unpermuted_exact, invert_block_exact.
  apply (WarpBlas.invert_block_sound max_problem_size group_size);
    assumption.
Qed.

Lemma exact_zero_row r :
  r < problem_size ->
  (forall j, j < problem_size -> entry (A := exact) M r j = 0%Qc) ->
  g_status inverted = false.
Proof.
  intros Hr Hrow. rewrite g_status_exact, invert_block_exact.
  apply (WarpBlas.zero_row_fails max_problem_size group_size problem_size
           problem_size_le_max problem_size_le_group M perm0 trans_perm0
           M_wf perm0_length trans_perm0_length r Hr).
  exact Hrow.
Qed.

Lemma exact_pivot_element i :
  i < problem_size ->
  pivot_element exact (at_step i) i =
  WarpBlas.pivot_element
    (WarpBlas.state_at_step max_problem_size problem_size M perm0
       trans_perm0 i) i.
Proof.
  intros Hi.
  pose proof (WarpBlas.state_at_step_bookkeeping max_problem_size group_size
                problem_size problem_size_le_max problem_size_le_group M
                perm0 trans_perm0 M_wf perm0_length trans_perm0_length i
                ltac:(lia)) as Hbk.
  destruct (WarpBlas.pivot_lane_fresh max_problem_size group_size
              problem_size problem_size_le_max problem_size_le_group i _ Hi
              Hbk) as [Hlane _].
  rewrite <- state_at_step_exact in Hlane |- *.
  unfold pivot_element, pivot_lane, WarpBlas.pivot_element.
  rewrite choose_pivot_exact.
  apply WarpBlas.shfl_column.
  rewrite <- state_at_step_exact in Hbk.
  destruct Hbk as [[Hlen _] _ _ _ _ _ _ _].
  unfold WarpBlas.pivot_lane in Hlane.
  cbn [to_exact WarpBlas.g_row WarpBlas.g_pivoted] in Hlen, Hlane.
  unfold WarpBlas.pivot_lane. cbn [to_exact WarpBlas.g_row WarpBlas.g_pivoted].
  rewrite Hlen. lia.
Qed.

Lemma exact_pivot_zero_iff i :
  i < problem_size ->
  is_zero exact (pivot_element exact (at_step i) i) = true <->
  forall l, l < group_size ->
    g_pivoted (at_step i) !!! l = false ->
    entry (g_row (at_step i)) l i = 0%Qc.
Proof.
  intros Hi. rewrite exact_pivot_element by exact Hi.
  unfold is_zero. cbn [eqb exact zero]. rewrite bool_decide_eq_true.
  rewrite (WarpBlas.pivot_element_zero_iff max_problem_size group_size
             problem_size problem_size_le_max problem_size_le_group i _ Hi)
    by (apply WarpBlas.state_at_step_bookkeeping; auto; lia).
  rewrite <- state_at_step_exact. reflexivity.
Qed.

End Exact.

(** ** The feasibility check *)

(** A well-formed register file: one row of [max_problem_size] elements
    per lane. *)
Definition wf_rows {A} (max_problem_size group_size : nat)
    (rows : list (list (value A))) : Prop :=
  length rows = group_size /\
  Forall (fun row => length row = max_problem_size) rows.

Section Validate.

Variable A : arithmetic.
Variables max_block_size group_size : nat.
Variable round_trip : value A -> value A.
Variable eps : value A.

Local Abbreviation V := (value A).

(** The block as the first loop leaves it in the registers: the entries of
    the leading [block_size]-by-[block_size] block have gone through the
    reduced format. *)
Definition reduced_block (block_size : nat) (rows : list (list V))
    : list (list V) :=
  imap (fun r row =>
          imap (fun j x =>
                  if decide (r < block_size /\ j < block_size)
                  then round_trip x else x) row) rows.

(** The first loop on the registers, column by column. *)
Definition reduce_column (block_size : nat) (rows : list (list V)) (i : nat)
    : list (list V) :=
  if decide (i < block_size) then
    imap (fun thread_rank row =>
            if decide (thread_rank < block_size)
            then <[i := round_trip (row !!! i)]> row else row) rows
  else rows.

Lemma save_and_reduce_registers block_size stride st i :
  (save_and_reduce A round_trip block_size stride st i).1 =
  reduce_column block_size st.1 i.
Proof.
  unfold save_and_reduce, reduce_column.
  destruct (decide (i < block_size)); reflexivity.
Qed.

Lemma save_and_reduce_loop_registers block_size stride st l :
  (foldl (save_and_reduce A round_trip block_size stride) st l).1 =
  foldl (reduce_column block_size) st.1 l.
Proof.
  revert st. induction l as [|i l IH]; intros st; [reflexivity|].
  simpl. rewrite IH, save_and_reduce_registers. reflexivity.
Qed.

(** After the columns below [k] the registers hold the block with these
    columns reduced. *)
Definition reduced_upto (k block_size : nat) (rows : list (list V))
    : list (list V) :=
  imap (fun r row =>
          imap (fun j x =>
                  if decide (r < block_size /\ j < block_size /\ j < k)
                  then round_trip x else x) row) rows.

Lemma imap_ext_length {B C} (f g : nat -> B -> C) (l : list B) :
  (forall i x, l !! i = Some x -> f i x = g i x) -> imap f l = imap g l.
Proof.
  revert f g. induction l as [|x l IH]; intros f g Hfg; [reflexivity|].
  simpl. f_equal.
  - apply (Hfg 0 x). reflexivity.
  - apply IH. intros i y Hy. apply (Hfg (S i) y). exact Hy.
Qed.

Lemma imap_imap {B C D} (f : nat -> C -> D) (g : nat -> B -> C)
    (l : list B) :
  imap f (imap g l) = imap (fun i x => f i (g i x)) l.
Proof.
  revert f g. induction l as [|x l IH]; intros f g; [reflexivity|].
  simpl. f_equal. apply IH.
Qed.

Lemma imap_insert_row (f : nat -> V -> V) (row : list V) (i : nat) (v : V) :
  <[i := v]> (imap f row) =
  imap (fun j x => if decide (j = i) then v else f j x) row.
Proof.
  revert f i. induction row as [|x row IH]; intros f i; [reflexivity|].
  destruct i as [|i]; simpl.
  - f_equal; apply imap_ext_length; intros j y _; reflexivity.
  - f_equal. unfold compose. rewrite IH.
    apply imap_ext_length. intros j y _. simpl.
    destruct (decide (j = i)), (decide (S j = S i)); try reflexivity; lia.
Qed.

Lemma reduce_column_step k block_size rows :
  reduce_column block_size (reduced_upto k block_size rows) k =
  reduced_upto (S k) block_size rows.
Proof.
  unfold reduce_column, reduced_upto.
  destruct (decide (k < block_size)) as [Hk|Hk].
  - rewrite imap_imap. apply imap_ext_length. intros r row Hrow. simpl.
    destruct (decide (r < block_size)) as [Hr|Hr].
    + rewrite imap_insert_row. apply imap_ext_length. intros j x Hx.
      destruct (decide (j = k)) as [->|Hne].
      * rewrite (list_lookup_total_correct _ _ (
          if decide (r < block_size /\ k < block_size /\ k < k)
          then round_trip x else x)).
        -- destruct (decide (r < block_size /\ k < block_size /\ k < k));
             [lia|].
           destruct (decide (r < block_size /\ k < block_size /\ k < S k));
             [reflexivity|lia].
        -- rewrite list_lookup_imap, Hx. reflexivity.
      * destruct (decide (r < block_size /\ j < block_size /\ j < k)),
                 (decide (r < block_size /\ j < block_size /\ j < S k));
          try reflexivity; lia.
    + apply imap_ext_length. intros j x Hx.
      destruct (decide (r < block_size /\ j < block_size /\ j < k)),
               (decide (r < block_size /\ j < block_size /\ j < S k));
        try reflexivity; lia.
  - apply imap_ext_length. intros r row Hrow.
    apply imap_ext_length. intros j x Hx.
    destruct (decide (r < block_size /\ j < block_size /\ j < k)),
             (decide (r < block_size /\ j < block_size /\ j < S k));
      try reflexivity; lia.
Qed.

Lemma imap_id {B} (l : list B) : imap (fun _ x => x) l = l.
Proof.
  induction l as [|x l IH]; [reflexivity|]. simpl. f_equal. exact IH.
Qed.

Lemma reduce_columns k block_size rows :
  foldl (reduce_column block_size) rows (seq 0 k) =
  reduced_upto k block_size rows.
Proof.
  induction k as [|k IH].
  - simpl. unfold reduced_upto. symmetry.
    rewrite <- (imap_id rows) at 2. apply imap_ext_length. intros r row _.
    rewrite <- (imap_id row) at 2. apply imap_ext_length. intros j x _.
    destruct (decide (r < block_size /\ j < block_size /\ j < 0));
      [lia|reflexivity].
  - rewrite seq_S, foldl_app, IH. apply reduce_column_step.
Qed.

Lemma reduced_block_loop block_size stride rows work :
  wf_rows max_block_size group_size rows ->
  (foldl (save_and_reduce A round_trip block_size stride) (rows, work)
         (seq 0 max_block_size)).1 =
  reduced_block block_size rows.
Proof.
  intros [Hg Hall]. rewrite save_and_reduce_loop_registers, reduce_columns.
  unfold reduced_upto, reduced_block.
  apply imap_ext_length. intros r row Hrow.
  apply imap_ext_length. intros j x Hx.
  assert (Hj : j < max_block_size).
  { rewrite Forall_lookup in Hall. rewrite <- (Hall r row Hrow).
    apply lookup_lt_is_Some_1. exists x. exact Hx. }
  destruct (decide (r < block_size /\ j < block_size /\ j < max_block_size)),
           (decide (r < block_size /\ j < block_size));
    try reflexivity; lia.
Qed.

Lemma reduced_block_length block_size rows :
  length (reduced_block block_size rows) = length rows.
Proof. unfold reduced_block. apply length_imap. Qed.

End Validate.

Lemma foldl_op_ext {B} (f g : B -> B -> B) (l : list B) :
  (forall x y, f x y = g x y) -> forall v, foldl f v l = foldl g v l.
Proof.
  intros Hfg. induction l as [|x l IH]; intros v; [reflexivity|].
  simpl. rewrite Hfg. apply IH.
Qed.

Lemma max_exact (x y : Qc) : max exact x y = WarpBlas.Qc_max x y.
Proof.
  unfold max, WarpBlas.Qc_max. cbn [ltb exact]. unfold bool_decide.
  destruct (decide_rel Qclt x y); destruct (decide (x < y)%Qc);
    try reflexivity; contradiction.
Qed.

Lemma compute_infinity_norm_exact max_problem_size num_rows num_cols
    (rows : list (list Qc)) :
  compute_infinity_norm exact max_problem_size num_rows num_cols rows =
  WarpBlas.compute_infinity_norm max_problem_size num_rows num_cols rows.
Proof.
  unfold compute_infinity_norm, WarpBlas.compute_infinity_norm.
  unfold reduce, WarpBlas.reduce.
  match goal with
  | |- match ?l with _ => _ end = match ?l' with _ => _ end =>
      change l with l'; destruct l' as [|v rest]; [reflexivity|]
  end.
  apply foldl_op_ext. exact max_exact.
Qed.

Lemma validate_exact max_block_size (round_trip : Qc -> Qc) (eps : Qc)
    block_size (rows : list (list Qc)) (work : list Qc) stride :
  validate_precision_reduction_feasibility exact max_block_size round_trip
    eps block_size rows work stride =
  Jacobi.validate_precision_reduction_feasibility max_block_size round_trip
    eps block_size rows work stride.
Proof.
  unfold validate_precision_reduction_feasibility,
    Jacobi.validate_precision_reduction_feasibility.
  change (save_and_reduce exact round_trip block_size stride)
    with (Jacobi.save_and_reduce round_trip block_size stride).
  change (value exact) with Qc.
  destruct (foldl (Jacobi.save_and_reduce round_trip block_size stride)
              (rows, work) (seq 0 max_block_size)) as [row1 work1].
  rewrite !compute_infinity_norm_exact.
  rewrite (g_status_exact (invert_block exact _ _ _ _ _)).
  change (g_row (invert_block exact max_block_size block_size row1
                   (seq 0 (length row1)) (seq 0 (length row1))))
    with (WarpBlas.g_row
            (to_exact (invert_block exact max_block_size block_size row1
                         (seq 0 (length row1)) (seq 0 (length row1))))).
  rewrite invert_block_exact. reflexivity.
Qed.

(** ** Blocks *)

(** [1/3] rounded to double precision, and a block that has it as an
    entry.  The block is non-singular: [3 * third] is not one, but rounds
    to one. *)
Definition third : float := (1 / 3)%float.

Definition rounded_block : list (list float) :=
  [[3; 1]; [1; third]]%float.

(** A double close to the largest one, and a block with a zero row whose
    elimination overflows. *)
Definition huge : float := 0x1.fp1023%float.

Definition overflowing_block : list (list float) :=
  [[0; 0; 0]; [1; 1; - huge]; [0.5; 2; huge]]%float.

(** A block whose entry has no double as inverse. *)
Definition tiny_block : list (list float) := [[0x1p-1070]]%float.

(** A diagonal block with condition number [2^20].  Its entries are powers
    of two, which single precision holds exactly. *)
Definition ill_conditioned_block : list (list float) :=
  [[1; 0]; [0; 0x1p-20]]%float.

(** A block of one entry: its condition number is one. *)
Definition unit_block : list (list float) := [[49]]%float.

(** Machine epsilon of double precision, and unit roundoff and machine
    epsilon of single precision. *)
Definition double_eps : float := 0x1p-52%float.
Definition single_roundoff : float := 0x1p-24%float.
Definition single_eps : float := 0x1p-23%float.

(** C2. In exact arithmetic, a non-singular [n]-by-[n] block
    ([n <= max_problem_size], one row per lane) makes [invert_block] return
    true, and the returned registers [X] with the returned [perm] and
    [trans_perm] satisfy the permutation law: the matrix
    [U a b = X[trans_perm a][perm b]] is the inverse of [M], [U M = I] and
    [M U = I]. *)
Theorem invert_block_inverts (max_problem_size group_size problem_size : nat)
    (M : list (list Qc)) (perm trans_perm : list nat) :
  problem_size <= max_problem_size -> problem_size <= group_size ->
  wf_rows (A := exact) max_problem_size group_size M ->
  length perm = group_size -> length trans_perm = group_size ->
  WarpBlas.nonsingular problem_size M ->
  let st := invert_block exact max_problem_size problem_size M perm
              trans_perm in
  g_status st = true /\ WarpBlas.inverse_of problem_size M (unpermuted st).
Proof.
  intros Hm Hg Hwf Hp Ht Hns st.
  assert (Hst : g_status st = true).
  { apply (exact_status_iff_nonsingular max_problem_size group_size
             problem_size Hm Hg M perm trans_perm Hwf Hp Ht). exact Hns. }
  split; [exact Hst|].
  apply (exact_sound max_problem_size group_size problem_size Hm Hg M perm
           trans_perm Hwf Hp Ht). exact Hst.
Qed.


(** C5. The check accepts exactly when [invert_block] returns true on the
    round-tripped block, the surrogate condition number [cond], the
    product of the infinity norms of the round-tripped block and of the
    registers that [invert_block] leaves, is at least one, and [cond] times
    the unit roundoff [eps] of the working value type is below [1e-3];
    norms, product and comparisons are those of the value type. *)
Theorem validate_accepts_iff (A : arithmetic)
    (max_block_size group_size : nat) (round_trip : value A -> value A)
    (eps : value A) (block_size : nat) (rows : list (list (value A)))
    (work : list (value A)) (stride : nat) :
  wf_rows max_block_size group_size rows ->
  let reduced := reduced_block A round_trip block_size rows in
  let st := invert_block A max_block_size block_size reduced
              (seq 0 group_size) (seq 0 group_size) in
  let cond :=
    mul A (compute_infinity_norm A max_block_size block_size block_size
             reduced)
          (compute_infinity_norm A max_block_size block_size block_size
             (g_row st)) in
  (validate_precision_reduction_feasibility A max_block_size round_trip eps
     block_size rows work stride).1.1 = true <->
  g_status st = true /\ leb A (one A) cond = true /\
  ltb A (mul A cond eps) (milli A) = true.
Proof.
  intros Hwf reduced st cond.
  unfold validate_precision_reduction_feasibility.
  pose proof (reduced_block_loop A max_block_size group_size round_trip
                block_size stride rows work Hwf) as Hrows.
  destruct (foldl (save_and_reduce A round_trip block_size stride)
              (rows, work) (seq 0 max_block_size)) as [row1 work1].
  cbn [fst] in Hrows. subst row1. fold reduced.
  assert (Hlen : length reduced = group_size).
  { unfold reduced. rewrite reduced_block_length. exact (proj1 Hwf). }
  rewrite Hlen. fold st. fold cond. cbn [fst].
  rewrite !andb_true_iff. tauto.
Qed.

Lemma invert_block_inverts_witness :
  g_status (invert_block exact 3 2 WarpBlas.exchange_block [0; 1; 2; 3]
              [0; 1; 2; 3]) = true /\
  WarpBlas.inverse_of 2 WarpBlas.exchange_block
    (unpermuted (invert_block exact 3 2 WarpBlas.exchange_block [0; 1; 2; 3]
                   [0; 1; 2; 3])).
Proof.
  exact (invert_block_inverts 3 4 2 WarpBlas.exchange_block [0; 1; 2; 3]
           [0; 1; 2; 3] ltac:(lia) ltac:(lia) WarpBlas.exchange_block_wf
           eq_refl eq_refl WarpBlas.exchange_block_nonsingular).
Defined.

(** In double precision the second pivot of [rounded_block] is exactly
    zero: the elimination computes [third - third * 1].  The block itself,
    its entries read as rationals, is non-singular. *)
Lemma invert_block_inverts_counterexample :
  map (map (fun x => this (rational_of x))) rounded_block =
    [[3 # 1; 1 # 1]; [1 # 1; 6004799503160661 # 18014398509481984]]%Q /\
  WarpBlas.nonsingular 2 (map (map rational_of) rounded_block) /\
  g_status (invert_block double 2 2 rounded_block [0; 1] [0; 1]) = false.
Proof.
  split; [vm_compute; reflexivity|]. split; [|vm_compute; reflexivity].
  apply (exact_status_iff_nonsingular 2 2 2 ltac:(lia) ltac:(lia)
           (map (map rational_of) rounded_block) [0; 1] [0; 1]).
  - split; [reflexivity|repeat constructor].
  - reflexivity.
  - reflexivity.
  - vm_compute. reflexivity.
Qed.



Lemma validate_accepts_iff_witness :
  (validate_precision_reduction_feasibility double 2 round_trip_single
     double_eps 2 ill_conditioned_block (replicate 4 0%float) 2).1.1 = true
  <->
  g_status (invert_block double 2 2
              (reduced_block double round_trip_single 2
                 ill_conditioned_block) (seq 0 2) (seq 0 2)) = true /\
  leb double (one double)
    (mul double
       (compute_infinity_norm double 2 2 2
          (reduced_block double round_trip_single 2 ill_conditioned_block))
       (compute_infinity_norm double 2 2 2
          (g_row (invert_block double 2 2
                    (reduced_block double round_trip_single 2
                       ill_conditioned_block) (seq 0 2) (seq 0 2))))) = true /\
  ltb double
    (mul double
       (mul double
          (compute_infinity_norm double 2 2 2
             (reduced_block double round_trip_single 2 ill_conditioned_block))
          (compute_infinity_norm double 2 2 2
             (g_row (invert_block double 2 2
                       (reduced_block double round_trip_single 2
                          ill_conditioned_block) (seq 0 2) (seq 0 2)))))
       double_eps) (milli double) = true.
Proof.
  apply (validate_accepts_iff double 2 2 round_trip_single double_eps 2
           ill_conditioned_block (replicate 4 0%float) 2).
  split; [reflexivity|repeat constructor].
Defined.

(** The check takes the unit roundoff of the working type, not of the
    reduced format: [ill_conditioned_block], which single precision holds
    exactly, has [cond = 2^20] and is accepted with the roundoff of double
    precision, while [cond] times the roundoff of single precision is
    above [1e-3].  And [cond] is a rounded product: for [unit_block] it
    comes out below one, and the block is rejected, while in exact
    arithmetic [cond] is one and the block is accepted. *)
Lemma validate_reduced_roundoff_counterexample :
  (validate_precision_reduction_feasibility double 2 round_trip_single
     double_eps 2 ill_conditioned_block (replicate 4 0%float) 2).1.1 = true /\
  reduced_block double round_trip_single 2 ill_conditioned_block =
    ill_conditioned_block /\
  mul double
    (compute_infinity_norm double 2 2 2 ill_conditioned_block)
    (compute_infinity_norm double 2 2 2
       (g_row (invert_block double 2 2 ill_conditioned_block [0; 1] [0; 1])))
    = 0x1p20%float /\
  ltb double (mul double 0x1p20%float single_roundoff) (milli double)
    = false /\
  ltb double (mul double 0x1p20%float single_eps) (milli double) = false /\
  (validate_precision_reduction_feasibility double 1 round_trip_single
     double_eps 1 unit_block [0%float] 1).1.1 = false /\
  (validate_precision_reduction_feasibility exact 1 (fun x => x)
     (Q2Qc (1 # 4503599627370496)) 1 [[Q2Qc 49]] [0%Qc] 1).1.1 = true.
Proof. repeat split; vm_compute; reflexivity. Qed.

End ValueTypes.

(** * The synchronisation-free scheduler
    (common/cuda_hip/components/syncfree.hpp.inc)

    Thread blocks and subwarps run interleaved: a schedule names the agent
    that takes the next step, and a step is one access to the shared
    memory by the lane that performs it (thread 0 of a block in the
    constructor, lane 0 of a subwarp in [wait] and [mark_ready]).  Every
    access is logged with the memory ordering the source gives it. *)

Module Syncfree.

Inductive agent :=
| Block (b : nat)
| Subwarp (b s : nat).

(** The accesses to the status words and the block counter, named after
    the functions of the source. *)
Inductive event :=
| AtomicAdd (b : nat) (old : nat)
| LoadAcquireShared (b s : nat) (idx : nat) (v : nat)
| LoadAcquire (b s : nat) (idx : nat) (v : nat)
| StoreReleaseShared (b s : nat) (idx : nat) (v : nat)
| StoreRelease (b s : nat) (idx : nat) (v : nat).

(** Where a subwarp stands in the kernel: before [get_work_id], at the
    [wait] of its [k]-th dependency, between the two stores of
    [mark_ready], or past its last statement. *)
Inductive program_counter :=
| Init
| Waiting (k : nat)
| Publishing
| Finished.

Record state := State {
  storage : list nat;
  block_offset : nat -> option nat;
  local_status : nat -> list nat;
  pc : nat -> nat -> program_counter;
  trace : list event
}.

Definition upd {A} (f : nat -> A) (k : nat) (v : A) : nat -> A :=
  fun k' => if decide (k' = k) then v else f k'.

Definition upd2 {A} (f : nat -> nat -> A) (b s : nat) (v : A)
    : nat -> nat -> A :=
  fun b' s' => if decide (b' = b /\ s' = s) then v else f b' s'.

Section Scheduler.

Variables block_size subwarp_size : nat.

(** The rows of the factorisation and, for each row, the columns of its
    lower triangular entries in the order the kernel waits for them. *)
Variable num_rows : nat.
Variable dependencies : nat -> list nat.

Definition local_dependency_count : nat := block_size / subwarp_size.

(** [syncfree_storage]: [num_elements + 1] words filled with 0; the last
    one is the block counter. *)
Definition syncfree_storage (num_elements : nat) : list nat :=
  replicate (num_elements + 1) 0.

Definition block_counter : nat := num_rows.

Definition initial : state :=
  State (syncfree_storage num_rows) (fun _ => None) (fun _ => [])
        (fun _ _ => Init) [].

(** [work_id] of the lanes of subwarp [s] ([threadIdx.x] of its lane 0 is
    [s * subwarp_size]) and [block_id]. *)
Definition get_work_id (offset s : nat) : nat :=
  (offset + s * subwarp_size) / subwarp_size.

Definition get_block_id (offset : nat) : nat := offset / block_size.

(** The constructor: thread 0 claims the next block of rows with
    [atomic_add], the local status words are cleared, and the block's
    barrier lets the subwarps go on. *)
Definition construct (b : nat) (st : state) : state :=
  match block_offset st b with
  | Some _ => st
  | None =>
      let old := storage st !!! block_counter in
      State (<[block_counter := old + 1]> (storage st))
            (upd (block_offset st) b (Some (old * block_size)))
            (upd (local_status st) b (replicate local_dependency_count 0))
            (pc st)
            (AtomicAdd b old :: trace st)
  end.

(** One iteration of the spin loop of [wait]. *)
Definition wait (b s offset k dependency : nat) (st : state) : state :=
  let dep_block := dependency / local_dependency_count in
  let dep_local := dependency mod local_dependency_count in
  if decide (dep_block = get_block_id offset) then
    let v := local_status st b !!! dep_local in
    State (storage st) (block_offset st) (local_status st)
          (upd2 (pc st) b s (if decide (v = 0) then Waiting k
                             else Waiting (S k)))
          (LoadAcquireShared b s dep_local v :: trace st)
  else
    let v := storage st !!! dependency in
    State (storage st) (block_offset st) (local_status st)
          (upd2 (pc st) b s (if decide (v = 0) then Waiting k
                             else Waiting (S k)))
          (LoadAcquire b s dependency v :: trace st).

(** The two stores of [mark_ready]. *)
Definition mark_ready_local (b s offset : nat) (st : state) : state :=
  let sh_id := get_work_id offset s mod local_dependency_count in
  State (storage st) (block_offset st)
        (upd (local_status st) b (<[sh_id := 1]> (local_status st b)))
        (upd2 (pc st) b s Publishing)
        (StoreReleaseShared b s sh_id 1 :: trace st).

Definition mark_ready_global (b s offset : nat) (st : state) : state :=
  State (<[get_work_id offset s := 1]> (storage st)) (block_offset st)
        (local_status st)
        (upd2 (pc st) b s Finished)
        (StoreRelease b s (get_work_id offset s) 1 :: trace st).

(** The [factorize] kernel as seen by the scheduler. *)
Definition kernel_step (b s : nat) (st : state) : state :=
  match block_offset st b with
  | None => st
  | Some offset =>
      if decide (s < local_dependency_count) then
        let row := get_work_id offset s in
        match pc st b s with
        | Init =>
            State (storage st) (block_offset st) (local_status st)
                  (upd2 (pc st) b s
                     (if decide (num_rows <= row) then Finished
                      else Waiting 0))
                  (trace st)
        | Waiting k =>
            match dependencies row !! k with
            | Some dep => wait b s offset k dep st
            | None => mark_ready_local b s offset st
            end
        | Publishing => mark_ready_global b s offset st
        | Finished => st
        end
      else st
  end.

Definition step (st : state) (a : agent) : state :=
  match a with
  | Block b => construct b st
  | Subwarp b s => kernel_step b s st
  end.

Definition run (schedule : list agent) : state :=
  foldl step initial schedule.

(** ** Invariants of the runs *)

Hypothesis subwarp_size_pos : 0 < subwarp_size.
Hypothesis block_size_pos : 0 < block_size.
Hypothesis block_size_multiple :
  block_size = local_dependency_count * subwarp_size.

(** The dependencies of a row are columns of its strictly lower
    triangle. *)
Hypothesis dependencies_lower :
  forall row dep, dep ∈ dependencies row -> dep < row.

Local Abbreviation ldc := local_dependency_count.

Lemma ldc_pos : 0 < ldc.
Proof.
  destruct (decide (0 < ldc)) as [|Hz]; [assumption|].
  assert (ldc = 0) as E by lia. rewrite E in block_size_multiple. lia.
Qed.

Lemma get_work_id_claimed k s :
  get_work_id (k * block_size) s = k * ldc + s.
Proof.
  unfold get_work_id. rewrite block_size_multiple.
  replace (k * (ldc * subwarp_size) + s * subwarp_size)
    with ((k * ldc + s) * subwarp_size) by lia.
  apply Nat.div_mul. lia.
Qed.

Lemma get_block_id_claimed k : get_block_id (k * block_size) = k.
Proof. unfold get_block_id. apply Nat.div_mul. lia. Qed.

Lemma work_id_local k s : s < ldc -> (k * ldc + s) mod ldc = s.
Proof.
  intros Hs. rewrite Nat.add_comm, Nat.Div0.mod_add.
  apply Nat.mod_small. exact Hs.
Qed.

Lemma work_id_block k s : s < ldc -> (k * ldc + s) / ldc = k.
Proof.
  intros Hs. rewrite Nat.add_comm, Nat.div_add by lia.
  rewrite Nat.div_small by exact Hs. reflexivity.
Qed.

Lemma work_id_inj k s k' s' :
  s < ldc -> s' < ldc -> k * ldc + s = k' * ldc + s' -> k = k' /\ s = s'.
Proof.
  intros Hs Hs' E. split.
  - rewrite <- (work_id_block k s Hs), <- (work_id_block k' s' Hs'), E.
    reflexivity.
  - rewrite <- (work_id_local k s Hs), <- (work_id_local k' s' Hs'), E.
    reflexivity.
Qed.

(** A subwarp has published once it is past the first store of
    [mark_ready]. *)
Definition has_published (p : program_counter) (row : nat) : bool :=
  match p with
  | Publishing => true
  | Finished => bool_decide (row < num_rows)
  | _ => false
  end.

(** Dependency number [j] of a row has been waited for. *)
Definition consumed (p : program_counter) (row j : nat) : Prop :=
  match p with
  | Init => False
  | Waiting k => j < k
  | Publishing | Finished =>
      row < num_rows /\ j < length (dependencies row)
  end.

Definition global_store_index (e : event) : option nat :=
  match e with
  | StoreRelease _ _ idx _ => Some idx
  | _ => None
  end.

(** The subwarp [(b, s)] has seen the flag of dependency [dep] set, by an
    acquire load that the log places after the release store of the flag:
    the flag in shared memory when the dependency belongs to the same
    block, the status word in global memory otherwise. *)
Definition observed (st : state) (b s offset dep : nat) : Prop :=
  exists l1 l2 l3 load store,
    trace st = l1 ++ load :: l2 ++ store :: l3 /\
    ((dep / ldc = get_block_id offset /\
      load = LoadAcquireShared b s (dep mod ldc) 1 /\
      store = StoreReleaseShared b (dep mod ldc) (dep mod ldc) 1 /\
      get_work_id offset (dep mod ldc) = dep) \/
     (dep / ldc <> get_block_id offset /\
      load = LoadAcquire b s dep 1 /\
      exists b' s', store = StoreRelease b' s' dep 1)).

Record invariant (st : state) : Prop := {
  inv_storage : length (storage st) = num_rows + 1;
  inv_offsets : forall b offset, block_offset st b = Some offset ->
    exists k, k < storage st !!! block_counter /\ offset = k * block_size;
  inv_offsets_inj : forall b b' offset,
    block_offset st b = Some offset -> block_offset st b' = Some offset ->
    b = b';
  inv_unclaimed : forall b s, block_offset st b = None -> pc st b s = Init;
  inv_outside : forall b s, ~ s < ldc -> pc st b s = Init;
  inv_local_len : forall b offset, block_offset st b = Some offset ->
    length (local_status st b) = ldc;
  inv_rows : forall b s offset, block_offset st b = Some offset ->
    pc st b s <> Init -> pc st b s <> Finished ->
    get_work_id offset s < num_rows;
  inv_local : forall b s offset, block_offset st b = Some offset ->
    s < ldc ->
    local_status st b !!! s =
    if has_published (pc st b s) (get_work_id offset s) then 1 else 0;
  inv_shared_events : forall b s offset, block_offset st b = Some offset ->
    s < ldc -> has_published (pc st b s) (get_work_id offset s) = true ->
    StoreReleaseShared b s (get_work_id offset s mod ldc) 1 ∈ trace st;
  inv_global : forall r, r < num_rows ->
    (storage st !!! r = 0 /\
     forall b s v, StoreRelease b s r v ∉ trace st) \/
    (storage st !!! r = 1 /\ exists b s, StoreRelease b s r 1 ∈ trace st);
  inv_store_events : forall b s idx v, StoreRelease b s idx v ∈ trace st ->
    exists offset, block_offset st b = Some offset /\ s < ldc /\
      idx = get_work_id offset s /\ idx < num_rows /\ v = 1 /\
      pc st b s = Finished;
  inv_store_once : NoDup (omap global_store_index (trace st));
  inv_finished : forall b s offset, block_offset st b = Some offset ->
    s < ldc -> pc st b s = Finished -> get_work_id offset s < num_rows ->
    StoreRelease b s (get_work_id offset s) 1 ∈ trace st;
  inv_consumed : forall b s offset j, block_offset st b = Some offset ->
    s < ldc -> consumed (pc st b s) (get_work_id offset s) j ->
    exists dep, dependencies (get_work_id offset s) !! j = Some dep /\
                observed st b s offset dep
}.

Lemma invariant_initial : invariant initial.
Proof.
  constructor; simpl; try discriminate; try reflexivity.
  - unfold syncfree_storage. rewrite length_replicate. reflexivity.
  - intros r Hr. left. split.
    + unfold syncfree_storage. apply lookup_total_replicate_2. lia.
    + intros b s v Hin. inversion Hin.
  - intros b s idx v Hin. inversion Hin.
  - constructor.
Qed.

Lemma upd_eq {A} (f : nat -> A) k v : upd f k v k = v.
Proof. unfold upd. destruct (decide (k = k)); congruence. Qed.

Lemma upd_ne {A} (f : nat -> A) k k' v : k' <> k -> upd f k v k' = f k'.
Proof. intros Hne. unfold upd. destruct (decide (k' = k)); congruence. Qed.

Lemma upd2_eq {A} (f : nat -> nat -> A) b s v : upd2 f b s v b s = v.
Proof. unfold upd2. destruct (decide (b = b /\ s = s)); tauto. Qed.

Lemma upd2_ne {A} (f : nat -> nat -> A) b s b' s' v :
  ~ (b' = b /\ s' = s) -> upd2 f b s v b' s' = f b' s'.
Proof.
  intros Hne. unfold upd2. destruct (decide (b' = b /\ s' = s)); tauto.
Qed.

Lemma observed_cons st st' e b s offset dep :
  trace st' = e :: trace st ->
  observed st b s offset dep -> observed st' b s offset dep.
Proof.
  intros Htr [l1 [l2 [l3 [load [store [E H]]]]]].
  exists (e :: l1), l2, l3, load, store. split; [|exact H].
  rewrite Htr, E. reflexivity.
Qed.

Lemma invariant_construct b st :
  invariant st -> invariant (construct b st).
Proof.
  intros Hinv. unfold construct.
  destruct (block_offset st b) as [off|] eqn:Eb; [exact Hinv|].
  destruct Hinv. set (old := storage st !!! block_counter).
  assert (Hcounter : <[block_counter := old + 1]> (storage st)
                       !!! block_counter = old + 1).
  { apply list_lookup_total_insert_eq. unfold block_counter. lia. }
  constructor; simpl.
  - rewrite length_insert. exact inv_storage0.
  - intros b' offset. rewrite Hcounter. unfold upd.
    destruct (decide (b' = b)) as [->|Hne].
    + intros [= <-]. exists old. split; [lia|reflexivity].
    + intros Hb'. destruct (inv_offsets0 b' offset Hb') as [k [Hk ->]].
      exists k. split; [fold old in Hk; lia|reflexivity].
  - intros b1 b2 offset. unfold upd.
    destruct (decide (b1 = b)) as [->|H1], (decide (b2 = b)) as [->|H2];
      auto.
    + intros [= <-] Hb2. destruct (inv_offsets0 b2 _ Hb2) as [k [Hk E]].
      fold old in Hk. exfalso. nia.
    + intros Hb1 [= <-]. destruct (inv_offsets0 b1 _ Hb1) as [k [Hk E]].
      fold old in Hk. exfalso. nia.
    + apply inv_offsets_inj0.
  - intros b' s. unfold upd. destruct (decide (b' = b)); [discriminate|].
    apply inv_unclaimed0.
  - exact inv_outside0.
  - intros b' offset. unfold upd. destruct (decide (b' = b)) as [->|Hne].
    + intros _. apply length_replicate.
    + apply inv_local_len0.
  - intros b' s offset. unfold upd. destruct (decide (b' = b)) as [->|Hne].
    + intros _ Hpc. rewrite inv_unclaimed0 in Hpc by exact Eb. congruence.
    + apply inv_rows0.
  - intros b' s offset. unfold upd. destruct (decide (b' = b)) as [->|Hne].
    + intros _ Hs. rewrite inv_unclaimed0 by exact Eb. simpl.
      apply lookup_total_replicate_2. exact Hs.
    + apply inv_local0.
  - intros b' s offset. unfold upd. destruct (decide (b' = b)) as [->|Hne].
    + intros _ Hs. rewrite inv_unclaimed0 by exact Eb. discriminate.
    + intros Hb Hs Hp. apply list_elem_of_further. eauto.
  - intros r Hr.
    rewrite list_lookup_total_insert_ne by (unfold block_counter; lia).
    destruct (inv_global0 r Hr) as [[H0 Hnone]|[H1 [b' [s' Hin]]]].
    + left. split; [exact H0|]. intros b' s' v Hin.
      apply elem_of_cons in Hin as [Hin|Hin]; [discriminate|].
      exact (Hnone _ _ _ Hin).
    + right. split; [exact H1|]. exists b', s'.
      apply list_elem_of_further. exact Hin.
  - intros b' s idx v Hin.
    apply elem_of_cons in Hin as [Hin|Hin]; [discriminate|].
    destruct (inv_store_events0 _ _ _ _ Hin) as [offset [Hb H]].
    exists offset. split; [|exact H].
    rewrite upd_ne; [exact Hb|]. intros ->. congruence.
  - exact inv_store_once0.
  - intros b' s offset. unfold upd. destruct (decide (b' = b)) as [->|Hne].
    + intros _ Hs Hpc. rewrite inv_unclaimed0 in Hpc by exact Eb.
      discriminate.
    + intros Hb Hs Hpc Hrow. apply list_elem_of_further. eauto.
  - intros b' s offset j. unfold upd.
    destruct (decide (b' = b)) as [->|Hne].
    + intros _ Hs Hc. rewrite inv_unclaimed0 in Hc by exact Eb.
      destruct Hc.
    + intros Hb Hs Hc. destruct (inv_consumed0 _ _ _ _ Hb Hs Hc)
        as [dep [Hd Hobs]].
      exists dep. split; [exact Hd|].
      eapply observed_cons; [|exact Hobs]. reflexivity.
Qed.

Ltac agent_cases b' s' b s :=
  destruct (decide (b' = b /\ s' = s)) as [[-> ->]|?];
  [rewrite ?upd2_eq in *|rewrite ?upd2_ne in * by assumption].

Lemma observed_same_trace st st' b s offset dep :
  trace st' = trace st ->
  observed st b s offset dep -> observed st' b s offset dep.
Proof. unfold observed. intros ->. auto. Qed.

Lemma invariant_start b s offset st :
  invariant st -> block_offset st b = Some offset -> s < ldc ->
  pc st b s = Init ->
  invariant
    (State (storage st) (block_offset st) (local_status st)
       (upd2 (pc st) b s
          (if decide (num_rows <= get_work_id offset s) then Finished
           else Waiting 0))
       (trace st)).
Proof.
  intros Hinv Hb Hs Hpc. destruct Hinv. constructor; simpl; auto.
  - intros b' s' Hnone. agent_cases b' s' b s; [congruence|auto].
  - intros b' s' Hout. agent_cases b' s' b s; [lia|auto].
  - intros b' s' offset' Hb'. agent_cases b' s' b s.
    + assert (offset' = offset) as -> by congruence.
      destruct (decide (num_rows <= get_work_id offset s));
        [congruence|lia].
    + apply inv_rows0. exact Hb'.
  - intros b' s' offset' Hb' Hs'. agent_cases b' s' b s.
    + assert (offset' = offset) as -> by congruence.
      rewrite (inv_local0 _ _ _ Hb Hs), Hpc. simpl.
      destruct (decide (num_rows <= get_work_id offset s)); simpl;
        [|reflexivity].
      rewrite bool_decide_eq_false_2 by lia. reflexivity.
    + apply inv_local0; assumption.
  - intros b' s' offset' Hb' Hs'. agent_cases b' s' b s.
    + assert (offset' = offset) as -> by congruence.
      destruct (decide (num_rows <= get_work_id offset s)); simpl;
        [|discriminate].
      rewrite bool_decide_eq_false_2 by lia. discriminate.
    + apply inv_shared_events0; assumption.
  - intros b' s' idx v Hin.
    destruct (inv_store_events0 _ _ _ _ Hin) as [off' [H1 [H2 [H3 [H4 [H5 H6]]]]]].
    exists off'. repeat split; auto.
    agent_cases b' s' b s; [congruence|exact H6].
  - intros b' s' offset' Hb' Hs'. agent_cases b' s' b s.
    + assert (offset' = offset) as -> by congruence.
      destruct (decide (num_rows <= get_work_id offset s));
        [lia|discriminate].
    + apply inv_finished0; assumption.
  - intros b' s' offset' j Hb' Hs'. agent_cases b' s' b s.
    + assert (offset' = offset) as -> by congruence.
      destruct (decide (num_rows <= get_work_id offset s)); simpl; lia.
    + intros Hc. destruct (inv_consumed0 _ _ _ _ Hb' Hs' Hc)
        as [dep [Hd Hobs]].
      exists dep. split; [exact Hd|].
      eapply observed_same_trace; [|exact Hobs]. reflexivity.
Qed.

(** A step that logs a load and leaves the subwarp in the wait loop. *)
Lemma invariant_waiting b s offset k k' e st :
  invariant st -> block_offset st b = Some offset -> s < ldc ->
  pc st b s = Waiting k ->
  global_store_index e = None ->
  (forall j, j < k' ->
     exists dep, dependencies (get_work_id offset s) !! j = Some dep /\
       observed (State (storage st) (block_offset st) (local_status st)
                   (upd2 (pc st) b s (Waiting k')) (e :: trace st))
                b s offset dep) ->
  invariant (State (storage st) (block_offset st) (local_status st)
               (upd2 (pc st) b s (Waiting k')) (e :: trace st)).
Proof.
  intros Hinv Hb Hs Hpc He Hobs. destruct Hinv.
  assert (Hload : forall b' s' idx v,
            StoreRelease b' s' idx v ∈ e :: trace st ->
            StoreRelease b' s' idx v ∈ trace st).
  { intros b' s' idx v Hin. apply elem_of_cons in Hin as [<-|Hin];
      [discriminate|exact Hin]. }
  constructor; simpl; auto.
  - intros b' s' Hnone. agent_cases b' s' b s; [congruence|auto].
  - intros b' s' Hout. agent_cases b' s' b s; [lia|auto].
  - intros b' s' offset' Hb'. agent_cases b' s' b s.
    + intros _ _. assert (offset' = offset) as -> by congruence.
      apply (inv_rows0 b s offset Hb); rewrite Hpc; discriminate.
    + apply inv_rows0. exact Hb'.
  - intros b' s' offset' Hb' Hs'. agent_cases b' s' b s.
    + assert (offset' = offset) as -> by congruence.
      rewrite (inv_local0 _ _ _ Hb Hs), Hpc. reflexivity.
    + apply inv_local0; assumption.
  - intros b' s' offset' Hb' Hs'. agent_cases b' s' b s; [discriminate|].
    intros Hp. apply list_elem_of_further. eauto.
  - intros r Hr.
    destruct (inv_global0 r Hr) as [[H0 Hnone]|[H1 [b' [s' Hin]]]].
    + left. split; [exact H0|]. intros b' s' v Hin.
      exact (Hnone _ _ _ (Hload _ _ _ _ Hin)).
    + right. split; [exact H1|]. exists b', s'.
      apply list_elem_of_further. exact Hin.
  - intros b' s' idx v Hin. apply Hload in Hin.
    destruct (inv_store_events0 _ _ _ _ Hin)
      as [off' [H1 [H2 [H3 [H4 [H5 H6]]]]]].
    exists off'. repeat split; auto.
    agent_cases b' s' b s; [congruence|exact H6].
  - rewrite He. exact inv_store_once0.
  - intros b' s' offset' Hb' Hs'. agent_cases b' s' b s; [discriminate|].
    intros Hf Hrow. apply list_elem_of_further. eauto.
  - intros b' s' offset' j Hb' Hs'. agent_cases b' s' b s.
    + assert (offset' = offset) as -> by congruence.
      simpl. apply Hobs.
    + intros Hc. destruct (inv_consumed0 _ _ _ _ Hb' Hs' Hc)
        as [dep [Hd Ho]].
      exists dep. split; [exact Hd|].
      eapply observed_cons; [|exact Ho]. reflexivity.
Qed.

Lemma invariant_wait b s offset k dep st :
  invariant st -> block_offset st b = Some offset -> s < ldc ->
  pc st b s = Waiting k ->
  dependencies (get_work_id offset s) !! k = Some dep ->
  invariant (wait b s offset k dep st).
Proof.
  intros Hinv Hb Hs Hpc Hdep.
  assert (Hold : forall e j, j < k ->
            exists d, dependencies (get_work_id offset s) !! j = Some d /\
              forall p, observed (State (storage st) (block_offset st)
                                    (local_status st) p (e :: trace st))
                                 b s offset d).
  { intros e j Hj.
    destruct (inv_consumed st Hinv b s offset j Hb Hs) as [d [Hd Ho]];
      [rewrite Hpc; exact Hj|].
    exists d. split; [exact Hd|]. intros p.
    eapply observed_cons; [|exact Ho]. reflexivity. }
  assert (Hrow : get_work_id offset s < num_rows).
  { apply (inv_rows st Hinv b s offset Hb); rewrite Hpc; discriminate. }
  assert (Hlow : dep < num_rows).
  { assert (dep < get_work_id offset s); [|lia].
    apply dependencies_lower. eapply list_elem_of_lookup_2. exact Hdep. }
  destruct (inv_offsets st Hinv b offset Hb) as [k0 [_ Hoff]].
  pose proof ldc_pos as Hldc.
  unfold wait.
  destruct (decide (dep / ldc = get_block_id offset)) as [Hlocal|Hglobal].
  - set (v := local_status st b !!! (dep mod ldc)).
    destruct (decide (v = 0)) as [Hz|Hnz].
    + apply (invariant_waiting b s offset k k); auto.
      intros j Hj. destruct (Hold (LoadAcquireShared b s (dep mod ldc) v) j Hj)
        as [d [Hd Ho]]. exists d. split; [exact Hd|apply Ho].
    + apply (invariant_waiting b s offset k (S k)); auto.
      intros j Hj. destruct (decide (j = k)) as [->|Hne].
      2:{ destruct (Hold (LoadAcquireShared b s (dep mod ldc) v) j
                      ltac:(lia)) as [d [Hd Ho]].
          exists d. split; [exact Hd|apply Ho]. }
      exists dep. split; [exact Hdep|].
      assert (Hsd : dep mod ldc < ldc) by (apply Nat.mod_upper_bound; lia).
      pose proof (inv_local st Hinv b (dep mod ldc) offset Hb Hsd) as Hflag.
      fold v in Hflag.
      destruct (has_published (pc st b (dep mod ldc))
                  (get_work_id offset (dep mod ldc))) eqn:Hpub; [|lia].
      pose proof (inv_shared_events st Hinv b (dep mod ldc) offset Hb Hsd
                    Hpub) as Hin.
      assert (Hwork : get_work_id offset (dep mod ldc) = dep).
      { rewrite Hoff, get_work_id_claimed.
        rewrite Hoff, get_block_id_claimed in Hlocal.
        rewrite <- Hlocal. rewrite (Nat.div_mod_eq dep ldc) at 3. lia. }
      rewrite Hwork in Hin.
      apply list_elem_of_split in Hin as [l2 [l3 E]].
      exists [], l2, l3, (LoadAcquireShared b s (dep mod ldc) 1),
        (StoreReleaseShared b (dep mod ldc) (dep mod ldc) 1).
      split; [simpl; rewrite E, Hflag; reflexivity|].
      left. auto.
  - set (v := storage st !!! dep).
    destruct (decide (v = 0)) as [Hz|Hnz].
    + apply (invariant_waiting b s offset k k); auto.
      intros j Hj. destruct (Hold (LoadAcquire b s dep v) j Hj)
        as [d [Hd Ho]]. exists d. split; [exact Hd|apply Ho].
    + apply (invariant_waiting b s offset k (S k)); auto.
      intros j Hj. destruct (decide (j = k)) as [->|Hne].
      2:{ destruct (Hold (LoadAcquire b s dep v) j ltac:(lia))
            as [d [Hd Ho]].
          exists d. split; [exact Hd|apply Ho]. }
      exists dep. split; [exact Hdep|].
      destruct (inv_global st Hinv dep Hlow)
        as [[H0 _]|[H1 [b' [s' Hin]]]]; [fold v in H0; lia|].
      fold v in H1.
      apply list_elem_of_split in Hin as [l2 [l3 E]].
      exists [], l2, l3, (LoadAcquire b s dep 1), (StoreRelease b' s' dep 1).
      split; [simpl; rewrite E, H1; reflexivity|].
      right. split; [exact Hglobal|]. split; [reflexivity|]. eauto.
Qed.

Lemma claimed_work_id st b s offset :
  invariant st -> block_offset st b = Some offset -> s < ldc ->
  exists k, offset = k * block_size /\ get_work_id offset s = k * ldc + s /\
            get_work_id offset s mod ldc = s.
Proof.
  intros Hinv Hb Hs. destruct (inv_offsets st Hinv b offset Hb) as [k [_ ->]].
  exists k. rewrite get_work_id_claimed, work_id_local by exact Hs. auto.
Qed.

(** A row has one owner: two subwarps with the same work id are the same
    subwarp. *)
Lemma owner_unique st b s offset b' s' offset' :
  invariant st ->
  block_offset st b = Some offset -> s < ldc ->
  block_offset st b' = Some offset' -> s' < ldc ->
  get_work_id offset s = get_work_id offset' s' -> b = b' /\ s = s'.
Proof.
  intros Hinv Hb Hs Hb' Hs' E.
  destruct (claimed_work_id st b s offset Hinv Hb Hs) as [k [Ho [Hw _]]].
  destruct (claimed_work_id st b' s' offset' Hinv Hb' Hs')
    as [k' [Ho' [Hw' _]]].
  rewrite Hw, Hw' in E. destruct (work_id_inj k s k' s' Hs Hs' E) as [-> ->].
  split; [|reflexivity].
  apply (inv_offsets_inj st Hinv b b' offset); congruence.
Qed.

Lemma invariant_mark_ready_local b s offset k st :
  invariant st -> block_offset st b = Some offset -> s < ldc ->
  pc st b s = Waiting k ->
  dependencies (get_work_id offset s) !! k = None ->
  invariant (mark_ready_local b s offset st).
Proof.
  intros Hinv Hb Hs Hpc Hdep.
  destruct (claimed_work_id st b s offset Hinv Hb Hs) as [k0 [Hoff [Hw Hsh]]].
  assert (Hrow : get_work_id offset s < num_rows).
  { apply (inv_rows st Hinv b s offset Hb); rewrite Hpc; discriminate. }
  pose proof Hinv as Hinv0. destruct Hinv. unfold mark_ready_local.
  rewrite Hsh.
  assert (Hload : forall b' s' idx v,
            StoreRelease b' s' idx v ∈
              StoreReleaseShared b s s 1 :: trace st ->
            StoreRelease b' s' idx v ∈ trace st).
  { intros b' s' idx v Hin. apply elem_of_cons in Hin as [Hin|Hin];
      [discriminate|exact Hin]. }
  constructor; simpl; auto.
  - intros b' s' Hnone. agent_cases b' s' b s; [congruence|auto].
  - intros b' s' Hout. agent_cases b' s' b s; [lia|auto].
  - intros b' offset' Hb'. unfold upd.
    destruct (decide (b' = b)) as [->|Hne]; [|eauto].
    rewrite length_insert. eauto.
  - intros b' s' offset' Hb'. agent_cases b' s' b s.
    + intros _ _. congruence.
    + apply inv_rows0. exact Hb'.
  - intros b' s' offset' Hb' Hs'. unfold upd.
    destruct (decide (b' = b)) as [->|Hne].
    + assert (offset' = offset) as -> by congruence.
      destruct (decide (s' = s)) as [->|Hns].
      * rewrite upd2_eq. simpl.
        apply list_lookup_total_insert_eq.
        rewrite (inv_local_len0 b offset Hb). exact Hs.
      * rewrite upd2_ne by tauto.
        rewrite list_lookup_total_insert_ne by congruence.
        apply inv_local0; assumption.
    + rewrite upd2_ne by tauto. apply inv_local0; assumption.
  - intros b' s' offset' Hb' Hs'. agent_cases b' s' b s.
    + intros _. assert (offset' = offset) as -> by congruence.
      rewrite Hsh. apply list_elem_of_here.
    + intros Hp. apply list_elem_of_further. eauto.
  - intros r Hr.
    destruct (inv_global0 r Hr) as [[H0 Hnone]|[H1 [b' [s' Hin]]]].
    + left. split; [exact H0|]. intros b' s' v Hin.
      exact (Hnone _ _ _ (Hload _ _ _ _ Hin)).
    + right. split; [exact H1|]. exists b', s'.
      apply list_elem_of_further. exact Hin.
  - intros b' s' idx v Hin. apply Hload in Hin.
    destruct (inv_store_events0 _ _ _ _ Hin)
      as [off' [H1 [H2 [H3 [H4 [H5 H6]]]]]].
    exists off'. repeat split; auto.
    agent_cases b' s' b s; [congruence|exact H6].
  - intros b' s' offset' Hb' Hs'. agent_cases b' s' b s; [discriminate|].
    intros Hf Hr. apply list_elem_of_further. eauto.
  - intros b' s' offset' j Hb' Hs'. agent_cases b' s' b s.
    + assert (offset' = offset) as -> by congruence.
      simpl. intros [_ Hj].
      apply lookup_ge_None in Hdep.
      destruct (inv_consumed0 b s offset j Hb Hs) as [dep [Hd Ho]];
        [rewrite Hpc; simpl; lia|].
      exists dep. split; [exact Hd|].
      eapply observed_cons; [|exact Ho]. reflexivity.
    + intros Hc. destruct (inv_consumed0 _ _ _ _ Hb' Hs' Hc)
        as [dep [Hd Ho]].
      exists dep. split; [exact Hd|].
      eapply observed_cons; [|exact Ho]. reflexivity.
Qed.

Lemma invariant_mark_ready_global b s offset st :
  invariant st -> block_offset st b = Some offset -> s < ldc ->
  pc st b s = Publishing ->
  invariant (mark_ready_global b s offset st).
Proof.
  intros Hinv Hb Hs Hpc.
  assert (Hrow : get_work_id offset s < num_rows).
  { apply (inv_rows st Hinv b s offset Hb); rewrite Hpc; discriminate. }
  pose proof Hinv as Hinv0. destruct Hinv. unfold mark_ready_global.
  set (row := get_work_id offset s) in *.
  constructor; simpl; auto.
  - rewrite length_insert. exact inv_storage0.
  - intros b' offset' Hb'.
    rewrite list_lookup_total_insert_ne by (unfold block_counter; lia).
    eauto.
  - intros b' s' Hnone. agent_cases b' s' b s; [congruence|auto].
  - intros b' s' Hout. agent_cases b' s' b s; [lia|auto].
  - intros b' s' offset' Hb'. agent_cases b' s' b s.
    + intros _ Hf. congruence.
    + apply inv_rows0. exact Hb'.
  - intros b' s' offset' Hb' Hs'. agent_cases b' s' b s.
    + assert (offset' = offset) as -> by congruence.
      rewrite (inv_local0 _ _ _ Hb Hs), Hpc. simpl. fold row.
      rewrite bool_decide_eq_true_2 by exact Hrow. reflexivity.
    + apply inv_local0; assumption.
  - intros b' s' offset' Hb' Hs'. agent_cases b' s' b s.
    + intros _. assert (offset' = offset) as -> by congruence.
      apply list_elem_of_further. apply inv_shared_events0; auto.
      rewrite Hpc. reflexivity.
    + intros Hp. apply list_elem_of_further. eauto.
  - intros r Hr. destruct (decide (r = row)) as [->|Hne].
    + right. split.
      * apply list_lookup_total_insert_eq. lia.
      * exists b, s. apply list_elem_of_here.
    + rewrite list_lookup_total_insert_ne by congruence.
      destruct (inv_global0 r Hr) as [[H0 Hnone]|[H1 [b' [s' Hin]]]].
      * left. split; [exact H0|]. intros b' s' v Hin.
        apply elem_of_cons in Hin as [Hin|Hin]; [congruence|].
        exact (Hnone _ _ _ Hin).
      * right. split; [exact H1|]. exists b', s'.
        apply list_elem_of_further. exact Hin.
  - intros b' s' idx v Hin. apply elem_of_cons in Hin as [Hin|Hin].
    + injection Hin as -> -> -> ->. exists offset.
      rewrite upd2_eq. repeat split; auto.
    + destruct (inv_store_events0 _ _ _ _ Hin)
        as [off' [H1 [H2 [H3 [H4 [H5 H6]]]]]].
      exists off'. repeat split; auto.
      agent_cases b' s' b s; [congruence|exact H6].
  - apply NoDup_cons. split; [|exact inv_store_once0].
    intros Hin. apply list_elem_of_omap in Hin as [e [Hin He]].
    destruct e as [| | | |b' s' idx v]; try discriminate.
    simpl in He. injection He as ->.
    destruct (inv_store_events0 _ _ _ _ Hin)
      as [off' [H1 [H2 [H3 [H4 [H5 H6]]]]]].
    destruct (owner_unique st b s offset b' s' off' Hinv0 Hb Hs H1 H2 H3)
      as [-> ->].
    congruence.
  - intros b' s' offset' Hb' Hs'. agent_cases b' s' b s.
    + intros _ _. assert (offset' = offset) as -> by congruence.
      apply list_elem_of_here.
    + intros Hf Hr. apply list_elem_of_further. eauto.
  - intros b' s' offset' j Hb' Hs'. agent_cases b' s' b s.
    + assert (offset' = offset) as -> by congruence.
      simpl. intros Hc.
      destruct (inv_consumed0 b s offset j Hb Hs) as [dep [Hd Ho]];
        [rewrite Hpc; exact Hc|].
      exists dep. split; [exact Hd|].
      eapply observed_cons; [|exact Ho]. reflexivity.
    + intros Hc. destruct (inv_consumed0 _ _ _ _ Hb' Hs' Hc)
        as [dep [Hd Ho]].
      exists dep. split; [exact Hd|].
      eapply observed_cons; [|exact Ho]. reflexivity.
Qed.

Lemma invariant_step st a : invariant st -> invariant (step st a).
Proof.
  intros Hinv. destruct a as [b|b s]; simpl.
  - apply invariant_construct. exact Hinv.
  - unfold kernel_step.
    destruct (block_offset st b) as [offset|] eqn:Hb; [|exact Hinv].
    destruct (decide (s < ldc)) as [Hs|]; [|exact Hinv].
    destruct (pc st b s) as [|k| |] eqn:Hpc.
    + apply invariant_start; assumption.
    + destruct (dependencies (get_work_id offset s) !! k) as [dep|] eqn:Hd.
      * apply invariant_wait; assumption.
      * apply (invariant_mark_ready_local b s offset k); assumption.
    + apply invariant_mark_ready_global; assumption.
    + exact Hinv.
Qed.

Lemma invariant_run schedule : invariant (run schedule).
Proof.
  unfold run. induction schedule as [|a l IH] using rev_ind.
  - apply invariant_initial.
  - rewrite foldl_app. simpl. apply invariant_step. exact IH.
Qed.

(** The log only grows. *)
Lemma step_trace st a : exists l, trace (step st a) = l ++ trace st.
Proof.
  destruct a as [b|b s]; simpl.
  - unfold construct. destruct (block_offset st b); [exists []|eexists [_]];
      reflexivity.
  - unfold kernel_step.
    destruct (block_offset st b) as [offset|]; [|exists []; reflexivity].
    destruct (decide (s < ldc)); [|exists []; reflexivity].
    destruct (pc st b s) as [|k| |].
    + exists []. reflexivity.
    + destruct (dependencies (get_work_id offset s) !! k) as [dep|].
      * unfold wait. destruct (decide _); eexists [_]; reflexivity.
      * eexists [_]. reflexivity.
    + eexists [_]. reflexivity.
    + exists []. reflexivity.
Qed.

Lemma run_trace schedule later :
  exists l, trace (run (schedule ++ later)) = l ++ trace (run schedule).
Proof.
  unfold run. rewrite foldl_app.
  generalize (foldl step initial schedule). intros st.
  induction later as [|a later IH] using rev_ind.
  - exists []. reflexivity.
  - rewrite foldl_app. simpl. destruct IH as [l E].
    destruct (step_trace (foldl step st later) a) as [l' E'].
    exists (l' ++ l). rewrite E', E, app_assoc. reflexivity.
Qed.

(** What the runs of the scheduler guarantee about the status words. *)
Record status_protocol (st : state) : Prop := {
  (* every store to a status word writes 1 to the word of the row the
     storing subwarp has claimed, as the last step of that subwarp *)
  sp_stores : forall b s idx v, StoreRelease b s idx v ∈ trace st ->
    v = 1 /\ idx < num_rows /\
    exists offset, block_offset st b = Some offset /\ s < ldc /\
      idx = get_work_id offset s /\ pc st b s = Finished;
  (* no status word is stored to twice *)
  sp_once : NoDup (omap global_store_index (trace st));
  (* a row has one owner *)
  sp_owner : forall b s offset b' s' offset',
    block_offset st b = Some offset -> s < ldc ->
    block_offset st b' = Some offset' -> s' < ldc ->
    get_work_id offset s = get_work_id offset' s' -> b = b' /\ s = s';
  (* a status word is 0 until its store and 1 from then on *)
  sp_words : forall r, r < num_rows ->
    (storage st !!! r = 0 /\
     forall b s v, StoreRelease b s r v ∉ trace st) \/
    (storage st !!! r = 1 /\ exists b s, StoreRelease b s r 1 ∈ trace st);
  (* a subwarp that has left [mark_ready] has stored to its word *)
  sp_finished : forall b s offset, block_offset st b = Some offset ->
    s < ldc -> pc st b s = Finished -> get_work_id offset s < num_rows ->
    StoreRelease b s (get_work_id offset s) 1 ∈ trace st;
  (* a [wait] that has returned has seen the flag of its dependency set,
     after the release store that set it *)
  sp_waits : forall b s offset j, block_offset st b = Some offset ->
    s < ldc -> consumed (pc st b s) (get_work_id offset s) j ->
    exists dep, dependencies (get_work_id offset s) !! j = Some dep /\
                observed st b s offset dep
}.

(** The protocol holds in every run, whatever the interleaving: the status
    words start at 0, the stores and waits of the run obey
    [status_protocol], and a word that is 1 stays 1 however the run is
    continued. *)
Lemma status_protocol_run (schedule : list agent) :
  (forall r, r < num_rows -> storage initial !!! r = 0) /\
  status_protocol (run schedule) /\
  (forall later r, r < num_rows -> storage (run schedule) !!! r = 1 ->
     storage (run (schedule ++ later)) !!! r = 1).
Proof.
  pose proof (invariant_run schedule) as Hinv.
  split; [|split].
  - intros r Hr. simpl. unfold syncfree_storage.
    apply lookup_total_replicate_2. lia.
  - constructor.
    + intros b s idx v Hin.
      destruct (inv_store_events _ Hinv _ _ _ _ Hin)
        as [offset [H1 [H2 [H3 [H4 [H5 H6]]]]]].
      split; [exact H5|]. split; [exact H4|]. exists offset. auto.
    + apply (inv_store_once _ Hinv).
    + intros b s offset b' s' offset'. apply owner_unique. exact Hinv.
    + apply (inv_global _ Hinv).
    + apply (inv_finished _ Hinv).
    + apply (inv_consumed _ Hinv).
  - intros later r Hr H1.
    destruct (inv_global _ Hinv r Hr) as [[H0 _]|[_ [b [s Hin]]]]; [lia|].
    destruct (run_trace schedule later) as [l E].
    destruct (inv_global _ (invariant_run (schedule ++ later)) r Hr)
      as [[_ Hnone]|[H1' _]]; [|exact H1'].
    exfalso. apply (Hnone b s 1). rewrite E. apply elem_of_app. tauto.
Qed.

End Scheduler.

(** ** A run: four rows, blocks of two subwarps

    Rows 0 and 1 have no dependencies, row 2 waits for rows 0 and 1, row 3
    for row 2.  The block launched second claims the first two rows. *)

Definition example_dependencies (row : nat) : list nat :=
  match row with
  | 2 => [0; 1]
  | 3 => [2]
  | _ => []
  end.

Definition example_schedule : list agent :=
  [Block 1; Subwarp 1 0; Subwarp 1 1; Subwarp 1 0; Subwarp 1 0;
   Block 0; Subwarp 0 0; Subwarp 0 1; Subwarp 0 0; Subwarp 0 1;
   Subwarp 0 0; Subwarp 1 1; Subwarp 1 1; Subwarp 0 0; Subwarp 0 0;
   Subwarp 0 0; Subwarp 0 1; Subwarp 0 1].

Lemma example_dependencies_lower row dep :
  dep ∈ example_dependencies row -> dep < row.
Proof.
  destruct row as [|[|[|[|row]]]]; simpl; intros Hin;
    repeat (apply elem_of_cons in Hin as [->|Hin]; [lia|]);
    inversion Hin.
Qed.

End Syncfree.

(** * Loops over the threads of a group

    The threads of a block or of a subwarp between two synchronisations
    are run one after the other; the lemmas here say what such a loop
    leaves in an array when every thread writes a slot of its own. *)

Module Loops.

(** Threads that each update a slot of their own: thread [e] replaces
    [l[pos e]] by [f e l[pos e]] when [guard e] holds. *)
Lemma foldl_update_own {A} `{!Inhabited A} (pos : nat -> nat)
    (guard : nat -> bool) (f : nat -> A -> A) (l : list A) n :
  (forall e e', e < n -> e' < n -> guard e = true -> guard e' = true ->
     pos e = pos e' -> e = e') ->
  let out := foldl (fun acc e => if guard e
                                 then <[pos e := f e (acc !!! pos e)]> acc
                                 else acc) l (seq 0 n) in
  length out = length l /\
  (forall e, e < n -> guard e = true -> pos e < length l ->
     out !!! pos e = f e (l !!! pos e)) /\
  (forall q, (forall e, e < n -> guard e = true -> pos e <> q) ->
     out !!! q = l !!! q).
Proof.
  induction n as [|n IH]; intros Hinj out; subst out.
  - cbn [seq foldl]. split; [reflexivity|]. split; [intros; lia|reflexivity].
  - rewrite seq_S, foldl_app. cbn [foldl Nat.add].
    destruct IH as (L & Hw & Hu).
    { intros e e' He He'. apply Hinj; lia. }
    set (prev := foldl _ l (seq 0 n)) in *.
    destruct (guard n) eqn:Hg.
    + split; [rewrite length_insert; exact L|]. split.
      * intros e He Hge Hpe. destruct (decide (e = n)) as [->|Hne].
        -- rewrite list_lookup_total_insert_eq by lia. f_equal.
           apply Hu. intros e' He' Hge' Heq.
           assert (e' = n) by (apply Hinj; auto; lia). lia.
        -- rewrite list_lookup_total_insert_ne.
           ++ apply Hw; [lia|exact Hge|exact Hpe].
           ++ intros Heq. apply Hne. symmetry. apply Hinj; auto; lia.
      * intros q Hq. rewrite list_lookup_total_insert_ne.
        -- apply Hu. intros e He. apply Hq. lia.
        -- apply Hq; [lia|exact Hg].
    + split; [exact L|]. split.
      * intros e He Hge Hpe. destruct (decide (e = n)) as [->|Hne];
          [congruence|]. apply Hw; [lia|exact Hge|exact Hpe].
      * intros q Hq. apply Hu. intros e He. apply Hq. lia.
Qed.

Lemma list_eq_lookup_total {A} `{!Inhabited A} (l1 l2 : list A) :
  length l1 = length l2 ->
  (forall q, q < length l1 -> l1 !!! q = l2 !!! q) -> l1 = l2.
Proof.
  intros Hlen Hq. apply list_eq. intros i.
  destruct (decide (i < length l1)) as [Hi|Hi].
  - rewrite (list_lookup_lookup_total_lt l1 i Hi).
    rewrite (list_lookup_lookup_total_lt l2 i) by lia.
    rewrite Hq by exact Hi. reflexivity.
  - rewrite !lookup_ge_None_2 by lia. reflexivity.
Qed.

Lemma foldl_add_sum (g : nat -> nat) n :
  foldl (fun acc i => acc + g i) 0 (seq 0 n) = sum_list (map g (seq 0 n)).
Proof.
  induction n as [|n IH]; [reflexivity|].
  rewrite seq_S, foldl_app, map_app, sum_list_with_app, IH. simpl.
  unfold id. lia.
Qed.

End Loops.

(** * Block-wide prefix sums
    (common/cuda_hip/components/prefix_sum.hpp.inc)

    As in [PrefixSum], the sums are sums of unbounded integers; module
    [FixedWidth] has the kernels on integers of a fixed width. *)

Module PrefixSumKernels.
Import PrefixSum Loops.

Section Kernels.

(** The template parameter [block_size]: the number of threads of a block
    and of entries of the shared array [prefix_helper]. *)
Variable block_size : nat.

(** Modelled from the spec: [thread::get_thread_id_flat], which is not among
    the sources; the blocks are one-dimensional, and the flat id of a thread
    is [blockDim.x * blockIdx.x + threadIdx.x]. *)
Definition get_thread_id_flat (blockIdx threadIdx : nat) : nat :=
  block_size * blockIdx + threadIdx.

(** [prefix_helper[element_id] = (tidx + 1 < num_elements) ? elements[tidx]
    : zero<ValueType>()] for the threads of one block. *)
Definition load_prefix_helper (num_elements : nat) (elements : list nat)
    (blockIdx : nat) : list nat :=
  map (fun element_id =>
         let tidx := get_thread_id_flat blockIdx element_id in
         if tidx + 1 <? num_elements then elements !!! tidx else 0)
      (seq 0 block_size).

(** The reduction, thread [element_id] in the iteration of [i]:
    [if (bi < block_size) prefix_helper[bi] += prefix_helper[ai]]. *)
Definition reduction_thread (i : nat) (prefix_helper : list nat)
    (element_id : nat) : list nat :=
  let ai := i * (2 * element_id + 1) - 1 in
  let bi := i * (2 * element_id + 2) - 1 in
  if bi <? block_size
  then <[bi := prefix_helper !!! bi + prefix_helper !!! ai]> prefix_helper
  else prefix_helper.

(** [for (int i = 1; i < block_size; i <<= 1)], the threads of the block
    between two [sync]s one after the other. *)
Fixpoint reduction (fuel i : nat) (prefix_helper : list nat) : list nat :=
  match fuel with
  | O => prefix_helper
  | S fuel' =>
      if i <? block_size
      then reduction fuel' (Nat.shiftl i 1)
             (foldl (reduction_thread i) prefix_helper (seq 0 block_size))
      else prefix_helper
  end.

(** The down-sweep, thread [element_id] in the iteration of [i]:
    [auto tmp = prefix_helper[ai]; prefix_helper[ai] = prefix_helper[bi];
    prefix_helper[bi] += tmp;]. *)
Definition down_sweep_thread (i : nat) (prefix_helper : list nat)
    (element_id : nat) : list nat :=
  let ai := i * (2 * element_id + 1) - 1 in
  let bi := i * (2 * element_id + 2) - 1 in
  if bi <? block_size
  then
    let tmp := prefix_helper !!! ai in
    let moved := <[ai := prefix_helper !!! bi]> prefix_helper in
    <[bi := moved !!! bi + tmp]> moved
  else prefix_helper.

(** [for (int i = block_size >> 1; i > 0; i >>= 1)] *)
Fixpoint down_sweep (fuel i : nat) (prefix_helper : list nat) : list nat :=
  match fuel with
  | O => prefix_helper
  | S fuel' =>
      if 0 <? i
      then down_sweep fuel' (Nat.shiftr i 1)
             (foldl (down_sweep_thread i) prefix_helper (seq 0 block_size))
      else prefix_helper
  end.

(** [start_prefix_sum], one block: the arrays [elements] and [block_sum]
    afterwards. *)
Definition start_prefix_sum_block (num_elements gridDim : nat)
    (st : list nat * list nat) (blockIdx : nat) : list nat * list nat :=
  let loaded := load_prefix_helper num_elements st.1 blockIdx in
  let reduced := reduction block_size 1 loaded in
  let block_sum :=
    if blockIdx + 1 <? gridDim
    then <[blockIdx := reduced !!! (block_size - 1)]> st.2
    else st.2 in
  let cleared := <[block_size - 1 := 0]> reduced in
  let swept := down_sweep block_size (Nat.shiftr block_size 1) cleared in
  (foldl (fun elements element_id =>
            let tidx := get_thread_id_flat blockIdx element_id in
            if tidx <? num_elements
            then <[tidx := swept !!! element_id]> elements
            else elements)
         st.1 (seq 0 block_size),
   block_sum).

(** [start_prefix_sum] on a grid of [gridDim] blocks. *)
Definition start_prefix_sum (num_elements gridDim : nat)
    (elements block_sum : list nat) : list nat * list nat :=
  foldl (start_prefix_sum_block num_elements gridDim) (elements, block_sum)
        (seq 0 gridDim).

(** [finalize_prefix_sum], one thread: [for (i = 0; i < blockIdx.x; i++)
    prefix_block_sum += block_sum[i]; elements[tidx] += prefix_block_sum]. *)
Definition finalize_thread (num_elements : nat) (block_sum : list nat)
    (blockIdx : nat) (elements : list nat) (threadIdx : nat) : list nat :=
  let tidx := get_thread_id_flat blockIdx threadIdx in
  if tidx <? num_elements
  then
    let prefix_block_sum :=
      foldl (fun acc i => acc + block_sum !!! i) 0 (seq 0 blockIdx) in
    <[tidx := elements !!! tidx + prefix_block_sum]> elements
  else elements.

(** [finalize_prefix_sum] on a grid of [gridDim] blocks. *)
Definition finalize_prefix_sum (num_elements gridDim : nat)
    (elements block_sum : list nat) : list nat :=
  foldl (fun elements blockIdx =>
           foldl (finalize_thread num_elements block_sum blockIdx) elements
                 (seq 0 block_size))
        elements (seq 0 gridDim).

(** The two kernels one after the other, as the note of [start_prefix_sum]
    asks for. *)
Definition prefix_sum_kernels (num_elements gridDim : nat)
    (elements block_sum : list nat) : list nat :=
  let started := start_prefix_sum num_elements gridDim elements block_sum in
  finalize_prefix_sum num_elements gridDim started.1 started.2.

End Kernels.

(** ** One block: the up-sweep and the down-sweep *)

Lemma pow2_pos t : 0 < 2 ^ t.
Proof. apply Nat.neq_0_lt_0, Nat.pow_nonzero. lia. Qed.

Lemma divide_pow2_le s t x : s <= t -> (2 ^ t | x) -> (2 ^ s | x).
Proof.
  intros Hst Hd. apply (Nat.divide_trans _ (2 ^ t)); [|exact Hd].
  exists (2 ^ (t - s)). rewrite <- Nat.pow_add_r. f_equal. lia.
Qed.

(** The positions [bi] of an iteration are the even multiples of its
    stride, less one, the positions [ai] the odd ones. *)
Lemma even_multiple t x :
  0 < x -> (2 ^ S t | x) -> exists e, x = 2 ^ t * (2 * e + 2).
Proof.
  intros Hx [q Hq]. rewrite Nat.pow_succ_r' in Hq.
  destruct q as [|q]; [lia|]. exists q. lia.
Qed.

Lemma odd_multiple t x :
  (2 ^ t | x) -> ~ (2 ^ S t | x) -> exists e, x = 2 ^ t * (2 * e + 1).
Proof.
  intros [q Hq] Hn.
  destruct (Nat.Even_or_Odd q) as [[m Hm]|[m Hm]].
  - exfalso. apply Hn. exists m. rewrite Nat.pow_succ_r'. lia.
  - exists m. lia.
Qed.

Lemma even_multiple_divide t e : (2 ^ S t | 2 ^ t * (2 * e + 2)).
Proof. exists (e + 1). rewrite Nat.pow_succ_r'. lia. Qed.

Lemma odd_multiple_divide t e : (2 ^ t | 2 ^ t * (2 * e + 1)).
Proof. exists (2 * e + 1). lia. Qed.

Lemma odd_multiple_not_divide t e : ~ (2 ^ S t | 2 ^ t * (2 * e + 1)).
Proof.
  intros [q Hq]. rewrite Nat.pow_succ_r' in Hq.
  pose proof (pow2_pos t).
  assert (2 * e + 1 = 2 * q) by nia. lia.
Qed.

Lemma multiples_differ t e e' :
  2 ^ t * (2 * e + 2) <> 2 ^ t * (2 * e' + 1).
Proof. pose proof (pow2_pos t). intros H1. assert (2 * e + 2 = 2 * e' + 1) by nia. lia. Qed.

Lemma even_multiples_inj t e e' :
  2 ^ t * (2 * e + 2) = 2 ^ t * (2 * e' + 2) -> e = e'.
Proof. pose proof (pow2_pos t). intros H1. nia. Qed.

Lemma odd_multiples_inj t e e' :
  2 ^ t * (2 * e + 1) = 2 ^ t * (2 * e' + 1) -> e = e'.
Proof. pose proof (pow2_pos t). intros H1. nia. Qed.

Section Block.

Variable block_size : nat.
Variable h : nat.
Hypothesis block_size_pow : block_size = 2 ^ h.

(** The values loaded into [prefix_helper]. *)
Variable loaded : list nat.
Hypothesis loaded_length : length loaded = block_size.

(** What the threads of one iteration of the reduction do together. *)
Lemma reduction_threads t (helper : list nat) n :
  length helper = block_size ->
  let out := foldl (reduction_thread block_size (2 ^ t)) helper (seq 0 n) in
  length out = block_size /\
  (forall e, e < n -> 2 ^ t * (2 * e + 2) - 1 < block_size ->
     out !!! (2 ^ t * (2 * e + 2) - 1) =
     helper !!! (2 ^ t * (2 * e + 2) - 1) +
     helper !!! (2 ^ t * (2 * e + 1) - 1)) /\
  (forall k, (forall e, e < n -> k <> 2 ^ t * (2 * e + 2) - 1) ->
     out !!! k = helper !!! k).
Proof.
  intros Hlen. pose proof (pow2_pos t) as Hpos.
  induction n as [|n IH]; intros out; subst out.
  - cbn [seq foldl]. split; [exact Hlen|]. split; [intros; lia|reflexivity].
  - rewrite seq_S, foldl_app. cbn [foldl Nat.add].
    destruct IH as (L & Hw & Hu).
    set (prev := foldl _ helper (seq 0 n)) in *.
    assert (Hnext : reduction_thread block_size (2 ^ t) prev n =
              if 2 ^ t * (2 * n + 2) - 1 <? block_size
              then <[2 ^ t * (2 * n + 2) - 1 :=
                       prev !!! (2 ^ t * (2 * n + 2) - 1) +
                       prev !!! (2 ^ t * (2 * n + 1) - 1)]> prev
              else prev) by reflexivity.
    rewrite Hnext. clear Hnext.
    destruct (Nat.ltb_spec (2 ^ t * (2 * n + 2) - 1) block_size) as [Hb|Hb].
    + split; [rewrite length_insert; exact L|]. split.
      * intros e He Hbe. destruct (decide (e = n)) as [->|Hne].
        -- rewrite list_lookup_total_insert_eq by lia.
           rewrite !Hu; [reflexivity| |].
           ++ intros e' He' Heq.
              apply (multiples_differ t e' n). lia.
           ++ intros e' He' Heq.
              assert (e' = n) by (apply (even_multiples_inj t); lia). lia.
        -- rewrite list_lookup_total_insert_ne.
           ++ apply Hw; [lia|exact Hbe].
           ++ intros Heq. apply Hne. symmetry.
              apply (even_multiples_inj t). nia.
      * intros k Hk. rewrite list_lookup_total_insert_ne.
        -- apply Hu. intros e He. apply Hk. lia.
        -- intros Heq. apply (Hk n); [lia|]. symmetry. exact Heq.
    + split; [exact L|]. split.
      * intros e He Hbe. destruct (decide (e = n)) as [->|Hne]; [lia|].
        apply Hw; [lia|exact Hbe].
      * intros k Hk. apply Hu. intros e He. apply Hk. lia.
Qed.

(** After the iterations with strides below [2^t], a position whose
    successor is a multiple of [2^s], and of no higher power up to [2^t],
    holds the sum of the [2^s] loaded values that end there. *)
Definition up_swept (t : nat) (helper : list nat) : Prop :=
  length helper = block_size /\
  forall k s, k < block_size -> s <= t -> (2 ^ s | k + 1) ->
    (s = t \/ ~ (2 ^ S s | k + 1)) ->
    helper !!! k = segment loaded (k + 1 - 2 ^ s) (2 ^ s).

Lemma up_swept_init : up_swept 0 loaded.
Proof.
  split; [exact loaded_length|]. intros k s Hk Hs _ _.
  replace s with 0 by lia. rewrite Nat.pow_0_r.
  replace (k + 1 - 1) with k by lia.
  symmetry. apply segment_one. lia.
Qed.

Lemma up_swept_step t helper :
  t < h -> up_swept t helper ->
  up_swept (S t)
    (foldl (reduction_thread block_size (2 ^ t)) helper (seq 0 block_size)).
Proof.
  intros Ht [Hlen Hinv]. pose proof (pow2_pos t) as Hpos.
  destruct (reduction_threads t helper block_size Hlen) as (L & Hw & Hu).
  split; [exact L|]. intros k s Hk Hs Hdiv Hcase.
  destruct (decide (2 ^ S t | k + 1)) as [Hd|Hd].
  - assert (s = S t) as ->.
    { destruct (decide (s = S t)) as [|Hne]; [assumption|].
      destruct Hcase as [->|Hn]; [reflexivity|].
      exfalso. apply Hn. apply (divide_pow2_le _ (S t)); [lia|exact Hd]. }
    destruct (even_multiple t (k + 1) ltac:(lia) Hd) as [e He].
    assert (Hk' : k = 2 ^ t * (2 * e + 2) - 1) by lia.
    rewrite Hk'. rewrite Hw by nia.
    rewrite (Hinv (2 ^ t * (2 * e + 2) - 1) t);
      [|lia|lia|exists (2 * e + 2); lia|left; reflexivity].
    rewrite (Hinv (2 ^ t * (2 * e + 1) - 1) t).
    + rewrite Nat.pow_succ_r'.
      replace (2 * 2 ^ t) with (2 ^ t + 2 ^ t) by lia.
      rewrite segment_add. 
      replace (2 ^ t * (2 * e + 2) - 1 + 1 - (2 ^ t + 2 ^ t) + 2 ^ t)
        with (2 ^ t * (2 * e + 2) - 1 + 1 - 2 ^ t) by nia.
      replace (2 ^ t * (2 * e + 1) - 1 + 1 - 2 ^ t)
        with (2 ^ t * (2 * e + 2) - 1 + 1 - (2 ^ t + 2 ^ t)) by nia.
      lia.
    + nia.
    + lia.
    + exists (2 * e + 1). nia.
    + left. reflexivity.
  - assert (Hs' : s <= t).
    { destruct (decide (s = S t)) as [->|]; [contradiction|lia]. }
    rewrite Hu.
    + apply Hinv; [exact Hk|exact Hs'|exact Hdiv|].
      destruct Hcase as [->|Hn]; [lia|].
      destruct (decide (s = t)) as [->|]; [left; reflexivity|right; exact Hn].
    + intros e He Heq. apply Hd. rewrite Heq.
      replace (2 ^ t * (2 * e + 2) - 1 + 1) with (2 ^ t * (2 * e + 2)) by nia.
      apply even_multiple_divide.
Qed.

Lemma reduction_up_swept : forall fuel t helper,
  t <= h -> h - t <= fuel -> up_swept t helper ->
  up_swept h (reduction block_size fuel (2 ^ t) helper).
Proof.
  induction fuel as [|fuel IH]; intros t helper Ht Hf Hinv.
  - simpl. replace h with t by lia. exact Hinv.
  - cbn [reduction]. rewrite block_size_pow.
    destruct (Nat.ltb_spec (2 ^ t) (2 ^ h)) as [Hlt|Hge].
    + assert (t < h).
      { destruct (decide (t < h)); [assumption|].
        replace t with h in Hlt by lia. lia. }
      rewrite Nat.shiftl_mul_pow2, Nat.pow_1_r.
      replace (2 ^ t * 2) with (2 ^ S t) by (rewrite Nat.pow_succ_r'; lia).
      rewrite <- block_size_pow.
      apply IH; [lia|lia|]. apply up_swept_step; assumption.
    + assert (t = h).
      { destruct (decide (t = h)); [assumption|].
        assert (2 ^ t < 2 ^ h) by (apply Nat.pow_lt_mono_r; lia). lia. }
      subst t. exact Hinv.
Qed.

(** What the threads of one iteration of the down-sweep do together. *)
Lemma down_sweep_threads t (helper : list nat) n :
  length helper = block_size ->
  let out := foldl (down_sweep_thread block_size (2 ^ t)) helper (seq 0 n) in
  length out = block_size /\
  (forall e, e < n -> 2 ^ t * (2 * e + 2) - 1 < block_size ->
     out !!! (2 ^ t * (2 * e + 2) - 1) =
     helper !!! (2 ^ t * (2 * e + 2) - 1) +
     helper !!! (2 ^ t * (2 * e + 1) - 1) /\
     out !!! (2 ^ t * (2 * e + 1) - 1) =
     helper !!! (2 ^ t * (2 * e + 2) - 1)) /\
  (forall k, (forall e, e < n -> 2 ^ t * (2 * e + 2) - 1 < block_size ->
                k <> 2 ^ t * (2 * e + 2) - 1 /\
                k <> 2 ^ t * (2 * e + 1) - 1) ->
     out !!! k = helper !!! k).
Proof.
  intros Hlen. pose proof (pow2_pos t) as Hpos.
  induction n as [|n IH]; intros out; subst out.
  - cbn [seq foldl]. split; [exact Hlen|]. split; [intros; lia|reflexivity].
  - rewrite seq_S, foldl_app. cbn [foldl Nat.add].
    destruct IH as (L & Hw & Hu).
    set (prev := foldl _ helper (seq 0 n)) in *.
    assert (Hnext : down_sweep_thread block_size (2 ^ t) prev n =
              if 2 ^ t * (2 * n + 2) - 1 <? block_size
              then <[2 ^ t * (2 * n + 2) - 1 :=
                       <[2 ^ t * (2 * n + 1) - 1 :=
                           prev !!! (2 ^ t * (2 * n + 2) - 1)]> prev
                       !!! (2 ^ t * (2 * n + 2) - 1) +
                       prev !!! (2 ^ t * (2 * n + 1) - 1)]>
                     (<[2 ^ t * (2 * n + 1) - 1 :=
                          prev !!! (2 ^ t * (2 * n + 2) - 1)]> prev)
              else prev) by reflexivity.
    rewrite Hnext. clear Hnext.
    destruct (Nat.ltb_spec (2 ^ t * (2 * n + 2) - 1) block_size) as [Hb|Hb].
    +
      assert (Hne_ab : 2 ^ t * (2 * n + 1) - 1 <> 2 ^ t * (2 * n + 2) - 1) by nia.
      assert (Hprev_b : prev !!! (2 ^ t * (2 * n + 2) - 1) =
                        helper !!! (2 ^ t * (2 * n + 2) - 1)).
      { apply Hu. intros e He Hbe. split.
        - intros Heq.
          assert (n = e) by (apply (even_multiples_inj t); lia). lia.
        - intros Heq. apply (multiples_differ t n e). lia. }
      assert (Hprev_a : prev !!! (2 ^ t * (2 * n + 1) - 1) =
                        helper !!! (2 ^ t * (2 * n + 1) - 1)).
      { apply Hu. intros e He Hbe. split.
        - intros Heq. apply (multiples_differ t e n). lia.
        - intros Heq.
          assert (n = e) by (apply (odd_multiples_inj t); lia). lia. }
      split; [rewrite !length_insert; exact L|]. split.
      * intros e He Hbe. destruct (decide (e = n)) as [->|Hne].
        -- split.
           ++ rewrite list_lookup_total_insert_eq
                by (rewrite length_insert; lia).
              rewrite list_lookup_total_insert_ne by exact Hne_ab.
              rewrite Hprev_b, Hprev_a. reflexivity.
           ++ rewrite list_lookup_total_insert_ne by lia.
              rewrite list_lookup_total_insert_eq by nia.
              exact Hprev_b.
        -- assert (He' : e < n) by lia.
           destruct (Hw e He' Hbe) as [Hwb Hwa].
           split.
           ++ rewrite list_lookup_total_insert_ne.
              ** rewrite list_lookup_total_insert_ne; [exact Hwb|].
                 intros Heq. apply (multiples_differ t e n). lia.
              ** intros Heq. apply Hne. symmetry.
                 apply (even_multiples_inj t). lia.
           ++ rewrite list_lookup_total_insert_ne.
              ** rewrite list_lookup_total_insert_ne; [exact Hwa|].
                 intros Heq. apply Hne. symmetry.
                 apply (odd_multiples_inj t). lia.
              ** intros Heq. apply (multiples_differ t n e). lia.
      * intros k Hk. destruct (Hk n ltac:(lia) Hb) as [Hkb Hka].
        rewrite !list_lookup_total_insert_ne by congruence.
        apply Hu. intros e He. apply Hk. lia.
    + split; [exact L|]. split.
      * intros e He Hbe. destruct (decide (e = n)) as [->|Hne]; [lia|].
        apply Hw; [lia|exact Hbe].
      * intros k Hk. apply Hu. intros e He. apply Hk. lia.
Qed.

(** Before the iteration with stride [2^t / 2], a position whose successor
    is a multiple of [2^t] holds the sum of the loaded values before its
    group of [2^t]; the other positions are as the reduction left them. *)
Definition down_swept (t : nat) (helper : list nat) : Prop :=
  length helper = block_size /\
  forall k, k < block_size ->
    ((2 ^ t | k + 1) -> helper !!! k = segment loaded 0 (k + 1 - 2 ^ t)) /\
    (forall s, s < t -> (2 ^ s | k + 1) -> ~ (2 ^ S s | k + 1) ->
       helper !!! k = segment loaded (k + 1 - 2 ^ s) (2 ^ s)).

Lemma down_swept_init helper :
  up_swept h helper -> down_swept h (<[block_size - 1 := 0]> helper).
Proof.
  intros [Hlen Hinv]. pose proof (pow2_pos h) as Hpos.
  split; [rewrite length_insert; exact Hlen|]. intros k Hk. split.
  - intros [q Hq]. assert (q = 1) by nia. subst q.
    replace k with (block_size - 1) by lia.
    rewrite list_lookup_total_insert_eq by lia.
    replace (block_size - 1 + 1 - 2 ^ h) with 0 by lia. reflexivity.
  - intros s Hs Hd Hn. rewrite list_lookup_total_insert_ne.
    + apply Hinv; [exact Hk|lia|exact Hd|right; exact Hn].
    + intros Heq. apply Hn. apply (divide_pow2_le _ h); [lia|].
      exists 1. lia.
Qed.

Lemma down_swept_step t helper :
  t < h -> down_swept (S t) helper ->
  down_swept t
    (foldl (down_sweep_thread block_size (2 ^ t)) helper (seq 0 block_size)).
Proof.
  intros Ht [Hlen Hinv]. pose proof (pow2_pos t) as Hpos.
  destruct (down_sweep_threads t helper block_size Hlen) as (L & Hw & Hu).
  split; [exact L|]. intros k Hk. split.
  - intros Hd. destruct (decide (2 ^ S t | k + 1)) as [Hd'|Hd'].
    + destruct (even_multiple t (k + 1) ltac:(lia) Hd') as [e He].
      assert (Hk' : k = 2 ^ t * (2 * e + 2) - 1) by lia.
      rewrite Hk'. destruct (Hw e ltac:(nia) ltac:(lia)) as [-> _].
      destruct (Hinv (2 ^ t * (2 * e + 2) - 1) ltac:(lia)) as [Hb _].
      rewrite Hb
        by (replace (2 ^ t * (2 * e + 2) - 1 + 1) with (2 ^ t * (2 * e + 2))
              by nia; apply even_multiple_divide).
      destruct (Hinv (2 ^ t * (2 * e + 1) - 1) ltac:(nia)) as [_ Ha].
      rewrite (Ha t ltac:(lia)).
      * rewrite Nat.pow_succ_r'.
        replace (2 ^ t * (2 * e + 2) - 1 + 1 - 2 ^ t)
          with ((2 ^ t * (2 * e + 2) - 1 + 1 - 2 * 2 ^ t) + 2 ^ t) by nia.
        rewrite segment_add. cbn [Nat.add]. f_equal. f_equal. nia.
      * replace (2 ^ t * (2 * e + 1) - 1 + 1) with (2 ^ t * (2 * e + 1)) by nia.
        apply odd_multiple_divide.
      * replace (2 ^ t * (2 * e + 1) - 1 + 1) with (2 ^ t * (2 * e + 1)) by nia.
        apply odd_multiple_not_divide.
    + destruct (odd_multiple t (k + 1) Hd Hd') as [e He].
      assert (Hk' : k = 2 ^ t * (2 * e + 1) - 1) by lia.
      assert (Hbound : 2 ^ t * (2 * e + 2) <= block_size).
      { rewrite block_size_pow.
        replace h with (S t + (h - S t)) by lia.
        rewrite Nat.pow_add_r, Nat.pow_succ_r'.
        assert (2 ^ t * (2 * e + 1) <= 2 * 2 ^ t * 2 ^ (h - S t)).
        { rewrite <- Nat.pow_succ_r', <- Nat.pow_add_r.
          replace (S t + (h - S t)) with h by lia.
          rewrite <- block_size_pow. lia. }
        assert (2 * e + 1 <= 2 * 2 ^ (h - S t)) by nia.
        assert (2 * e + 2 <= 2 * 2 ^ (h - S t)) by lia. nia. }
      rewrite Hk'. destruct (Hw e ltac:(nia) ltac:(lia)) as [_ ->].
      destruct (Hinv (2 ^ t * (2 * e + 2) - 1) ltac:(lia)) as [Hb _].
      rewrite Hb
        by (replace (2 ^ t * (2 * e + 2) - 1 + 1) with (2 ^ t * (2 * e + 2))
              by nia; apply even_multiple_divide).
      rewrite Nat.pow_succ_r'. f_equal. nia.
  - intros s Hs Hd Hn.
    assert (Hnt : ~ (2 ^ t | k + 1)).
    { intros Hdt. apply Hn. apply (divide_pow2_le _ t); [lia|exact Hdt]. }
    rewrite Hu.
    + destruct (Hinv k Hk) as [_ Hrest]. apply Hrest; [lia|exact Hd|exact Hn].
    + intros e He Hbe. split; intros Heq; apply Hnt; rewrite Heq.
      * replace (2 ^ t * (2 * e + 2) - 1 + 1) with (2 ^ t * (2 * e + 2)) by nia.
        exists (2 * e + 2). lia.
      * replace (2 ^ t * (2 * e + 1) - 1 + 1) with (2 ^ t * (2 * e + 1)) by nia.
        apply odd_multiple_divide.
Qed.

Lemma down_sweep_down_swept : forall fuel t helper,
  t <= fuel -> t <= h -> down_swept t helper ->
  down_swept 0 (down_sweep block_size fuel (Nat.shiftr (2 ^ t) 1) helper).
Proof.
  induction fuel as [|fuel IH]; intros t helper Hf Ht Hinv.
  - replace t with 0 in Hinv by lia. exact Hinv.
  - cbn [down_sweep]. destruct t as [|t].
    + cbn. exact Hinv.
    + rewrite Nat.shiftr_div_pow2, Nat.pow_1_r, Nat.pow_succ_r'.
      replace (2 * 2 ^ t / 2) with (2 ^ t)
        by (rewrite Nat.mul_comm, Nat.div_mul; lia).
      pose proof (pow2_pos t) as Hpos.
      destruct (Nat.ltb_spec 0 (2 ^ t)) as [_|]; [|lia].
      apply IH; [lia|lia|]. apply down_swept_step; [lia|exact Hinv].
Qed.

(** The shared array of a block before the threads write back, and its
    last entry after the reduction. *)
Lemma block_scan :
  let reduced := reduction block_size block_size 1 loaded in
  let swept := down_sweep block_size block_size (Nat.shiftr block_size 1)
                 (<[block_size - 1 := 0]> reduced) in
  reduced !!! (block_size - 1) = sum_list loaded /\
  length swept = block_size /\
  forall k, k < block_size -> swept !!! k = sum_list (take k loaded).
Proof.
  intros reduced swept. pose proof (pow2_pos h) as Hpos.
  assert (Hfuel : h < block_size).
  { rewrite block_size_pow. apply Nat.pow_gt_lin_r. lia. }
  assert (Hup : up_swept h reduced).
  { pose proof (reduction_up_swept block_size 0 loaded ltac:(lia) ltac:(lia)
                  up_swept_init) as H.
    rewrite Nat.pow_0_r in H. exact H. }
  assert (Hdown : down_swept 0 swept).
  { pose proof (down_sweep_down_swept block_size h _ ltac:(lia) ltac:(lia)
                  (down_swept_init _ Hup)) as H.
    rewrite <- block_size_pow in H. exact H. }
  split; [|split].
  - destruct Hup as [_ Hinv].
    rewrite (Hinv (block_size - 1) h);
      [|lia|lia|exists 1; lia|left; reflexivity].
    replace (block_size - 1 + 1 - 2 ^ h) with 0 by lia.
    unfold segment. rewrite drop_0, take_ge by lia. reflexivity.
  - apply Hdown.
  - intros k Hk. destruct Hdown as [_ Hinv].
    destruct (Hinv k Hk) as [H0 _].
    rewrite H0 by (exists (k + 1); rewrite Nat.pow_0_r; lia).
    rewrite Nat.pow_0_r. replace (k + 1 - 1) with k by lia.
    unfold segment. rewrite drop_0. reflexivity.
Qed.

End Block.

(** ** The grid *)

Section Grid.

Variable block_size : nat.
Variable num_elements gridDim : nat.

(** The arrays before the kernels. *)
Variables elements block_sum : list nat.

Local Abbreviation loaded :=
  (load_prefix_helper block_size num_elements elements).

Lemma loaded_length blockIdx : length (loaded blockIdx) = block_size.
Proof. unfold load_prefix_helper. rewrite length_map, length_seq. reflexivity. Qed.

Lemma segment_blocks q :
  sum_list (map (fun b => segment elements (block_size * b) block_size)
                (seq 0 q)) =
  segment elements 0 (block_size * q).
Proof.
  induction q as [|q IH]; [rewrite Nat.mul_0_r; reflexivity|].
  rewrite seq_S, map_app, sum_list_with_app, IH. simpl.
  replace (block_size * S q) with (block_size * q + block_size) by lia.
  rewrite segment_add. unfold id. simpl. lia.
Qed.

(** [start_prefix_sum], the blocks below [b] done: their elements hold the
    prefix sums inside the block, their totals are stored, and the rest is
    as it was. *)
Definition started (b : nat) (st : list nat * list nat) : Prop :=
  length st.1 = length elements /\ length st.2 = length block_sum /\
  (forall i, i < block_size * b -> i < num_elements ->
     st.1 !!! i = sum_list (take (i mod block_size) (loaded (i / block_size)))) /\
  (forall i, block_size * b <= i \/ num_elements <= i ->
     st.1 !!! i = elements !!! i) /\
  (forall b', b' < b -> b' + 1 < gridDim ->
     st.2 !!! b' = sum_list (loaded b')).

Lemma load_unchanged b st :
  started b st ->
  load_prefix_helper block_size num_elements st.1 b = loaded b.
Proof.
  intros (_ & _ & _ & Hrest & _). unfold load_prefix_helper.
  apply map_ext_in. intros e He. apply in_seq in He. cbn zeta.
  destruct (Nat.ltb_spec (get_thread_id_flat block_size b e + 1) num_elements);
    [|reflexivity].
  apply Hrest. left. unfold get_thread_id_flat. lia.
Qed.

(** [finalize_prefix_sum], the blocks below [b] done. *)
Lemma finalize_grid (started_elements sums : list nat) b :
  0 < block_size ->
  let out :=
    foldl (fun el blockIdx =>
             foldl (finalize_thread block_size num_elements sums blockIdx) el
                   (seq 0 block_size))
          started_elements (seq 0 b) in
  length out = length started_elements /\
  (forall i, i < block_size * b -> i < num_elements ->
     i < length started_elements ->
     out !!! i = started_elements !!! i +
                 sum_list (map (fun b' => sums !!! b') (seq 0 (i / block_size)))) /\
  (forall i, block_size * b <= i \/ num_elements <= i ->
     out !!! i = started_elements !!! i).
Proof.
  intros Hpos. induction b as [|b IH]; intros out; subst out.
  - cbn [seq foldl]. split; [reflexivity|]. split; [intros; lia|reflexivity].
  - rewrite seq_S, foldl_app. cbn [foldl Nat.add].
    destruct IH as (L & Hdone & Hrest).
    set (prev := foldl _ started_elements (seq 0 b)) in *.
    destruct (foldl_update_own (fun e => get_thread_id_flat block_size b e)
                (fun e => get_thread_id_flat block_size b e <? num_elements)
                (fun e x => x + foldl (fun acc i => acc + sums !!! i) 0 (seq 0 b))
                prev block_size)
      as (F1 & F2 & F3).
    { unfold get_thread_id_flat. intros; lia. }
    unfold finalize_thread at 1. cbv zeta.
    split; [rewrite F1; exact L|]. split.
    + intros i Hi Hn Hlen. destruct (decide (i < block_size * b)) as [Hold|Hnew].
      * rewrite F3; [apply Hdone; assumption|].
        unfold get_thread_id_flat. intros; lia.
      * set (e := i - block_size * b).
        assert (He : e < block_size) by (unfold e; lia).
        assert (Hi' : i = get_thread_id_flat block_size b e)
          by (unfold get_thread_id_flat, e; lia).
        assert (Hq : i / block_size = b).
        { symmetry. apply (Nat.div_unique _ _ b e);
            [lia|unfold get_thread_id_flat in Hi'; lia]. }
        rewrite Hq, Hi'. rewrite F2.
        -- rewrite foldl_add_sum. f_equal. apply Hrest. lia.
        -- exact He.
        -- apply Nat.ltb_lt. lia.
        -- lia.
    + intros i Hi. rewrite F3.
      * apply Hrest. lia.
      * intros e He Hg Heq. apply Nat.ltb_lt in Hg.
        unfold get_thread_id_flat in *. lia.
Qed.

Hypothesis elements_length : num_elements <= length elements.

(** The values a block loads are the elements of its range, as long as the
    last element of the array is not among them. *)
Lemma loaded_prefix blockIdx k :
  k <= block_size -> block_size * blockIdx + k < num_elements ->
  sum_list (take k (loaded blockIdx)) =
  segment elements (block_size * blockIdx) k.
Proof.
  induction k as [|k IH]; intros Hk Hn; [reflexivity|].
  rewrite (take_S_r _ k (loaded blockIdx !!! k))
    by (apply list_lookup_lookup_total_lt; rewrite loaded_length; lia).
  rewrite sum_list_with_app, IH by lia.
  replace (S k) with (k + 1) by lia. rewrite segment_add, segment_one by lia.
  simpl. unfold id. rewrite Nat.add_0_r. f_equal.
  unfold load_prefix_helper.
  rewrite (list_lookup_total_fmap _ (seq 0 block_size))
    by (rewrite length_seq; lia).
  rewrite lookup_total_seq_lt by lia. cbn [Nat.add].
  unfold get_thread_id_flat.
  destruct (Nat.ltb_spec (block_size * blockIdx + k + 1) num_elements);
    [reflexivity|lia].
Qed.

Variable h : nat.
Hypothesis block_size_pow : block_size = 2 ^ h.
Hypothesis block_sum_length : gridDim - 1 <= length block_sum.

Lemma block_size_pos : 0 < block_size.
Proof. rewrite block_size_pow. apply pow2_pos. Qed.

Lemma started_step b st :
  b < gridDim -> started b st ->
  started (S b) (start_prefix_sum_block block_size num_elements gridDim st b).
Proof.
  intros Hb Hst. pose proof block_size_pos as Hpos.
  pose proof (load_unchanged b st Hst) as Hload.
  destruct Hst as (L1 & L2 & Hdone & Hrest & Hsums).
  unfold start_prefix_sum_block. rewrite Hload.
  destruct (block_scan block_size h block_size_pow (loaded b) (loaded_length b))
    as (Htotal & Lswept & Hswept).
  set (reduced := reduction block_size block_size 1 (loaded b)) in *.
  set (swept := down_sweep block_size block_size (Nat.shiftr block_size 1)
                  (<[block_size - 1 := 0]> reduced)) in *.
  destruct (foldl_update_own (fun e => get_thread_id_flat block_size b e)
              (fun e => get_thread_id_flat block_size b e <? num_elements)
              (fun e _ => swept !!! e) st.1 block_size)
    as (F1 & F2 & F3).
  { unfold get_thread_id_flat. intros; lia. }
  unfold started. cbn [fst snd].
  split; [rewrite F1; exact L1|]. split.
  { destruct (b + 1 <? gridDim);
      rewrite ?length_insert; exact L2. }
  split; [|split].
  - intros i Hi Hn. destruct (decide (i < block_size * b)) as [Hold|Hnew].
    + rewrite F3; [apply Hdone; assumption|].
      unfold get_thread_id_flat. intros; lia.
    + set (e := i - block_size * b).
      assert (He : e < block_size) by (unfold e; lia).
      assert (Hi' : i = get_thread_id_flat block_size b e)
        by (unfold get_thread_id_flat, e; lia).
      assert (Hq : i / block_size = b).
      { symmetry. apply (Nat.div_unique _ _ b e);
          [lia|unfold get_thread_id_flat in Hi'; lia]. }
      assert (Hm : i mod block_size = e).
      { symmetry. apply (Nat.mod_unique _ _ b e);
          [lia|unfold get_thread_id_flat in Hi'; lia]. }
      rewrite Hq, Hm, Hi'. rewrite F2.
      * apply Hswept. exact He.
      * exact He.
      * apply Nat.ltb_lt. lia.
      * lia.
  - intros i Hi. rewrite F3.
    + apply Hrest. lia.
    + intros e He Hg Heq. apply Nat.ltb_lt in Hg.
      unfold get_thread_id_flat in *. lia.
  - intros b' Hb' Hg'. destruct (Nat.ltb_spec (b + 1) gridDim) as [Hlt|Hge].
    + destruct (decide (b' = b)) as [->|Hne].
      * rewrite list_lookup_total_insert_eq by lia. exact Htotal.
      * rewrite list_lookup_total_insert_ne by lia. apply Hsums; lia.
    + apply Hsums; lia.
Qed.

Lemma started_grid b :
  b <= gridDim ->
  started b (foldl (start_prefix_sum_block block_size num_elements gridDim)
                   (elements, block_sum) (seq 0 b)).
Proof.
  induction b as [|b IH]; intros Hb.
  - cbn [seq foldl]. unfold started. cbn [fst snd].
    repeat split; try reflexivity; intros; lia.
  - rewrite seq_S, foldl_app. apply started_step; [lia|]. apply IH. lia.
Qed.

End Grid.

(** ** The subwarp scan, inclusive and exclusive *)

Lemma hypercube_step_length step st :
  length (hypercube_step step st).1 = length st.1 /\
  length (hypercube_step step st).2 = length st.2.
Proof. unfold hypercube_step. cbn [fst snd]. rewrite !length_imap. auto. Qed.

(** Adding [element] to the prefix registers commutes with a step: the
    step adds to a lane's prefix what depends on the totals only. *)
Lemma hypercube_step_shift step (p t e : list nat) :
  hypercube_step step (zip_with Nat.add p e, t) =
  ((zip_with Nat.add (hypercube_step step (p, t)).1 e),
   (hypercube_step step (p, t)).2).
Proof.
  unfold hypercube_step. cbn [fst snd]. f_equal.
  apply list_eq. intros i.
  rewrite list_lookup_imap, !lookup_zip_with, list_lookup_imap.
  destruct (p !! i) as [x|]; [|reflexivity].
  destruct (e !! i) as [y|]; [|reflexivity].
  simpl. f_equal. lia.
Qed.

Lemma hypercube_shift size e : forall fuel step p t,
  hypercube fuel step size (zip_with Nat.add p e, t) =
  (zip_with Nat.add (hypercube fuel step size (p, t)).1 e,
   (hypercube fuel step size (p, t)).2).
Proof.
  induction fuel as [|fuel IH]; intros step p t; [reflexivity|].
  cbn [hypercube]. destruct (step <? size); [|reflexivity].
  rewrite hypercube_step_shift.
  destruct (hypercube_step step (p, t)) as [p' t'] eqn:E. cbn [fst snd].
  apply IH.
Qed.

(** [subwarp_prefix_sum] over a subwarp of [2^h] lanes: lane [r]
    gets the sum of the elements of the lanes below it, plus its own for
    the inclusive variant, and every lane gets the sum of all elements. *)
Lemma subwarp_prefix_sum_sums (element : list nat) (h : nat)
    (inclusive : bool) :
  length element = 2 ^ h ->
  let st := subwarp_prefix_sum inclusive element in
  length st.1 = 2 ^ h /\ length st.2 = 2 ^ h /\
  forall r, r < 2 ^ h ->
    st.1 !!! r = sum_list (take (if inclusive then S r else r) element) /\
    st.2 !!! r = sum_list element.
Proof.
  intros Hlen st.
  destruct (subwarp_prefix_sum_spec element h Hlen) as (L1 & L2 & Hex).
  destruct inclusive; [|exact (conj L1 (conj L2 Hex))].
  unfold st, subwarp_prefix_sum in *.
  assert (E : map (fun e : nat => e) element =
              zip_with Nat.add (map (fun _ : nat => 0) element) element).
  { apply list_eq. intros i.
    rewrite lookup_zip_with, !list_lookup_fmap.
    destruct (element !! i); reflexivity. }
  rewrite E, hypercube_shift.
  set (ex := hypercube _ _ _ (map (fun _ : nat => 0) element, element)) in *.
  cbn [fst snd].
  split; [rewrite length_zip_with; lia|]. split; [exact L2|].
  intros r Hr. destruct (Hex r Hr) as [Hp Ht]. split; [|exact Ht].
  assert (Hlk : zip_with Nat.add ex.1 element !! r =
                Some (ex.1 !!! r + element !!! r)).
  { rewrite lookup_zip_with.
    rewrite (list_lookup_lookup_total_lt ex.1 r) by lia.
    rewrite (list_lookup_lookup_total_lt element r) by lia. reflexivity. }
  rewrite (list_lookup_total_correct _ _ _ Hlk), Hp.
  rewrite (take_S_r element r (element !!! r))
    by (apply list_lookup_lookup_total_lt; lia).
  rewrite sum_list_with_app. simpl. unfold id. lia.
Qed.

(** ** The kernels *)

(** [start_prefix_sum] with a block size of [2^h]: every block
    leaves in its elements the sums of the elements before them in the
    block, and every block but the last stores the sum of its elements in
    [block_sum]; the last element of the array is not read, and nothing
    from [num_elements] on is written. *)
Lemma start_prefix_sum_sums (block_size h num_elements gridDim : nat)
    (elements block_sum : list nat) :
  block_size = 2 ^ h ->
  num_elements <= length elements ->
  gridDim - 1 <= length block_sum ->
  let st := start_prefix_sum block_size num_elements gridDim elements
              block_sum in
  length st.1 = length elements /\ length st.2 = length block_sum /\
  (forall i, i < num_elements -> i < block_size * gridDim ->
     st.1 !!! i =
     segment elements (block_size * (i / block_size)) (i mod block_size)) /\
  (forall i, num_elements <= i \/ block_size * gridDim <= i ->
     st.1 !!! i = elements !!! i) /\
  (forall b, b + 1 < gridDim -> block_size * (b + 1) < num_elements ->
     st.2 !!! b = segment elements (block_size * b) block_size) /\
  (forall b, gridDim <= b + 1 -> st.2 !!! b = block_sum !!! b).
Proof.
  intros Hpow Hlen Hsum st.
  assert (Hpos : 0 < block_size) by (rewrite Hpow; apply pow2_pos).
  assert (Hkeep : forall b n, n <= gridDim -> gridDim <= b + 1 ->
            (foldl (start_prefix_sum_block block_size num_elements gridDim)
                   (elements, block_sum) (seq 0 n)).2 !!! b = block_sum !!! b).
  { intros b n. induction n as [|n IH]; intros Hn Hb; [reflexivity|].
    rewrite seq_S, foldl_app. cbn [foldl Nat.add].
    unfold start_prefix_sum_block at 1. cbn [snd].
    destruct (Nat.ltb_spec (n + 1) gridDim).
    - rewrite list_lookup_total_insert_ne by lia. apply IH; lia.
    - apply IH; lia. }
  destruct (started_grid block_size num_elements gridDim elements block_sum
              Hlen h Hpow Hsum gridDim (le_n _))
    as (L1 & L2 & Hdone & Hrest & Hsums).
  fold (start_prefix_sum block_size num_elements gridDim elements block_sum)
    in L1, L2, Hdone, Hrest, Hsums.
  fold st in L1, L2, Hdone, Hrest, Hsums.
  split; [exact L1|]. split; [exact L2|]. split; [|split; [|split]].
  - intros i Hi Hg. rewrite Hdone by assumption.
    apply (loaded_prefix block_size num_elements elements Hlen).
    + pose proof (Nat.mod_upper_bound i block_size ltac:(lia)). lia.
    + rewrite <- Nat.div_mod_eq. exact Hi.
  - intros i Hi. apply Hrest. lia.
  - intros b Hb Hn. rewrite Hsums by lia.
    rewrite <- (take_ge (load_prefix_helper block_size num_elements elements b)
                  block_size) at 1
      by (rewrite (loaded_length block_size num_elements elements); lia).
    apply (loaded_prefix block_size num_elements elements Hlen); lia.
  - intros b Hb. apply (Hkeep b gridDim (le_n _) Hb).
Qed.

(** [start_prefix_sum] followed by [finalize_prefix_sum], with a
    block size of [2^h]: entry [i] below [num_elements] becomes the sum of
    the entries before it (the exclusive prefix sum), the rest of the array
    is left as it was; on a grid that covers the array this is the prefix
    sum that the selection uses. *)
Lemma prefix_sum_kernels_sums (block_size h num_elements gridDim : nat)
    (elements block_sum : list nat) :
  block_size = 2 ^ h ->
  num_elements <= length elements ->
  gridDim - 1 <= length block_sum ->
  let out := prefix_sum_kernels block_size num_elements gridDim elements
               block_sum in
  length out = length elements /\
  (forall i, i < num_elements -> i < block_size * gridDim ->
     out !!! i = sum_list (take i elements)) /\
  (forall i, num_elements <= i \/ block_size * gridDim <= i ->
     out !!! i = elements !!! i) /\
  (num_elements <= block_size * gridDim ->
   out = SampleSelect.prefix_sum elements num_elements).
Proof.
  intros Hpow Hlen Hsum out.
  assert (Hpos : 0 < block_size) by (rewrite Hpow; apply pow2_pos).
  destruct (started_grid block_size num_elements gridDim elements block_sum
              Hlen h Hpow Hsum gridDim (le_n _))
    as (L1 & L2 & Hdone & Hrest & Hsums).
  fold (start_prefix_sum block_size num_elements gridDim elements block_sum)
    in L1, L2, Hdone, Hrest, Hsums.
  set (st := start_prefix_sum block_size num_elements gridDim elements
               block_sum) in *.
  destruct (finalize_grid block_size num_elements st.1 st.2 gridDim Hpos)
    as (F1 & Fdone & Frest).
  fold (finalize_prefix_sum block_size num_elements gridDim st.1 st.2)
    in F1, Fdone, Frest.
  change (finalize_prefix_sum block_size num_elements gridDim st.1 st.2)
    with out in F1, Fdone, Frest.
  assert (Hscan : forall i, i < num_elements -> i < block_size * gridDim ->
            out !!! i = sum_list (take i elements)).
  { intros i Hi Hg. rewrite Fdone by lia. rewrite Hdone by lia.
    pose proof (Nat.mod_upper_bound i block_size ltac:(lia)) as Hmod.
    pose proof (Nat.div_mod_eq i block_size) as Hdm.
    assert (Hq : i / block_size < gridDim)
      by (apply Nat.Div0.div_lt_upper_bound; lia).
    rewrite (loaded_prefix block_size num_elements elements Hlen) by lia.
    assert (Hblocks :
      sum_list (map (fun b' => st.2 !!! b') (seq 0 (i / block_size))) =
      sum_list (map (fun b => segment elements (block_size * b) block_size)
                    (seq 0 (i / block_size)))).
    { f_equal. apply map_ext_in. intros b Hb. apply in_seq in Hb.
      rewrite Hsums by lia.
      rewrite <- (take_ge (load_prefix_helper block_size num_elements
                             elements b) block_size) at 1
        by (rewrite (loaded_length block_size num_elements elements); lia).
      apply (loaded_prefix block_size num_elements elements Hlen); [lia|].
      assert (block_size * (b + 1) <= block_size * (i / block_size))
        by (apply Nat.mul_le_mono_l; lia). lia. }
    rewrite Hblocks, segment_blocks.
    rewrite Nat.add_comm, <- segment_add, <- Hdm.
    unfold segment. rewrite drop_0. reflexivity. }
  split; [rewrite F1; exact L1|]. split; [exact Hscan|]. split.
  - intros i Hi. rewrite Frest by lia. apply Hrest. lia.
  - intros Hcover.
    destruct (SampleSelect.prefix_sum_spec elements num_elements Hlen)
      as (P1 & P2 & P3).
    apply list_eq_lookup_total; [rewrite F1, L1, P1; reflexivity|].
    intros q _. destruct (decide (q < num_elements)) as [Hq|Hq].
    + rewrite Hscan, P2 by lia. reflexivity.
    + rewrite Frest, Hrest, P3 by lia. reflexivity.
Qed.




End PrefixSumKernels.

(** * Warp-level copies and products (warp_blas, src/unnamed/part_000)

    A pointer into an array is the array from that position on: [p + k] is
    [drop k p], and what a routine writes through [p + k] is put back
    behind the first [k] entries. *)

Module WarpBlasOps.
Import WarpBlas Loops.

(** [enum postprocess_transformation { and_return, and_transpose }] *)
Inductive postprocess_transformation := and_return | and_transpose.

(** [get_row_major_index<mod>(row, col, stride)], with [transform] for the
    template parameter [mod] *)
Definition get_row_major_index (transform : postprocess_transformation)
    (row col stride : nat) : nat :=
  match transform with
  | and_return => row * stride + col
  | and_transpose => col * stride + row
  end.

Section Group.

Variable max_problem_size : nat.

(** [static_cast<ResultValueType>] and [static_cast<VectorValueType>]: the
    conversion between the value types of the source and of the result;
    the identity when the two are the same type. *)
Variable static_cast : Qc -> Qc.

(** [apply_gauss_jordan_transform_with_rhs]: [rhs] holds [rhs[0]] of every
    lane. *)
Definition apply_gauss_jordan_transform_with_rhs (key_row key_col : nat)
    (rows : list (list Qc)) (rhs : list Qc) (status : bool)
  : list (list Qc) * list Qc * bool :=
  let key_col_elem := shfl (column key_col rows) key_row in
  let key_rhs_elem := shfl rhs key_row in
  if is_zero key_col_elem then (rows, rhs, false)
  else
    let key_col_elem :=
      imap (fun thread_rank row =>
              if decide (thread_rank = key_row)
              then (1 / key_col_elem)%Qc
              else (- (row !!! key_col) / key_col_elem)%Qc) rows in
    let rhs :=
      imap (fun thread_rank rhs0 =>
              if decide (thread_rank = key_row)
              then (key_rhs_elem * key_col_elem !!! thread_rank)%Qc
              else (rhs0 + key_rhs_elem * key_col_elem !!! thread_rank)%Qc)
           rhs in
    let rows :=
      foldl (gauss_jordan_iteration key_row key_col_elem) rows
            (seq 0 max_problem_size) in
    (imap (fun thread_rank row =>
             <[key_col := key_col_elem !!! thread_rank]> row) rows,
     rhs, status).

(** [copy_matrix<max_problem_size, mod>]: lane [thread_rank] holds
    [source_row], [row_perm] and [col_perm]; all lanes write to
    [destination]. *)
Definition copy_matrix (transform : postprocess_transformation)
    (problem_size : nat) (source_row : list (list Qc)) (increment : nat)
    (row_perm col_perm : list nat) (destination : list Qc) (stride : nat)
  : list Qc :=
  foldl (fun destination i =>
           if i <? problem_size then
             let idx := shfl col_perm i in
             foldl (fun destination thread_rank =>
                      if thread_rank <? problem_size then
                        let val :=
                          (source_row !!! thread_rank) !!! (i * increment) in
                        <[get_row_major_index transform idx
                            (row_perm !!! thread_rank) stride :=
                            static_cast val]> destination
                      else destination)
                   destination (seq 0 (length source_row))
           else destination)
        destination (seq 0 max_problem_size).

(** [multiply_transposed_vec]: the registers [mtx_elem] of the lanes and
    the array [res]; lane 0 stores the reduced value. *)
Definition multiply_transposed_vec (problem_size : nat) (vec : list Qc)
    (mtx_row : list (list Qc)) (mtx_increment : nat) (res : list Qc)
    (res_increment : nat) : list Qc :=
  (foldl (fun (st : list Qc * list Qc) i =>
            if i <? problem_size then
              let mtx_elem :=
                imap (fun thread_rank mtx_elem =>
                        if thread_rank <? problem_size
                        then static_cast
                               ((mtx_row !!! thread_rank) !!!
                                  (i * mtx_increment))
                        else mtx_elem) st.1 in
              let out := reduce Qcplus (zip_with Qcmult mtx_elem vec) in
              (mtx_elem,
               if 0 <? length vec then <[i * res_increment := out]> st.2
               else st.2)
            else st)
         (map (fun _ => 0%Qc) vec, res) (seq 0 max_problem_size)).2.

(** [multiply_vec]: the registers [mtx_elem] and [out] of the lanes, then
    the writes [closure_op(res[thread_rank * res_increment], out)]. *)
Definition multiply_vec (problem_size : nat) (vec : list Qc)
    (mtx_row : list (list Qc)) (mtx_increment : nat) (res : list Qc)
    (res_increment : nat) (closure_op : Qc -> Qc -> Qc) : list Qc :=
  let regs :=
    foldl (fun (regs : list (Qc * Qc)) i =>
             if i <? problem_size then
               imap (fun thread_rank (reg : Qc * Qc) =>
                       let mtx_elem :=
                         if thread_rank <? problem_size
                         then static_cast
                                ((mtx_row !!! thread_rank) !!!
                                   (i * mtx_increment))
                         else reg.1 in
                       (mtx_elem, (reg.2 + mtx_elem * shfl vec i)%Qc)) regs
             else regs)
          (map (fun _ => (0%Qc, 0%Qc)) vec) (seq 0 max_problem_size) in
  foldl (fun res thread_rank =>
           if thread_rank <? problem_size
           then <[thread_rank * res_increment :=
                    closure_op (res !!! (thread_rank * res_increment))
                               (regs !!! thread_rank).2]> res
           else res)
        res (seq 0 (length vec)).

End Group.

(** ** Copies *)

Lemma get_row_major_index_bound transform a b n stride :
  a < n -> b < n -> n <= stride ->
  exists a' b', a' < n /\ b' < n /\
    get_row_major_index transform a b stride = a' * stride + b'.
Proof.
  intros Ha Hb Hn. destruct transform; simpl.
  - exists a, b. auto.
  - exists b, a. auto.
Qed.

Lemma row_major_inj a b a' b' stride :
  b < stride -> b' < stride -> a * stride + b = a' * stride + b' ->
  a = a' /\ b = b'.
Proof.
  intros Hb Hb' Heq.
  destruct (Nat.lt_trichotomy a a') as [Hlt | [-> | Hgt]].
  - pose proof (Nat.mul_le_mono_r (S a) a' stride ltac:(lia)). simpl in *. lia.
  - split; [reflexivity | lia].
  - pose proof (Nat.mul_le_mono_r (S a') a stride ltac:(lia)). simpl in *. lia.
Qed.

Lemma get_row_major_index_inj transform a b a' b' n stride :
  a < n -> b < n -> a' < n -> b' < n -> n <= stride ->
  get_row_major_index transform a b stride = get_row_major_index transform a' b' stride ->
  a = a' /\ b = b'.
Proof.
  intros Ha Hb Ha' Hb' Hn Heq. destruct transform; simpl in Heq.
  - apply (row_major_inj a b a' b' stride); lia.
  - destruct (row_major_inj b a b' a' stride); [lia|lia|exact Heq|]. auto.
Qed.

Section Copy.

Variable static_cast : Qc -> Qc.
Variable transform : postprocess_transformation.
Variable problem_size : nat.
Variable source_row : list (list Qc).
Variable increment : nat.
Variables row_perm col_perm : list nat.
Variable stride : nat.

Local Abbreviation n := problem_size.
Local Abbreviation slot i t :=
  (get_row_major_index transform (col_perm !!! i) (row_perm !!! t) stride).
Local Abbreviation value i t :=
  (static_cast ((source_row !!! t) !!! (i * increment))).

(** The slots written by the lanes in iteration [i]. *)
Lemma copy_matrix_iteration (destination : list Qc) i :
  (forall t t', t < n -> t' < n -> slot i t = slot i t' -> t = t') ->
  n <= length source_row ->
  let out :=
    foldl (fun destination thread_rank =>
             if thread_rank <? n
             then <[slot i thread_rank := value i thread_rank]> destination
             else destination)
          destination (seq 0 (length source_row)) in
  length out = length destination /\
  (forall t, t < n -> slot i t < length destination ->
     out !!! slot i t = value i t) /\
  (forall q, (forall t, t < n -> slot i t <> q) ->
     out !!! q = destination !!! q).
Proof.
  intros Hinj Hlanes out.
  destruct (foldl_update_own (fun t => slot i t) (fun t => t <? n)
              (fun t _ => value i t) destination (length source_row))
    as (F1 & F2 & F3).
  { intros t t' _ _ Ht Ht' Heq. apply Nat.ltb_lt in Ht, Ht'.
    apply Hinj; assumption. }
  split; [exact F1|]. split.
  - intros t Ht Hs. apply F2; [lia|apply Nat.ltb_lt; exact Ht|exact Hs].
  - intros q Hq. apply F3. intros t _ Hg. apply Nat.ltb_lt in Hg.
    apply Hq. exact Hg.
Qed.

Hypothesis lanes : n <= length source_row.
Hypothesis stride_fits : n <= stride.
Hypothesis row_perm_range : forall t, t < n -> row_perm !!! t < n.
Hypothesis col_perm_range : forall i, i < n -> col_perm !!! i < n.
Hypothesis row_perm_inj : forall t t', t < n -> t' < n ->
  row_perm !!! t = row_perm !!! t' -> t = t'.
Hypothesis col_perm_inj : forall i i', i < n -> i' < n ->
  col_perm !!! i = col_perm !!! i' -> i = i'.

Lemma slot_inj i t i' t' :
  i < n -> t < n -> i' < n -> t' < n -> slot i t = slot i' t' ->
  i = i' /\ t = t'.
Proof.
  intros Hi Ht Hi' Ht' Heq.
  destruct (get_row_major_index_inj transform _ _ _ _ n stride
              (col_perm_range i Hi) (row_perm_range t Ht)
              (col_perm_range i' Hi') (row_perm_range t' Ht')
              stride_fits Heq) as [Hc Hr].
  split; [apply col_perm_inj | apply row_perm_inj]; assumption.
Qed.

Lemma copy_matrix_iterations (destination : list Qc) k :
  (forall a b, a < n -> b < n -> a * stride + b < length destination) ->
  let out :=
    foldl (fun destination i =>
             if i <? n then
               let idx := shfl col_perm i in
               foldl (fun destination thread_rank =>
                        if thread_rank <? n then
                          let val :=
                            (source_row !!! thread_rank) !!! (i * increment) in
                          <[get_row_major_index transform idx
                              (row_perm !!! thread_rank) stride :=
                              static_cast val]> destination
                        else destination)
                     destination (seq 0 (length source_row))
             else destination)
          destination (seq 0 k) in
  length out = length destination /\
  (forall i t, i < k -> i < n -> t < n -> out !!! slot i t = value i t) /\
  (forall q, (forall i t, i < k -> i < n -> t < n -> slot i t <> q) ->
     out !!! q = destination !!! q).
Proof.
  intros Hfit. induction k as [|k IH]; intros out; subst out.
  - cbn [seq foldl]. split; [reflexivity|]. split; [intros; lia|reflexivity].
  - rewrite seq_S, foldl_app. cbn [foldl Nat.add].
    destruct IH as (L & Hw & Hu).
    set (prev := foldl _ destination (seq 0 k)) in *.
    destruct (Nat.ltb_spec k n) as [Hk|Hk].
    + cbn zeta. unfold shfl.
      destruct (copy_matrix_iteration prev k) as (F1 & F2 & F3).
      { intros t t' Ht Ht' Heq.
        apply (slot_inj k t k t'); assumption. }
      { exact lanes. }
      split; [rewrite F1; exact L|]. split.
      * intros i t Hi Hin Ht. destruct (decide (i = k)) as [->|Hne].
        -- apply F2; [exact Ht|]. rewrite L.
           destruct (get_row_major_index_bound transform (col_perm !!! k)
                       (row_perm !!! t) n stride)
             as (a & b & Ha & Hb & ->); auto.
        -- rewrite F3; [apply Hw; [lia|exact Hin|exact Ht]|].
           intros t' Ht' Heq.
           destruct (slot_inj k t' i t Hk Ht' Hin Ht Heq). lia.
      * intros q Hq. rewrite F3.
        -- apply Hu. intros i t Hi. apply Hq. lia.
        -- intros t Ht. apply Hq; [lia|exact Hk|exact Ht].
    + split; [exact L|]. split.
      * intros i t Hi Hin Ht. apply Hw; [lia|exact Hin|exact Ht].
      * intros q Hq. apply Hu. intros i t Hi. apply Hq. lia.
Qed.

End Copy.

(** What [copy_matrix] writes, for the kernels that call it. *)
Lemma copy_matrix_writes (max_problem_size : nat) (static_cast : Qc -> Qc)
    (transform : postprocess_transformation) (problem_size : nat)
    (source_row : list (list Qc)) (increment : nat)
    (row_perm col_perm : list nat) (destination : list Qc) (stride : nat) :
  problem_size <= max_problem_size ->
  problem_size <= length source_row ->
  problem_size <= stride ->
  (forall t, t < problem_size -> row_perm !!! t < problem_size) ->
  (forall i, i < problem_size -> col_perm !!! i < problem_size) ->
  (forall t t', t < problem_size -> t' < problem_size ->
     row_perm !!! t = row_perm !!! t' -> t = t') ->
  (forall i i', i < problem_size -> i' < problem_size ->
     col_perm !!! i = col_perm !!! i' -> i = i') ->
  (forall a b, a < problem_size -> b < problem_size ->
     a * stride + b < length destination) ->
  let out := copy_matrix max_problem_size static_cast transform problem_size
               source_row increment row_perm col_perm destination stride in
  length out = length destination /\
  (forall i t, i < problem_size -> t < problem_size ->
     out !!! get_row_major_index transform (col_perm !!! i) (row_perm !!! t) stride =
     static_cast ((source_row !!! t) !!! (i * increment))) /\
  (forall q,
     (forall a b, a < problem_size -> b < problem_size ->
        q <> a * stride + b) ->
     out !!! q = destination !!! q).
Proof.
  intros Hmax Hlanes Hstride Hrp Hcp Hrpi Hcpi Hfit out.
  destruct (copy_matrix_iterations static_cast transform problem_size source_row
              increment row_perm col_perm stride Hlanes Hstride Hrp Hcp Hrpi
              Hcpi destination max_problem_size Hfit) as (L & Hw & Hu).
  split; [exact L|]. split.
  - intros i t Hi Ht. apply Hw; [lia|exact Hi|exact Ht].
  - intros q Hq. apply Hu. intros i t _ Hi Ht Heq.
    destruct (get_row_major_index_bound transform (col_perm !!! i) (row_perm !!! t)
                problem_size stride) as (a & b & Ha & Hb & E); auto.
    apply (Hq a b Ha Hb). rewrite <- Heq, E. reflexivity.
Qed.

(** [X4].  [copy_matrix] with permutations of [0 .. problem_size-1] and a
    stride of at least [problem_size]: entry [i] of the row of lane [t]
    lands, converted, in row [col_perm[i]] and column [row_perm[t]] of the
    destination (the other way round for [and_transpose]), and no other
    entry of the destination changes. *)
Theorem copy_matrix_permutes (max_problem_size : nat) (static_cast : Qc -> Qc)
    (transform : postprocess_transformation) (problem_size : nat)
    (source_row : list (list Qc)) (increment : nat)
    (row_perm col_perm : list nat) (destination : list Qc) (stride : nat) :
  problem_size <= max_problem_size ->
  problem_size <= length source_row ->
  problem_size <= stride ->
  (forall t, t < problem_size -> row_perm !!! t < problem_size) ->
  (forall i, i < problem_size -> col_perm !!! i < problem_size) ->
  (forall t t', t < problem_size -> t' < problem_size ->
     row_perm !!! t = row_perm !!! t' -> t = t') ->
  (forall i i', i < problem_size -> i' < problem_size ->
     col_perm !!! i = col_perm !!! i' -> i = i') ->
  (forall a b, a < problem_size -> b < problem_size ->
     a * stride + b < length destination) ->
  let out := copy_matrix max_problem_size static_cast transform problem_size
               source_row increment row_perm col_perm destination stride in
  length out = length destination /\
  (forall i t, i < problem_size -> t < problem_size ->
     out !!! get_row_major_index transform (col_perm !!! i) (row_perm !!! t) stride =
     static_cast ((source_row !!! t) !!! (i * increment))) /\
  (forall q,
     (forall a b, a < problem_size -> b < problem_size ->
        q <> a * stride + b) ->
     out !!! q = destination !!! q).
Proof.
  exact (copy_matrix_writes max_problem_size static_cast transform problem_size source_row increment row_perm col_perm destination stride).
Qed.

(** ** Products with a vector *)

Lemma sum_upto_split n m f :
  n <= m -> (forall t, n <= t -> t < m -> f t = 0%Qc) ->
  sum_upto m f = sum_upto n f.
Proof.
  intros Hnm Hz. induction m as [|m IH].
  - replace n with 0 by lia. reflexivity.
  - destruct (decide (n = S m)) as [->|Hne]; [reflexivity|].
    simpl. rewrite IH by (try lia; intros; apply Hz; lia).
    rewrite (Hz m) by lia. ring.
Qed.

Lemma foldl_Qcplus (l : list Qc) : forall v,
  foldl Qcplus v l = (v + sum_Qc l)%Qc.
Proof.
  induction l as [|x l IH]; intros v; simpl; [ring|].
  rewrite IH. ring.
Qed.

(** A sum reduction over the lanes of a group. *)
Lemma reduce_Qcplus (l : list Qc) :
  reduce Qcplus l = sum_upto (length l) (fun t => l !!! t).
Proof.
  rewrite sum_upto_list.
  assert (E : map (fun t => l !!! t) (seq 0 (length l)) = l).
  { apply list_eq_lookup_total; [rewrite length_map, length_seq; reflexivity|].
    intros q Hq. rewrite length_map, length_seq in Hq.
    rewrite (list_lookup_total_fmap _ (seq 0 (length l)))
      by (rewrite length_seq; lia).
    rewrite lookup_total_seq_lt by lia. reflexivity. }
  rewrite E. destruct l as [|v rest]; [reflexivity|].
  simpl. rewrite foldl_Qcplus. reflexivity.
Qed.

Section Products.

Variable max_problem_size : nat.
Variable static_cast : Qc -> Qc.
Variable problem_size : nat.
Variable vec : list Qc.
Variable mtx_row : list (list Qc).
Variable mtx_increment : nat.

Local Abbreviation n := problem_size.
Local Abbreviation element t i :=
  (static_cast ((mtx_row !!! t) !!! (i * mtx_increment))).

(** The register [out] of the lanes of [multiply_vec] after [k]
    iterations. *)
Lemma multiply_vec_registers k :
  let regs :=
    foldl (fun (regs : list (Qc * Qc)) i =>
             if i <? n then
               imap (fun thread_rank (reg : Qc * Qc) =>
                       let mtx_elem :=
                         if thread_rank <? n
                         then static_cast
                                ((mtx_row !!! thread_rank) !!!
                                   (i * mtx_increment))
                         else reg.1 in
                       (mtx_elem, (reg.2 + mtx_elem * shfl vec i)%Qc)) regs
             else regs)
          (map (fun _ => (0%Qc, 0%Qc)) vec) (seq 0 k) in
  length regs = length vec /\
  forall t, t < n -> t < length vec ->
    (regs !!! t).2 =
    sum_upto (Nat.min k n) (fun i => (element t i * vec !!! i)%Qc).
Proof.
  induction k as [|k IH]; intros regs; subst regs.
  - cbn [seq foldl]. split; [apply length_map|].
    intros t Ht Hl. rewrite (list_lookup_total_fmap _ vec) by lia.
    reflexivity.
  - rewrite seq_S, foldl_app. cbn [foldl Nat.add].
    destruct IH as [L Hregs].
    set (prev := foldl _ (map _ vec) (seq 0 k)) in *.
    destruct (Nat.ltb_spec k n) as [Hk|Hk].
    + split; [rewrite length_imap; exact L|].
      intros t Ht Hl. rewrite lookup_total_imap by lia. cbn zeta. cbn [snd].
      destruct (Nat.ltb_spec t n) as [_|]; [|lia].
      rewrite Hregs by assumption.
      replace (Nat.min (S k) n) with (S (Nat.min k n)) by lia.
      replace (Nat.min k n) with k by lia. reflexivity.
    + split; [exact L|]. intros t Ht Hl.
      replace (Nat.min (S k) n) with (Nat.min k n) by lia.
      apply Hregs; assumption.
Qed.

(** The registers [mtx_elem] and the array [res] of
    [multiply_transposed_vec] after [k] iterations. *)
Lemma multiply_transposed_vec_iterations (res : list Qc) res_increment k :
  n <= length vec -> 0 < length vec -> 0 < res_increment ->
  (forall i, i < n -> i * res_increment < length res) ->
  let st :=
    foldl (fun (st : list Qc * list Qc) i =>
             if i <? n then
               let mtx_elem :=
                 imap (fun thread_rank mtx_elem =>
                         if thread_rank <? n
                         then static_cast
                                ((mtx_row !!! thread_rank) !!!
                                   (i * mtx_increment))
                         else mtx_elem) st.1 in
               let out := reduce Qcplus (zip_with Qcmult mtx_elem vec) in
               (mtx_elem,
                if 0 <? length vec then <[i * res_increment := out]> st.2
                else st.2)
             else st)
          (map (fun _ => 0%Qc) vec, res) (seq 0 k) in
  length st.1 = length vec /\
  (forall t, n <= t -> t < length vec -> st.1 !!! t = 0%Qc) /\
  length st.2 = length res /\
  (forall i, i < k -> i < n ->
     st.2 !!! (i * res_increment) =
     sum_upto n (fun t => (element t i * vec !!! t)%Qc)) /\
  (forall q, (forall i, i < k -> i < n -> q <> i * res_increment) ->
     st.2 !!! q = res !!! q).
Proof.
  intros Hlanes Hgroup Hinc Hfit.
  induction k as [|k IH]; intros st; subst st.
  - cbn [seq foldl fst snd]. split; [apply length_map|].
    split; [intros t _ Hl;
            rewrite (list_lookup_total_fmap (fun _ : Qc => 0%Qc) vec) by lia;
            reflexivity|].
    split; [reflexivity|]. split; [intros; lia|reflexivity].
  - rewrite seq_S, foldl_app. cbn [foldl Nat.add].
    destruct IH as (L1 & Hidle & L2 & Hw & Hu).
    set (prev := foldl _ (map _ vec, res) (seq 0 k)) in *.
    destruct (Nat.ltb_spec k n) as [Hk|Hk].
    + cbn zeta. cbn [fst snd].
      destruct (Nat.ltb_spec 0 (length vec)) as [_|]; [|lia].
      set (mtx_elem := imap _ prev.1).
      assert (Lm : length mtx_elem = length vec)
        by (unfold mtx_elem; rewrite length_imap; exact L1).
      assert (Hm : forall t, t < length vec ->
                mtx_elem !!! t = if t <? n then element t k else 0%Qc).
      { intros t Ht. unfold mtx_elem. rewrite lookup_total_imap by lia.
        destruct (Nat.ltb_spec t n); [reflexivity|]. apply Hidle; lia. }
      assert (Hout : reduce Qcplus (zip_with Qcmult mtx_elem vec) =
                     sum_upto n (fun t => (element t k * vec !!! t)%Qc)).
      { rewrite reduce_Qcplus, length_zip_with, Lm, Nat.min_id.
        rewrite (sum_upto_split n (length vec)).
        - apply sum_upto_ext. intros t Ht.
          rewrite lookup_total_zip_with by lia.
          rewrite Hm by lia. destruct (Nat.ltb_spec t n); [reflexivity|lia].
        - exact Hlanes.
        - intros t Ht Hl. rewrite lookup_total_zip_with by lia.
          rewrite Hm by lia. destruct (Nat.ltb_spec t n); [lia|]. ring. }
      split; [exact Lm|]. split.
      { intros t Ht Hl. rewrite Hm by lia.
        destruct (Nat.ltb_spec t n); [lia|reflexivity]. }
      split; [rewrite length_insert; exact L2|]. split.
      * intros i Hi Hin. destruct (decide (i = k)) as [->|Hne].
        -- rewrite list_lookup_total_insert_eq
             by (rewrite L2; apply Hfit; exact Hk).
           exact Hout.
        -- rewrite list_lookup_total_insert_ne by nia.
           apply Hw; [lia|exact Hin].
      * intros q Hq. rewrite list_lookup_total_insert_ne.
        -- apply Hu. intros i Hi. apply Hq. lia.
        -- intros Heq. apply (Hq k); [lia|exact Hk|]. symmetry. exact Heq.
    + split; [exact L1|]. split; [exact Hidle|]. split; [exact L2|]. split.
      * intros i Hi Hin. apply Hw; [lia|exact Hin].
      * intros q Hq. apply Hu. intros i Hi. apply Hq. lia.
Qed.

End Products.

(** What [multiply_vec] hands to [closure_op], for the kernels that call
    it. *)
Lemma multiply_vec_writes (max_problem_size : nat)
    (static_cast : Qc -> Qc) (problem_size : nat) (vec : list Qc)
    (mtx_row : list (list Qc)) (mtx_increment : nat) (res : list Qc)
    (res_increment : nat) (closure_op : Qc -> Qc -> Qc) :
  problem_size <= max_problem_size ->
  problem_size <= length vec ->
  0 < res_increment ->
  (forall t, t < problem_size -> t * res_increment < length res) ->
  let out := multiply_vec max_problem_size static_cast problem_size vec
               mtx_row mtx_increment res res_increment closure_op in
  length out = length res /\
  (forall t, t < problem_size ->
     out !!! (t * res_increment) =
     closure_op (res !!! (t * res_increment))
       (sum_upto problem_size
          (fun i => (static_cast ((mtx_row !!! t) !!! (i * mtx_increment)%nat) *
                     vec !!! i)%Qc))) /\
  (forall q, (forall t, t < problem_size -> q <> t * res_increment) ->
     out !!! q = res !!! q) /\
  (problem_size = 0 -> out = res).
Proof.
  intros Hmax Hlanes Hinc Hfit out.
  destruct (multiply_vec_registers static_cast problem_size vec mtx_row
              mtx_increment max_problem_size) as [L Hregs].
  unfold out, multiply_vec.
  set (regs := foldl _ (map _ vec) (seq 0 max_problem_size)) in *.
  destruct (foldl_update_own (fun t => t * res_increment)
              (fun t => t <? problem_size)
              (fun t x => closure_op x (regs !!! t).2) res (length vec))
    as (F1 & F2 & F3).
  { intros t t' _ _ _ _ Heq. nia. }
  assert (Hw : forall t, t < problem_size ->
            foldl (fun res thread_rank =>
                     if thread_rank <? problem_size
                     then <[thread_rank * res_increment :=
                              closure_op (res !!! (thread_rank * res_increment))
                                         (regs !!! thread_rank).2]> res
                     else res) res (seq 0 (length vec))
            !!! (t * res_increment) =
            closure_op (res !!! (t * res_increment))
              (sum_upto problem_size
                 (fun i => (static_cast
                              ((mtx_row !!! t) !!! (i * mtx_increment)%nat) *
                            vec !!! i)%Qc))).
  { intros t Ht. rewrite F2.
    - rewrite Hregs by lia.
      replace (Nat.min max_problem_size problem_size) with problem_size by lia.
      reflexivity.
    - lia.
    - apply Nat.ltb_lt. exact Ht.
    - apply Hfit. exact Ht. }
  assert (Hu : forall q, (forall t, t < problem_size -> q <> t * res_increment) ->
            foldl (fun res thread_rank =>
                     if thread_rank <? problem_size
                     then <[thread_rank * res_increment :=
                              closure_op (res !!! (thread_rank * res_increment))
                                         (regs !!! thread_rank).2]> res
                     else res) res (seq 0 (length vec)) !!! q = res !!! q).
  { intros q Hq. apply F3. intros t _ Hg Heq. apply Nat.ltb_lt in Hg.
    apply (Hq t Hg). symmetry. exact Heq. }
  split; [exact F1|]. split; [exact Hw|]. split; [exact Hu|].
  intros Hzero. apply list_eq_lookup_total; [exact F1|].
  intros q _. apply Hu. intros t Ht. lia.
Qed.

(** [X5].  [multiply_vec]: lane [t] below [problem_size] hands to
    [closure_op] its slot [res[t * res_increment]] and entry [t] of the
    product of the matrix and the vector, [sum_i mtx_row_t[i *
    mtx_increment] * vec_i]; nothing else of [res] changes, and nothing at
    all for an empty problem. *)
Theorem multiply_vec_product (max_problem_size : nat)
    (static_cast : Qc -> Qc) (problem_size : nat) (vec : list Qc)
    (mtx_row : list (list Qc)) (mtx_increment : nat) (res : list Qc)
    (res_increment : nat) (closure_op : Qc -> Qc -> Qc) :
  problem_size <= max_problem_size ->
  problem_size <= length vec ->
  0 < res_increment ->
  (forall t, t < problem_size -> t * res_increment < length res) ->
  let out := multiply_vec max_problem_size static_cast problem_size vec
               mtx_row mtx_increment res res_increment closure_op in
  length out = length res /\
  (forall t, t < problem_size ->
     out !!! (t * res_increment) =
     closure_op (res !!! (t * res_increment))
       (sum_upto problem_size
          (fun i => (static_cast ((mtx_row !!! t) !!! (i * mtx_increment)%nat) *
                     vec !!! i)%Qc))) /\
  (forall q, (forall t, t < problem_size -> q <> t * res_increment) ->
     out !!! q = res !!! q) /\
  (problem_size = 0 -> out = res).
Proof.
  exact (multiply_vec_writes max_problem_size static_cast problem_size vec mtx_row mtx_increment res res_increment closure_op).
Qed.


(** ** The transformation with a right-hand side *)

(** The matrix with the right-hand side as one more column. *)
Definition augment (rows : list (list Qc)) (rhs : list Qc) : list (list Qc) :=
  zip_with (fun row b => row ++ [b]) rows rhs.

Lemma augment_wf max_problem_size group_size rows rhs :
  wf_rows max_problem_size group_size rows -> length rhs = group_size ->
  wf_rows (S max_problem_size) group_size (augment rows rhs).
Proof.
  intros [Hlen Hrows] Hrhs. split.
  - unfold augment. rewrite length_zip_with. lia.
  - apply Forall_forall. intros row Hin.
    apply list_elem_of_lookup in Hin as [r Hr].
    unfold augment in Hr. rewrite lookup_zip_with in Hr.
    destruct (rows !! r) as [x|] eqn:Ex; [|discriminate].
    destruct (rhs !! r) as [b|]; [|discriminate].
    simpl in Hr. injection Hr as <-.
    rewrite length_app. simpl.
    rewrite (proj1 (Forall_forall _ _) Hrows x); [lia|].
    apply list_elem_of_lookup. exists r. exact Ex.
Qed.

Lemma augment_entry max_problem_size group_size rows rhs r j :
  wf_rows max_problem_size group_size rows -> length rhs = group_size ->
  r < group_size -> j <= max_problem_size ->
  entry (augment rows rhs) r j =
  if decide (j = max_problem_size) then rhs !!! r else entry rows r j.
Proof.
  intros Hwf Hrhs Hr Hj. unfold entry, augment.
  pose proof (wf_rows_row _ _ rows r Hwf Hr) as Hrow.
  destruct Hwf as [Hlen _].
  rewrite lookup_total_zip_with by lia.
  destruct (decide (j = max_problem_size)) as [->|Hne].
  - rewrite lookup_total_app_r by lia.
    rewrite Hrow, Nat.sub_diag. reflexivity.
  - rewrite lookup_total_app_l by lia. reflexivity.
Qed.

Lemma rows_eq max_problem_size group_size (A B : list (list Qc)) :
  wf_rows max_problem_size group_size A ->
  wf_rows max_problem_size group_size B ->
  (forall r j, r < group_size -> j < max_problem_size ->
     entry A r j = entry B r j) ->
  A = B.
Proof.
  intros HA HB Hent.
  apply list_eq_lookup_total; [destruct HA, HB; lia|].
  intros r Hr. destruct HA as [LA HA'], HB as [LB HB'].
  assert (HA := conj LA HA'). assert (HB := conj LB HB').
  rewrite LA in Hr.
  apply list_eq_lookup_total.
  - rewrite (wf_rows_row _ _ A r HA Hr), (wf_rows_row _ _ B r HB Hr).
    reflexivity.
  - intros j Hj. rewrite (wf_rows_row _ _ A r HA Hr) in Hj.
    apply Hent; assumption.
Qed.


(** ** The infinity norm *)


(** ** A group of two lanes *)

Definition example_rows : list (list Qc) := [[1; 2]; [0; 1]]%Qc.

Lemma copy_matrix_permutes_witness :
  let out := copy_matrix 2 (fun val => val) and_transpose 2 example_rows 1
               [1; 0] [0; 1] (replicate 4 0%Qc) 2 in
  length out = 4 /\
  (forall i t, i < 2 -> t < 2 ->
     out !!! get_row_major_index and_transpose ([0; 1] !!! i) ([1; 0] !!! t) 2 =
     (example_rows !!! t) !!! (i * 1)) /\
  (forall q, (forall a b, a < 2 -> b < 2 -> q <> a * 2 + b) ->
     out !!! q = replicate 4 0%Qc !!! q).
Proof.
  apply (copy_matrix_permutes 2 (fun val => val) and_transpose 2 example_rows
           1 [1; 0] [0; 1] (replicate 4 0%Qc) 2).
  - lia.
  - simpl. lia.
  - lia.
  - intros [|[|t]] Ht; simpl; lia.
  - intros [|[|i]] Hi; simpl; lia.
  - intros [|[|t]] [|[|t']] Ht Ht'; simpl; lia.
  - intros [|[|i]] [|[|i']] Hi Hi'; simpl; lia.
  - intros a b Ha Hb. simpl. lia.
Defined.

Lemma multiply_vec_product_witness :
  let out := multiply_vec 2 (fun val => val) 2 [1; 2]%Qc example_rows 1
               [0; 0; 0]%Qc 1 (fun _ out => out) in
  length out = 3 /\
  (forall t, t < 2 ->
     out !!! (t * 1) =
     sum_upto 2 (fun i => ((example_rows !!! t) !!! (i * 1)%nat *
                           [1; 2]%Qc !!! i)%Qc)) /\
  (forall q, (forall t, t < 2 -> q <> t * 1) -> out !!! q = [0; 0; 0]%Qc !!! q) /\
  (2 = 0 -> out = [0; 0; 0]%Qc).
Proof.
  apply (multiply_vec_product 2 (fun val => val) 2 [1; 2]%Qc example_rows 1
           [0; 0; 0]%Qc 1 (fun _ out => out)).
  - lia.
  - simpl. lia.
  - lia.
  - intros t Ht. simpl. lia.
Defined.


Lemma example_rows_wf : wf_rows 2 2 example_rows.
Proof. split; [reflexivity|repeat constructor]. Qed.



End WarpBlasOps.

(** * Extraction of the diagonal blocks
    (common/cuda_hip/components/diagonal_block_manipulation.hpp.inc) *)

Module DiagonalBlocks.
Import Loops.

Section Kernel.

Variable max_block_size : nat.

(** [config::warp_size], and the dimensions of the thread block in the
    "standard format" that the kernel asks for: [blockDim.x] is the size of
    a subwarp and [blockDim.y] the number of subwarps of a warp.  The
    threads of one warp are those of one [threadIdx.z]; they are numbered
    by [tid = threadIdx.y * blockDim.x + threadIdx.x]. *)
Variable warp_size : nat.
Variables blockDim_x blockDim_y : nat.

Definition threadIdx_x (tid : nat) : nat := tid mod blockDim_x.
Definition threadIdx_y (tid : nat) : nat := tid / blockDim_x.
Definition threads : list nat := seq 0 (blockDim_x * blockDim_y).

Variables row_ptrs col_idxs : list nat.
Variable values : list Qc.
Variable block_ptrs : list nat.
Variable num_blocks : nat.

(** The loop of one thread over its entries [j], [j + warp_size], ... of a
    row.  [col] is a signed index, [break] leaves the loop.  The loop ends
    after at most [rend - j] rounds when [warp_size] is positive; [fuel]
    counts them. *)
Fixpoint load_row (fuel j rend : nat) (bstart bsize : Z)
    (workspace : list Qc) : list Qc :=
  match fuel with
  | 0 => workspace
  | S fuel =>
      if j <? rend then
        let col := (Z.of_nat (col_idxs !!! j) - bstart)%Z in
        if (bsize <=? col)%Z then workspace
        else
          load_row fuel (j + warp_size) rend bstart bsize
            (if (0 <=? col)%Z
             then <[Z.to_nat col := values !!! j]> workspace
             else workspace)
      else workspace
  end.

(** The body of the loop over [i], for the threads of one warp: the
    registers [block_row] of the threads and the [workspace] that they
    share.  The threads run one after the other between two
    [warp.sync()]. *)
Definition extract_row (increment b i : nat) (bstart bsize : Z)
    (st : list (list Qc) * list Qc) : list (list Qc) * list Qc :=
  let workspace :=
    foldl (fun workspace tid =>
             if (threadIdx_y tid =? b) && (threadIdx_x tid <? max_block_size)
             then <[threadIdx_x tid := 0%Qc]> workspace
             else workspace) st.2 threads in
  let row := Z.to_nat (bstart + Z.of_nat i) in
  let rend := row_ptrs !!! (row + 1) in
  let workspace :=
    foldl (fun workspace tid =>
             let rstart := row_ptrs !!! row + tid in
             load_row (rend - rstart) rstart rend bstart bsize workspace)
          workspace threads in
  (foldl (fun block_row tid =>
            if (threadIdx_y tid =? b) &&
               (Z.of_nat (threadIdx_x tid) <? bsize)%Z
            then <[tid := <[i * increment := workspace !!! threadIdx_x tid]>
                            (block_row !!! tid)]> block_row
            else block_row) st.1 threads,
   workspace).

(** The body of the loop over [b]: [bstart], [bsize] and the memory. *)
Definition extract_block (increment bid0 : nat)
    (st : Z * Z * (list (list Qc) * list Qc)) (b : nat)
  : Z * Z * (list (list Qc) * list Qc) :=
  let '(bstart, bsize, mem) := st in
  let bid := bid0 + b in
  if bid <? num_blocks then
    let bstart := (bstart + bsize)%Z in
    let bsize := (Z.of_nat (block_ptrs !!! (bid + 1)%nat) - bstart)%Z in
    (bstart, bsize,
     foldl (fun mem i =>
              if (Z.of_nat i <? bsize)%Z
              then extract_row increment b i bstart bsize mem
              else mem) mem (seq 0 max_block_size))
  else st.

(** [extract_transposed_diag_blocks] for the warp [threadIdx.z] of block
    [blockIdx.x]. *)
Definition extract_transposed_diag_blocks (warps_per_block : nat)
    (blockIdx_x threadIdx_z : nat) (processed_blocks : nat)
    (block_row : list (list Qc)) (increment : nat) (workspace : list Qc)
  : list (list Qc) * list Qc :=
  let bid := blockIdx_x * warps_per_block * processed_blocks +
             threadIdx_z * processed_blocks in
  let bstart :=
    if bid <? num_blocks then Z.of_nat (block_ptrs !!! bid) else 0%Z in
  (foldl (extract_block increment bid) (bstart, 0%Z, (block_row, workspace))
         (seq 0 processed_blocks)).2.

End Kernel.

(** ** The loop of one thread *)

Section Row.

Variable warp_size : nat.
Variables col_idxs : list nat.
Variable values : list Qc.
Variables lo rend : nat.
Variables first size : nat.

Hypothesis warp_size_pos : 0 < warp_size.
Hypothesis sorted : forall j j', lo <= j -> j < j' -> j' < rend ->
  col_idxs !!! j < col_idxs !!! j'.

Lemma columns_differ j j' :
  lo <= j -> j < rend -> lo <= j' -> j' < rend -> j <> j' ->
  col_idxs !!! j <> col_idxs !!! j'.
Proof.
  intros H1 H2 H3 H4 Hne.
  destruct (decide (j < j')) as [Hlt|Hge].
  - pose proof (sorted j j' H1 Hlt H4). lia.
  - pose proof (sorted j' j H3 ltac:(lia) H2). lia.
Qed.

Lemma load_row_spec : forall fuel j workspace,
  lo <= j -> rend - j <= fuel -> size <= length workspace ->
  let out := load_row warp_size col_idxs values fuel j rend
               (Z.of_nat first) (Z.of_nat size) workspace in
  length out = length workspace /\
  (forall k, j + k * warp_size < rend ->
     first <= col_idxs !!! (j + k * warp_size) ->
     col_idxs !!! (j + k * warp_size) < first + size ->
     out !!! (col_idxs !!! (j + k * warp_size) - first) =
     values !!! (j + k * warp_size)) /\
  (forall q, (forall k, j + k * warp_size < rend ->
                col_idxs !!! (j + k * warp_size) <> first + q) ->
     out !!! q = workspace !!! q).
Proof.
  induction fuel as [|fuel IH]; intros j workspace Hlo Hfuel Hlen out;
    subst out.
  - cbn [load_row]. split; [reflexivity|]. split; [|reflexivity].
    intros k Hk. lia.
  - cbn [load_row]. destruct (Nat.ltb_spec j rend) as [Hj|Hj].
    2:{ split; [reflexivity|]. split; [|reflexivity]. intros k Hk. lia. }
    cbn zeta.
    destruct (Z.leb_spec (Z.of_nat size)
                (Z.of_nat (col_idxs !!! j) - Z.of_nat first)) as [Hbreak|Hin].
    { split; [reflexivity|]. split; [|reflexivity].
      intros k Hk Hge Hlt. exfalso.
      destruct k as [|k]; [rewrite Nat.add_0_r in Hlt; lia|].
      pose proof (sorted j (j + S k * warp_size) Hlo ltac:(nia) Hk). lia. }
    set (next := if (0 <=? Z.of_nat (col_idxs !!! j) - Z.of_nat first)%Z
                 then <[Z.to_nat (Z.of_nat (col_idxs !!! j) - Z.of_nat first)
                          := values !!! j]> workspace
                 else workspace).
    assert (Lnext : length next = length workspace).
    { unfold next. destruct (0 <=? _)%Z; [apply length_insert|reflexivity]. }
    destruct (IH (j + warp_size) next ltac:(lia) ltac:(lia)
                ltac:(rewrite Lnext; exact Hlen)) as (L & Hw & Hu).
    split; [rewrite L; exact Lnext|]. split.
    + intros k Hk Hge Hlt. destruct k as [|k].
      * rewrite Nat.add_0_r in *. rewrite Hu.
        -- unfold next.
           destruct (Z.leb_spec 0 (Z.of_nat (col_idxs !!! j) -
                                   Z.of_nat first)) as [_|Hneg]; [|lia].
           replace (Z.to_nat (Z.of_nat (col_idxs !!! j) - Z.of_nat first))
             with (col_idxs !!! j - first) by lia.
           apply list_lookup_total_insert_eq. lia.
        -- intros k Hk'.
           pose proof (sorted j (j + warp_size + k * warp_size) Hlo
                         ltac:(nia) Hk'). lia.
      * replace (j + S k * warp_size) with (j + warp_size + k * warp_size)
          in * by lia.
        apply Hw; assumption.
    + intros q Hq. rewrite Hu.
      * unfold next.
        destruct (Z.leb_spec 0 (Z.of_nat (col_idxs !!! j) -
                                Z.of_nat first)) as [Hpos|_]; [|reflexivity].
        apply list_lookup_total_insert_ne.
        pose proof (Hq 0 ltac:(rewrite Nat.add_0_r; exact Hj)) as H0.
        rewrite Nat.add_0_r in H0. lia.
      * intros k Hk.
        replace (j + warp_size + k * warp_size) with (j + S k * warp_size)
          by lia.
        apply Hq. lia.
Qed.

(** The threads [0 .. n-1] of the warp, one after the other. *)
Lemma load_threads workspace n :
  n <= warp_size -> size <= length workspace ->
  let out :=
    foldl (fun workspace tid =>
             load_row warp_size col_idxs values (rend - (lo + tid)) (lo + tid)
               rend (Z.of_nat first) (Z.of_nat size) workspace)
          workspace (seq 0 n) in
  length out = length workspace /\
  (forall j, lo <= j -> j < rend -> (j - lo) mod warp_size < n ->
     first <= col_idxs !!! j -> col_idxs !!! j < first + size ->
     out !!! (col_idxs !!! j - first) = values !!! j) /\
  (forall q, (forall j, lo <= j -> j < rend -> (j - lo) mod warp_size < n ->
                col_idxs !!! j <> first + q) ->
     out !!! q = workspace !!! q).
Proof.
  induction n as [|n IH]; intros Hn Hlen out; subst out.
  - cbn [seq foldl]. split; [reflexivity|]. split; [|reflexivity].
    intros j _ _ Hmod. lia.
  - rewrite seq_S, foldl_app. cbn [foldl Nat.add].
    destruct (IH ltac:(lia) Hlen) as (L & Hw & Hu).
    set (prev := foldl _ workspace (seq 0 n)) in *.
    destruct (load_row_spec (rend - (lo + n)) (lo + n) prev ltac:(lia)
                ltac:(lia) ltac:(rewrite L; exact Hlen)) as (L' & Hw' & Hu').
    assert (Hthread : forall k, (lo + n + k * warp_size - lo) mod warp_size = n).
    { intros k. replace (lo + n + k * warp_size - lo) with (n + k * warp_size)
        by lia.
      rewrite Nat.Div0.mod_add. apply Nat.mod_small. lia. }
    split; [rewrite L'; exact L|]. split.
    + intros j Hlo Hj Hmod Hge Hlt.
      destruct (decide ((j - lo) mod warp_size = n)) as [E|Hne].
      * pose proof (Nat.div_mod_eq (j - lo) warp_size) as Hdm.
        replace j with (lo + n + (j - lo) / warp_size * warp_size) in *
          by (rewrite E in Hdm; lia).
        apply Hw'; assumption.
      * rewrite Hu'.
        -- apply Hw; [exact Hlo|exact Hj|lia|exact Hge|exact Hlt].
        -- intros k Hk.
           replace (first + (col_idxs !!! j - first)) with (col_idxs !!! j)
             by lia.
           apply columns_differ; [lia|exact Hk|exact Hlo|exact Hj|].
           intros Heq. apply Hne. rewrite <- Heq. apply Hthread.
    + intros q Hq. rewrite Hu'.
      * apply Hu. intros j Hlo Hj Hmod. apply Hq; [exact Hlo|exact Hj|lia].
      * intros k Hk. apply Hq; [lia|exact Hk|].
        rewrite Hthread. lia.
Qed.

End Row.

(** ** One row of one block *)

Section Block.

Variable max_block_size : nat.
Variable warp_size : nat.
Variables blockDim_x blockDim_y : nat.
Variables row_ptrs col_idxs : list nat.
Variable values : list Qc.
Variable increment : nat.

(** [cell] holds entry [(r, c)] of the matrix: the value that row [r]
    stores for column [c], and zero when it stores none. *)
Definition is_entry (cell : Qc) (r c : nat) : Prop :=
  (forall j, row_ptrs !!! r <= j -> j < row_ptrs !!! (r + 1) ->
     col_idxs !!! j = c -> cell = values !!! j) /\
  ((forall j, row_ptrs !!! r <= j -> j < row_ptrs !!! (r + 1) ->
      col_idxs !!! j <> c) -> cell = 0%Qc).

(** The subwarp [b] of the warp and its block, which starts at row and
    column [first] and has [size] rows. *)
Variable b : nat.
Variables first size : nat.

Hypothesis warp_size_pos : 0 < warp_size.
Hypothesis warp_threads : blockDim_x * blockDim_y = warp_size.
Hypothesis subwarp_of_warp : b < blockDim_y.
Hypothesis size_le_subwarp : size <= blockDim_x.
Hypothesis size_le_max : size <= max_block_size.
Hypothesis increment_pos : 0 < increment.
Hypothesis sorted : forall r j j', row_ptrs !!! r <= j -> j < j' ->
  j' < row_ptrs !!! (r + 1) -> col_idxs !!! j < col_idxs !!! j'.

Local Abbreviation threadIdx_x := (threadIdx_x blockDim_x).
Local Abbreviation threadIdx_y := (threadIdx_y blockDim_x).

Lemma thread_of_lane x :
  x < blockDim_x ->
  b * blockDim_x + x < blockDim_x * blockDim_y /\
  threadIdx_y (b * blockDim_x + x) = b /\
  threadIdx_x (b * blockDim_x + x) = x.
Proof.
  intros Hx. unfold DiagonalBlocks.threadIdx_x, DiagonalBlocks.threadIdx_y.
  split; [nia|]. split.
  - rewrite Nat.div_add_l by lia. rewrite Nat.div_small by exact Hx. lia.
  - rewrite Nat.add_comm, Nat.Div0.mod_add. apply Nat.mod_small. exact Hx.
Qed.

Lemma lane_of_thread tid :
  threadIdx_y tid = b -> tid = b * blockDim_x + threadIdx_x tid.
Proof.
  unfold DiagonalBlocks.threadIdx_x, DiagonalBlocks.threadIdx_y.
  intros <-. pose proof (Nat.div_mod_eq tid blockDim_x). lia.
Qed.

Lemma extract_row_spec i block_row workspace :
  i < size -> size <= length workspace ->
  blockDim_x * blockDim_y <= length block_row ->
  (forall x, x < size ->
     i * increment < length (block_row !!! (b * blockDim_x + x))) ->
  let st := extract_row max_block_size warp_size blockDim_x blockDim_y
              row_ptrs col_idxs values increment b i (Z.of_nat first)
              (Z.of_nat size) (block_row, workspace) in
  length st.1 = length block_row /\ length st.2 = length workspace /\
  (forall tid, length (st.1 !!! tid) = length (block_row !!! tid)) /\
  (forall x, x < size ->
     is_entry ((st.1 !!! (b * blockDim_x + x)) !!! (i * increment))
       (first + i) (first + x) /\
     forall q, q <> i * increment ->
       (st.1 !!! (b * blockDim_x + x)) !!! q =
       (block_row !!! (b * blockDim_x + x)) !!! q) /\
  (forall tid, (forall x, x < size -> tid <> b * blockDim_x + x) ->
     st.1 !!! tid = block_row !!! tid).
Proof.
  intros Hi Hws Hbr Hfit st. subst st. unfold extract_row, threads.
  cbn [fst snd].
  replace (Z.to_nat (Z.of_nat first + Z.of_nat i)) with (first + i) by lia.
  set (lo := row_ptrs !!! (first + i)).
  set (rend := row_ptrs !!! (first + i + 1)).
  (* the workspace is cleared *)
  destruct (foldl_update_own threadIdx_x
              (fun tid => (threadIdx_y tid =? b) &&
                          (threadIdx_x tid <? max_block_size))
              (fun _ _ => 0%Qc) workspace (blockDim_x * blockDim_y))
    as (L0 & Hw0 & _).
  { intros e e' _ _ He He' Heq.
    apply andb_true_iff in He as [He _], He' as [He' _].
    apply Nat.eqb_eq in He, He'.
    rewrite (lane_of_thread e He), (lane_of_thread e' He'), Heq.
    reflexivity. }
  set (cleared := foldl _ workspace (seq 0 (blockDim_x * blockDim_y))) in *.
  assert (Hzero : forall x, x < size -> cleared !!! x = 0%Qc).
  { intros x Hx.
    destruct (thread_of_lane x ltac:(lia)) as (Ht & Hy & Hxx).
    rewrite <- Hxx at 1. apply Hw0.
    - exact Ht.
    - rewrite Hy, Hxx, Nat.eqb_refl. simpl. apply Nat.ltb_lt. lia.
    - rewrite Hxx. lia. }
  (* the row is loaded *)
  destruct (load_threads warp_size col_idxs values lo rend first size
              warp_size_pos (sorted (first + i)) cleared
              (blockDim_x * blockDim_y) ltac:(lia)
              ltac:(rewrite L0; exact Hws)) as (L1 & Hw1 & Hu1).
  set (loaded := foldl _ cleared (seq 0 (blockDim_x * blockDim_y))) in *.
  assert (Hcell : forall x, x < size ->
            is_entry (loaded !!! x) (first + i) (first + x)).
  { intros x Hx. split.
    - intros j Hlo Hj Hcol. fold lo rend in Hlo, Hj.
      replace x with (col_idxs !!! j - first) by lia.
      apply Hw1; [exact Hlo|exact Hj| |lia|lia].
      rewrite warp_threads. apply Nat.mod_upper_bound. lia.
    - intros Hnone. rewrite Hu1; [apply Hzero; exact Hx|].
      intros j Hlo Hj _. apply Hnone; assumption. }
  (* the threads of the subwarp store their entries *)
  destruct (foldl_update_own (fun tid => tid)
              (fun tid => (threadIdx_y tid =? b) &&
                          (Z.of_nat (threadIdx_x tid) <? Z.of_nat size)%Z)
              (fun tid row => <[i * increment := loaded !!! threadIdx_x tid]> row)
              block_row (blockDim_x * blockDim_y))
    as (L2 & Hw2 & Hu2).
  { intros e e' _ _ _ _ Heq. exact Heq. }
  set (stored := foldl _ block_row (seq 0 (blockDim_x * blockDim_y))) in *.
  assert (Hlane : forall x, x < size ->
            stored !!! (b * blockDim_x + x) =
            <[i * increment := loaded !!! x]>
              (block_row !!! (b * blockDim_x + x))).
  { intros x Hx.
    destruct (thread_of_lane x ltac:(lia)) as (Ht & Hy & Hxx).
    rewrite Hw2; [rewrite Hxx; reflexivity|exact Ht| |lia].
    rewrite Hy, Hxx, Nat.eqb_refl. simpl. apply Z.ltb_lt. lia. }
  assert (Hother : forall tid,
            (forall x, x < size -> tid <> b * blockDim_x + x) ->
            stored !!! tid = block_row !!! tid).
  { intros tid Hne. apply Hu2. intros e _ He <-.
    apply andb_true_iff in He as [Hy Hx].
    apply Nat.eqb_eq in Hy. apply Z.ltb_lt in Hx.
    apply (Hne (threadIdx_x e)); [lia|].
    apply lane_of_thread. exact Hy. }
  split; [exact L2|]. split; [rewrite L1; exact L0|]. split; [|split].
  - intros tid.
    destruct (decide (threadIdx_y tid = b /\ threadIdx_x tid < size))
      as [[Hy Hx]|Hno].
    + rewrite (lane_of_thread tid Hy), (Hlane _ Hx). apply length_insert.
    + rewrite Hother; [reflexivity|].
      intros x Hx ->. apply Hno.
      destruct (thread_of_lane x ltac:(lia)) as (_ & Hy & Hxx).
      rewrite Hy, Hxx. auto.
  - intros x Hx. rewrite (Hlane x Hx). split.
    + rewrite list_lookup_total_insert_eq by (apply Hfit; exact Hx).
      apply Hcell. exact Hx.
    + intros q Hq. apply list_lookup_total_insert_ne. congruence.
  - exact Hother.
Qed.

(** The loop over [i], up to [n]. *)
Lemma extract_rows block_row workspace n :
  size <= length workspace ->
  blockDim_x * blockDim_y <= length block_row ->
  (forall x i, x < size -> i < size ->
     i * increment < length (block_row !!! (b * blockDim_x + x))) ->
  let st :=
    foldl (fun mem i =>
             if (Z.of_nat i <? Z.of_nat size)%Z
             then extract_row max_block_size warp_size blockDim_x blockDim_y
                    row_ptrs col_idxs values increment b i (Z.of_nat first)
                    (Z.of_nat size) mem
             else mem) (block_row, workspace) (seq 0 n) in
  length st.1 = length block_row /\ length st.2 = length workspace /\
  (forall tid, length (st.1 !!! tid) = length (block_row !!! tid)) /\
  (forall x i, x < size -> i < size -> i < n ->
     is_entry ((st.1 !!! (b * blockDim_x + x)) !!! (i * increment))
       (first + i) (first + x)) /\
  (forall tid, (forall x, x < size -> tid <> b * blockDim_x + x) ->
     st.1 !!! tid = block_row !!! tid).
Proof.
  intros Hws Hbr Hfit. induction n as [|n IH]; intros st; subst st.
  - cbn [seq foldl fst snd]. repeat split; try reflexivity.
    + intros j _ _ _. lia.
    + intros _. lia.
  - rewrite seq_S, foldl_app. cbn [foldl Nat.add].
    destruct IH as (L1 & L2 & Lr & Hent & Hframe).
    set (prev := foldl _ (block_row, workspace) (seq 0 n)) in *.
    destruct (Z.ltb_spec (Z.of_nat n) (Z.of_nat size)) as [Hn|Hn].
    + destruct prev as [br ws] eqn:Eprev. cbn [fst snd] in *.
      destruct (extract_row_spec n br ws ltac:(lia) ltac:(lia) ltac:(lia))
        as (L1' & L2' & Lr' & Hent' & Hframe').
      { intros x Hx. rewrite Lr. apply Hfit; [exact Hx|lia]. }
      split; [lia|]. split; [lia|]. split; [|split].
      * intros tid. rewrite Lr'. apply Lr.
      * intros x i Hx Hi Hin. destruct (Hent' x Hx) as [Hnew Hold].
        destruct (decide (i = n)) as [->|Hne]; [exact Hnew|].
        rewrite Hold by nia. apply Hent; [exact Hx|exact Hi|lia].
      * intros tid Hne. rewrite Hframe' by exact Hne. apply Hframe.
        exact Hne.
    + split; [exact L1|]. split; [exact L2|]. split; [exact Lr|].
      split; [|exact Hframe].
      intros x i Hx Hi Hin. apply Hent; [exact Hx|exact Hi|lia].
Qed.

End Block.

(** ** The blocks of a warp *)

Section Warp.

Variable max_block_size : nat.
Variable warp_size : nat.
Variables blockDim_x blockDim_y : nat.
Variables row_ptrs col_idxs : list nat.
Variable values : list Qc.
Variable block_ptrs : list nat.
Variable num_blocks : nat.
Variable increment : nat.
Variable bid0 processed_blocks : nat.
Variable block_row : list (list Qc).
Variable workspace : list Qc.

Local Abbreviation block_start b := (block_ptrs !!! (bid0 + b)).
Local Abbreviation block_size b :=
  (block_ptrs !!! (bid0 + b + 1) - block_ptrs !!! (bid0 + b)).

Hypothesis warp_size_pos : 0 < warp_size.
Hypothesis warp_threads : blockDim_x * blockDim_y = warp_size.
Hypothesis subwarps : processed_blocks <= blockDim_y.
Hypothesis increment_pos : 0 < increment.
Hypothesis sorted : forall r j j', row_ptrs !!! r <= j -> j < j' ->
  j' < row_ptrs !!! (r + 1) -> col_idxs !!! j < col_idxs !!! j'.
Hypothesis blocks_fit : forall b, b < processed_blocks ->
  bid0 + b < num_blocks ->
  block_ptrs !!! (bid0 + b) <= block_ptrs !!! (bid0 + b + 1) /\
  block_size b <= blockDim_x /\ block_size b <= max_block_size.
Hypothesis workspace_fits : max_block_size <= length workspace.
Hypothesis threads_fit : blockDim_x * blockDim_y <= length block_row.
Hypothesis rows_fit : forall tid i, tid < blockDim_x * blockDim_y ->
  i < max_block_size -> i * increment < length (block_row !!! tid).

Lemma extract_blocks n :
  n <= processed_blocks ->
  let st :=
    foldl (extract_block max_block_size warp_size blockDim_x blockDim_y
             row_ptrs col_idxs values block_ptrs num_blocks increment bid0)
          (if bid0 <? num_blocks then Z.of_nat (block_ptrs !!! bid0) else 0%Z,
           0%Z, (block_row, workspace)) (seq 0 n) in
  (bid0 < num_blocks ->
   (st.1.1 + st.1.2)%Z =
   Z.of_nat (block_ptrs !!! (bid0 + Nat.min n (num_blocks - bid0)))) /\
  length st.2.1 = length block_row /\ length st.2.2 = length workspace /\
  (forall tid, length (st.2.1 !!! tid) = length (block_row !!! tid)) /\
  (forall b x i, b < n -> bid0 + b < num_blocks ->
     x < block_size b -> i < block_size b ->
     is_entry row_ptrs col_idxs values
       ((st.2.1 !!! (b * blockDim_x + x)) !!! (i * increment))
       (block_start b + i) (block_start b + x)) /\
  (forall tid,
     (forall b x, b < n -> bid0 + b < num_blocks -> x < block_size b ->
        tid <> b * blockDim_x + x) ->
     st.2.1 !!! tid = block_row !!! tid).
Proof.
  induction n as [|n IH]; intros Hn st; subst st.
  - cbn [seq foldl fst snd]. split.
    { intros Hlt. destruct (Nat.ltb_spec bid0 num_blocks); [|lia].
      rewrite Nat.min_0_l, Nat.add_0_r. lia. }
    split; [reflexivity|]. split; [reflexivity|]. split; [reflexivity|].
    split; [|reflexivity]. intros b x i Hb. lia.
  - rewrite seq_S, foldl_app. cbn [foldl Nat.add].
    destruct (IH ltac:(lia)) as (Hsum & L1 & L2 & Lr & Hent & Hframe).
    clear IH.
    set (prev := foldl _ _ (seq 0 n)) in *.
    destruct prev as [[bstart bsize] [br ws]]. cbn [fst snd] in *.
    unfold extract_block.
    destruct (Nat.ltb_spec (bid0 + n) num_blocks) as [Hreal|Hpast].
    + destruct (blocks_fit n ltac:(lia) Hreal) as (Hmono & Hsx & Hsm).
      specialize (Hsum ltac:(lia)).
      replace (Nat.min n (num_blocks - bid0)) with n in Hsum by lia.
      rewrite Hsum.
      replace (Z.of_nat (block_ptrs !!! (bid0 + n + 1)%nat) -
               Z.of_nat (block_ptrs !!! (bid0 + n)%nat))%Z
        with (Z.of_nat (block_size n)) by lia.
      destruct (extract_rows max_block_size warp_size blockDim_x blockDim_y
                  row_ptrs col_idxs values increment n (block_start n)
                  (block_size n) warp_size_pos warp_threads ltac:(lia) Hsx Hsm
                  increment_pos sorted br ws max_block_size)
        as (L1' & L2' & Lr' & Hent' & Hframe').
      { lia. }
      { lia. }
      { intros x i Hx Hi. rewrite Lr. apply rows_fit; [nia|lia]. }
      set (next := foldl _ (br, ws) (seq 0 max_block_size)) in *.
      cbn [fst snd]. split; [|split; [|split; [|split; [|split]]]].
      * intros _. replace (Nat.min (S n) (num_blocks - bid0)) with (S n)
          by lia.
        replace (bid0 + S n) with (bid0 + n + 1) by lia. lia.
      * lia.
      * lia.
      * intros tid. rewrite Lr'. apply Lr.
      * intros b x i Hb Hbid Hx Hi.
        destruct (decide (b = n)) as [->|Hne].
        -- apply Hent'; [exact Hx|exact Hi|lia].
        -- destruct (blocks_fit b ltac:(lia) Hbid) as (_ & Hbx & _).
           rewrite Hframe'.
           ++ apply Hent; [lia|exact Hbid|exact Hx|exact Hi].
           ++ intros x' Hx'. nia.
      * intros tid Hne. rewrite Hframe'.
        -- apply Hframe. intros b x Hb Hbid Hx.
           apply Hne; [lia|exact Hbid|exact Hx].
        -- intros x Hx. apply Hne; [lia|exact Hreal|exact Hx].
    + cbn [fst snd]. split; [|split; [|split; [|split; [|split]]]].
      * intros Hlt. rewrite (Hsum Hlt). do 2 f_equal. lia.
      * exact L1.
      * exact L2.
      * exact Lr.
      * intros b x i Hb Hbid. apply Hent; [lia|exact Hbid].
      * intros tid Hne. apply Hframe. intros b x Hb Hbid Hx.
        apply Hne; [lia|exact Hbid|exact Hx].
Qed.

End Warp.

(** [X19]. [extract_transposed_diag_blocks], for a warp of
    [blockDim.x * blockDim.y] threads whose subwarps each take one of the
    blocks [bid0], [bid0 + 1], ..., on a matrix with strictly increasing
    column indices in every row and blocks that fit a subwarp: thread
    [threadIdx.x = x] of subwarp [threadIdx.y = b] ends with entry
    [(first + i, first + x)] of the matrix in [block_row[i * increment]],
    for the rows and columns [first .. first + size - 1] of its block, and
    with zero where the matrix stores nothing: it holds column [x] of the
    diagonal block.  The registers of the other threads are left as they
    were. *)
Theorem extract_transposed_diag_blocks_entries
    (max_block_size warp_size blockDim_x blockDim_y : nat)
    (row_ptrs col_idxs : list nat) (values : list Qc)
    (block_ptrs : list nat) (num_blocks : nat)
    (warps_per_block blockIdx_x threadIdx_z processed_blocks : nat)
    (block_row : list (list Qc)) (increment : nat) (workspace : list Qc) :
  let bid0 := blockIdx_x * warps_per_block * processed_blocks +
              threadIdx_z * processed_blocks in
  let first b := block_ptrs !!! (bid0 + b) in
  let size b := block_ptrs !!! (bid0 + b + 1) - block_ptrs !!! (bid0 + b) in
  0 < warp_size ->
  blockDim_x * blockDim_y = warp_size ->
  processed_blocks <= blockDim_y ->
  0 < increment ->
  (forall r j j', row_ptrs !!! r <= j -> j < j' ->
     j' < row_ptrs !!! (r + 1) -> col_idxs !!! j < col_idxs !!! j') ->
  (forall b, b < processed_blocks -> bid0 + b < num_blocks ->
     block_ptrs !!! (bid0 + b) <= block_ptrs !!! (bid0 + b + 1) /\
     size b <= blockDim_x /\ size b <= max_block_size) ->
  max_block_size <= length workspace ->
  blockDim_x * blockDim_y <= length block_row ->
  (forall tid i, tid < blockDim_x * blockDim_y -> i < max_block_size ->
     i * increment < length (block_row !!! tid)) ->
  let out := extract_transposed_diag_blocks max_block_size warp_size
               blockDim_x blockDim_y row_ptrs col_idxs values block_ptrs
               num_blocks warps_per_block blockIdx_x threadIdx_z
               processed_blocks block_row increment workspace in
  length out.1 = length block_row /\
  (forall b x i, b < processed_blocks -> bid0 + b < num_blocks ->
     x < size b -> i < size b ->
     is_entry row_ptrs col_idxs values
       ((out.1 !!! (b * blockDim_x + x)) !!! (i * increment))
       (first b + i) (first b + x)) /\
  (forall tid,
     (forall b x, b < processed_blocks -> bid0 + b < num_blocks ->
        x < size b -> tid <> b * blockDim_x + x) ->
     out.1 !!! tid = block_row !!! tid).
Proof.
  intros bid0 first size Hpos Hthreads Hsub Hinc Hsorted Hblocks Hws Hbr
         Hrows out.
  destruct (extract_blocks max_block_size warp_size blockDim_x blockDim_y
              row_ptrs col_idxs values block_ptrs num_blocks increment bid0
              processed_blocks block_row workspace Hpos Hthreads Hsub Hinc
              Hsorted Hblocks Hws Hbr Hrows processed_blocks (le_n _))
    as (_ & L & _ & _ & Hent & Hframe).
  split; [exact L|]. split; [exact Hent|exact Hframe].
Qed.

(** ** A matrix with two diagonal blocks

    The rows are [1 2 .], [. 3 .], [4 . 5]; the blocks are rows 0-1 and
    row 2. *)
Lemma extract_transposed_diag_blocks_entries_witness :
  let out := extract_transposed_diag_blocks 2 4 2 2 [0; 2; 3; 5]
               [0; 1; 1; 0; 2] [1; 2; 1; 2; 1]%Qc [0; 2; 3] 2 1 0 0 2
               (replicate 4 [0; 0]%Qc) 1 [0; 0]%Qc in
  length out.1 = 4 /\
  (forall b x i, b < 2 -> 0 + b < 2 ->
     x < [0; 2; 3] !!! (0 + b + 1) - [0; 2; 3] !!! (0 + b) ->
     i < [0; 2; 3] !!! (0 + b + 1) - [0; 2; 3] !!! (0 + b) ->
     is_entry [0; 2; 3; 5] [0; 1; 1; 0; 2] [1; 2; 1; 2; 1]%Qc
       ((out.1 !!! (b * 2 + x)) !!! (i * 1))
       ([0; 2; 3] !!! (0 + b) + i) ([0; 2; 3] !!! (0 + b) + x)) /\
  (forall tid,
     (forall b x, b < 2 -> 0 + b < 2 ->
        x < [0; 2; 3] !!! (0 + b + 1) - [0; 2; 3] !!! (0 + b) ->
        tid <> b * 2 + x) ->
     out.1 !!! tid = replicate 4 [0; 0]%Qc !!! tid).
Proof.
  apply (extract_transposed_diag_blocks_entries 2 4 2 2 [0; 2; 3; 5]
           [0; 1; 1; 0; 2] [1; 2; 1; 2; 1]%Qc [0; 2; 3] 2 1 0 0 2
           (replicate 4 [0; 0]%Qc) 1 [0; 0]%Qc).
  - lia.
  - reflexivity.
  - lia.
  - lia.
  - intros r j j'. rewrite Nat.add_1_r.
    destruct r as [|[|[|r]]]; simpl;
      [| | |replace (([] : list nat) !!! r) with 0
              by (destruct r; reflexivity)];
      intros Hlo Hlt Hhi; try lia;
      destruct j as [|[|[|[|j]]]]; try lia;
      destruct j' as [|[|[|[|[|j']]]]]; simpl; lia.
  - intros b. rewrite Nat.add_1_r.
    destruct b as [|[|b]]; simpl; intros; lia.
  - simpl. lia.
  - simpl. lia.
  - intros tid i Htid Hi.
    destruct tid as [|[|[|[|tid]]]]; simpl in *; lia.
Defined.

End DiagonalBlocks.

(** * Block-Jacobi: applying the stored blocks
    (common/cuda_hip/preconditioner/jacobi_simple_apply_kernel.hpp.inc) *)

Module JacobiKernels.
Import WarpBlas WarpBlasOps Loops.

Section Kernels.

Variable max_block_size : nat.
Variable subwarp_size : nat.

(** Modelled from the spec: the [block_interleaved_storage_scheme], which
    is not among the sources; [get_global_block_offset(block_id)] is where
    the block starts in the array of the blocks, [get_stride()] the
    distance between two of its columns. *)
Variable get_global_block_offset : nat -> nat.
Variable get_stride : nat.

(** [apply], the subwarp of block [block_id]: the vector [x] afterwards. *)
Definition apply (blocks : list Qc) (block_ptrs : list nat)
    (num_blocks block_id : nat) (b : list Qc) (b_stride : nat)
    (x : list Qc) (x_stride : nat) : list Qc :=
  if num_blocks <=? block_id then x
  else
    let block_size := block_ptrs !!! (block_id + 1) - block_ptrs !!! block_id in
    let v :=
      map (fun thread_rank =>
             if thread_rank <? block_size
             then b !!! ((block_ptrs !!! block_id + thread_rank) * b_stride)
             else 0%Qc)
          (seq 0 subwarp_size) in
    let mtx_row :=
      map (fun thread_rank =>
             drop (get_global_block_offset block_id + thread_rank) blocks)
          (seq 0 subwarp_size) in
    let offset := block_ptrs !!! block_id * x_stride in
    take offset x ++
    multiply_vec max_block_size (fun val => val) block_size v mtx_row
      get_stride (drop offset x) x_stride (fun result out => out).

End Kernels.

(** ** Writes through a pointer *)

Lemma lookup_total_behind {A} `{!Inhabited A} (l tail : list A) offset q :
  offset <= length l -> length tail = length l - offset ->
  (take offset l ++ tail) !!! q =
  if q <? offset then l !!! q else tail !!! (q - offset).
Proof.
  intros Hoff Hlen. destruct (Nat.ltb_spec q offset) as [Hq|Hq].
  - rewrite lookup_total_app_l by (rewrite length_take; lia).
    rewrite lookup_total_take. destruct (decide (q < offset)); [reflexivity|lia].
  - rewrite lookup_total_app_r by (rewrite length_take; lia).
    rewrite length_take. f_equal. lia.
Qed.

(** The part of [x] that [apply] computes. *)
Lemma apply_writes (max_block_size subwarp_size : nat)
    (get_global_block_offset : nat -> nat) (get_stride : nat)
    (blocks : list Qc) (block_ptrs : list nat) (num_blocks block_id : nat)
    (b : list Qc) (b_stride : nat) (x : list Qc) (x_stride : nat) :
  let block_size := block_ptrs !!! (block_id + 1) - block_ptrs !!! block_id in
  let offset := get_global_block_offset block_id in
  let first := block_ptrs !!! block_id in
  block_id < num_blocks ->
  block_size <= max_block_size ->
  block_size <= subwarp_size ->
  0 < x_stride ->
  (forall t, t < block_size -> (first + t) * x_stride < length x) ->
  let out := apply max_block_size subwarp_size get_global_block_offset
               get_stride blocks block_ptrs num_blocks block_id b b_stride x
               x_stride in
  length out = length x /\
  (forall t, t < block_size ->
     out !!! ((first + t) * x_stride) =
     sum_upto block_size
       (fun i => (blocks !!! (offset + t + i * get_stride)%nat *
                  b !!! ((first + i) * b_stride)%nat)%Qc)) /\
  (forall q, (forall t, t < block_size -> q <> (first + t) * x_stride) ->
     out !!! q = x !!! q).
Proof.
  intros block_size offset first Hid Hmax Hsub Hinc Hfit out.
  unfold out, apply.
  destruct (Nat.leb_spec num_blocks block_id) as [|_]; [lia|]. cbn zeta.
  fold block_size offset first.
  set (v := map _ (seq 0 subwarp_size)).
  set (mtx_row := map _ (seq 0 subwarp_size)).
  assert (Lv : length v = subwarp_size)
    by (unfold v; rewrite length_map, length_seq; reflexivity).
  destruct (decide (block_size = 0)) as [Hz|Hnz].
  { destruct (multiply_vec_writes max_block_size (fun val => val) block_size
                v mtx_row get_stride (drop (first * x_stride) x) x_stride
                (fun result out => out)) as (_ & _ & _ & E);
      try lia; try (intros; lia).
    rewrite (E Hz), take_drop.
    split; [reflexivity|]. split; [intros; lia|reflexivity]. }
  assert (Hoff : first * x_stride < length x).
  { pose proof (Hfit 0 ltac:(lia)) as H0. rewrite Nat.add_0_r in H0. exact H0. }
  destruct (multiply_vec_writes max_block_size (fun val => val) block_size
              v mtx_row get_stride (drop (first * x_stride) x) x_stride
              (fun result out => out)) as (L & Hw & Hu & _).
  - exact Hmax.
  - lia.
  - exact Hinc.
  - intros t Ht. rewrite length_drop. pose proof (Hfit t Ht). nia.
  - set (res := multiply_vec _ _ _ _ _ _ _ _ _) in *.
    assert (Lr : length res = length x - first * x_stride)
      by (rewrite L, length_drop; reflexivity).
    split; [rewrite length_app, length_take, Lr; lia|]. split.
    + intros t Ht.
      rewrite lookup_total_behind by (try exact Lr; lia).
      destruct (Nat.ltb_spec ((first + t) * x_stride) (first * x_stride));
        [nia|].
      replace ((first + t) * x_stride - first * x_stride)
        with (t * x_stride) by nia.
      rewrite Hw by exact Ht. apply sum_upto_ext. intros i Hi.
      f_equal.
      * unfold mtx_row.
        rewrite (list_lookup_total_fmap _ (seq 0 subwarp_size))
          by (rewrite length_seq; lia).
        rewrite lookup_total_seq_lt by lia. cbn [Nat.add].
        rewrite lookup_total_drop. reflexivity.
      * unfold v.
        rewrite (list_lookup_total_fmap _ (seq 0 subwarp_size))
          by (rewrite length_seq; lia).
        rewrite lookup_total_seq_lt by lia. cbn [Nat.add].
        destruct (Nat.ltb_spec i block_size); [reflexivity|lia].
    + intros q Hq.
      rewrite lookup_total_behind by (try exact Lr; lia).
      destruct (Nat.ltb_spec q (first * x_stride)) as [Hlt|Hge];
        [reflexivity|].
      rewrite Hu.
      * rewrite lookup_total_drop. f_equal. lia.
      * intros t Ht Heq. apply (Hq t Ht). nia.
Qed.

(** [X9].  [apply] for block [block_id]: entry [t] of the block's part of
    [x] becomes [sum_i blocks[offset + t + i * stride] * b_i], the product
    of the stored block, read column by column, with the block's part of
    [b]; the rest of [x] is left as it was. *)
Theorem apply_multiplies (max_block_size subwarp_size : nat)
    (get_global_block_offset : nat -> nat) (get_stride : nat)
    (blocks : list Qc) (block_ptrs : list nat) (num_blocks block_id : nat)
    (b : list Qc) (b_stride : nat) (x : list Qc) (x_stride : nat) :
  let block_size := block_ptrs !!! (block_id + 1) - block_ptrs !!! block_id in
  let offset := get_global_block_offset block_id in
  let first := block_ptrs !!! block_id in
  block_id < num_blocks ->
  block_size <= max_block_size ->
  block_size <= subwarp_size ->
  0 < x_stride ->
  (forall t, t < block_size -> (first + t) * x_stride < length x) ->
  let out := apply max_block_size subwarp_size get_global_block_offset
               get_stride blocks block_ptrs num_blocks block_id b b_stride x
               x_stride in
  length out = length x /\
  (forall t, t < block_size ->
     out !!! ((first + t) * x_stride) =
     sum_upto block_size
       (fun i => (blocks !!! (offset + t + i * get_stride)%nat *
                  b !!! ((first + i) * b_stride)%nat)%Qc)) /\
  (forall q, (forall t, t < block_size -> q <> (first + t) * x_stride) ->
     out !!! q = x !!! q).
Proof.
  exact (apply_writes max_block_size subwarp_size get_global_block_offset get_stride blocks block_ptrs num_blocks block_id b b_stride x x_stride).
Qed.

Lemma apply_multiplies_witness :
  let out := apply 2 2 (fun _ => 1) 2 [0; 1; - 1; - 1; 2; 0]%Qc [0; 2] 1 0
               [1; 2]%Qc 1 [0; 0]%Qc 1 in
  length out = 2 /\
  (forall t, t < 2 ->
     out !!! ((0 + t) * 1) =
     sum_upto 2
       (fun i => ([0; 1; - 1; - 1; 2; 0]%Qc !!! (1 + t + i * 2)%nat *
                  [1; 2]%Qc !!! ((0 + i) * 1)%nat)%Qc)) /\
  (forall q, (forall t, t < 2 -> q <> (0 + t) * 1) ->
     out !!! q = [0; 0]%Qc !!! q).
Proof.
  apply (apply_multiplies 2 2 (fun _ => 1) 2 [0; 1; - 1; - 1; 2; 0]%Qc [0; 2] 1
           0 [1; 2]%Qc 1 [0; 0]%Qc 1);
    [lia | simpl; lia | simpl; lia | lia |].
  simpl. intros t Ht. lia.
Defined.

End JacobiKernels.

(** * Symbolic Cholesky: the postorder columns, the counts and the forest
    (common/cuda_hip/factorization/cholesky_kernels.hpp.inc) *)

Module CholeskyKernels.
Import Cholesky Cholesky.kernel Loops.

(** [build_postorder_cols], the thread of [row]: the arrays
    [postorder_cols] and [lower_ends] afterwards. *)
Definition build_postorder_cols_thread (num_rows : nat)
    (cols row_ptrs inv_postorder : list nat) (st : list nat * list nat)
    (row : nat) : list nat * list nat :=
  if num_rows <=? row then st
  else
    let row_begin := row_ptrs !!! row in
    let row_end := row_ptrs !!! (row + 1) in
    let lower :=
      foldl (fun (acc : list nat * nat) nz =>
               let col := cols !!! nz in
               if col <? row
               then (<[acc.2 := inv_postorder !!! (cols !!! nz)]> acc.1,
                     acc.2 + 1)
               else acc)
            (st.1, row_begin) (seq row_begin (row_end - row_begin)) in
    let lower_end := lower.2 in
    (foldl (fun postorder_cols nz => <[nz := num_rows - 1]> postorder_cols)
           lower.1 (seq lower_end (row_end - lower_end)),
     <[row := lower_end]> st.2).

(** [build_postorder_cols] on a grid of [num_threads] threads, thread
    [row] for row [row]. *)
Definition build_postorder_cols (num_threads num_rows : nat)
    (cols row_ptrs inv_postorder postorder_cols lower_ends : list nat)
  : list nat * list nat :=
  foldl (build_postorder_cols_thread num_rows cols row_ptrs inv_postorder)
        (postorder_cols, lower_ends) (seq 0 num_threads).

(** The column indices of a row that lie below the diagonal, in the order
    of the row. *)
Definition lower_cols (cols row_ptrs : list nat) (row : nat) : list nat :=
  filter (fun col => col < row)
         (map (fun nz => cols !!! nz)
              (seq (row_ptrs !!! row)
                   (row_ptrs !!! (row + 1) - row_ptrs !!! row))).

(** The node reached from [node] by [k] parent links. *)
Definition ancestor (parents : list nat) (k node : nat) : nat :=
  Nat.iter k (fun v => parents !!! v) node.

(** ** The forest *)

Lemma parent_of_above (m : csr) (j : nat) :
  j < parent_of m j \/ parent_of m j = get_size m.
Proof.
  unfold parent_of.
  destruct (first_above_spec (get_const_col_idxs m) (get_size m) j
              (get_const_row_ptrs m !!! S j - get_const_row_ptrs m !!! j)
              (get_const_row_ptrs m !!! j)) as [[E _]|(k & _ & _ & Hlt & _)].
  - right. exact E.
  - left. exact Hlt.
Qed.

Lemma parent_of_range (m : csr) (j : nat) :
  Forall (fun col => col < get_size m) (get_const_col_idxs m) ->
  parent_of m j <= get_size m.
Proof.
  intros Hcols. unfold parent_of.
  destruct (first_above_spec (get_const_col_idxs m) (get_size m) j
              (get_const_row_ptrs m !!! S j - get_const_row_ptrs m !!! j)
              (get_const_row_ptrs m !!! j)) as [[E _]|(k & _ & E & _ & _)].
  - rewrite E. lia.
  - rewrite E.
    destruct (decide (k < length (get_const_col_idxs m))) as [Hk|Hk].
    + pose proof (Forall_lookup_total_1 (fun col => col < get_size m)
                    (get_const_col_idxs m) k Hcols Hk). simpl in *. lia.
    + rewrite list_lookup_total_alt, lookup_ge_None_2 by lia. simpl.
      unfold inhabitant. simpl. lia.
Qed.

(** [X13].  [forest_from_factor], whatever the order of the columns in
    the rows: with column indices below [num_rows], the parent of every
    node lies above the node and is at most the pseudo-root [num_rows], so
    following the parents from any node reaches the pseudo-root, after at
    most [num_rows - node] links: the parents form a forest. *)
Theorem forest_from_factor_forest (m : csr) :
  Forall (fun col => col < get_size m) (get_const_col_idxs m) ->
  let parents := forest_from_factor m in
  length parents = get_size m /\
  (forall j, j < get_size m -> j < parents !!! j <= get_size m) /\
  (forall j, j < get_size m ->
     exists k, 0 < k <= get_size m - j /\
       ancestor parents k j = get_size m /\
       forall k', k' < k -> ancestor parents k' j < get_size m).
Proof.
  intros Hcols parents.
  assert (Hlen : length parents = get_size m).
  { unfold parents, forest_from_factor. rewrite length_map, length_seq.
    reflexivity. }
  assert (Hpar : forall j, j < get_size m -> j < parents !!! j <= get_size m).
  { intros j Hj. unfold parents. rewrite forest_from_factor_lookup by exact Hj.
    pose proof (parent_of_range m j Hcols).
    destruct (parent_of_above m j); lia. }
  split; [exact Hlen|]. split; [exact Hpar|].
  assert (Hchain : forall d j, get_size m - j <= d -> j < get_size m ->
            exists k, 0 < k <= get_size m - j /\
              ancestor parents k j = get_size m /\
              forall k', k' < k -> ancestor parents k' j < get_size m).
  { induction d as [|d IH]; intros j Hd Hj; [lia|].
    pose proof (Hpar j Hj) as Hp.
    assert (Hshift : forall k, ancestor parents (S k) j =
                               ancestor parents k (parents !!! j)).
    { intros k. unfold ancestor. induction k as [|k IHk]; [reflexivity|].
      simpl in *. rewrite IHk. reflexivity. }
    destruct (decide (parents !!! j = get_size m)) as [E|Hne].
    - exists 1. split; [lia|]. split; [exact E|].
      intros k' Hk'. replace k' with 0 by lia. exact Hj.
    - destruct (IH (parents !!! j) ltac:(lia) ltac:(lia))
        as (k & Hk & Hroot & Hbelow).
      exists (S k). split; [lia|]. split; [rewrite Hshift; exact Hroot|].
      intros [|k'] Hk'; [exact Hj|].
      rewrite Hshift. apply Hbelow. lia. }
  intros j Hj. apply (Hchain (get_size m - j)); [lia|exact Hj].
Qed.

Lemma forest_from_factor_forest_witness :
  let parents := forest_from_factor scenario_sym_diag in
  length parents = get_size scenario_sym_diag /\
  (forall j, j < get_size scenario_sym_diag ->
     j < parents !!! j <= get_size scenario_sym_diag) /\
  (forall j, j < get_size scenario_sym_diag ->
     exists k, 0 < k <= get_size scenario_sym_diag - j /\
       ancestor parents k j = get_size scenario_sym_diag /\
       forall k', k' < k ->
         ancestor parents k' j < get_size scenario_sym_diag).
Proof.
  apply (forest_from_factor_forest scenario_sym_diag).
  vm_compute. repeat constructor.
Defined.

(** ** The postorder columns *)

(** The first loop of a thread of [build_postorder_cols], over the first
    [m] entries of the row. *)
Lemma lower_loop (cols inv_postorder : list nat) (row : nat)
    (postorder_cols : list nat) (row_begin m : nat) :
  let acc :=
    foldl (fun (acc : list nat * nat) nz =>
             let col := cols !!! nz in
             if col <? row
             then (<[acc.2 := inv_postorder !!! (cols !!! nz)]> acc.1,
                   acc.2 + 1)
             else acc)
          (postorder_cols, row_begin) (seq row_begin m) in
  let lower := filter (fun col => col < row)
                 (map (fun nz => cols !!! nz) (seq row_begin m)) in
  acc.2 = row_begin + length lower /\
  length lower <= m /\
  length acc.1 = length postorder_cols /\
  (forall k, k < length lower -> row_begin + k < length postorder_cols ->
     acc.1 !!! (row_begin + k) = inv_postorder !!! (lower !!! k)) /\
  (forall q, ~ (row_begin <= q < row_begin + length lower) ->
     acc.1 !!! q = postorder_cols !!! q).
Proof.
  induction m as [|m IH]; intros acc lower; subst acc lower.
  - cbn [seq foldl map fst snd]. rewrite filter_nil. simpl.
    split; [lia|]. split; [lia|]. split; [reflexivity|].
    split; [intros; lia|reflexivity].
  - rewrite seq_S, foldl_app, map_app, filter_app. cbn [foldl map].
    destruct IH as (E & Hle & L & Hw & Hu).
    set (prev := foldl _ (postorder_cols, row_begin) (seq row_begin m)) in *.
    set (lower := filter _ (map _ (seq row_begin m))) in *.
    cbn zeta.
    destruct (Nat.ltb_spec (cols !!! (row_begin + m)) row) as [Hlt|Hge].
    + rewrite filter_cons_True by exact Hlt. rewrite filter_nil.
      cbn [fst snd]. rewrite length_app. cbn [length].
      split; [lia|]. split; [lia|].
      split; [rewrite length_insert; exact L|]. split.
      * intros k Hk Hlen. destruct (decide (k = length lower)) as [->|Hne].
        -- rewrite E, list_lookup_total_insert_eq by lia.
           rewrite lookup_total_app_r by lia.
           rewrite Nat.sub_diag. reflexivity.
        -- rewrite list_lookup_total_insert_ne by lia.
           rewrite lookup_total_app_l by lia.
           apply Hw; lia.
      * intros q Hq. rewrite list_lookup_total_insert_ne by lia.
        apply Hu. lia.
    + rewrite filter_cons_False by lia. rewrite filter_nil, app_nil_r.
      split; [exact E|]. split; [lia|]. split; [exact L|].
      split; [exact Hw|exact Hu].
Qed.

(** The second loop: [postorder_cols[nz] = num_rows - 1] from [lower_end]
    to the end of the row. *)
Lemma sentinel_loop (postorder_cols : list nat) (first count value : nat) :
  let out := foldl (fun postorder_cols nz => <[nz := value]> postorder_cols)
                   postorder_cols (seq first count) in
  length out = length postorder_cols /\
  (forall q, first <= q < first + count -> q < length postorder_cols ->
     out !!! q = value) /\
  (forall q, ~ (first <= q < first + count) ->
     out !!! q = postorder_cols !!! q).
Proof.
  induction count as [|count IH]; intros out; subst out.
  - cbn [seq foldl]. split; [reflexivity|]. split; [intros; lia|reflexivity].
  - rewrite seq_S, foldl_app. cbn [foldl].
    destruct IH as (L & Hw & Hu).
    split; [rewrite length_insert; exact L|]. split.
    + intros q Hq Hlen. destruct (decide (q = first + count)) as [->|Hne].
      * apply list_lookup_total_insert_eq. lia.
      * rewrite list_lookup_total_insert_ne by lia. apply Hw; lia.
    + intros q Hq. rewrite list_lookup_total_insert_ne by lia.
      apply Hu. lia.
Qed.

Section PostorderCols.

Variable num_rows : nat.
Variables cols row_ptrs inv_postorder : list nat.

Local Abbreviation lower row := (lower_cols cols row_ptrs row).

(** What the thread of [row] leaves in a row that fits the array. *)
Lemma build_postorder_cols_row (st : list nat * list nat) (row : nat) :
  row < num_rows ->
  row_ptrs !!! row <= row_ptrs !!! (row + 1) ->
  row_ptrs !!! (row + 1) <= length st.1 ->
  row < length st.2 ->
  let st' := build_postorder_cols_thread num_rows cols row_ptrs inv_postorder
               st row in
  length st'.1 = length st.1 /\ length st'.2 = length st.2 /\
  st'.2 !!! row = row_ptrs !!! row + length (lower row) /\
  st'.2 !!! row <= row_ptrs !!! (row + 1) /\
  (forall k, k < length (lower row) ->
     st'.1 !!! (row_ptrs !!! row + k) = inv_postorder !!! (lower row !!! k)) /\
  (forall nz, st'.2 !!! row <= nz < row_ptrs !!! (row + 1) ->
     st'.1 !!! nz = num_rows - 1) /\
  (forall nz, ~ (row_ptrs !!! row <= nz < row_ptrs !!! (row + 1)) ->
     st'.1 !!! nz = st.1 !!! nz) /\
  (forall r, r <> row -> st'.2 !!! r = st.2 !!! r).
Proof.
  intros Hrow Hmono Hfit Hlen st'. subst st'.
  unfold build_postorder_cols_thread.
  destruct (Nat.leb_spec num_rows row) as [|_]; [lia|]. cbn zeta.
  destruct (lower_loop cols inv_postorder row st.1 (row_ptrs !!! row)
              (row_ptrs !!! (row + 1) - row_ptrs !!! row))
    as (E & Hle & L & Hw & Hu).
  fold (lower_cols cols row_ptrs row) in E, Hle, Hw, Hu.
  set (acc := foldl _ (st.1, row_ptrs !!! row) _) in *.
  destruct (sentinel_loop acc.1 acc.2 (row_ptrs !!! (row + 1) - acc.2)
              (num_rows - 1)) as (L2 & Hw2 & Hu2).
  cbn [fst snd].
  split; [rewrite L2; exact L|]. split; [apply length_insert|].
  rewrite list_lookup_total_insert_eq by exact Hlen.
  split; [exact E|]. split; [lia|]. split; [|split; [|split]].
  - intros k Hk. rewrite Hu2 by lia. apply Hw; lia.
  - intros nz Hnz. apply Hw2; lia.
  - intros nz Hnz. rewrite Hu2 by lia. apply Hu. lia.
  - intros r Hr. apply list_lookup_total_insert_ne. congruence.
Qed.

Hypothesis row_ptrs_monotone :
  forall r, r < num_rows -> row_ptrs !!! r <= row_ptrs !!! (r + 1).

Lemma row_ptrs_le r r' :
  r <= r' -> r' <= num_rows -> row_ptrs !!! r <= row_ptrs !!! r'.
Proof.
  intros Hle Hr'. induction r' as [|r' IH]; [replace r with 0 by lia; lia|].
  destruct (decide (r = S r')) as [->|Hne]; [lia|].
  pose proof (row_ptrs_monotone r' ltac:(lia)) as Hstep.
  replace (r' + 1) with (S r') in Hstep by lia.
  specialize (IH ltac:(lia) ltac:(lia)). lia.
Qed.

Variables postorder_cols lower_ends : list nat.

Hypothesis postorder_cols_fit : row_ptrs !!! num_rows <= length postorder_cols.
Hypothesis lower_ends_fit : num_rows <= length lower_ends.

(** The threads below [t] done. *)
Lemma build_postorder_cols_threads t :
  let st := foldl (build_postorder_cols_thread num_rows cols row_ptrs
                     inv_postorder)
                  (postorder_cols, lower_ends) (seq 0 t) in
  length st.1 = length postorder_cols /\ length st.2 = length lower_ends /\
  (forall row, row < t -> row < num_rows ->
     st.2 !!! row = row_ptrs !!! row + length (lower row) /\
     st.2 !!! row <= row_ptrs !!! (row + 1) /\
     (forall k, k < length (lower row) ->
        st.1 !!! (row_ptrs !!! row + k) = inv_postorder !!! (lower row !!! k)) /\
     (forall nz, st.2 !!! row <= nz < row_ptrs !!! (row + 1) ->
        st.1 !!! nz = num_rows - 1)) /\
  (forall nz, nz < row_ptrs !!! 0 \/ row_ptrs !!! (Nat.min t num_rows) <= nz ->
     st.1 !!! nz = postorder_cols !!! nz) /\
  (forall r, Nat.min t num_rows <= r -> st.2 !!! r = lower_ends !!! r).
Proof.
  induction t as [|t IH]; intros st; subst st.
  - cbn [seq foldl fst snd]. repeat split; try reflexivity; intros; lia.
  - rewrite seq_S, foldl_app. cbn [foldl Nat.add].
    destruct IH as (L1 & L2 & Hrows & Hout & Hends).
    set (prev := foldl _ (postorder_cols, lower_ends) (seq 0 t)) in *.
    destruct (decide (t < num_rows)) as [Ht|Ht].
    + pose proof (row_ptrs_monotone t Ht) as Hmono.
      pose proof (row_ptrs_le (t + 1) num_rows ltac:(lia) ltac:(lia)) as Hend.
      pose proof (row_ptrs_le 0 t ltac:(lia) ltac:(lia)) as Hbegin.
      destruct (build_postorder_cols_row prev t Ht Hmono ltac:(lia) ltac:(lia))
        as (T1 & T2 & TE & Tle & Tw & Ts & Tu & Tr).
      set (next := build_postorder_cols_thread _ _ _ _ prev t) in *.
      replace (Nat.min t num_rows) with t in Hout, Hends by lia.
      replace (Nat.min (S t) num_rows) with (t + 1) by lia.
      split; [lia|]. split; [lia|]. split; [|split].
      * intros row Hr Hn. destruct (decide (row = t)) as [->|Hne].
        -- split; [exact TE|]. split; [exact Tle|]. split; [exact Tw|exact Ts].
        -- destruct (Hrows row ltac:(lia) Hn) as (R1 & R2 & R3 & R4).
           pose proof (row_ptrs_le (row + 1) t ltac:(lia) ltac:(lia)) as Hsep.
           rewrite Tr by exact Hne.
           split; [exact R1|]. split; [exact R2|]. split.
           ++ intros k Hk. rewrite Tu by lia. apply R3. exact Hk.
           ++ intros nz Hnz. rewrite Tu by lia. apply R4. exact Hnz.
      * intros nz Hnz. rewrite Tu by lia. apply Hout. lia.
      * intros r Hr. rewrite Tr by lia. apply Hends. lia.
    + assert (E : build_postorder_cols_thread num_rows cols row_ptrs
                    inv_postorder prev t = prev).
      { unfold build_postorder_cols_thread.
        destruct (Nat.leb_spec num_rows t); [reflexivity|lia]. }
      rewrite E.
      replace (Nat.min (S t) num_rows) with (Nat.min t num_rows) by lia.
      split; [exact L1|]. split; [exact L2|]. split; [|split].
      * intros row Hr Hn. apply Hrows; lia.
      * exact Hout.
      * exact Hends.
Qed.

End PostorderCols.

(** [X11].  [build_postorder_cols] with a thread for every row and rows
    that fit the arrays: the row of [postorder_cols] starts with the
    positions in the postorder ([inv_postorder]) of the row's columns below
    the diagonal, in the order of the row; [lower_ends[row]] is where they
    end, inside the row; the rest of the row holds the sentinel
    [num_rows - 1]; and nothing outside the rows is written. *)
Theorem build_postorder_cols_rows (num_threads num_rows : nat)
    (cols row_ptrs inv_postorder postorder_cols lower_ends : list nat) :
  num_rows <= num_threads ->
  (forall r, r < num_rows -> row_ptrs !!! r <= row_ptrs !!! (r + 1)) ->
  row_ptrs !!! num_rows <= length postorder_cols ->
  num_rows <= length lower_ends ->
  let st := build_postorder_cols num_threads num_rows cols row_ptrs
              inv_postorder postorder_cols lower_ends in
  length st.1 = length postorder_cols /\ length st.2 = length lower_ends /\
  (forall row, row < num_rows ->
     let lower := lower_cols cols row_ptrs row in
     st.2 !!! row = row_ptrs !!! row + length lower /\
     st.2 !!! row <= row_ptrs !!! (row + 1) /\
     (forall k, k < length lower ->
        st.1 !!! (row_ptrs !!! row + k) = inv_postorder !!! (lower !!! k)) /\
     (forall nz, st.2 !!! row <= nz < row_ptrs !!! (row + 1) ->
        st.1 !!! nz = num_rows - 1)) /\
  (forall nz, nz < row_ptrs !!! 0 \/ row_ptrs !!! num_rows <= nz ->
     st.1 !!! nz = postorder_cols !!! nz) /\
  (forall r, num_rows <= r -> st.2 !!! r = lower_ends !!! r).
Proof.
  intros Hthreads Hmono Hfit Hends st.
  destruct (build_postorder_cols_threads num_rows cols row_ptrs inv_postorder
              Hmono postorder_cols lower_ends Hfit Hends num_threads)
    as (L1 & L2 & Hrows & Hout & Hrest).
  replace (Nat.min num_threads num_rows) with num_rows in Hout, Hrest by lia.
  split; [exact L1|]. split; [exact L2|]. split; [|split].
  - intros row Hrow. apply Hrows; lia.
  - exact Hout.
  - exact Hrest.
Qed.

(** The symmetric pattern with the entries (1,0), (2,0) and (3,2) and a
    full diagonal, with the identity for the postorder. *)
Lemma build_postorder_cols_rows_witness :
  let cols := [0; 1; 2; 0; 1; 0; 2; 3; 2; 3] in
  let row_ptrs := [0; 3; 5; 8; 10] in
  let st := build_postorder_cols 4 4 cols row_ptrs [0; 1; 2; 3]
              (replicate 10 0) (replicate 4 0) in
  length st.1 = length (replicate 10 0) /\
  length st.2 = length (replicate 4 0) /\
  (forall row, row < 4 ->
     let lower := lower_cols cols row_ptrs row in
     st.2 !!! row = row_ptrs !!! row + length lower /\
     st.2 !!! row <= row_ptrs !!! (row + 1) /\
     (forall k, k < length lower ->
        st.1 !!! (row_ptrs !!! row + k) = [0; 1; 2; 3] !!! (lower !!! k)) /\
     (forall nz, st.2 !!! row <= nz < row_ptrs !!! (row + 1) ->
        st.1 !!! nz = 4 - 1)) /\
  (forall nz, nz < row_ptrs !!! 0 \/ row_ptrs !!! 4 <= nz ->
     st.1 !!! nz = replicate 10 0 !!! nz) /\
  (forall r, 4 <= r -> st.2 !!! r = replicate 4 0 !!! r).
Proof.
  apply (build_postorder_cols_rows 4 4 [0; 1; 2; 0; 1; 0; 2; 3; 2; 3]
           [0; 3; 5; 8; 10] [0; 1; 2; 3] (replicate 10 0) (replicate 4 0)).
  - lia.
  - intros r Hr.
    destruct r as [|[|[|[|r]]]]; vm_compute; lia.
  - vm_compute. lia.
  - vm_compute. lia.
Defined.

(** ** The count of a row and the size of the subwarp *)

Lemma reduce_plus_app (l1 l2 : list (option nat)) :
  reduce_plus (l1 ++ l2) =
  x ← reduce_plus l1; y ← reduce_plus l2; Some (x + y).
Proof.
  induction l1 as [|c l1 IH]; simpl.
  - destruct (reduce_plus l2); reflexivity.
  - destruct c as [c|]; [|reflexivity]. simpl. rewrite IH.
    destruct (reduce_plus l1) as [x|]; [|reflexivity]. simpl.
    destruct (reduce_plus l2) as [y|]; [|reflexivity]. simpl.
    f_equal. lia.
Qed.

Lemma reduce_plus_add {A} (f g : A -> option nat) (l : list A) :
  reduce_plus (map (fun a => x ← f a; y ← g a; Some (x + y)) l) =
  x ← reduce_plus (map f l); y ← reduce_plus (map g l); Some (x + y).
Proof.
  induction l as [|a l IH]; [reflexivity|].
  cbn [map reduce_plus]. rewrite IH.
  destruct (f a) as [x|]; [|reflexivity]. simpl.
  destruct (g a) as [y|]; simpl.
  - destruct (reduce_plus (map f l)) as [tf|]; [|reflexivity]. simpl.
    destruct (reduce_plus (map g l)) as [tg|]; [|reflexivity]. simpl.
    f_equal. lia.
  - destruct (reduce_plus (map f l)) as [tf|]; reflexivity.
Qed.

Section Count.

Variable subwarp_size : nat.
Variables postorder_cols postorder_parent : list nat.
Variables fuel lower_end diag_postorder : nat.

Hypothesis subwarp_size_pos : 0 < subwarp_size.

(** The iterations of [while (node < next_node)] for the entry [nz]. *)
Definition chain (nz : nat) : option nat :=
  count_chain postorder_parent fuel (postorder_cols !!! nz)
    (next_node_of postorder_cols lower_end diag_postorder nz).

(** The chains of the entries from [base] on. *)
Definition chains (base : nat) : option nat :=
  reduce_plus (map chain (seq base (lower_end - base))).

Lemma chains_done base : lower_end <= base -> chains base = Some 0.
Proof.
  intros Hb. unfold chains. replace (lower_end - base) with 0 by lia.
  reflexivity.
Qed.

Lemma chains_split base n :
  base + n <= lower_end ->
  chains base =
  x ← reduce_plus (map chain (seq base n)); y ← chains (base + n);
  Some (x + y).
Proof.
  intros Hn. unfold chains.
  replace (lower_end - base) with (n + (lower_end - (base + n))) by lia.
  rewrite seq_app, map_app, reduce_plus_app. reflexivity.
Qed.

(** The entries of the first round of the lanes, lane by lane. *)
Lemma first_round base n :
  reduce_plus
    (map (fun lane => if base + lane <? lower_end then chain (base + lane)
                      else Some 0) (seq 0 n)) =
  reduce_plus (map chain (seq base (Nat.min n (lower_end - base)))).
Proof.
  induction n as [|n IH]; [reflexivity|].
  rewrite seq_S, map_app, reduce_plus_app, IH. cbn [map reduce_plus Nat.add].
  destruct (Nat.ltb_spec (base + n) lower_end) as [Hlt|Hge].
  - replace (Nat.min (S n) (lower_end - base)) with (S n) by lia.
    replace (Nat.min n (lower_end - base)) with n by lia.
    rewrite seq_S, map_app, reduce_plus_app. reflexivity.
  - replace (Nat.min (S n) (lower_end - base))
      with (Nat.min n (lower_end - base)) by lia.
    clear IH.
    destruct (reduce_plus
                (map chain (seq base (Nat.min n (lower_end - base)))))
      as [x|]; [|reflexivity].
    simpl. f_equal. lia.
Qed.

(** The lanes of a subwarp share the entries of the row among them; the
    sum of their counts is the sum of the chains of all entries. *)
Lemma lanes_count_chains : forall d base,
  lower_end - base <= d ->
  reduce_plus
    (map (fun lane =>
            count_lane subwarp_size postorder_cols postorder_parent
              (lower_end - (base + lane)) fuel lower_end diag_postorder
              (base + lane))
         (seq 0 subwarp_size)) =
  chains base.
Proof.
  induction d as [|d IH]; intros base Hd.
  - rewrite chains_done by lia.
    apply reduce_plus_zero. intros lane _.
    rewrite count_lane_unfold by exact subwarp_size_pos.
    destruct (Nat.ltb_spec (base + lane) lower_end); [lia|reflexivity].
  - destruct (decide (lower_end <= base)) as [Hdone|Hmore].
    { rewrite chains_done by lia.
      apply reduce_plus_zero. intros lane _.
      rewrite count_lane_unfold by exact subwarp_size_pos.
      destruct (Nat.ltb_spec (base + lane) lower_end); [lia|reflexivity]. }
    rewrite (reduce_plus_ext _
               (fun lane =>
                  x ← (if base + lane <? lower_end then chain (base + lane)
                       else Some 0);
                  y ← count_lane subwarp_size postorder_cols postorder_parent
                        (lower_end - (base + subwarp_size + lane)) fuel
                        lower_end diag_postorder (base + subwarp_size + lane);
                  Some (x + y))).
    + rewrite reduce_plus_add, first_round, IH by lia.
      destruct (decide (base + subwarp_size <= lower_end)) as [Hfull|Hpart].
      * replace (Nat.min subwarp_size (lower_end - base)) with subwarp_size
          by lia.
        symmetry. apply chains_split. exact Hfull.
      * replace (Nat.min subwarp_size (lower_end - base))
          with (lower_end - base) by lia.
        rewrite (chains_done (base + subwarp_size)) by lia.
        fold (chains base). destruct (chains base) as [x|]; [|reflexivity].
        simpl. f_equal. lia.
    + intros lane _.
      rewrite count_lane_unfold by exact subwarp_size_pos.
      destruct (Nat.ltb_spec (base + lane) lower_end) as [Hlt|Hge].
      * replace (base + lane + subwarp_size)
          with (base + subwarp_size + lane) by lia.
        reflexivity.
      * rewrite count_lane_unfold by exact subwarp_size_pos.
        destruct (Nat.ltb_spec (base + subwarp_size + lane) lower_end);
          [lia|reflexivity].
Qed.

End Count.

(** [X12].  [symbolic_count] does not depend on the size of the subwarp:
    for every subwarp size above zero the count of a row is one (the
    diagonal) plus the lengths of the parent chains of its lower
    triangular entries, and the kernel returns exactly when all these
    chains end within the bound. *)
Theorem symbolic_count_any_subwarp (subwarp_size num_rows : nat)
    (row_ptrs lower_ends inv_postorder postorder_cols postorder_parent
       : list nat) (fuel row : nat) :
  0 < subwarp_size ->
  row < num_rows ->
  symbolic_count subwarp_size num_rows row_ptrs lower_ends inv_postorder
    postorder_cols postorder_parent fuel row =
  (count ← chains postorder_cols postorder_parent fuel (lower_ends !!! row)
             (inv_postorder !!! row) (row_ptrs !!! row);
   Some [(row, count + 1)]) /\
  symbolic_count subwarp_size num_rows row_ptrs lower_ends inv_postorder
    postorder_cols postorder_parent fuel row =
  symbolic_count 1 num_rows row_ptrs lower_ends inv_postorder
    postorder_cols postorder_parent fuel row.
Proof.
  intros Hpos Hrow.
  assert (Hany : forall s, 0 < s ->
    symbolic_count s num_rows row_ptrs lower_ends inv_postorder
      postorder_cols postorder_parent fuel row =
    (count ← chains postorder_cols postorder_parent fuel (lower_ends !!! row)
               (inv_postorder !!! row) (row_ptrs !!! row);
     Some [(row, count + 1)])).
  { intros s Hs. unfold symbolic_count.
    destruct (Nat.leb_spec num_rows row) as [|_]; [lia|].
    rewrite (lanes_count_chains s postorder_cols postorder_parent fuel
               (lower_ends !!! row) (inv_postorder !!! row) Hs
               (lower_ends !!! row - row_ptrs !!! row) (row_ptrs !!! row)
               (le_n _)).
    reflexivity. }
  split; [apply Hany; exact Hpos|].
  rewrite (Hany subwarp_size Hpos), (Hany 1 ltac:(lia)). reflexivity.
Qed.

Lemma symbolic_count_any_subwarp_witness :
  symbolic_count 2 5 example_row_ptrs example_lower_ends example_postorder
    example_postorder_cols example_parents 5 2 =
  (count ← chains example_postorder_cols example_parents 5
             (example_lower_ends !!! 2) (example_postorder !!! 2)
             (example_row_ptrs !!! 2);
   Some [(2, count + 1)]) /\
  symbolic_count 2 5 example_row_ptrs example_lower_ends example_postorder
    example_postorder_cols example_parents 5 2 =
  symbolic_count 1 5 example_row_ptrs example_lower_ends example_postorder
    example_postorder_cols example_parents 5 2.
Proof.
  apply (symbolic_count_any_subwarp 2 5 example_row_ptrs example_lower_ends
           example_postorder example_postorder_cols example_parents 5 2);
    lia.
Defined.

End CholeskyKernels.

(** * The sync-free scheduler: peeking and running to completion
    (common/cuda_hip/components/syncfree.hpp.inc) *)

Module SyncfreeProgress.
Import Syncfree.

Section Scheduler.

Variables block_size subwarp_size : nat.
Variable num_rows : nat.
Variable dependencies : nat -> list nat.

Local Abbreviation ldc := (local_dependency_count block_size subwarp_size).
Local Abbreviation step :=
  (Syncfree.step block_size subwarp_size num_rows dependencies).
Local Abbreviation run :=
  (Syncfree.run block_size subwarp_size num_rows dependencies).
Local Abbreviation invariant :=
  (Syncfree.invariant block_size subwarp_size num_rows dependencies).
Local Abbreviation work_id := (get_work_id subwarp_size).
Local Abbreviation counter := (block_counter num_rows).

(** [peek]: the flag of the dependency as [wait] would load it, in shared
    memory for a row of the same block and in global memory otherwise,
    without waiting for it. *)
Definition peek (b offset dependency : nat) (st : state) : bool :=
  let dep_block := dependency / ldc in
  let dep_local := dependency mod ldc in
  if decide (dep_block = get_block_id block_size offset)
  then negb (local_status st b !!! dep_local =? 0)
  else negb (storage st !!! dependency =? 0).

(** The steps of one subwarp, [n] of them in a row. *)
Definition spin (b s n : nat) : list agent := replicate n (Subwarp b s).

(** The rows below [row] that have been claimed are done. *)
Definition done_below (row : nat) (st : state) : Prop :=
  forall b s offset, block_offset st b = Some offset -> s < ldc ->
    work_id offset s < row -> pc st b s = Finished.

(** Every block of rows below the block counter has been claimed. *)
Definition claimed (st : state) : Prop :=
  forall k, k < storage st !!! counter ->
    exists b, block_offset st b = Some (k * block_size).

(** What a subwarp has still to do: its steps up to the end of
    [mark_ready] when no load has to be repeated. *)
Definition remaining (p : program_counter) (row : nat) : nat :=
  match p with
  | Init => 3 + length (dependencies row)
  | Waiting k => 2 + (length (dependencies row) - k)
  | Publishing => 1
  | Finished => 0
  end.

Hypothesis subwarp_size_pos : 0 < subwarp_size.
Hypothesis block_size_pos : 0 < block_size.
Hypothesis block_size_multiple : block_size = ldc * subwarp_size.
Hypothesis dependencies_lower :
  forall row dep, dep ∈ dependencies row -> dep < row.

Lemma run_app schedule later :
  run (schedule ++ later) = foldl step (run schedule) later.
Proof. unfold Syncfree.run. apply foldl_app. Qed.

Lemma invariant_steps st later :
  invariant st -> invariant (foldl step st later).
Proof.
  revert st. induction later as [|a later IH]; intros st Hinv; [exact Hinv|].
  simpl. apply IH. apply invariant_step; assumption.
Qed.

(** ** What a step keeps *)

Lemma step_block_offset st a b offset :
  block_offset st b = Some offset -> block_offset (step st a) b = Some offset.
Proof.
  intros Hb. destruct a as [b'|b' s']; simpl.
  - unfold construct. destruct (block_offset st b') eqn:E; [exact Hb|].
    simpl. unfold upd. destruct (decide (b = b')) as [->|]; [congruence|].
    exact Hb.
  - unfold kernel_step.
    destruct (block_offset st b') as [offset'|]; [|exact Hb].
    destruct (decide (s' < ldc)); [|exact Hb].
    destruct (pc st b' s') as [|k| |]; try exact Hb.
    destruct (dependencies (work_id offset' s') !! k); [|exact Hb].
    unfold wait. destruct (decide _); exact Hb.
Qed.

Lemma step_finished st a b s :
  pc st b s = Finished -> pc (step st a) b s = Finished.
Proof.
  intros Hpc. destruct a as [b'|b' s']; simpl.
  - unfold construct. destruct (block_offset st b'); exact Hpc.
  - unfold kernel_step.
    destruct (block_offset st b') as [offset'|]; [|exact Hpc].
    destruct (decide (s' < ldc)); [|exact Hpc].
    destruct (decide (b = b' /\ s = s')) as [[-> ->]|Hne].
    + rewrite Hpc. exact Hpc.
    + destruct (pc st b' s') as [|k| |]; try exact Hpc.
      * simpl. rewrite upd2_ne by exact Hne. exact Hpc.
      * destruct (dependencies (work_id offset' s') !! k).
        -- unfold wait. destruct (decide _); simpl;
             rewrite upd2_ne by exact Hne; exact Hpc.
        -- simpl. rewrite upd2_ne by exact Hne. exact Hpc.
      * simpl. rewrite upd2_ne by exact Hne. exact Hpc.
Qed.

Lemma steps_block_offset later : forall st b offset,
  block_offset st b = Some offset ->
  block_offset (foldl step st later) b = Some offset.
Proof.
  induction later as [|a later IH]; intros st b offset Hb; [exact Hb|].
  simpl. apply IH. apply step_block_offset. exact Hb.
Qed.

Lemma steps_finished later : forall st b s,
  pc st b s = Finished -> pc (foldl step st later) b s = Finished.
Proof.
  induction later as [|a later IH]; intros st b s Hpc; [exact Hpc|].
  simpl. apply IH. apply step_finished. exact Hpc.
Qed.

(** A subwarp's steps leave the claims of the blocks as they are. *)
Lemma kernel_step_offsets st b s b' :
  block_offset (step st (Subwarp b s)) b' = block_offset st b'.
Proof.
  simpl. unfold kernel_step.
  destruct (block_offset st b) as [offset|]; [|reflexivity].
  destruct (decide (s < ldc)); [|reflexivity].
  destruct (pc st b s) as [|k| |]; try reflexivity.
  destruct (dependencies (work_id offset s) !! k); [|reflexivity].
  unfold wait. destruct (decide _); reflexivity.
Qed.

Lemma kernel_step_counter st b s :
  invariant st ->
  storage (step st (Subwarp b s)) !!! counter = storage st !!! counter.
Proof.
  intros Hinv. simpl. unfold kernel_step.
  destruct (block_offset st b) as [offset|] eqn:Hb; [|reflexivity].
  destruct (decide (s < ldc)); [|reflexivity].
  destruct (pc st b s) as [|k| |] eqn:Hpc; try reflexivity.
  - destruct (dependencies (work_id offset s) !! k); [|reflexivity].
    unfold wait. destruct (decide _); reflexivity.
  - simpl. apply list_lookup_total_insert_ne.
    pose proof (inv_rows _ _ _ _ _ Hinv b s offset Hb) as Hrow.
    rewrite Hpc in Hrow. specialize (Hrow ltac:(discriminate) ltac:(discriminate)).
    unfold block_counter. lia.
Qed.

Lemma claimed_step st a : invariant st -> claimed st -> claimed (step st a).
Proof.
  intros Hinv Hcl. destruct a as [b|b s].
  - simpl. unfold construct.
    destruct (block_offset st b) as [offset|] eqn:Hb; [exact Hcl|].
    intros k Hk. simpl in Hk.
    rewrite list_lookup_total_insert_eq in Hk
      by (rewrite (inv_storage _ _ _ _ _ Hinv); unfold block_counter; lia).
    simpl. unfold upd.
    destruct (decide (k = storage st !!! counter)) as [->|Hne].
    + exists b. destruct (decide (b = b)); [reflexivity|congruence].
    + destruct (Hcl k ltac:(lia)) as [b' Hb'].
      exists b'. destruct (decide (b' = b)) as [->|]; [congruence|exact Hb'].
  - intros k Hk. rewrite kernel_step_counter in Hk by exact Hinv.
    destruct (Hcl k Hk) as [b' Hb']. exists b'.
    rewrite kernel_step_offsets. exact Hb'.
Qed.

Lemma claimed_run schedule : claimed (run schedule).
Proof.
  unfold Syncfree.run. induction schedule as [|a l IH] using rev_ind.
  - intros k Hk. simpl in Hk. unfold syncfree_storage, block_counter in Hk.
    rewrite lookup_total_replicate_2 in Hk by lia. lia.
  - rewrite foldl_app. simpl. apply claimed_step; [|exact IH].
    apply (invariant_run block_size subwarp_size num_rows dependencies
             subwarp_size_pos block_size_pos block_size_multiple
             dependencies_lower l).
Qed.

(** ** One subwarp *)

Lemma owner_of_row st b offset row :
  invariant st -> claimed st ->
  block_offset st b = Some offset ->
  row / ldc <= get_block_id block_size offset ->
  exists b' offset', block_offset st b' = Some offset' /\ row mod ldc < ldc /\
    work_id offset' (row mod ldc) = row /\
    (row / ldc = get_block_id block_size offset -> b' = b /\ offset' = offset).
Proof.
  intros Hinv Hcl Hb Hle.
  pose proof (ldc_pos block_size subwarp_size subwarp_size_pos block_size_pos
                block_size_multiple) as Hldc.
  destruct (inv_offsets _ _ _ _ _ Hinv b offset Hb) as [k [Hk ->]].
  rewrite (get_block_id_claimed block_size subwarp_size subwarp_size_pos
             block_size_pos block_size_multiple) in Hle |- *.
  assert (Hmod : row mod ldc < ldc) by (apply Nat.mod_upper_bound; lia).
  assert (Hrow : forall off, off = (row / ldc) * block_size ->
            work_id off (row mod ldc) = row).
  { intros off ->.
    rewrite (get_work_id_claimed block_size subwarp_size subwarp_size_pos
               block_size_pos block_size_multiple).
    pose proof (Nat.div_mod_eq row ldc). lia. }
  destruct (decide (row / ldc = k)) as [E|Hne].
  - exists b, (k * block_size). split; [exact Hb|]. split; [exact Hmod|].
    split; [apply Hrow; rewrite E; reflexivity|]. auto.
  - destruct (Hcl (row / ldc) ltac:(lia)) as [b' Hb'].
    exists b', (row / ldc * block_size). split; [exact Hb'|].
    split; [exact Hmod|]. split; [apply Hrow; reflexivity|]. intros; lia.
Qed.

(** The flag of a dependency whose row is done is set where [wait] and
    [peek] look for it. *)
Lemma done_flag st b offset s dep :
  invariant st -> claimed st ->
  block_offset st b = Some offset -> s < ldc ->
  done_below (work_id offset s) st ->
  dep < work_id offset s -> dep < num_rows ->
  peek b offset dep st = true.
Proof.
  intros Hinv Hcl Hb Hs Hdone Hdep Hrows.
  pose proof (ldc_pos block_size subwarp_size subwarp_size_pos block_size_pos
                block_size_multiple) as Hldc.
  destruct (claimed_work_id block_size subwarp_size num_rows dependencies
              subwarp_size_pos block_size_pos block_size_multiple st b s
              offset Hinv Hb Hs) as (k & Eoff & Erow & _).
  assert (Hblock : get_block_id block_size offset = k).
  { rewrite Eoff. apply (get_block_id_claimed block_size subwarp_size);
      assumption. }
  assert (Hle : dep / ldc <= get_block_id block_size offset).
  { rewrite Hblock.
    rewrite <- (work_id_block block_size subwarp_size subwarp_size_pos
                  block_size_pos block_size_multiple k s Hs).
    apply Nat.Div0.div_le_mono. lia. }
  destruct (owner_of_row st b offset dep Hinv Hcl Hb Hle)
    as (b' & offset' & Hb' & Hs' & Hrow' & Hsame).
  assert (Hfin : pc st b' (dep mod ldc) = Finished).
  { apply (Hdone b' (dep mod ldc) offset' Hb' Hs'). rewrite Hrow'. exact Hdep. }
  unfold peek. cbn zeta.
  destruct (decide (dep / ldc = get_block_id block_size offset)) as [E|Hne].
  - destruct (Hsame E) as [-> ->].
    rewrite (inv_local _ _ _ _ _ Hinv b (dep mod ldc) offset Hb Hs').
    rewrite Hfin, Hrow'. simpl.
    rewrite bool_decide_eq_true_2 by exact Hrows. reflexivity.
  - pose proof (inv_finished _ _ _ _ _ Hinv b' (dep mod ldc) offset' Hb' Hs'
                  Hfin) as Hev.
    rewrite Hrow' in Hev. specialize (Hev Hrows).
    destruct (inv_global _ _ _ _ _ Hinv dep Hrows) as [[_ Hnone]|[E1 _]].
    + exfalso. exact (Hnone _ _ _ Hev).
    + rewrite E1. reflexivity.
Qed.

(** One step of a subwarp whose dependencies are done brings it closer to
    the end of [mark_ready]: no load is repeated. *)
Lemma subwarp_advances st b s offset :
  invariant st -> claimed st ->
  block_offset st b = Some offset -> s < ldc ->
  done_below (work_id offset s) st ->
  pc st b s <> Finished ->
  remaining (pc (step st (Subwarp b s)) b s) (work_id offset s) <
  remaining (pc st b s) (work_id offset s).
Proof.
  intros Hinv Hcl Hb Hs Hdone Hpc.
  simpl. unfold kernel_step. rewrite Hb.
  destruct (decide (s < ldc)) as [_|]; [|contradiction].
  destruct (pc st b s) as [|k| |] eqn:Epc; [| | |congruence].
  - simpl. rewrite (upd2_eq block_size).
    destruct (decide (num_rows <= work_id offset s)); simpl; lia.
  - destruct (dependencies (work_id offset s) !! k) as [dep|] eqn:Ed.
    + assert (Hk : k < length (dependencies (work_id offset s)))
        by (apply lookup_lt_is_Some; eexists; exact Ed).
      assert (Hlow : dep < work_id offset s).
      { apply dependencies_lower. apply list_elem_of_lookup.
        exists k. exact Ed. }
      assert (Hrow : work_id offset s < num_rows).
      { apply (inv_rows _ _ _ _ _ Hinv b s offset Hb); rewrite Epc;
          discriminate. }
      pose proof (done_flag st b offset s dep Hinv Hcl Hb Hs Hdone Hlow
                    ltac:(lia)) as Hflag.
      unfold peek in Hflag. cbn zeta in Hflag. unfold wait.
      destruct (decide (dep / ldc = get_block_id block_size offset)).
      * simpl. rewrite (upd2_eq block_size).
        destruct (decide (local_status st b !!! (dep mod ldc) = 0)) as [E0|_].
        -- rewrite E0 in Hflag. discriminate.
        -- simpl. lia.
      * simpl. rewrite (upd2_eq block_size).
        destruct (decide (storage st !!! dep = 0)) as [E0|_].
        -- rewrite E0 in Hflag. discriminate.
        -- simpl. lia.
    + simpl. rewrite (upd2_eq block_size). simpl. lia.
  - simpl. rewrite (upd2_eq block_size). simpl. lia.
Qed.

Lemma done_below_step st b s row :
  done_below row st -> done_below row (step st (Subwarp b s)).
Proof.
  intros Hdone b' s' offset' Hb' Hs' Hrow.
  rewrite kernel_step_offsets in Hb'.
  apply step_finished. apply (Hdone b' s' offset'); assumption.
Qed.

Lemma subwarp_finishes b s offset : forall m st,
  remaining (pc st b s) (work_id offset s) <= m ->
  invariant st -> claimed st ->
  block_offset st b = Some offset -> s < ldc ->
  done_below (work_id offset s) st ->
  exists n, pc (foldl step st (spin b s n)) b s = Finished.
Proof.
  induction m as [|m IH]; intros st Hm Hinv Hcl Hb Hs Hdone.
  - exists 0. simpl. destruct (pc st b s); simpl in Hm; try lia. reflexivity.
  - assert (Hcase : pc st b s = Finished \/ pc st b s <> Finished)
      by (destruct (pc st b s); auto; right; discriminate).
    destruct Hcase as [Hfin|Hnot].
    { exists 0. exact Hfin. }
    pose proof (subwarp_advances st b s offset Hinv Hcl Hb Hs Hdone Hnot)
      as Hless.
    destruct (IH (step st (Subwarp b s))) as [n Hn].
    + lia.
    + apply invariant_step; assumption.
    + apply claimed_step; assumption.
    + rewrite kernel_step_offsets. exact Hb.
    + exact Hs.
    + apply done_below_step. exact Hdone.
    + exists (S n). exact Hn.
Qed.

(** ** All rows *)

Lemma spin_offsets b s n : forall st b',
  block_offset (foldl step st (spin b s n)) b' = block_offset st b'.
Proof.
  induction n as [|n IH]; intros st b'; [reflexivity|].
  cbn [spin replicate foldl]. fold (spin b s n).
  rewrite IH. apply kernel_step_offsets.
Qed.

Lemma spin_counter b s n : forall st,
  invariant st ->
  storage (foldl step st (spin b s n)) !!! counter = storage st !!! counter.
Proof.
  induction n as [|n IH]; intros st Hinv; [reflexivity|].
  cbn [spin replicate foldl]. fold (spin b s n).
  rewrite IH by (apply invariant_step; assumption).
  apply kernel_step_counter. exact Hinv.
Qed.

Lemma spin_done_below b s n row : forall st,
  done_below row st -> done_below row (foldl step st (spin b s n)).
Proof.
  induction n as [|n IH]; intros st Hdone; [exact Hdone|].
  cbn [spin replicate foldl]. fold (spin b s n).
  apply IH. apply done_below_step. exact Hdone.
Qed.

(** From any state of a run the claimed rows can be brought to their end
    one after the other, in the order of the rows. *)
Lemma rows_finish st :
  invariant st -> claimed st ->
  forall row, exists later,
    done_below row (foldl step st later) /\
    (forall b, block_offset (foldl step st later) b = block_offset st b) /\
    storage (foldl step st later) !!! counter = storage st !!! counter.
Proof.
  intros Hinv Hcl.
  pose proof (ldc_pos block_size subwarp_size subwarp_size_pos block_size_pos
                block_size_multiple) as Hldc.
  induction row as [|row IH].
  - exists []. split; [|split; reflexivity].
    intros b s offset _ _ Hrow. lia.
  - destruct IH as (later & Hdone & Hoff & Hcount).
    set (st' := foldl step st later) in *.
    assert (Hinv' : invariant st') by (apply invariant_steps; exact Hinv).
    assert (Hcl' : claimed st').
    { intros k Hk. rewrite Hcount in Hk. destruct (Hcl k Hk) as [b Hb].
      exists b. rewrite Hoff. exact Hb. }
    destruct (decide (row / ldc < storage st' !!! counter)) as [Hlt|Hge].
    + destruct (Hcl' (row / ldc) Hlt) as [b Hb].
      assert (Hs : row mod ldc < ldc) by (apply Nat.mod_upper_bound; lia).
      assert (Hrow : work_id (row / ldc * block_size) (row mod ldc) = row).
      { rewrite (get_work_id_claimed block_size subwarp_size subwarp_size_pos
                   block_size_pos block_size_multiple).
        pose proof (Nat.div_mod_eq row ldc). lia. }
      destruct (subwarp_finishes b (row mod ldc) (row / ldc * block_size)
                  _ st' (le_n _) Hinv' Hcl' Hb Hs) as [n Hn].
      { rewrite Hrow. exact Hdone. }
      exists (later ++ spin b (row mod ldc) n).
      rewrite foldl_app. fold st'.
      split; [|split].
      * intros b' s' offset' Hb' Hs' Hrow'.
        destruct (decide (work_id offset' s' = row)) as [E|Hne].
        -- rewrite spin_offsets in Hb'.
           destruct (owner_unique block_size subwarp_size num_rows
                       dependencies subwarp_size_pos block_size_pos
                       block_size_multiple st' b' s' offset' b (row mod ldc)
                       (row / ldc * block_size) Hinv' Hb' Hs' Hb Hs)
             as [-> ->]; [rewrite Hrow; exact E|exact Hn].
        -- apply (spin_done_below b (row mod ldc) n row st' Hdone b' s'
                    offset' Hb' Hs'). lia.
      * intros b'. rewrite spin_offsets. apply Hoff.
      * rewrite spin_counter by exact Hinv'. exact Hcount.
    + exists later. split; [|split; assumption].
      intros b s offset Hb Hs Hrow.
      destruct (decide (work_id offset s = row)) as [E|Hne].
      * exfalso.
        destruct (inv_offsets _ _ _ _ _ Hinv' b offset Hb) as [k [Hk ->]].
        rewrite (get_work_id_claimed block_size subwarp_size subwarp_size_pos
                   block_size_pos block_size_multiple) in E.
        apply Hge. rewrite <- E.
        rewrite (work_id_block block_size subwarp_size subwarp_size_pos
                   block_size_pos block_size_multiple k s Hs).
        exact Hk.
      * apply (Hdone b s offset Hb Hs). lia.
Qed.

(** ** The blocks of the grid *)

Lemma construct_claims st b :
  block_offset (step st (Block b)) b <> None.
Proof.
  simpl. unfold construct. destruct (block_offset st b) eqn:E.
  - rewrite E. discriminate.
  - simpl. rewrite upd_eq. discriminate.
Qed.

Lemma constructed_all num_blocks : forall st b,
  b < num_blocks ->
  block_offset (foldl step st (map Block (seq 0 num_blocks))) b <> None.
Proof.
  induction num_blocks as [|n IH]; intros st b Hb; [lia|].
  rewrite seq_S, map_app, foldl_app. cbn [map foldl Nat.add].
  destruct (decide (b = n)) as [->|Hne].
  - apply construct_claims.
  - pose proof (IH st b ltac:(lia)) as Hprev.
    destruct (block_offset (foldl step st (map Block (seq 0 n))) b)
      as [offset|] eqn:E; [|contradiction].
    rewrite (step_block_offset _ _ _ _ E). discriminate.
Qed.

(** The blocks that have claimed rows are at most as many as the block
    counter says. *)
Lemma claims_counted st num_blocks :
  invariant st ->
  (forall b, b < num_blocks -> block_offset st b <> None) ->
  num_blocks <= storage st !!! counter.
Proof.
  intros Hinv Hall.
  set (claim := fun b => match block_offset st b with
                         | Some offset => offset / block_size
                         | None => 0
                         end).
  assert (Hclaim : forall b, b < num_blocks ->
            claim b < storage st !!! counter /\
            block_offset st b = Some (claim b * block_size)).
  { intros b Hb. unfold claim.
    destruct (block_offset st b) as [offset|] eqn:E;
      [|exfalso; apply (Hall b Hb); exact E].
    destruct (inv_offsets _ _ _ _ _ Hinv b offset E) as [k [Hk ->]].
    rewrite Nat.div_mul by lia. auto. }
  assert (Hnodup : NoDup (map claim (seq 0 num_blocks))).
  { apply NoDup_fmap_2_strong; [|apply NoDup_seq].
    intros b b' Hb Hb' Heq. apply elem_of_seq in Hb, Hb'.
    destruct (Hclaim b ltac:(lia)) as [_ E].
    destruct (Hclaim b' ltac:(lia)) as [_ E'].
    rewrite Heq in E.
    apply (inv_offsets_inj _ _ _ _ _ Hinv b b' _ E E'). }
  assert (Hsub : map claim (seq 0 num_blocks) ⊆+
                 seq 0 (storage st !!! counter)).
  { apply NoDup_submseteq; [exact Hnodup|].
    intros k Hk. apply list_elem_of_fmap in Hk as [b [-> Hb]].
    apply elem_of_seq in Hb. apply elem_of_seq.
    destruct (Hclaim b ltac:(lia)). lia. }
  apply submseteq_length in Hsub.
  rewrite length_map, !length_seq in Hsub. exact Hsub.
Qed.

(** ** The flags are never cleared *)

Lemma flag_insert (l : list nat) i j :
  l !!! i <> 0 -> <[j := 1]> l !!! i <> 0.
Proof.
  intros Hset. destruct (decide (i = j)) as [->|Hne].
  - destruct (decide (j < length l)) as [Hlt|Hge].
    + rewrite list_lookup_total_insert_eq by exact Hlt. discriminate.
    + rewrite list_insert_ge by lia. exact Hset.
  - rewrite list_lookup_total_insert_ne by congruence. exact Hset.
Qed.

Lemma step_local_flag st a b offset i :
  block_offset st b = Some offset ->
  local_status st b !!! i <> 0 -> local_status (step st a) b !!! i <> 0.
Proof.
  intros Hb Hset. destruct a as [b'|b' s']; simpl.
  - unfold construct. destruct (block_offset st b') eqn:E; [exact Hset|].
    simpl. rewrite upd_ne by congruence. exact Hset.
  - unfold kernel_step.
    destruct (block_offset st b') as [offset'|]; [|exact Hset].
    destruct (decide (s' < ldc)); [|exact Hset].
    destruct (pc st b' s') as [|k| |]; try exact Hset.
    destruct (dependencies (work_id offset' s') !! k).
    + unfold wait. destruct (decide _); exact Hset.
    + simpl. unfold upd. destruct (decide (b = b')) as [->|]; [|exact Hset].
      apply flag_insert. exact Hset.
Qed.

Lemma step_global_flag st a row :
  invariant st -> row < num_rows ->
  storage st !!! row <> 0 -> storage (step st a) !!! row <> 0.
Proof.
  intros Hinv Hrow Hset. destruct a as [b'|b' s']; simpl.
  - unfold construct. destruct (block_offset st b'); [exact Hset|].
    simpl. rewrite list_lookup_total_insert_ne
      by (unfold block_counter; lia).
    exact Hset.
  - unfold kernel_step.
    destruct (block_offset st b') as [offset'|]; [|exact Hset].
    destruct (decide (s' < ldc)); [|exact Hset].
    destruct (pc st b' s') as [|k| |]; try exact Hset.
    + destruct (dependencies (work_id offset' s') !! k); [|exact Hset].
      unfold wait. destruct (decide _); exact Hset.
    + simpl. apply flag_insert. exact Hset.
Qed.

Lemma step_peek st a b offset dependency :
  invariant st -> block_offset st b = Some offset -> dependency < num_rows ->
  peek b offset dependency st = true ->
  peek b offset dependency (step st a) = true.
Proof.
  intros Hinv Hb Hrow. unfold peek. cbn zeta.
  destruct (decide (dependency / ldc = get_block_id block_size offset));
    intros Hset; apply negb_true_iff, Nat.eqb_neq;
    apply negb_true_iff, Nat.eqb_neq in Hset.
  - apply (step_local_flag st a b offset); assumption.
  - apply step_global_flag; assumption.
Qed.

Lemma steps_peek later : forall st b offset dependency,
  invariant st -> block_offset st b = Some offset -> dependency < num_rows ->
  peek b offset dependency st = true ->
  peek b offset dependency (foldl step st later) = true.
Proof.
  induction later as [|a later IH]; intros st b offset dependency Hinv Hb
    Hrow Hset; [exact Hset|].
  simpl. apply IH.
  - apply invariant_step; assumption.
  - apply step_block_offset. exact Hb.
  - exact Hrow.
  - apply step_peek; assumption.
Qed.

(** A set flag has been stored by the subwarp of the row. *)
Lemma peek_owner st b offset dependency :
  invariant st -> block_offset st b = Some offset -> dependency < num_rows ->
  peek b offset dependency st = true ->
  exists b' s' offset', block_offset st b' = Some offset' /\ s' < ldc /\
    work_id offset' s' = dependency /\
    has_published num_rows (pc st b' s') dependency = true.
Proof.
  intros Hinv Hb Hrow. unfold peek. cbn zeta.
  pose proof (ldc_pos block_size subwarp_size subwarp_size_pos block_size_pos
                block_size_multiple) as Hldc.
  destruct (decide (dependency / ldc = get_block_id block_size offset))
    as [E|Hne]; intros Hset; apply negb_true_iff, Nat.eqb_neq in Hset.
  - assert (Hs : dependency mod ldc < ldc)
      by (apply Nat.mod_upper_bound; lia).
    destruct (inv_offsets _ _ _ _ _ Hinv b offset Hb) as [k [Hk ->]].
    rewrite (get_block_id_claimed block_size subwarp_size subwarp_size_pos
               block_size_pos block_size_multiple) in E.
    assert (Hw : work_id (k * block_size) (dependency mod ldc) = dependency).
    { rewrite (get_work_id_claimed block_size subwarp_size subwarp_size_pos
                 block_size_pos block_size_multiple).
      pose proof (Nat.div_mod_eq dependency ldc). lia. }
    exists b, (dependency mod ldc), (k * block_size).
    split; [exact Hb|]. split; [exact Hs|]. split; [exact Hw|].
    rewrite (inv_local _ _ _ _ _ Hinv b _ _ Hb Hs), Hw in Hset.
    destruct (has_published num_rows _ dependency); [reflexivity|].
    congruence.
  - destruct (inv_global _ _ _ _ _ Hinv dependency Hrow)
      as [[E0 _]|[_ (b' & s' & Hev)]]; [congruence|].
    destruct (inv_store_events _ _ _ _ _ Hinv _ _ _ _ Hev)
      as (offset' & Hb' & Hs' & Hw & _ & _ & Hfin).
    exists b', s', offset'. split; [exact Hb'|]. split; [exact Hs'|].
    split; [symmetry; exact Hw|]. rewrite Hfin. simpl.
    apply bool_decide_eq_true_2. exact Hrow.
Qed.

Lemma finished_peek st b offset b' s' offset' dependency :
  invariant st -> block_offset st b = Some offset -> dependency < num_rows ->
  block_offset st b' = Some offset' -> s' < ldc ->
  work_id offset' s' = dependency -> pc st b' s' = Finished ->
  peek b offset dependency st = true.
Proof.
  intros Hinv Hb Hrow Hb' Hs' Hw Hfin. unfold peek. cbn zeta.
  destruct (claimed_work_id block_size subwarp_size num_rows dependencies
              subwarp_size_pos block_size_pos block_size_multiple st b' s'
              offset' Hinv Hb' Hs') as (k' & Eoff' & Erow' & Emod').
  rewrite Hw in Erow', Emod'.
  destruct (decide (dependency / ldc = get_block_id block_size offset))
    as [E|Hne]; apply negb_true_iff, Nat.eqb_neq.
  - destruct (inv_offsets _ _ _ _ _ Hinv b offset Hb) as [k [Hk Eoff]].
    rewrite Eoff in E.
    rewrite (get_block_id_claimed block_size subwarp_size subwarp_size_pos
               block_size_pos block_size_multiple) in E.
    rewrite Erow' in E at 1.
    rewrite (work_id_block block_size subwarp_size subwarp_size_pos
               block_size_pos block_size_multiple k' s' Hs') in E.
    subst k'. rewrite <- Eoff in Eoff'. subst offset'.
    pose proof (inv_offsets_inj _ _ _ _ _ Hinv b b' offset Hb Hb'). subst b'.
    rewrite Emod'.
    rewrite (inv_local _ _ _ _ _ Hinv b s' offset Hb Hs'), Hfin, Hw. simpl.
    rewrite bool_decide_eq_true_2 by exact Hrow. discriminate.
  - pose proof (inv_finished _ _ _ _ _ Hinv b' s' offset' Hb' Hs' Hfin) as Hev.
    rewrite Hw in Hev. specialize (Hev Hrow).
    destruct (inv_global _ _ _ _ _ Hinv dependency Hrow)
      as [[_ Hnone]|[E1 _]].
    + exfalso. exact (Hnone _ _ _ Hev).
    + rewrite E1. discriminate.
Qed.


(** Every run can be continued until all blocks of the grid have claimed
    their rows and all their subwarps are through [mark_ready]. *)
Lemma run_completes (schedule : list agent) (num_blocks : nat) :
  exists later,
    let st := run (schedule ++ later) in
    (forall b, b < num_blocks -> block_offset st b <> None) /\
    (forall b s offset, block_offset st b = Some offset -> s < ldc ->
       pc st b s = Finished) /\
    (num_rows <= num_blocks * ldc ->
     forall row, row < num_rows -> storage st !!! row = 1).
Proof.
  pose proof (ldc_pos block_size subwarp_size subwarp_size_pos block_size_pos
                block_size_multiple) as Hldc.
  set (blocks := map Block (seq 0 num_blocks)).
  assert (Hinv1 : invariant (run (schedule ++ blocks))).
  { apply (invariant_run block_size subwarp_size num_rows dependencies
             subwarp_size_pos block_size_pos block_size_multiple
             dependencies_lower). }
  pose proof (claimed_run (schedule ++ blocks)) as Hcl1.
  destruct (rows_finish _ Hinv1 Hcl1
              (storage (run (schedule ++ blocks)) !!! counter * ldc))
    as (later & Hdone & Hoff & Hcount).
  exists (blocks ++ later). cbn zeta.
  rewrite app_assoc, run_app.
  set (st1 := run (schedule ++ blocks)) in *.
  set (st2 := foldl step st1 later) in *.
  assert (Hinv2 : invariant st2) by (apply invariant_steps; exact Hinv1).
  assert (Hall : forall b, b < num_blocks -> block_offset st2 b <> None).
  { intros b Hb. rewrite Hoff. unfold st1. rewrite run_app.
    apply constructed_all. exact Hb. }
  assert (Hfin : forall b s offset, block_offset st2 b = Some offset ->
            s < ldc -> pc st2 b s = Finished).
  { intros b s offset Hb Hs. apply (Hdone b s offset Hb Hs).
    destruct (inv_offsets _ _ _ _ _ Hinv2 b offset Hb) as [k [Hk ->]].
    rewrite (get_work_id_claimed block_size subwarp_size subwarp_size_pos
               block_size_pos block_size_multiple).
    rewrite Hcount in Hk. nia. }
  split; [exact Hall|]. split; [exact Hfin|].
  intros Hcover row Hrow.
  pose proof (claims_counted st2 num_blocks Hinv2 Hall) as Hmany.
  assert (Hcl2 : claimed st2).
  { intros k Hk. rewrite Hcount in Hk. destruct (Hcl1 k Hk) as [b Hb].
    exists b. rewrite Hoff. exact Hb. }
  assert (Hblock : row / ldc < storage st2 !!! counter).
  { assert (row / ldc < num_blocks); [|lia].
    apply Nat.Div0.div_lt_upper_bound. lia. }
  destruct (Hcl2 _ Hblock) as [b Hb].
  assert (Hs : row mod ldc < ldc) by (apply Nat.mod_upper_bound; lia).
  assert (Hw : work_id (row / ldc * block_size) (row mod ldc) = row).
  { rewrite (get_work_id_claimed block_size subwarp_size subwarp_size_pos
               block_size_pos block_size_multiple).
    pose proof (Nat.div_mod_eq row ldc). lia. }
  pose proof (inv_finished _ _ _ _ _ Hinv2 b _ _ Hb Hs (Hfin _ _ _ Hb Hs))
    as Hev.
  rewrite Hw in Hev. specialize (Hev Hrow).
  destruct (inv_global _ _ _ _ _ Hinv2 row Hrow) as [[_ Hnone]|[E1 _]].
  - exfalso. exact (Hnone _ _ _ Hev).
  - exact E1.
Qed.



End Scheduler.




End SyncfreeProgress.

(** * The kernels between classification and base case of the sample
    select (common/cuda_hip/factorization/par_ilut_select_kernels.hpp.inc) *)

Module SampleSelectKernels.
Import SampleSelect.

(** ** [filter_bucket] *)

Section Filter.

Context {T : Type} `{!Inhabited T} {V : Type} `{!Inhabited V}.
Variable abs : V -> T.
Variable default_block_size : nat.
Variable atomic_order : list nat -> list nat.
Variable items_per_thread : nat.
Variable size bucket : nat.
Variable oracles : list nat.

Local Abbreviation block_indices :=
  (SampleSelect.block_indices default_block_size items_per_thread).

Lemma block_indices_below n blockIdx :
  blockIdx < n ->
  block_indices size blockIdx =
  block_indices
    (Nat.min (default_block_size * n * items_per_thread) size) blockIdx.
Proof.
  intros Hlt. unfold SampleSelect.block_indices. cbn zeta. f_equal.
  assert (default_block_size * (blockIdx + 1) * items_per_thread <=
          default_block_size * n * items_per_thread) by nia.
  lia.
Qed.

(** The indices that the blocks below [n] go through. *)
Lemma block_indices_before n :
  concat (map (block_indices size) (seq 0 n)) =
  seq 0 (Nat.min (default_block_size * n * items_per_thread) size).
Proof.
  rewrite <- (block_indices_concat default_block_size items_per_thread
                (Nat.min (default_block_size * n * items_per_thread) size) n)
    by lia.
  f_equal. apply map_ext_in. intros blockIdx Hin.
  apply in_seq in Hin. apply block_indices_below. lia.
Qed.

Hypothesis atomic_order_perm : forall l, atomic_order l ≡ₚ l.

Lemma copied_before n :
  copied default_block_size atomic_order items_per_thread size bucket
    oracles n ≡ₚ
  hits bucket oracles
    (seq 0 (Nat.min (default_block_size * n * items_per_thread) size)).
Proof.
  rewrite (copied_perm default_block_size atomic_order items_per_thread size
             bucket oracles atomic_order_perm n).
  rewrite block_indices_before. reflexivity.
Qed.

End Filter.

(** [X17]. [filter_bucket] on a grid that covers the input, when the offset
    of every block is the number of elements of the bucket before the
    block's range (what [block_prefix_sum] leaves in the counters): the
    output then starts with the magnitudes of exactly the elements whose
    oracle is the bucket, each once, in an order that depends on the
    order of the atomic additions inside the blocks; the rest of the output
    is not written. *)
Theorem filter_bucket_collects {T : Type} `{!Inhabited T} {V : Type}
    `{!Inhabited V} (abs : V -> T) (default_block_size : nat)
    (atomic_order : list nat -> list nat) (items_per_thread : nat)
    (input : list V) (size bucket : nat) (oracles block_offsets : list nat)
    (gridDim : nat) (output : list T) :
  (forall l, atomic_order l ≡ₚ l) ->
  size <= default_block_size * gridDim * items_per_thread ->
  (forall blockIdx, blockIdx < gridDim ->
     block_offsets !!! (blockIdx + bucket * gridDim) =
     length (hits bucket oracles
               (seq 0 (Nat.min
                         (default_block_size * blockIdx * items_per_thread)
                         size)))) ->
  length (hits bucket oracles (seq 0 size)) <= length output ->
  let out := filter_bucket abs default_block_size atomic_order input size
               bucket oracles block_offsets output items_per_thread
               gridDim in
  let count := length (hits bucket oracles (seq 0 size)) in
  length out = length output /\
  take count out ≡ₚ
    map (fun i => abs (input !!! i)) (hits bucket oracles (seq 0 size)) /\
  drop count out = drop count output.
Proof.
  intros Hperm Hcover Hoffsets Hfit out count.
  assert (Hall : copied default_block_size atomic_order items_per_thread size
                   bucket oracles gridDim ≡ₚ
                 hits bucket oracles (seq 0 size)).
  { rewrite (copied_before default_block_size atomic_order items_per_thread
               size bucket oracles Hperm gridDim).
    rewrite Nat.min_r by lia. reflexivity. }
  assert (Hlen : length (copied default_block_size atomic_order
                           items_per_thread size bucket oracles gridDim) =
                 count).
  { unfold count. apply Permutation_length. exact Hall. }
  assert (Hout : out =
            map (fun i => abs (input !!! i))
                (copied default_block_size atomic_order items_per_thread size
                   bucket oracles gridDim) ++ drop count output).
  { unfold out. rewrite <- Hlen. apply filter_bucket_spec.
    - intros blockIdx Hb. rewrite (Hoffsets blockIdx Hb).
      symmetry. apply Permutation_length.
      apply (copied_before default_block_size atomic_order items_per_thread
               size bucket oracles Hperm blockIdx).
    - rewrite Hlen. exact Hfit. }
  assert (Hmap : length (map (fun i => abs (input !!! i))
                   (copied default_block_size atomic_order items_per_thread
                      size bucket oracles gridDim)) = count)
    by (rewrite length_map; exact Hlen).
  rewrite Hout. split; [|split].
  - rewrite length_app, Hmap, length_drop. unfold count in *. lia.
  - rewrite take_app_length' by (symmetry; exact Hmap).
    apply Permutation_map. exact Hall.
  - rewrite drop_app_length' by (symmetry; exact Hmap). reflexivity.
Qed.

Lemma filter_bucket_collects_witness :
  let out := filter_bucket (fun v : nat => v) 2 reverse [5; 6; 7; 8; 9] 5 1
               [1; 0; 1; 1; 0] [0; 0; 0; 3] (replicate 4 0) 2 2 in
  let count := length (hits 1 [1; 0; 1; 1; 0] (seq 0 5)) in
  length out = length (replicate 4 0) /\
  take count out ≡ₚ
    map (fun i => [5; 6; 7; 8; 9] !!! i) (hits 1 [1; 0; 1; 1; 0] (seq 0 5)) /\
  drop count out = drop count (replicate 4 0).
Proof.
  apply (filter_bucket_collects (fun v : nat => v) 2 reverse 2
           [5; 6; 7; 8; 9] 5 1 [1; 0; 1; 1; 0] [0; 0; 0; 3] 2
           (replicate 4 0)).
  - intros l. apply reverse_Permutation.
  - lia.
  - intros [|[|blockIdx]] Hb; [reflexivity|reflexivity|lia].
  - vm_compute. lia.
Defined.

End SampleSelectKernels.

(** * The prefix sums on integers of a fixed width
    (common/cuda_hip/components/prefix_sum.hpp.inc,
    common/cuda_hip/factorization/par_ilut_select_kernels.hpp.inc)

    The prefix sum kernels are templates over the type of the summed
    values, an integer type of the device.  Here a value of the type is
    the natural number below [2^bits] that its [bits] bits stand for, and
    a sum wraps around; the bits of a sum are the same when they are read
    as a signed number in two's complement.  Modules [PrefixSum],
    [PrefixSumKernels] and [SampleSelect] have the same kernels without the
    wrap-around, and the kernels here compute what those compute, modulo
    [2^bits]. *)

Module FixedWidth.

Section Kernels.

(** The width of [ValueType] and of [IndexType]. *)
Variable bits : nat.

Definition wrap (x : nat) : nat := x mod 2 ^ bits.

(** [x + y] in the type. *)
Definition add (x y : nat) : nat := wrap (x + y).

(** ** [subwarp_prefix_sum] *)

(** One iteration of the hypercube prefix sum on the registers
    [prefix_sum] and [total_sum] of the lanes:
    [neighbor = subwarp.shfl_xor(total_sum, step); total_sum += neighbor;
    prefix_sum += bool(subwarp.thread_rank() & step) ? neighbor : 0]. *)
Definition hypercube_step (step : nat) (st : list nat * list nat)
    : list nat * list nat :=
  let neighbor :=
    map (fun rank => st.2 !!! Nat.lxor rank step) (seq 0 (length st.2)) in
  (imap (fun rank prefix_sum =>
           add prefix_sum
               (if Nat.land rank step =? 0 then 0 else neighbor !!! rank))
        st.1,
   imap (fun rank total_sum => add total_sum (neighbor !!! rank)) st.2).

(** [for (step = 1; step < subwarp.size(); step *= 2)] *)
Fixpoint hypercube (fuel step size : nat) (st : list nat * list nat)
    : list nat * list nat :=
  match fuel with
  | O => st
  | S fuel' =>
      if step <? size
      then hypercube fuel' (step * 2) size (hypercube_step step st)
      else st
  end.

Definition subwarp_prefix_sum (inclusive : bool) (element : list nat)
    : list nat * list nat :=
  hypercube (length element) 1 (length element)
    (map (fun e => if inclusive then e else 0) element, element).

(** ** [start_prefix_sum] and [finalize_prefix_sum] *)

(** The template parameter [block_size]: the number of threads of a block
    and of entries of the shared array [prefix_helper]. *)
Variable block_size : nat.

Local Abbreviation get_thread_id_flat :=
  (PrefixSumKernels.get_thread_id_flat block_size).

(** [prefix_helper[element_id] = (tidx + 1 < num_elements) ? elements[tidx]
    : zero<ValueType>()] for the threads of one block. *)
Definition load_prefix_helper (num_elements : nat) (elements : list nat)
    (blockIdx : nat) : list nat :=
  map (fun element_id =>
         let tidx := get_thread_id_flat blockIdx element_id in
         if tidx + 1 <? num_elements then elements !!! tidx else 0)
      (seq 0 block_size).

(** The reduction, thread [element_id] in the iteration of [i]:
    [if (bi < block_size) prefix_helper[bi] += prefix_helper[ai]]. *)
Definition reduction_thread (i : nat) (prefix_helper : list nat)
    (element_id : nat) : list nat :=
  let ai := i * (2 * element_id + 1) - 1 in
  let bi := i * (2 * element_id + 2) - 1 in
  if bi <? block_size
  then <[bi := add (prefix_helper !!! bi) (prefix_helper !!! ai)]>
         prefix_helper
  else prefix_helper.

(** [for (int i = 1; i < block_size; i <<= 1)], the threads of the block
    between two [sync]s one after the other. *)
Fixpoint reduction (fuel i : nat) (prefix_helper : list nat) : list nat :=
  match fuel with
  | O => prefix_helper
  | S fuel' =>
      if i <? block_size
      then reduction fuel' (Nat.shiftl i 1)
             (foldl (reduction_thread i) prefix_helper (seq 0 block_size))
      else prefix_helper
  end.

(** The down-sweep, thread [element_id] in the iteration of [i]:
    [auto tmp = prefix_helper[ai]; prefix_helper[ai] = prefix_helper[bi];
    prefix_helper[bi] += tmp;]. *)
Definition down_sweep_thread (i : nat) (prefix_helper : list nat)
    (element_id : nat) : list nat :=
  let ai := i * (2 * element_id + 1) - 1 in
  let bi := i * (2 * element_id + 2) - 1 in
  if bi <? block_size
  then
    let tmp := prefix_helper !!! ai in
    let moved := <[ai := prefix_helper !!! bi]> prefix_helper in
    <[bi := add (moved !!! bi) tmp]> moved
  else prefix_helper.

(** [for (int i = block_size >> 1; i > 0; i >>= 1)] *)
Fixpoint down_sweep (fuel i : nat) (prefix_helper : list nat) : list nat :=
  match fuel with
  | O => prefix_helper
  | S fuel' =>
      if 0 <? i
      then down_sweep fuel' (Nat.shiftr i 1)
             (foldl (down_sweep_thread i) prefix_helper (seq 0 block_size))
      else prefix_helper
  end.

(** [start_prefix_sum], one block: the arrays [elements] and [block_sum]
    afterwards. *)
Definition start_prefix_sum_block (num_elements gridDim : nat)
    (st : list nat * list nat) (blockIdx : nat) : list nat * list nat :=
  let loaded := load_prefix_helper num_elements st.1 blockIdx in
  let reduced := reduction block_size 1 loaded in
  let block_sum :=
    if blockIdx + 1 <? gridDim
    then <[blockIdx := reduced !!! (block_size - 1)]> st.2
    else st.2 in
  let cleared := <[block_size - 1 := 0]> reduced in
  let swept := down_sweep block_size (Nat.shiftr block_size 1) cleared in
  (foldl (fun elements element_id =>
            let tidx := get_thread_id_flat blockIdx element_id in
            if tidx <? num_elements
            then <[tidx := swept !!! element_id]> elements
            else elements)
         st.1 (seq 0 block_size),
   block_sum).

(** [start_prefix_sum] on a grid of [gridDim] blocks. *)
Definition start_prefix_sum (num_elements gridDim : nat)
    (elements block_sum : list nat) : list nat * list nat :=
  foldl (start_prefix_sum_block num_elements gridDim) (elements, block_sum)
        (seq 0 gridDim).

(** [finalize_prefix_sum], one thread: [for (i = 0; i < blockIdx.x; i++)
    prefix_block_sum += block_sum[i]; elements[tidx] += prefix_block_sum]. *)
Definition finalize_thread (num_elements : nat) (block_sum : list nat)
    (blockIdx : nat) (elements : list nat) (threadIdx : nat) : list nat :=
  let tidx := get_thread_id_flat blockIdx threadIdx in
  if tidx <? num_elements
  then
    let prefix_block_sum :=
      foldl (fun acc i => add acc (block_sum !!! i)) 0 (seq 0 blockIdx) in
    <[tidx := add (elements !!! tidx) prefix_block_sum]> elements
  else elements.

(** [finalize_prefix_sum] on a grid of [gridDim] blocks. *)
Definition finalize_prefix_sum (num_elements gridDim : nat)
    (elements block_sum : list nat) : list nat :=
  foldl (fun elements blockIdx =>
           foldl (finalize_thread num_elements block_sum blockIdx) elements
                 (seq 0 block_size))
        elements (seq 0 gridDim).

(** The two kernels one after the other, as the note of [start_prefix_sum]
    asks for. *)
Definition prefix_sum_kernels (num_elements gridDim : nat)
    (elements block_sum : list nat) : list nat :=
  let started := start_prefix_sum num_elements gridDim elements block_sum in
  finalize_prefix_sum num_elements gridDim started.1 started.2.

(** ** [block_prefix_sum] *)

Variable sampleselect_searchtree_height : nat.
Variable default_block_size : nat.
Variable warp_size : nat.

Local Abbreviation searchtree_width :=
  (SampleSelect.searchtree_width sampleselect_searchtree_height).
Local Abbreviation num_warps :=
  (SampleSelect.num_warps default_block_size warp_size).
Local Abbreviation ceildiv := SampleSelect.ceildiv.

(** First loop, one step of one warp: the lanes load their counters, scan
    them over the warp, and store the prefix plus the total of the steps
    before. *)
Definition warp_scan_step (offset num_blocks base_idx : nat)
    (st : list nat * list nat) (step : nat) : list nat * list nat :=
  let idx warp_lane := warp_lane + step * warp_size + base_idx in
  let val :=
    map (fun warp_lane =>
           if idx warp_lane <? num_blocks
           then st.1 !!! (offset + idx warp_lane) else 0)
        (seq 0 warp_size) in
  let scan := subwarp_prefix_sum false val in
  (foldl (fun local_counters warp_lane =>
            if idx warp_lane <? num_blocks
            then <[offset + idx warp_lane :=
                     add (scan.1 !!! warp_lane) (st.2 !!! warp_lane)]>
                   local_counters
            else local_counters) st.1 (seq 0 warp_size),
   imap (fun warp_lane total => add total (scan.2 !!! warp_lane)) st.2).

(** First loop of warp [warp_idx] and the store of its total. *)
Definition warp_scan (offset num_blocks : nat) (st : list nat * list nat)
    (warp_idx : nat) : list nat * list nat :=
  let work_per_warp := ceildiv num_blocks warp_size in
  let base_idx := warp_idx * work_per_warp * warp_size in
  let scanned :=
    foldl (warp_scan_step offset num_blocks base_idx)
          (st.1, replicate warp_size 0) (seq 0 work_per_warp) in
  (scanned.1, <[warp_idx := scanned.2 !!! 0]> st.2).

(** The scan of the warps' totals by warp 0. *)
Definition warp_sums_scan (bucket : nat) (warp_sums totals : list nat)
    : list nat * list nat :=
  let val :=
    map (fun warp_lane =>
           if warp_lane <? num_warps then warp_sums !!! warp_lane else 0)
        (seq 0 warp_size) in
  let scan := subwarp_prefix_sum false val in
  (foldl (fun warp_sums warp_lane =>
            if warp_lane <? num_warps
            then <[warp_lane := scan.1 !!! warp_lane]> warp_sums
            else warp_sums) warp_sums (seq 0 warp_size),
   <[bucket := scan.2 !!! 0]> totals).

(** Last loop of warp [warp_idx]. *)
Definition warp_add (offset num_blocks : nat) (warp_sums : list nat)
    (local_counters : list nat) (warp_idx : nat) : list nat :=
  let work_per_warp := ceildiv num_blocks warp_size in
  let base_idx := warp_idx * work_per_warp * warp_size in
  let warp_prefixsum := warp_sums !!! warp_idx in
  foldl (fun local_counters step =>
           foldl (fun local_counters warp_lane =>
                    let idx := warp_lane + step * warp_size + base_idx in
                    if idx <? num_blocks
                    then <[offset + idx :=
                             add (local_counters !!! (offset + idx))
                                 warp_prefixsum]> local_counters
                    else local_counters)
                 local_counters (seq 0 warp_size))
        local_counters (seq 0 work_per_warp).

(** [block_prefix_sum] for the block of one bucket; [local_counters] is
    [counters + num_blocks * bucket], and [warp_sums0] is what the shared
    array [warp_sums], which the kernel does not initialise, holds when the
    block starts. *)
Definition block_prefix_sum_bucket (warp_sums0 : nat -> list nat)
    (num_blocks : nat) (st : list nat * list nat) (bucket : nat)
    : list nat * list nat :=
  let offset := num_blocks * bucket in
  let scanned :=
    foldl (warp_scan offset num_blocks) (st.1, warp_sums0 bucket)
          (seq 0 num_warps) in
  let sums := warp_sums_scan bucket scanned.2 st.2 in
  (foldl (warp_add offset num_blocks sums.1) scanned.1 (seq 0 num_warps),
   sums.2).

(** [block_prefix_sum] on its grid of one block per bucket. *)
Definition block_prefix_sum (warp_sums0 : nat -> list nat)
    (counters totals : list nat) (num_blocks : nat)
  : list nat * list nat :=
  foldl (block_prefix_sum_bucket warp_sums0 num_blocks) (counters, totals)
        (seq 0 searchtree_width).

End Kernels.

(** ** The kernels compute the unbounded sums modulo [2^bits] *)

Section Simulation.

Variable bits : nat.

Local Abbreviation wrap := (wrap bits).
Local Abbreviation add := (add bits).

Definition wrap_list (l : list nat) : list nat := map wrap l.

Definition wrap_pair (st : list nat * list nat) : list nat * list nat :=
  (wrap_list st.1, wrap_list st.2).

(** The values of the type. *)
Definition in_range (l : list nat) : Prop := Forall (fun x => x < 2 ^ bits) l.

Lemma modulus_pos : 0 < 2 ^ bits.
Proof. apply Nat.neq_0_lt_0, Nat.pow_nonzero. lia. Qed.

Lemma wrap_zero : wrap 0 = 0.
Proof. unfold FixedWidth.wrap. apply Nat.Div0.mod_0_l. Qed.

Lemma wrap_wrap x : wrap (wrap x) = wrap x.
Proof. unfold FixedWidth.wrap. apply Nat.Div0.mod_mod. Qed.

Lemma wrap_small x : x < 2 ^ bits -> wrap x = x.
Proof. unfold FixedWidth.wrap. apply Nat.mod_small. Qed.

Lemma add_wrap x y : add (wrap x) (wrap y) = wrap (x + y).
Proof.
  unfold FixedWidth.add, FixedWidth.wrap. symmetry. apply Nat.Div0.add_mod.
Qed.

Lemma wrap_list_length l : length (wrap_list l) = length l.
Proof. apply length_map. Qed.

Lemma wrap_list_lookup l i : wrap_list l !!! i = wrap (l !!! i).
Proof.
  unfold wrap_list. destruct (decide (i < length l)) as [Hi|Hi].
  - apply list_lookup_total_fmap. exact Hi.
  - rewrite !list_lookup_total_alt, list_lookup_fmap.
    rewrite (lookup_ge_None_2 l i) by lia. simpl. symmetry. apply wrap_zero.
Qed.

Lemma wrap_list_insert l i v :
  <[i := wrap v]> (wrap_list l) = wrap_list (<[i := v]> l).
Proof. unfold wrap_list. symmetry. apply list_fmap_insert. Qed.

Lemma wrap_list_insert_zero l i :
  <[i := 0]> (wrap_list l) = wrap_list (<[i := 0]> l).
Proof. rewrite <- wrap_zero at 1. apply wrap_list_insert. Qed.

Lemma wrap_list_in_range l : in_range l -> wrap_list l = l.
Proof.
  intros Hl. unfold wrap_list. rewrite <- (map_id l) at 2.
  apply map_ext_Forall. eapply Forall_impl; [exact Hl|].
  intros x Hx. apply wrap_small. exact Hx.
Qed.

Lemma wrap_list_replicate n : wrap_list (replicate n 0) = replicate n 0.
Proof.
  unfold wrap_list. rewrite fmap_replicate, wrap_zero. reflexivity.
Qed.

Lemma wrap_list_map_seq (f g : nat -> nat) start len :
  (forall i, f i = wrap (g i)) ->
  map f (seq start len) = wrap_list (map g (seq start len)).
Proof.
  intros Hfg. unfold wrap_list. rewrite map_map. apply map_ext.
  intros i. apply Hfg.
Qed.

Lemma wrap_list_imap (f g : nat -> nat -> nat) l :
  (forall i x, f i (wrap x) = wrap (g i x)) ->
  imap f (wrap_list l) = wrap_list (imap g l).
Proof.
  intros Hfg. unfold wrap_list. rewrite imap_fmap, fmap_imap.
  apply imap_ext. intros i x _. apply Hfg.
Qed.

Lemma foldl_wrap_list {X} (f g : list nat -> X -> list nat) (l : list X) :
  (forall acc x, f (wrap_list acc) x = wrap_list (g acc x)) ->
  forall acc, foldl f (wrap_list acc) l = wrap_list (foldl g acc l).
Proof.
  intros Hfg. induction l as [|x l IH]; intros acc; [reflexivity|].
  simpl. rewrite Hfg. apply IH.
Qed.

Lemma foldl_wrap_pair {X}
    (f g : list nat * list nat -> X -> list nat * list nat) (l : list X) :
  (forall acc x, f (wrap_pair acc) x = wrap_pair (g acc x)) ->
  forall acc, foldl f (wrap_pair acc) l = wrap_pair (foldl g acc l).
Proof.
  intros Hfg. induction l as [|x l IH]; intros acc; [reflexivity|].
  simpl. rewrite Hfg. apply IH.
Qed.

(** *** The subwarp scan *)

Lemma hypercube_step_wrap step st :
  hypercube_step bits step (wrap_pair st) =
  wrap_pair (PrefixSum.hypercube_step step st).
Proof.
  unfold hypercube_step, PrefixSum.hypercube_step, wrap_pair.
  cbn [fst snd]. rewrite wrap_list_length.
  rewrite (wrap_list_map_seq
             (fun rank => wrap_list st.2 !!! Nat.lxor rank step)
             (fun rank => st.2 !!! Nat.lxor rank step))
    by (intros i; apply wrap_list_lookup).
  f_equal; apply wrap_list_imap; intros rank x.
  - destruct (Nat.land rank step =? 0).
    + rewrite <- wrap_zero at 1. apply add_wrap.
    + rewrite wrap_list_lookup. apply add_wrap.
  - rewrite wrap_list_lookup. apply add_wrap.
Qed.

Lemma hypercube_wrap size : forall fuel step st,
  hypercube bits fuel step size (wrap_pair st) =
  wrap_pair (PrefixSum.hypercube fuel step size st).
Proof.
  induction fuel as [|fuel IH]; intros step st; [reflexivity|].
  cbn [hypercube PrefixSum.hypercube].
  destruct (step <? size); [|reflexivity].
  rewrite hypercube_step_wrap. apply IH.
Qed.

Lemma subwarp_prefix_sum_wrap inclusive element :
  subwarp_prefix_sum bits inclusive (wrap_list element) =
  wrap_pair (PrefixSum.subwarp_prefix_sum inclusive element).
Proof.
  unfold subwarp_prefix_sum, PrefixSum.subwarp_prefix_sum.
  rewrite wrap_list_length, <- hypercube_wrap. f_equal.
  unfold wrap_pair, wrap_list. cbn [fst snd]. f_equal.
  rewrite !map_map. apply map_ext. intros e.
  destruct inclusive; [reflexivity|symmetry; apply wrap_zero].
Qed.

(** *** The block scan *)

Section Block.

Variable block_size : nat.

Lemma load_prefix_helper_wrap num_elements elements blockIdx :
  load_prefix_helper block_size num_elements (wrap_list elements) blockIdx =
  wrap_list
    (PrefixSumKernels.load_prefix_helper block_size num_elements elements
       blockIdx).
Proof.
  unfold load_prefix_helper, PrefixSumKernels.load_prefix_helper.
  apply wrap_list_map_seq. intros element_id. cbn zeta.
  destruct (_ <? num_elements);
    [apply wrap_list_lookup|symmetry; apply wrap_zero].
Qed.

Lemma reduction_thread_wrap i prefix_helper element_id :
  reduction_thread bits block_size i (wrap_list prefix_helper) element_id =
  wrap_list
    (PrefixSumKernels.reduction_thread block_size i prefix_helper
       element_id).
Proof.
  unfold reduction_thread, PrefixSumKernels.reduction_thread. cbn zeta.
  destruct (_ <? block_size); [|reflexivity].
  rewrite !wrap_list_lookup, add_wrap. apply wrap_list_insert.
Qed.

Lemma reduction_wrap : forall fuel i prefix_helper,
  reduction bits block_size fuel i (wrap_list prefix_helper) =
  wrap_list (PrefixSumKernels.reduction block_size fuel i prefix_helper).
Proof.
  induction fuel as [|fuel IH]; intros i prefix_helper; [reflexivity|].
  cbn [reduction PrefixSumKernels.reduction].
  destruct (i <? block_size); [|reflexivity].
  rewrite (foldl_wrap_list _
             (PrefixSumKernels.reduction_thread block_size i))
    by (intros; apply reduction_thread_wrap).
  apply IH.
Qed.

Lemma down_sweep_thread_wrap i prefix_helper element_id :
  down_sweep_thread bits block_size i (wrap_list prefix_helper) element_id =
  wrap_list
    (PrefixSumKernels.down_sweep_thread block_size i prefix_helper
       element_id).
Proof.
  unfold down_sweep_thread, PrefixSumKernels.down_sweep_thread. cbn zeta.
  destruct (_ <? block_size); [|reflexivity].
  rewrite (wrap_list_lookup prefix_helper (i * (2 * element_id + 2) - 1)).
  rewrite wrap_list_insert.
  rewrite !wrap_list_lookup, add_wrap. apply wrap_list_insert.
Qed.

Lemma down_sweep_wrap : forall fuel i prefix_helper,
  down_sweep bits block_size fuel i (wrap_list prefix_helper) =
  wrap_list (PrefixSumKernels.down_sweep block_size fuel i prefix_helper).
Proof.
  induction fuel as [|fuel IH]; intros i prefix_helper; [reflexivity|].
  cbn [down_sweep PrefixSumKernels.down_sweep].
  destruct (0 <? i); [|reflexivity].
  rewrite (foldl_wrap_list _
             (PrefixSumKernels.down_sweep_thread block_size i))
    by (intros; apply down_sweep_thread_wrap).
  apply IH.
Qed.

Lemma start_prefix_sum_block_wrap num_elements gridDim st blockIdx :
  start_prefix_sum_block bits block_size num_elements gridDim (wrap_pair st)
    blockIdx =
  wrap_pair
    (PrefixSumKernels.start_prefix_sum_block block_size num_elements gridDim
       st blockIdx).
Proof.
  unfold start_prefix_sum_block, PrefixSumKernels.start_prefix_sum_block.
  cbn zeta. unfold wrap_pair at 1 2 3 4. cbn [fst snd].
  rewrite load_prefix_helper_wrap, reduction_wrap.
  rewrite wrap_list_insert_zero, down_sweep_wrap.
  unfold wrap_pair. cbn [fst snd]. f_equal.
  - apply foldl_wrap_list. intros acc element_id.
    destruct (_ <? num_elements); [|reflexivity].
    rewrite wrap_list_lookup. apply wrap_list_insert.
  - destruct (_ <? gridDim); [|reflexivity].
    rewrite wrap_list_lookup. apply wrap_list_insert.
Qed.

Lemma start_prefix_sum_wrap num_elements gridDim elements block_sum :
  start_prefix_sum bits block_size num_elements gridDim
    (wrap_list elements) (wrap_list block_sum) =
  wrap_pair
    (PrefixSumKernels.start_prefix_sum block_size num_elements gridDim
       elements block_sum).
Proof.
  unfold start_prefix_sum, PrefixSumKernels.start_prefix_sum.
  change (wrap_list elements, wrap_list block_sum)
    with (wrap_pair (elements, block_sum)).
  apply foldl_wrap_pair. intros acc blockIdx.
  apply start_prefix_sum_block_wrap.
Qed.

Lemma prefix_block_sum_wrap block_sum blockIdx :
  foldl (fun acc i => add acc (wrap_list block_sum !!! i)) 0
        (seq 0 blockIdx) =
  wrap (foldl (fun acc i => acc + block_sum !!! i) 0 (seq 0 blockIdx)).
Proof.
  assert (H : forall l acc,
            foldl (fun acc i => add acc (wrap_list block_sum !!! i))
                  (wrap acc) l =
            wrap (foldl (fun acc i => acc + block_sum !!! i) acc l)).
  { induction l as [|i l IH]; intros acc; [reflexivity|].
    simpl. rewrite wrap_list_lookup, add_wrap. apply IH. }
  rewrite <- (H (seq 0 blockIdx) 0), wrap_zero. reflexivity.
Qed.

Lemma finalize_thread_wrap num_elements block_sum blockIdx elements
    threadIdx :
  finalize_thread bits block_size num_elements (wrap_list block_sum)
    blockIdx (wrap_list elements) threadIdx =
  wrap_list
    (PrefixSumKernels.finalize_thread block_size num_elements block_sum
       blockIdx elements threadIdx).
Proof.
  unfold finalize_thread, PrefixSumKernels.finalize_thread. cbn zeta.
  destruct (_ <? num_elements); [|reflexivity].
  rewrite prefix_block_sum_wrap, wrap_list_lookup, add_wrap.
  apply wrap_list_insert.
Qed.

Lemma finalize_prefix_sum_wrap num_elements gridDim elements block_sum :
  finalize_prefix_sum bits block_size num_elements gridDim
    (wrap_list elements) (wrap_list block_sum) =
  wrap_list
    (PrefixSumKernels.finalize_prefix_sum block_size num_elements gridDim
       elements block_sum).
Proof.
  unfold finalize_prefix_sum, PrefixSumKernels.finalize_prefix_sum.
  apply foldl_wrap_list. intros acc blockIdx.
  apply foldl_wrap_list. intros acc' threadIdx.
  apply finalize_thread_wrap.
Qed.

Lemma prefix_sum_kernels_wrap num_elements gridDim elements block_sum :
  prefix_sum_kernels bits block_size num_elements gridDim
    (wrap_list elements) (wrap_list block_sum) =
  wrap_list
    (PrefixSumKernels.prefix_sum_kernels block_size num_elements gridDim
       elements block_sum).
Proof.
  unfold prefix_sum_kernels, PrefixSumKernels.prefix_sum_kernels. cbn zeta.
  rewrite start_prefix_sum_wrap. unfold wrap_pair. cbn [fst snd].
  apply finalize_prefix_sum_wrap.
Qed.

End Block.

End Simulation.

(** *** The scan of the bucket counters *)

Section BucketScan.

Variable bits : nat.
Variable sampleselect_searchtree_height : nat.
Variable default_block_size : nat.
Variable warp_size : nat.

Local Abbreviation wrap := (wrap bits).
Local Abbreviation add := (add bits).
Local Abbreviation wrap_list := (wrap_list bits).
Local Abbreviation wrap_pair := (wrap_pair bits).
Local Abbreviation num_warps :=
  (SampleSelect.num_warps default_block_size warp_size).

Lemma warp_scan_step_wrap offset num_blocks base_idx st step :
  warp_scan_step bits warp_size offset num_blocks base_idx (wrap_pair st)
    step =
  wrap_pair
    (SampleSelect.warp_scan_step warp_size offset num_blocks base_idx st
       step).
Proof.
  unfold warp_scan_step, SampleSelect.warp_scan_step. cbn zeta.
  unfold FixedWidth.wrap_pair at 1 2 3 4. cbn [fst snd].
  rewrite (wrap_list_map_seq bits _
             (fun warp_lane =>
                if warp_lane + step * warp_size + base_idx <? num_blocks
                then st.1 !!! (offset +
                               (warp_lane + step * warp_size + base_idx))
                else 0))
    by (intros i; destruct (_ <? num_blocks);
        [apply wrap_list_lookup|symmetry; apply wrap_zero]).
  rewrite subwarp_prefix_sum_wrap.
  unfold FixedWidth.wrap_pair. cbn [fst snd]. f_equal.
  - apply foldl_wrap_list. intros acc warp_lane.
    destruct (_ <? num_blocks); [|reflexivity].
    rewrite !wrap_list_lookup, add_wrap. apply wrap_list_insert.
  - apply wrap_list_imap. intros warp_lane total.
    rewrite wrap_list_lookup. apply add_wrap.
Qed.

Lemma warp_scan_wrap offset num_blocks st warp_idx :
  warp_scan bits warp_size offset num_blocks (wrap_pair st) warp_idx =
  wrap_pair (SampleSelect.warp_scan warp_size offset num_blocks st warp_idx).
Proof.
  unfold warp_scan. cbn zeta.
  unfold FixedWidth.wrap_pair at 1 2 3. cbn [fst snd].
  assert (Hscan :
    foldl (warp_scan_step bits warp_size offset num_blocks
             (warp_idx * SampleSelect.ceildiv num_blocks warp_size *
              warp_size))
          (wrap_list st.1, replicate warp_size 0)
          (seq 0 (SampleSelect.ceildiv num_blocks warp_size)) =
    wrap_pair
      (foldl (SampleSelect.warp_scan_step warp_size offset num_blocks
                (warp_idx * SampleSelect.ceildiv num_blocks warp_size *
                 warp_size))
             (st.1, replicate warp_size 0)
             (seq 0 (SampleSelect.ceildiv num_blocks warp_size)))).
  { rewrite <- (wrap_list_replicate bits warp_size) at 1.
    apply (foldl_wrap_pair bits
             (warp_scan_step bits warp_size offset num_blocks _)
             (SampleSelect.warp_scan_step warp_size offset num_blocks _)
             _ ltac:(intros; apply warp_scan_step_wrap)
             (st.1, replicate warp_size 0)). }
  rewrite Hscan. unfold SampleSelect.warp_scan, FixedWidth.wrap_pair.
  cbn [fst snd]. f_equal.
  rewrite wrap_list_lookup. apply wrap_list_insert.
Qed.

Lemma warp_sums_scan_wrap bucket warp_sums totals :
  warp_sums_scan bits default_block_size warp_size bucket
    (wrap_list warp_sums) (wrap_list totals) =
  wrap_pair
    (SampleSelect.warp_sums_scan default_block_size warp_size bucket
       warp_sums totals).
Proof.
  unfold warp_sums_scan, SampleSelect.warp_sums_scan. cbn zeta.
  rewrite (wrap_list_map_seq bits _
             (fun warp_lane =>
                if warp_lane <? num_warps then warp_sums !!! warp_lane
                else 0))
    by (intros i; destruct (_ <? num_warps);
        [apply wrap_list_lookup|symmetry; apply wrap_zero]).
  rewrite subwarp_prefix_sum_wrap.
  unfold FixedWidth.wrap_pair. cbn [fst snd]. f_equal.
  - apply foldl_wrap_list. intros acc warp_lane.
    destruct (_ <? num_warps); [|reflexivity].
    rewrite wrap_list_lookup. apply wrap_list_insert.
  - rewrite wrap_list_lookup. apply wrap_list_insert.
Qed.

Lemma warp_add_wrap offset num_blocks warp_sums local_counters warp_idx :
  warp_add bits warp_size offset num_blocks (wrap_list warp_sums)
    (wrap_list local_counters) warp_idx =
  wrap_list
    (SampleSelect.warp_add warp_size offset num_blocks warp_sums
       local_counters warp_idx).
Proof.
  unfold warp_add, SampleSelect.warp_add. cbn zeta.
  apply foldl_wrap_list. intros acc step.
  apply foldl_wrap_list. intros acc' warp_lane.
  destruct (_ <? num_blocks); [|reflexivity].
  rewrite !wrap_list_lookup, add_wrap. apply wrap_list_insert.
Qed.

(** What the shared array holds at the start does not matter: every warp
    stores its slot. *)
Lemma warp_scan_slots offset num_blocks (l : list nat) :
  forall counters (sums sums' : list nat),
    length sums = length sums' ->
    let st := foldl (warp_scan bits warp_size offset num_blocks)
                    (counters, sums) l in
    let st' := foldl (warp_scan bits warp_size offset num_blocks)
                     (counters, sums') l in
    st.1 = st'.1 /\ length st.2 = length st'.2 /\
    forall i, i ∈ l \/ sums !! i = sums' !! i -> st.2 !! i = st'.2 !! i.
Proof.
  induction l as [|x l IH]; intros counters sums sums' Hlen st st'.
  - subst st st'. simpl. split; [reflexivity|]. split; [exact Hlen|].
    intros i [Hin|Hi]; [inversion Hin|exact Hi].
  - subst st st'. cbn [foldl].
    unfold warp_scan at 2 4. cbn zeta. cbn [fst snd].
    set (scanned := foldl _ (counters, replicate warp_size 0) _).
    destruct (IH scanned.1 (<[x := scanned.2 !!! 0]> sums)
                (<[x := scanned.2 !!! 0]> sums')
                ltac:(rewrite !length_insert; exact Hlen))
      as (H1 & H2 & H3).
    split; [exact H1|]. split; [exact H2|].
    intros i Hi. apply H3.
    destruct (decide (i = x)) as [->|Hne].
    + right. destruct (decide (x < length sums)) as [Hx|Hx].
      * rewrite !list_lookup_insert_eq by lia. reflexivity.
      * rewrite !list_insert_ge by lia.
        rewrite !lookup_ge_None_2 by lia. reflexivity.
    + destruct Hi as [Hin|Hi].
      * left. apply elem_of_cons in Hin as [->|Hin]; [congruence|exact Hin].
      * right. rewrite !list_lookup_insert_ne by congruence. exact Hi.
Qed.

Lemma warp_scan_initial offset num_blocks counters (sums : list nat) :
  length sums = num_warps ->
  foldl (warp_scan bits warp_size offset num_blocks) (counters, sums)
        (seq 0 num_warps) =
  foldl (warp_scan bits warp_size offset num_blocks)
        (counters, replicate num_warps 0) (seq 0 num_warps).
Proof.
  intros Hlen.
  destruct (warp_scan_slots offset num_blocks (seq 0 num_warps) counters
              sums (replicate num_warps 0)
              ltac:(rewrite length_replicate; exact Hlen))
    as (H1 & H2 & H3).
  apply injective_projections; [exact H1|].
  apply list_eq. intros i. apply H3.
  destruct (decide (i < num_warps)) as [Hi|Hi].
  - left. apply elem_of_seq. lia.
  - right. rewrite !lookup_ge_None_2; [reflexivity| |];
      rewrite ?length_replicate; lia.
Qed.

Lemma block_prefix_sum_bucket_wrap warp_sums0 num_blocks st bucket :
  length (warp_sums0 bucket) = num_warps ->
  block_prefix_sum_bucket bits default_block_size warp_size warp_sums0
    num_blocks (wrap_pair st) bucket =
  wrap_pair
    (SampleSelect.block_prefix_sum_bucket default_block_size warp_size
       num_blocks st bucket).
Proof.
  intros Hlen. unfold block_prefix_sum_bucket. cbn zeta.
  unfold FixedWidth.wrap_pair. cbn [fst snd].
  rewrite warp_scan_initial by exact Hlen.
  assert (Hscan :
    foldl (warp_scan bits warp_size (num_blocks * bucket) num_blocks)
          (wrap_list st.1, replicate num_warps 0) (seq 0 num_warps) =
    wrap_pair
      (foldl (SampleSelect.warp_scan warp_size (num_blocks * bucket)
                num_blocks)
             (st.1, replicate num_warps 0) (seq 0 num_warps))).
  { rewrite <- (wrap_list_replicate bits num_warps) at 1.
    apply (foldl_wrap_pair bits
             (warp_scan bits warp_size (num_blocks * bucket) num_blocks)
             (SampleSelect.warp_scan warp_size (num_blocks * bucket)
                num_blocks)
             _ ltac:(intros; apply warp_scan_wrap)
             (st.1, replicate num_warps 0)). }
  rewrite Hscan. unfold FixedWidth.wrap_pair. cbn [fst snd].
  rewrite warp_sums_scan_wrap.
  unfold SampleSelect.block_prefix_sum_bucket, FixedWidth.wrap_pair.
  cbn [fst snd]. f_equal.
  apply foldl_wrap_list. intros acc warp_idx. apply warp_add_wrap.
Qed.

Lemma block_prefix_sum_wrap warp_sums0 counters totals num_blocks :
  (forall bucket,
     bucket < SampleSelect.searchtree_width sampleselect_searchtree_height ->
     length (warp_sums0 bucket) = num_warps) ->
  block_prefix_sum bits sampleselect_searchtree_height default_block_size
    warp_size warp_sums0 (wrap_list counters) (wrap_list totals) num_blocks =
  wrap_pair
    (SampleSelect.block_prefix_sum sampleselect_searchtree_height
       default_block_size warp_size counters totals num_blocks).
Proof.
  intros Hlen. unfold block_prefix_sum, SampleSelect.block_prefix_sum.
  change (FixedWidth.wrap_list bits counters,
          FixedWidth.wrap_list bits totals)
    with (wrap_pair (counters, totals)).
  generalize (counters, totals).
  assert (Hin : forall bucket,
            bucket ∈ seq 0 (SampleSelect.searchtree_width
                              sampleselect_searchtree_height) ->
            length (warp_sums0 bucket) = num_warps).
  { intros bucket Hb. apply Hlen. apply elem_of_seq in Hb. lia. }
  induction (seq 0 _) as [|bucket l IH]; intros st; [reflexivity|].
  simpl. rewrite block_prefix_sum_bucket_wrap
    by (apply Hin; apply elem_of_cons; left; reflexivity).
  apply IH. intros b Hb. apply Hin. apply elem_of_cons. right. exact Hb.
Qed.

End BucketScan.

(** ** The scans *)

Lemma in_range_lookup bits (l : list nat) i :
  in_range bits l -> wrap bits (l !!! i) = l !!! i.
Proof.
  intros Hl. destruct (decide (i < length l)) as [Hi|Hi].
  - apply wrap_small.
    apply (Forall_lookup_total_1 (fun x => x < 2 ^ bits) l i Hl Hi).
  - rewrite list_lookup_total_alt, (lookup_ge_None_2 l i) by lia.
    apply wrap_zero.
Qed.

(** [X1].  [subwarp_prefix_sum] over a subwarp of [2^h] lanes, on values
    of [bits] bits: lane [r] gets the sum of the elements of the lanes
    below it, plus its own for the inclusive variant, and every lane gets
    the sum of all elements, both modulo [2^bits]. *)
Theorem subwarp_prefix_sum_scans (bits : nat) (element : list nat) (h : nat)
    (inclusive : bool) :
  length element = 2 ^ h ->
  in_range bits element ->
  let st := subwarp_prefix_sum bits inclusive element in
  length st.1 = 2 ^ h /\ length st.2 = 2 ^ h /\
  forall r, r < 2 ^ h ->
    st.1 !!! r =
      wrap bits (sum_list (take (if inclusive then S r else r) element)) /\
    st.2 !!! r = wrap bits (sum_list element).
Proof.
  intros Hlen Hrange st.
  assert (E : st = wrap_pair bits
                     (PrefixSum.subwarp_prefix_sum inclusive element)).
  { rewrite <- subwarp_prefix_sum_wrap, wrap_list_in_range by exact Hrange.
    reflexivity. }
  rewrite E. clear E st.
  destruct (PrefixSumKernels.subwarp_prefix_sum_sums element h inclusive Hlen)
    as (L1 & L2 & Hsum).
  unfold wrap_pair. cbn [fst snd]. rewrite !wrap_list_length.
  split; [exact L1|]. split; [exact L2|]. intros r Hr.
  rewrite !wrap_list_lookup. destruct (Hsum r Hr) as [-> ->]. auto.
Qed.

(** [X2].  [start_prefix_sum] with a block size of [2^h], on values of
    [bits] bits: every block leaves in its elements the sums, modulo
    [2^bits], of the elements before them in the block, and every block but
    the last stores the sum of its elements in [block_sum]; the last
    element of the array is not read, and nothing from [num_elements] on
    is written. *)
Theorem start_prefix_sum_blocks (bits block_size h num_elements gridDim : nat)
    (elements block_sum : list nat) :
  block_size = 2 ^ h ->
  num_elements <= length elements ->
  gridDim - 1 <= length block_sum ->
  in_range bits elements -> in_range bits block_sum ->
  let st := start_prefix_sum bits block_size num_elements gridDim elements
              block_sum in
  length st.1 = length elements /\ length st.2 = length block_sum /\
  (forall i, i < num_elements -> i < block_size * gridDim ->
     st.1 !!! i =
     wrap bits (PrefixSum.segment elements (block_size * (i / block_size))
                  (i mod block_size))) /\
  (forall i, num_elements <= i \/ block_size * gridDim <= i ->
     st.1 !!! i = elements !!! i) /\
  (forall b, b + 1 < gridDim -> block_size * (b + 1) < num_elements ->
     st.2 !!! b =
     wrap bits (PrefixSum.segment elements (block_size * b) block_size)) /\
  (forall b, gridDim <= b + 1 -> st.2 !!! b = block_sum !!! b).
Proof.
  intros Hpow Hlen Hsum He Hb st.
  assert (E : st = wrap_pair bits
                     (PrefixSumKernels.start_prefix_sum block_size
                        num_elements gridDim elements block_sum)).
  { rewrite <- start_prefix_sum_wrap, !wrap_list_in_range by assumption.
    reflexivity. }
  rewrite E. clear E st.
  destruct (PrefixSumKernels.start_prefix_sum_sums block_size h num_elements
              gridDim elements block_sum Hpow Hlen Hsum)
    as (L1 & L2 & H1 & H2 & H3 & H4).
  unfold wrap_pair. cbn [fst snd]. rewrite !wrap_list_length.
  split; [exact L1|]. split; [exact L2|].
  split; [|split; [|split]].
  - intros i Hi Hg. rewrite wrap_list_lookup, H1 by assumption. reflexivity.
  - intros i Hi. rewrite wrap_list_lookup, H2 by assumption.
    apply in_range_lookup. exact He.
  - intros b Hb1 Hb2. rewrite wrap_list_lookup, H3 by assumption.
    reflexivity.
  - intros b Hb1. rewrite wrap_list_lookup, H4 by assumption.
    apply in_range_lookup. exact Hb.
Qed.

(** [X3].  [start_prefix_sum] followed by [finalize_prefix_sum], with a
    block size of [2^h], on values of [bits] bits: entry [i] below
    [num_elements] becomes the sum of the entries before it modulo
    [2^bits] (the exclusive prefix sum), the rest of the array is left as
    it was. *)
Theorem prefix_sum_kernels_scan (bits block_size h num_elements gridDim : nat)
    (elements block_sum : list nat) :
  block_size = 2 ^ h ->
  num_elements <= length elements ->
  gridDim - 1 <= length block_sum ->
  in_range bits elements -> in_range bits block_sum ->
  let out := prefix_sum_kernels bits block_size num_elements gridDim elements
               block_sum in
  length out = length elements /\
  (forall i, i < num_elements -> i < block_size * gridDim ->
     out !!! i = wrap bits (sum_list (take i elements))) /\
  (forall i, num_elements <= i \/ block_size * gridDim <= i ->
     out !!! i = elements !!! i).
Proof.
  intros Hpow Hlen Hsum He Hb out.
  assert (E : out = wrap_list bits
                      (PrefixSumKernels.prefix_sum_kernels block_size
                         num_elements gridDim elements block_sum)).
  { rewrite <- prefix_sum_kernels_wrap, !wrap_list_in_range by assumption.
    reflexivity. }
  rewrite E. clear E out.
  destruct (PrefixSumKernels.prefix_sum_kernels_sums block_size h
              num_elements gridDim elements block_sum Hpow Hlen Hsum)
    as (L1 & H1 & H2 & _).
  rewrite wrap_list_length.
  split; [exact L1|]. split.
  - intros i Hi Hg. rewrite wrap_list_lookup, H1 by assumption. reflexivity.
  - intros i Hi. rewrite wrap_list_lookup, H2 by assumption.
    apply in_range_lookup. exact He.
Qed.

(** [X16]. [block_prefix_sum], launched as its [static_assert] asks for
    ([num_warps < warp_size]) on counters of [bits] bits laid out bucket by
    bucket ([counters[num_blocks * bucket + idx]] is the count of block
    [idx]), whatever the shared array [warp_sums] holds when a block
    starts: every counter is replaced by the sum of the counters of the
    blocks before it in its bucket, [totals[bucket]] becomes the sum of all
    counters of the bucket, both modulo [2^bits], and the lengths of the
    arrays and the entries of [totals] behind the buckets stay as they
    are. *)
Theorem block_prefix_sum_scans
    (bits sampleselect_searchtree_height default_block_size warp_size h : nat)
    (warp_sums0 : nat -> list nat) (counters totals : list nat)
    (num_blocks : nat) :
  warp_size = 2 ^ h ->
  0 < SampleSelect.num_warps default_block_size warp_size ->
  SampleSelect.num_warps default_block_size warp_size < warp_size ->
  (forall bucket,
     bucket < SampleSelect.searchtree_width sampleselect_searchtree_height ->
     length (warp_sums0 bucket) =
     SampleSelect.num_warps default_block_size warp_size) ->
  SampleSelect.searchtree_width sampleselect_searchtree_height * num_blocks <=
    length counters ->
  SampleSelect.searchtree_width sampleselect_searchtree_height <=
    length totals ->
  in_range bits counters -> in_range bits totals ->
  let st := block_prefix_sum bits sampleselect_searchtree_height
              default_block_size warp_size warp_sums0 counters totals
              num_blocks in
  let local b idx := counters !!! (num_blocks * b + idx) in
  length st.1 = length counters /\ length st.2 = length totals /\
  (forall b idx,
     b < SampleSelect.searchtree_width sampleselect_searchtree_height ->
     idx < num_blocks ->
     st.1 !!! (num_blocks * b + idx) =
     wrap bits (sum_list (map (local b) (seq 0 idx)))) /\
  (forall b,
     b < SampleSelect.searchtree_width sampleselect_searchtree_height ->
     st.2 !!! b = wrap bits (sum_list (map (local b) (seq 0 num_blocks)))) /\
  (forall q,
     SampleSelect.searchtree_width sampleselect_searchtree_height <= q ->
     st.2 !!! q = totals !!! q).
Proof.
  intros Hpow Hnw _ Hshared Hcnt Htot Hc Ht st local.
  assert (E : st = wrap_pair bits
                     (SampleSelect.block_prefix_sum
                        sampleselect_searchtree_height default_block_size
                        warp_size counters totals num_blocks)).
  { rewrite <- (block_prefix_sum_wrap bits sampleselect_searchtree_height
                  default_block_size warp_size warp_sums0)
      by exact Hshared.
    rewrite !wrap_list_in_range by assumption. reflexivity. }
  rewrite E. clear E st.
  destruct (SampleSelect.block_prefix_sum_spec sampleselect_searchtree_height
              default_block_size warp_size h counters totals num_blocks
              Hpow Hnw Hcnt Htot) as (L1 & L2 & H1 & H2 & H3).
  unfold wrap_pair. cbn [fst snd]. rewrite !wrap_list_length.
  split; [exact L1|]. split; [exact L2|]. split; [|split].
  - intros b idx Hb Hidx. rewrite wrap_list_lookup, H1 by assumption.
    reflexivity.
  - intros b Hb. rewrite wrap_list_lookup, H2 by assumption. reflexivity.
  - intros q Hq. rewrite wrap_list_lookup, H3 by assumption.
    apply in_range_lookup. exact Ht.
Qed.

(** Four lanes on values of two bits: the sums wrap around at four. *)
Lemma subwarp_prefix_sum_scans_witness :
  let st := subwarp_prefix_sum 2 true [3; 1; 2; 1] in
  length st.1 = 2 ^ 2 /\ length st.2 = 2 ^ 2 /\
  forall r, r < 2 ^ 2 ->
    st.1 !!! r = wrap 2 (sum_list (take (S r) [3; 1; 2; 1])) /\
    st.2 !!! r = wrap 2 (sum_list [3; 1; 2; 1]).
Proof.
  apply (subwarp_prefix_sum_scans 2 [3; 1; 2; 1] 2 true);
    [reflexivity|repeat constructor; simpl; lia].
Defined.

(** Two blocks of four threads over six elements of three bits. *)
Lemma start_prefix_sum_blocks_witness :
  let st := start_prefix_sum 3 4 6 2 [3; 1; 4; 1; 5; 7] [7] in
  length st.1 = 6 /\ length st.2 = 1 /\
  (forall i, i < 6 -> i < 4 * 2 ->
     st.1 !!! i =
     wrap 3 (PrefixSum.segment [3; 1; 4; 1; 5; 7] (4 * (i / 4)) (i mod 4))) /\
  (forall i, 6 <= i \/ 4 * 2 <= i ->
     st.1 !!! i = [3; 1; 4; 1; 5; 7] !!! i) /\
  (forall b, b + 1 < 2 -> 4 * (b + 1) < 6 ->
     st.2 !!! b = wrap 3 (PrefixSum.segment [3; 1; 4; 1; 5; 7] (4 * b) 4)) /\
  (forall b, 2 <= b + 1 -> st.2 !!! b = [7] !!! b).
Proof.
  apply (start_prefix_sum_blocks 3 4 2 6 2 [3; 1; 4; 1; 5; 7] [7]);
    [reflexivity | simpl; lia | simpl; lia
     | repeat constructor; simpl; lia | repeat constructor; simpl; lia].
Defined.

Lemma prefix_sum_kernels_scan_witness :
  let out := prefix_sum_kernels 3 4 6 2 [3; 1; 4; 1; 5; 7] [7] in
  length out = 6 /\
  (forall i, i < 6 -> i < 4 * 2 ->
     out !!! i = wrap 3 (sum_list (take i [3; 1; 4; 1; 5; 7]))) /\
  (forall i, 6 <= i \/ 4 * 2 <= i -> out !!! i = [3; 1; 4; 1; 5; 7] !!! i).
Proof.
  apply (prefix_sum_kernels_scan 3 4 2 6 2 [3; 1; 4; 1; 5; 7] [7]);
    [reflexivity | simpl; lia | simpl; lia
     | repeat constructor; simpl; lia | repeat constructor; simpl; lia].
Defined.

(** Two buckets, three blocks, a block of two warps of four lanes, counters
    of three bits; the shared array starts with what was left in it. *)
Lemma block_prefix_sum_scans_witness :
  let st := block_prefix_sum 3 1 8 4 (fun _ => [5; 5]) [1; 2; 3; 4; 5; 6]
              [0; 0; 7] 3 in
  let local b idx := [1; 2; 3; 4; 5; 6] !!! (3 * b + idx) in
  length st.1 = 6 /\ length st.2 = 3 /\
  (forall b idx, b < SampleSelect.searchtree_width 1 -> idx < 3 ->
     st.1 !!! (3 * b + idx) = wrap 3 (sum_list (map (local b) (seq 0 idx)))) /\
  (forall b, b < SampleSelect.searchtree_width 1 ->
     st.2 !!! b = wrap 3 (sum_list (map (local b) (seq 0 3)))) /\
  (forall q, SampleSelect.searchtree_width 1 <= q ->
     st.2 !!! q = [0; 0; 7] !!! q).
Proof.
  apply (block_prefix_sum_scans 3 1 8 4 2 (fun _ => [5; 5])
           [1; 2; 3; 4; 5; 6] [0; 0; 7] 3).
  - reflexivity.
  - vm_compute. lia.
  - vm_compute. lia.
  - intros bucket _. reflexivity.
  - vm_compute. lia.
  - vm_compute. lia.
  - repeat constructor; simpl; lia.
  - repeat constructor; simpl; lia.
Defined.

End FixedWidth.
